(** * KODA: a shallow embedding of the text and binary codecs

    The development follows the TypeScript sources: [ast.ts] (values and
    positions), [errors.ts], [encoder.ts], [decoder.ts], [lexer.ts],
    [parser.ts] (the token-array parser and the single-pass [Reader]) and
    [stringify.ts].  Host facilities the sources call (UTF-16 strings,
    binary64 numbers, [TextEncoder]/[TextDecoder], [Array.prototype.sort],
    [parseInt]/[parseFloat], [Number::toString]) are modelled in [Module JS].

    Conventions.
    - A JavaScript string is the list of its UTF-16 code units.
    - A byte is an integer in [0, 256); a [Uint8Array] is a list of bytes.
    - A number is its binary64 bit pattern, NaN being kept canonical.
    - An object is the list of its own enumerable properties in insertion
      order; [obj[key] = v] overwrites in place or appends, except for the
      key [__proto__] as long as the object inherits the accessor of that
      name from [Object.prototype]: the setter replaces the prototype and
      stores nothing.  An object under construction carries that bit of
      its prototype chain ([JSObject], [Object_set]).  ([Object.keys] lists
      integer-like keys first; the statements below do not depend on the
      order of properties.)
    - A thrown exception is the [Throw] outcome of the [result] type; loops
      whose bound is not syntactic run on fuel and report [OutOfFuel] when it
      runs out, which the entry points never do ([decode_total],
      [parse_total], [parseFast_total]). *)

From Stdlib Require Import String Ascii ZArith List Bool Lia Permutation.
Import ListNotations.

Local Open Scope Z_scope.
Set Warnings "-register-all".
Set Default Proof Using "Type".

(* ================================================================== *)
(** * Host model *)
(* ================================================================== *)

Module JS.

(** ** Strings *)

Definition jsstring := list Z.

(** A string literal of the sources, as code units (ASCII text only). *)
Definition lit (s : string) : jsstring :=
  map (fun a => Z.of_nat (nat_of_ascii a)) (list_ascii_of_string s).

Definition code_unit (c : Z) : Prop := 0 <= c < 65536.

Fixpoint str_eqb (a b : jsstring) : bool :=
  match a, b with
  | [], [] => true
  | x :: a', y :: b' => (x =? y) && str_eqb a' b'
  | _, _ => false
  end.

Definition is_high_surrogate (c : Z) : bool := (55296 <=? c) && (c <=? 56319).
Definition is_low_surrogate (c : Z) : bool := (56320 <=? c) && (c <=? 57343).

(** Well-formed UTF-16: every surrogate is half of a pair. *)
Fixpoint well_formed (s : jsstring) : bool :=
  match s with
  | [] => true
  | c :: s' =>
      if is_high_surrogate c then
        match s' with
        | d :: s'' => is_low_surrogate d && well_formed s''
        | [] => false
        end
      else if is_low_surrogate c then false
      else (0 <=? c) && (c <? 65536) && well_formed s'
  end.

(** ** Byte sequences *)

Definition bytes := list Z.

Definition byte (b : Z) : Prop := 0 <= b < 256.

(** [DataView.setUint32(0, n, false)]: four bytes, big-endian, modulo 2^32. *)
Definition setUint32 (n : Z) : bytes :=
  let m := n mod 4294967296 in
  [ m / 16777216; (m / 65536) mod 256; (m / 256) mod 256; m mod 256 ].

(** [DataView.getUint32(off, false)] on the four bytes read. *)
Definition getUint32 (b0 b1 b2 b3 : Z) : Z :=
  ((b0 * 256 + b1) * 256 + b2) * 256 + b3.

(** Big-endian bytes of a 64-bit pattern. *)
Definition be64 (u : Z) : bytes :=
  let m := u mod 18446744073709551616 in
  [ m / 72057594037927936; (m / 281474976710656) mod 256;
    (m / 1099511627776) mod 256; (m / 4294967296) mod 256;
    (m / 16777216) mod 256; (m / 65536) mod 256;
    (m / 256) mod 256; m mod 256 ].

Definition of_be (bs : bytes) : Z :=
  fold_left (fun acc b => acc * 256 + b) bs 0.

(** [DataView.setBigInt64(0, big, false)]: two's complement. *)
Definition setBigInt64 (big : Z) : bytes := be64 big.

(** [DataView.getBigInt64(off, false)] on the eight bytes read. *)
Definition getBigInt64 (bs : bytes) : Z :=
  let u := of_be bs in
  if u <? 9223372036854775808 then u else u - 18446744073709551616.

(** ** Numbers (binary64) *)

Inductive number := F64 (bits : Z).

Definition bits_of (x : number) : Z := let 'F64 b := x in b.

Definition NaN : number := F64 9221120237041090560.       (* 7FF8 0000 0000 0000 *)
Definition Infinity : number := F64 9218868437227405312.  (* 7FF0 0000 0000 0000 *)
Definition negInfinity : number := F64 18442240474082181120.
Definition posZero : number := F64 0.
Definition negZero : number := F64 9223372036854775808.

Definition sign_bit (x : number) : bool := 9223372036854775808 <=? bits_of x.
Definition biased_exp (x : number) : Z := (bits_of x / 4503599627370496) mod 2048.
Definition mantissa (x : number) : Z := bits_of x mod 4503599627370496.

(** A bit pattern a JavaScript number can have: 64 bits, one NaN. *)
Definition canonical (x : number) : Prop :=
  0 <= bits_of x < 18446744073709551616 /\
  (biased_exp x = 2047 -> mantissa x <> 0 -> x = NaN).

Definition num_eqb (x y : number) : bool := bits_of x =? bits_of y.

Definition isNaN (x : number) : bool :=
  (biased_exp x =? 2047) && negb (mantissa x =? 0).
Definition isFinite (x : number) : bool := negb (biased_exp x =? 2047).

(** The finite value is [significand x * 2 ^ exponent x], up to sign. *)
Definition significand (x : number) : Z :=
  if biased_exp x =? 0 then mantissa x else 4503599627370496 + mantissa x.
Definition exponent (x : number) : Z :=
  if biased_exp x =? 0 then -1074 else biased_exp x - 1075.

(** [Number.isInteger]. *)
Definition isInteger (x : number) : bool :=
  isFinite x &&
  ((0 <=? exponent x) ||
   ((significand x) mod (2 ^ (- exponent x)) =? 0)).

(** [BigInt(x)] for an integral [x]; also its mathematical value. *)
Definition toZ (x : number) : Z :=
  let a := if 0 <=? exponent x
           then significand x * 2 ^ exponent x
           else significand x / 2 ^ (- exponent x) in
  if sign_bit x then - a else a.

Definition MAX_SAFE_INTEGER : Z := 9007199254740991.
Definition MIN_SAFE_INTEGER : Z := -9007199254740991.

(** [Number.isInteger(v) && v >= MIN_SAFE_INTEGER && v <= MAX_SAFE_INTEGER]. *)
Definition isSafeInteger (x : number) : bool :=
  isInteger x && (MIN_SAFE_INTEGER <=? toZ x) && (toZ x <=? MAX_SAFE_INTEGER).

(** Rounding of the positive rational [p / q] to the nearest binary64, ties to
    even; the sign is given apart. *)
Definition roundQ (neg : bool) (p q : Z) : number :=
  let s := if neg then 9223372036854775808 else 0 in
  if p <=? 0 then F64 s
  else
    let l0 := Z.log2 p - Z.log2 q in
    let ge := if 0 <=? l0 then q * 2 ^ l0 <=? p else q <=? p * 2 ^ (- l0) in
    let l := if ge then l0 else l0 - 1 in
    let e := Z.max (l - 52) (-1074) in
    let num := if e <? 0 then p * 2 ^ (- e) else p in
    let den := if e <? 0 then q else q * 2 ^ e in
    let m := num / den in
    let r := num - m * den in
    let m' := if (den <? 2 * r) || ((den =? 2 * r) && Z.odd m) then m + 1 else m in
    let b := (e + 1074) * 4503599627370496 + m' in
    if 9218868437227405312 <=? b then F64 (s + 9218868437227405312)
    else F64 (s + b).

(** [Number(big)] for a BigInt, and the number an integer denotes. *)
Definition ofZ (z : Z) : number := roundQ (z <? 0) (Z.abs z) 1.

(** [DataView.setFloat64] / [getFloat64]. *)
Definition setFloat64 (x : number) : bytes := be64 (bits_of x).
Definition getFloat64 (bs : bytes) : number :=
  let x := F64 (of_be bs) in if isNaN x then NaN else x.


(** ** [TextEncoder] and [TextDecoder] *)

Definition utf8_of_code_point (cp : Z) : bytes :=
  if cp <? 128 then [cp]
  else if cp <? 2048 then [192 + cp / 64; 128 + cp mod 64]
  else if cp <? 65536 then
    [224 + cp / 4096; 128 + (cp / 64) mod 64; 128 + cp mod 64]
  else
    [240 + cp / 262144; 128 + (cp / 4096) mod 64;
     128 + (cp / 64) mod 64; 128 + cp mod 64].

Definition REPLACEMENT : bytes := [239; 191; 189].         (* U+FFFD *)

(** [new TextEncoder().encode(s)]: a surrogate pair is one scalar value, a
    lone surrogate is replaced by U+FFFD. *)
Fixpoint encodeUtf8 (s : jsstring) : bytes :=
  match s with
  | [] => []
  | c :: s' =>
      if is_high_surrogate c then
        match s' with
        | d :: s'' =>
            if is_low_surrogate d
            then utf8_of_code_point (65536 + (c - 55296) * 1024 + (d - 56320))
                   ++ encodeUtf8 s''
            else REPLACEMENT ++ encodeUtf8 s'
        | [] => REPLACEMENT
        end
      else if is_low_surrogate c then REPLACEMENT ++ encodeUtf8 s'
      else utf8_of_code_point c ++ encodeUtf8 s'
  end.

Definition is_continuation (b : Z) : bool := (128 <=? b) && (b <=? 191).

(** Range of the second byte after the lead byte [b0] (WHATWG decoder). *)
Definition second_lower (b0 : Z) : Z :=
  if b0 =? 224 then 160 else if b0 =? 240 then 144 else 128.
Definition second_upper (b0 : Z) : Z :=
  if b0 =? 237 then 159 else if b0 =? 244 then 143 else 191.
Definition second_ok (b0 b1 : Z) : bool :=
  (second_lower b0 <=? b1) && (b1 <=? second_upper b0).

Definition cons_opt {A} (x : A) (o : option (list A)) : option (list A) :=
  match o with Some l => Some (x :: l) | None => None end.

(** Strict decoding to scalar values; [None] on any ill-formed sequence. *)
Fixpoint utf8_scalars (bs : bytes) : option (list Z) :=
  match bs with
  | [] => Some []
  | b0 :: r0 =>
      if (0 <=? b0) && (b0 <? 128) then cons_opt b0 (utf8_scalars r0)
      else if (194 <=? b0) && (b0 <=? 223) then
        match r0 with
        | b1 :: r1 =>
            if is_continuation b1
            then cons_opt ((b0 - 192) * 64 + (b1 - 128)) (utf8_scalars r1)
            else None
        | _ => None
        end
      else if (224 <=? b0) && (b0 <=? 239) then
        match r0 with
        | b1 :: b2 :: r2 =>
            if second_ok b0 b1 && is_continuation b2
            then cons_opt ((b0 - 224) * 4096 + (b1 - 128) * 64 + (b2 - 128))
                          (utf8_scalars r2)
            else None
        | _ => None
        end
      else if (240 <=? b0) && (b0 <=? 244) then
        match r0 with
        | b1 :: b2 :: b3 :: r3 =>
            if second_ok b0 b1 && is_continuation b2 && is_continuation b3
            then cons_opt ((b0 - 240) * 262144 + (b1 - 128) * 4096
                           + (b2 - 128) * 64 + (b3 - 128))
                          (utf8_scalars r3)
            else None
        | _ => None
        end
      else None
  end.

Definition utf16_of_code_point (cp : Z) : jsstring :=
  if cp <? 65536 then [cp]
  else [55296 + (cp - 65536) / 1024; 56320 + (cp - 65536) mod 1024].

Definition BOM : Z := 65279.

(** The decoder drops one leading byte order mark ([ignoreBOM] is false). *)
Definition strip_bom (cps : list Z) : list Z :=
  match cps with
  | c :: r => if c =? BOM then r else cps
  | [] => []
  end.

(** [new TextDecoder('utf-8', { fatal: true }).decode(bytes)]; [None] is the
    [TypeError] the host throws. *)
Definition TextDecoder_decode (bs : bytes) : option jsstring :=
  match utf8_scalars bs with
  | Some cps => Some (flat_map utf16_of_code_point (strip_bom cps))
  | None => None
  end.

(** ** [Array.prototype.sort] with a comparator (stable) *)

Section Sort.
Context {A : Type} (cmp : A -> A -> Z).

Fixpoint insert (x : A) (l : list A) : list A :=
  match l with
  | [] => [x]
  | y :: l' => if cmp x y <=? 0 then x :: l else y :: insert x l'
  end.

Fixpoint sort (l : list A) : list A :=
  match l with
  | [] => []
  | x :: l' => insert x (sort l')
  end.
End Sort.

(** ** Character classes of the regular expressions used *)

Definition isDigit (c : Z) : bool := (48 <=? c) && (c <=? 57).          (* [0-9] *)
Definition isLower (c : Z) : bool := (97 <=? c) && (c <=? 122).
Definition isUpper (c : Z) : bool := (65 <=? c) && (c <=? 90).
Definition isAlpha_ (c : Z) : bool := isLower c || isUpper c || (c =? 95). (* [a-zA-Z_] *)
Definition isWord (c : Z) : bool := isAlpha_ c || isDigit c.             (* \w *)
Definition isWordOrDash (c : Z) : bool := isWord c || (c =? 45).         (* [\w\-_] *)
Definition isHex (c : Z) : bool :=
  isDigit c || ((97 <=? c) && (c <=? 102)) || ((65 <=? c) && (c <=? 70)).

Definition hexval (c : Z) : Z :=
  if isDigit c then c - 48
  else if (97 <=? c) && (c <=? 102) then c - 87 else c - 55.

Fixpoint takeWhile {A} (f : A -> bool) (l : list A) : list A :=
  match l with
  | x :: l' => if f x then x :: takeWhile f l' else []
  | [] => []
  end.

Fixpoint dropWhile {A} (f : A -> bool) (l : list A) : list A :=
  match l with
  | x :: l' => if f x then dropWhile f l' else l
  | [] => []
  end.

(** ** Decimal conversions *)

Definition digits_value (ds : jsstring) : Z :=
  fold_left (fun acc d => acc * 10 + (d - 48)) ds 0.

Fixpoint uint_digits (u : Decimal.uint) : jsstring :=
  match u with
  | Decimal.Nil => []
  | Decimal.D0 r => 48 :: uint_digits r
  | Decimal.D1 r => 49 :: uint_digits r
  | Decimal.D2 r => 50 :: uint_digits r
  | Decimal.D3 r => 51 :: uint_digits r
  | Decimal.D4 r => 52 :: uint_digits r
  | Decimal.D5 r => 53 :: uint_digits r
  | Decimal.D6 r => 54 :: uint_digits r
  | Decimal.D7 r => 55 :: uint_digits r
  | Decimal.D8 r => 56 :: uint_digits r
  | Decimal.D9 r => 57 :: uint_digits r
  end.

(** Decimal digits of a natural number, ["0"] for zero. *)
Definition decimal (z : Z) : jsstring :=
  match z with
  | Zpos p => uint_digits (Pos.to_uint p)
  | _ => [48]
  end.

Definition strip_sign (s : jsstring) : bool * jsstring :=
  match s with
  | 45 :: r => (true, r)
  | 43 :: r => (false, r)
  | _ => (false, s)
  end.

(** [parseInt(s, 10)] on a string that starts with its sign or a digit. *)
Definition parseInt (s : jsstring) : number :=
  let '(neg, r) := strip_sign s in
  match takeWhile isDigit r with
  | [] => NaN
  | ds => roundQ neg (digits_value ds) 1
  end.

(** [parseFloat(s)] on a string that starts with its sign, a digit or a dot:
    the longest prefix that is a decimal literal is converted. *)
Definition parseFloat (s : jsstring) : number :=
  let '(neg, r) := strip_sign s in
  let ip := takeWhile isDigit r in
  let r1 := dropWhile isDigit r in
  let '(fp, r2) :=
    match r1 with
    | 46 :: t =>
        match ip, takeWhile isDigit t with
        | [], [] => ([], r1)
        | _, f => (f, dropWhile isDigit t)
        end
    | _ => ([], r1)
    end in
  match ip ++ fp with
  | [] => NaN
  | ds =>
      let ex :=
        match r2 with
        | c :: t =>
            if (c =? 101) || (c =? 69) then
              let '(eneg, t') := strip_sign t in
              match takeWhile isDigit t' with
              | [] => 0
              | ed => if eneg then - digits_value ed else digits_value ed
              end
            else 0
        | [] => 0
        end in
      let e10 := ex - Z.of_nat (length fp) in
      if 0 <=? e10 then roundQ neg (digits_value ds * 10 ^ e10) 1
      else roundQ neg (digits_value ds) (10 ^ (- e10))
  end.

(** *** [Number::toString] *)

(** The value [p / q] scaled by [10 ^ (- d)], as a fraction. *)
Definition scale10 (p q d : Z) : Z * Z :=
  if 0 <=? d then (p, q * 10 ^ d) else (p * 10 ^ (- d), q).

(** Least [n] in the candidates with [p / q < 10 ^ n]. *)
Fixpoint first_exponent (p q : Z) (cands : list Z) (dflt : Z) : Z :=
  match cands with
  | [] => dflt
  | n :: r =>
      let '(p', q') := scale10 p q n in
      if p' <? q' then n else first_exponent p q r dflt
  end.

Definition decimal_exponent (p q : Z) : Z :=
  let l := Z.log2 p - Z.log2 q in
  let lo := ((l - 1) * 30103) / 100000 - 1 in
  first_exponent p q (map (fun i => lo + Z.of_nat i) (seq 0 8)) (lo + 8).

(** A candidate [(s, n)] with [k] digits denotes [s * 10 ^ (n - k)]. *)
Definition denotes (x : number) (k s n : Z) : bool :=
  (10 ^ (k - 1) <=? s) && (s <? 10 ^ k) &&
  num_eqb x (if 0 <=? n - k then roundQ false (s * 10 ^ (n - k)) 1
             else roundQ false s (10 ^ (k - n))).

Definition normalise_candidate (k s n : Z) : Z * Z :=
  if s =? 10 ^ k then (10 ^ (k - 1), n + 1) else (s, n).

(** The shortest digit string [s] (with [k] digits) and exponent [n] that
    denote the positive finite [x = p / q]; the closest to [x] if several. *)
Fixpoint shortest (x : number) (p q n : Z) (ks : list Z) : Z * Z * Z :=
  match ks with
  | [] => (17, 0, n)
  | k :: r =>
      let '(p', q') := scale10 p q (n - k) in
      let lo := p' / q' in
      let '(s1, n1) := normalise_candidate k lo n in
      let '(s2, n2) := normalise_candidate k (lo + 1) n in
      let ok1 := denotes x k s1 n1 in
      let ok2 := denotes x k s2 n2 in
      let dlo := p' - lo * q' in
      let dhi := (lo + 1) * q' - p' in
      if ok1 && ok2 then
        if (dlo <? dhi) || ((dlo =? dhi) && Z.even lo) then (k, s1, n1) else (k, s2, n2)
      else if ok1 then (k, s1, n1)
      else if ok2 then (k, s2, n2)
      else shortest x p q n r
  end.

Definition zeros (n : Z) : jsstring := repeat 48 (Z.to_nat n).

(** [Number::toString(x)], radix 10. *)
Definition numberToString (x : number) : jsstring :=
  if isNaN x then lit "NaN"
  else if significand x =? 0 then lit "0"
  else if negb (isFinite x) then
    (if sign_bit x then lit "-Infinity" else lit "Infinity")
  else
    let e := exponent x in
    let p := if 0 <=? e then significand x * 2 ^ e else significand x in
    let q := if 0 <=? e then 1 else 2 ^ (- e) in
    let x' := F64 (bits_of x mod 9223372036854775808) in
    let n0 := decimal_exponent p q in
    let '(k, s, n) :=
      shortest x' p q n0 (map (fun i => 1 + Z.of_nat i) (seq 0 17)) in
    let ds := decimal s in
    let body :=
      if (k <=? n) && (n <=? 21) then ds ++ zeros (n - k)
      else if (0 <? n) && (n <=? 21) then
        firstn (Z.to_nat n) ds ++ [46] ++ skipn (Z.to_nat n) ds
      else if (-6 <? n) && (n <=? 0) then
        lit "0." ++ zeros (- n) ++ ds
      else
        let ex := (if 0 <=? n - 1 then [43] else [45]) ++ decimal (Z.abs (n - 1)) in
        match ds with
        | [d] => [d] ++ [101] ++ ex
        | d :: r => [d] ++ [46] ++ r ++ [101] ++ ex
        | [] => []
        end in
    if sign_bit x then 45 :: body else body.

(** [JSON.stringify(x)] of a number. *)
Definition JSON_stringify_number (x : number) : jsstring :=
  if isFinite x then numberToString x else lit "null".

(** Reading a string literal back, for display. *)
Definition show (s : jsstring) : string :=
  string_of_list_ascii (map (fun c => ascii_of_nat (Z.to_nat c)) s).

End JS.

(* ================================================================== *)
(** * ast.ts: values and positions *)
(* ================================================================== *)

Module Ast.
Import JS.

Record SourcePosition := pos { line : Z; column : Z; offset : Z }.

(** [KodaValue]: object, array, string, number, boolean or null. *)
#[local] Unset Elimination Schemes.
Inductive KodaValue :=
| VNull
| VBool (b : bool)
| VNumber (n : number)
| VString (s : jsstring)
| VArray (items : list KodaValue)
| VObject (props : list (jsstring * KodaValue)).
#[local] Set Elimination Schemes.

(** Own properties of an object ([Record<string, KodaValue>]) and entries of
    a [Map<string, _>] are association lists in insertion order. *)
Section Assoc.
Context {V : Type}.

Fixpoint assoc_get (key : jsstring) (o : list (jsstring * V)) : option V :=
  match o with
  | [] => None
  | (k, x) :: r => if str_eqb k key then Some x else assoc_get key r
  end.

(** [obj[key] = v], [map.set(key, v)]. *)
Fixpoint assoc_set (key : jsstring) (v : V) (o : list (jsstring * V))
  : list (jsstring * V) :=
  match o with
  | [] => [(key, v)]
  | (k, x) :: r =>
      if str_eqb k key then (k, v) :: r else (k, x) :: assoc_set key v r
  end.

(** [Object.prototype.hasOwnProperty.call(obj, key)]. *)
Definition hasOwnProperty (o : list (jsstring * V)) (key : jsstring) : bool :=
  match assoc_get key o with Some _ => true | None => false end.

Definition Object_keys (o : list (jsstring * V)) : list jsstring := map fst o.

End Assoc.

Definition PROTO : jsstring := lit "__proto__".

(** An object created by [{}] while a decoder or a parser fills it: its own
    properties and, of its prototype chain, what an assignment can meet:
    [inherits] says whether a lookup of [__proto__] along the chain ends at
    the accessor of [Object.prototype].  It does for the chain that [{}]
    gives.  The prototype is not seen by [Object.keys], by
    [Object.prototype.hasOwnProperty.call] or by a read of an own property,
    which is all the sources do with the objects they are given. *)
Record JSObject := {
  own :> list (jsstring * KodaValue);
  inherits : bool
}.

Definition emptyObject : JSObject := {| own := []; inherits := true |}.

(** A value as a decoder or a parser returns it to itself: the value and, for
    the time when it becomes a prototype, whether a lookup of [__proto__]
    that starts at the value finds the accessor of [Object.prototype]. *)
Record JSValue := {
  value_of :> KodaValue;
  accessor : bool
}.

(** Strings, numbers and booleans reach the accessor through their wrapper;
    for [null] the field is not looked at. *)
Definition primitive (v : KodaValue) : JSValue :=
  {| value_of := v; accessor := true |}.

(** An array, from [Array.prototype]. *)
Definition ofArray (items : list KodaValue) : JSValue :=
  {| value_of := VArray items; accessor := true |}.

(** An object: an own property [__proto__] hides the chain. *)
Definition ofObject (o : JSObject) : JSValue :=
  {| value_of := VObject (own o);
     accessor := negb (hasOwnProperty (own o) PROTO) && inherits o |}.

(** [obj[key] = v].  An own property of that name is overwritten.  Otherwise
    the name is looked up along the prototype chain, where every property is
    a writable data property but one: [__proto__] of [Object.prototype], an
    accessor whose setter makes an object, an array or [null] the prototype
    of [obj], ignores any other value, and writes no own property.  When the
    lookup does not end there the own property is created. *)
Definition Object_set (key : jsstring) (v : JSValue) (o : JSObject) : JSObject :=
  if str_eqb key PROTO && negb (hasOwnProperty (own o) key) && inherits o then
    match value_of v with
    | VNull => {| own := own o; inherits := false |}
    | VArray _ | VObject _ => {| own := own o; inherits := accessor v |}
    | _ => o
    end
  else {| own := assoc_set key (value_of v) (own o); inherits := inherits o |}.

(** [Set<string>.add]. *)
Definition Set_add (k : jsstring) (set : list jsstring) : list jsstring :=
  if existsb (str_eqb k) set then set else set ++ [k].

Definition len {A} (l : list A) : Z := Z.of_nat (List.length l).

(** [a[i]] inside the bounds. *)
Definition at_ (l : list Z) (i : Z) : Z := nth (Z.to_nat i) l 0.

(** [a.subarray(from, from + n)]. *)
Definition subarray (l : list Z) (from n : Z) : list Z :=
  firstn (Z.to_nat n) (skipn (Z.to_nat from) l).

End Ast.

(* ================================================================== *)
(** * errors.ts *)
(* ================================================================== *)

Module Errors.
Import JS Ast.

(** A message is the template literal of the source: fixed text and the
    interpolated values. *)
Inductive piece :=
| T (text : string)
| N (n : Z)
| S (s : jsstring).

Definition message := list piece.

Inductive exn :=
| KodaParseError (m : message) (position : SourcePosition)
| KodaEncodeError (m : message) (byteOffset : Z)
| KodaDecodeError (m : message) (byteOffset : Z)
| TypeError.                       (* thrown by the host, no location *)

Inductive result (A : Type) :=
| Ok (a : A)
| Throw (e : exn)
| OutOfFuel.

Arguments Ok {A} a.
Arguments Throw {A} e.
Arguments OutOfFuel {A}.

Definition bind {A B} (m : result A) (k : A -> result B) : result B :=
  match m with
  | Ok a => k a
  | Throw e => Throw e
  | OutOfFuel => OutOfFuel
  end.

(** [for (const x of l) body(x)] over a threaded state. *)
Definition forEach {A St} (body : A -> St -> result St)
  : list A -> St -> result St :=
  fix go (l : list A) (s : St) : result St :=
    match l with
    | [] => Ok s
    | x :: r => bind (body x s) (go r)
    end.

End Errors.

Declare Scope koda_scope.
Notation "x <- m ;; k" := (Errors.bind m (fun x => k))
  (at level 61, m at next level, right associativity) : koda_scope.
Notation "' p <- m ;; k" := (Errors.bind m (fun p => k))
  (at level 61, p pattern, m at next level, right associativity) : koda_scope.
Local Open Scope koda_scope.

(* ================================================================== *)
(** * encoder.ts *)
(* ================================================================== *)

Module Encoder.
Import JS Ast Errors.

Definition MAGIC : bytes := [75; 79; 68; 65].            (* "KODA" *)
Definition VERSION : Z := 1.

Module Tag.
Definition Null : Z := 1.
Definition False : Z := 2.
Definition True : Z := 3.
Definition Integer : Z := 4.
Definition Float : Z := 5.
Definition String : Z := 6.
Definition Binary : Z := 7.
Definition Array : Z := 16.
Definition Object : Z := 17.
End Tag.

Definition MIN_SAFE_INT64 : Z := -9223372036854775808.
Definition MAX_SAFE_INT64 : Z := 9223372036854775807.

(** The recursion visits each property together with its key; for an object
    this is [obj[k]] for [k] of [Object.keys(obj)]. *)
Fixpoint collectKeys (value : KodaValue) (set : list jsstring) : list jsstring :=
  match value with
  | VArray items => fold_left (fun s v => collectKeys v s) items set
  | VObject props =>
      fold_left (fun s p => collectKeys (snd p) (Set_add (fst p) s)) props set
  | _ => set
  end.

(** The comparator handed to [sort]: first differing byte, then length. *)
Fixpoint compareBytes (aa bb : bytes) : Z :=
  match aa, bb with
  | x :: aa', y :: bb' => if x =? y then compareBytes aa' bb' else x - y
  | _, _ => len aa - len bb
  end.

Definition compareKeys (a b : jsstring) : Z :=
  compareBytes (encodeUtf8 a) (encodeUtf8 b).

Record EncodeOptions := { maxDepth : option Z }.

Definition DEFAULT_MAX_DEPTH : Z := 256.

(** [dictionary.forEach((k, i) => keyToIndex.set(k, i))]. *)
Fixpoint index_keys (dictionary : list jsstring) (i : Z)
  (m : list (jsstring * Z)) : list (jsstring * Z) :=
  match dictionary with
  | [] => m
  | k :: r => index_keys r (i + 1) (assoc_set k i m)
  end.

Section EncodeValue.
Variable maxDepth : Z.
Variable keyToIndex : list (jsstring * Z).

(** The output buffer is the list of bytes written so far; [off] is its
    length. *)
Definition write (b : bytes) (buf : bytes) : bytes := buf ++ b.
Definition writeByte (x : Z) (buf : bytes) : bytes := buf ++ [x].

(** One property of the object loop: index lookup, index, value.  [enc] is
    [encodeValue] applied to [obj[key]]. *)
Definition encodeProperty
  (encoders : list (jsstring * (Z -> bytes -> result bytes)))
  (depth : Z) (key : jsstring) (buf : bytes) : result bytes :=
  match assoc_get key keyToIndex with
  | None => Throw (KodaEncodeError [T "Key not in dictionary"] (len buf))
  | Some idx =>
      match assoc_get key encoders with
      | Some enc => enc (depth + 1) (write (setUint32 idx) buf)
      | None => Throw TypeError
      end
  end.

Fixpoint encodeValue (v : KodaValue) (depth : Z) (buf : bytes) {struct v}
  : result bytes :=
  if maxDepth <? depth then
    Throw (KodaEncodeError [T "Maximum nesting depth exceeded"] (len buf))
  else
    match v with
    | VNull => Ok (writeByte Tag.Null buf)
    | VBool false => Ok (writeByte Tag.False buf)
    | VBool true => Ok (writeByte Tag.True buf)
    | VNumber n =>
        if isSafeInteger n
           && (MIN_SAFE_INT64 <=? toZ n) && (toZ n <=? MAX_SAFE_INT64)
        then Ok (write (setBigInt64 (toZ n)) (writeByte Tag.Integer buf))
        else Ok (write (setFloat64 n) (writeByte Tag.Float buf))
    | VString s =>
        let bytes := encodeUtf8 s in
        Ok (write bytes (write (setUint32 (len bytes)) (writeByte Tag.String buf)))
    | VArray items =>
        forEach (fun item b => encodeValue item (depth + 1) b) items
                (write (setUint32 (len items)) (writeByte Tag.Array buf))
    | VObject props =>
        let encoders := map (fun p => (fst p, encodeValue (snd p))) props in
        let sortedKeys := sort compareKeys (Object_keys props) in
        forEach (encodeProperty encoders depth) sortedKeys
                (write (setUint32 (len sortedKeys)) (writeByte Tag.Object buf))
    end.
End EncodeValue.

Definition dictionary_of (value : KodaValue) : list jsstring :=
  sort compareKeys (collectKeys value []).

Definition header (dictionary : list jsstring) : bytes :=
  MAGIC ++ [VERSION] ++ setUint32 (len dictionary)
    ++ flat_map (fun k => setUint32 (len (encodeUtf8 k)) ++ encodeUtf8 k)
                dictionary.

Definition depthLimit (options : EncodeOptions) : Z :=
  match maxDepth options with Some d => d | None => DEFAULT_MAX_DEPTH end.

Definition encode (value : KodaValue) (options : EncodeOptions) : result bytes :=
  let dictionary := dictionary_of value in
  let keyToIndex := index_keys dictionary 0 [] in
  encodeValue (depthLimit options) keyToIndex value 0 (header dictionary).

Definition defaults : EncodeOptions := {| maxDepth := None |}.

End Encoder.

(* ================================================================== *)
(** * decoder.ts *)
(* ================================================================== *)

Module Decoder.
Import JS Ast Errors.

Definition MAGIC : bytes := [75; 79; 68; 65].
Definition VERSION : Z := 1.

Record DecodeOptions := {
  maxDepth : option Z;
  maxDictionarySize : option Z;
  maxStringLength : option Z
}.

Definition DEFAULT_MAX_DEPTH : Z := 256.
Definition DEFAULT_MAX_DICT : Z := 65536.
Definition DEFAULT_MAX_STRING : Z := 1000000.

Section Decode.
Variable buffer : bytes.
Variables maxDepth maxDict maxStr : Z.

(** A computation reads from the current [offset] and moves it. *)
Definition M (A : Type) := Z -> result (A * Z).

Definition ret {A} (a : A) : M A := fun offset => Ok (a, offset).

Definition mbind {A B} (m : M A) (k : A -> M B) : M B :=
  fun offset =>
    match m offset with
    | Ok (a, offset') => k a offset'
    | Throw e => Throw e
    | OutOfFuel => OutOfFuel
    end.

Definition fail {A} (m : message) : M A :=
  fun offset => Throw (KodaDecodeError m offset).

Definition ensure (n : Z) : M unit :=
  fun offset =>
    if len buffer <? offset + n then fail [T "Truncated input"] offset
    else Ok (tt, offset).

Definition readU8 : M Z :=
  mbind (ensure 1) (fun _ offset => Ok (at_ buffer offset, offset + 1)).

Definition readU32 : M Z :=
  mbind (ensure 4) (fun _ offset =>
    Ok (getUint32 (at_ buffer offset) (at_ buffer (offset + 1))
                  (at_ buffer (offset + 2)) (at_ buffer (offset + 3)),
        offset + 4)).

Definition readI64 : M Z :=
  mbind (ensure 8) (fun _ offset =>
    Ok (getBigInt64 (subarray buffer offset 8), offset + 8)).

Definition readF64 : M number :=
  mbind (ensure 8) (fun _ offset =>
    Ok (getFloat64 (subarray buffer offset 8), offset + 8)).

Definition readBytes (n : Z) : M bytes :=
  mbind (ensure n) (fun _ offset => Ok (subarray buffer offset n, offset + n)).

(** [TextDecoder] with [fatal: true] throws its own [TypeError]. *)
Definition decodeUtf8 (bs : bytes) : M jsstring :=
  fun offset =>
    match TextDecoder_decode bs with
    | Some s => Ok (s, offset)
    | None => Throw TypeError
    end.

(** [for (let i = 0; i < n; i++) acc = body(acc)], by binary recursion on
    the count so that a huge declared count costs nothing until it runs. *)
Fixpoint times_pos {A} (p : positive) (body : A -> M A) (acc : A) : M A :=
  match p with
  | xH => body acc
  | xO p' => mbind (times_pos p' body acc) (times_pos p' body)
  | xI p' =>
      mbind (body acc) (fun a => mbind (times_pos p' body a) (times_pos p' body))
  end.

Definition times {A} (n : Z) (body : A -> M A) (acc : A) : M A :=
  match n with
  | Zpos p => times_pos p body acc
  | _ => ret acc
  end.

Definition checkMagic : M unit :=
  fun offset =>
    if forallb (fun i => at_ buffer (offset + i) =? at_ MAGIC i) [0; 1; 2; 3]
    then Ok (tt, offset + 4)
    else fail [T "Invalid magic number"] offset.

Definition readKey (dictionary : list jsstring) : M (list jsstring) :=
  mbind readU32 (fun keyLen =>
  if maxStr <? keyLen then fail [T "Key string too long"]
  else mbind (readBytes keyLen) (fun keyBytes =>
       mbind (decodeUtf8 keyBytes) (fun key => ret (dictionary ++ [key])))).

Definition readDictionary : M (list jsstring) :=
  mbind readU32 (fun dictLen =>
  if maxDict <? dictLen then fail [T "Dictionary too large"]
  else times dictLen readKey []).

Section DecodeValue.
Variable dictionary : list jsstring.

Definition decodeEntry (decodeChild : M JSValue) (obj : JSObject) : M JSObject :=
  mbind readU32 (fun keyIdx =>
  if len dictionary <=? keyIdx then fail [T "Invalid key index"]
  else
    let key := nth (Z.to_nat keyIdx) dictionary [] in
    mbind decodeChild (fun v => ret (Object_set key v obj))).

Fixpoint decodeValue (fuel : nat) (depth : Z) : M JSValue :=
  match fuel with
  | O => fun _ => OutOfFuel
  | Datatypes.S fuel' =>
      if maxDepth <? depth then fail [T "Maximum nesting depth exceeded"]
      else
        mbind (ensure 1) (fun _ =>
        mbind readU8 (fun tag =>
          if tag =? 1 then ret (primitive VNull)
          else if tag =? 2 then ret (primitive (VBool false))
          else if tag =? 3 then ret (primitive (VBool true))
          else if tag =? 4 then
            mbind readI64 (fun big => ret (primitive (VNumber (ofZ big))))
          else if tag =? 5 then
            mbind readF64 (fun x => ret (primitive (VNumber x)))
          else if tag =? 6 then
            mbind readU32 (fun len_ =>
            if maxStr <? len_ then fail [T "String too long"]
            else mbind (readBytes len_) (fun bs =>
                 mbind (decodeUtf8 bs) (fun s => ret (primitive (VString s)))))
          else if tag =? 7 then
            fail [T "Binary type not supported in this version"]
          else if tag =? 16 then
            mbind readU32 (fun count =>
            mbind (times count
                     (fun arr => mbind (decodeValue fuel' (depth + 1))
                                   (fun v => ret (arr ++ [value_of v]))) [])
                  (fun arr => ret (ofArray arr)))
          else if tag =? 17 then
            mbind readU32 (fun count =>
            mbind (times count
                     (decodeEntry (decodeValue fuel' (depth + 1))) emptyObject)
                  (fun obj => ret (ofObject obj)))
          else fail [T "Unknown type tag: 0x"; N tag]))
  end.
End DecodeValue.

(** Header, dictionary and root value; the offset reached is returned. *)
Definition decodeDocument : M KodaValue :=
  mbind (ensure 5) (fun _ =>
  mbind checkMagic (fun _ =>
  mbind readU8 (fun version =>
  if negb (version =? VERSION) then fail [T "Unsupported version: "; N version]
  else
    mbind readDictionary (fun dictionary =>
    mbind (decodeValue dictionary (Z.to_nat (maxDepth + 1) + 1) 0) (fun value =>
    ret (value_of value)))))).

Definition decodeRoot : M KodaValue :=
  mbind decodeDocument (fun value offset =>
    if negb (offset =? len buffer)
    then fail [T "Trailing bytes after root value"] offset
    else Ok (value, offset)).

(** The whole call: the offset starts at 0 and only the value is returned. *)
Definition run {A} (m : M A) : result A :=
  match m 0 with
  | Ok (a, _) => Ok a
  | Throw e => Throw e
  | OutOfFuel => OutOfFuel
  end.
End Decode.

Definition depthLimit (options : DecodeOptions) : Z :=
  match maxDepth options with Some d => d | None => DEFAULT_MAX_DEPTH end.
Definition dictLimit (options : DecodeOptions) : Z :=
  match maxDictionarySize options with Some d => d | None => DEFAULT_MAX_DICT end.
Definition stringLimit (options : DecodeOptions) : Z :=
  match maxStringLength options with Some d => d | None => DEFAULT_MAX_STRING end.

Definition decode (buffer : bytes) (options : DecodeOptions) : result KodaValue :=
  run (decodeRoot buffer (depthLimit options) (dictLimit options)
                  (stringLimit options)).

Definition defaults : DecodeOptions :=
  {| maxDepth := None; maxDictionarySize := None; maxStringLength := None |}.

End Decoder.

(* ================================================================== *)
(** * lexer.ts *)
(* ================================================================== *)

Module TokenKind.
Inductive t :=
| LBrace | RBrace | LBracket | RBracket | Colon | Comma
| String | Identifier | Integer | Float | True | False | Null | Eof.

Definition eqb (a b : t) : bool :=
  match a, b with
  | LBrace, LBrace | RBrace, RBrace | LBracket, LBracket
  | RBracket, RBracket | Colon, Colon | Comma, Comma | String, String
  | Identifier, Identifier | Integer, Integer | Float, Float
  | True, True | False, False | Null, Null | Eof, Eof => true
  | _, _ => false
  end.

(** The enum is a string enum: a kind prints as its name. *)
Definition name (k : t) : string :=
  match k with
  | LBrace => "LBrace" | RBrace => "RBrace" | LBracket => "LBracket"
  | RBracket => "RBracket" | Colon => "Colon" | Comma => "Comma"
  | String => "String" | Identifier => "Identifier" | Integer => "Integer"
  | Float => "Float" | True => "True" | False => "False" | Null => "Null"
  | Eof => "Eof"
  end.
End TokenKind.

Module Lexer.
Import JS Ast Errors.

(** [value?: string | number]. *)
Inductive TokenValue :=
| NoValue
| Str (s : jsstring)
| Num (n : number).

Record Token := {
  kind : TokenKind.t;
  value : TokenValue;
  start : SourcePosition;
  end_ : SourcePosition
}.

Record LexerOptions := { maxInputLength : option Z }.

Definition DEFAULT_MAX_INPUT_LENGTH : Z := 1000000.

(** The lexer state is the input from [offset] on and the position
    [(line, column, offset)]. *)
Definition cursor := (jsstring * SourcePosition)%type.

(** The position after [advance()] returned [c]. *)
Definition advance (c : Z) (p : SourcePosition) : SourcePosition :=
  if c =? 10 then pos (line p + 1) 1 (offset p + 1)
  else pos (line p) (column p + 1) (offset p + 1).

Definition advanceAll (cs : jsstring) (p : SourcePosition) : SourcePosition :=
  fold_left (fun q c => advance c q) cs p.

Definition fail {A} (m : message) (p : SourcePosition) : result A :=
  Throw (KodaParseError m p).

Definition isSpace (c : Z) : bool :=
  (c =? 32) || (c =? 9) || (c =? 13) || (c =? 10).

(** [while (peek() !== undefined && peek() !== '\n') advance()]. *)
Fixpoint skipLine (s : jsstring) (p : SourcePosition) : cursor :=
  match s with
  | [] => (s, p)
  | c :: s' => if c =? 10 then (s, p) else skipLine s' (advance c p)
  end.

(** The [while (depth > 0)] loop of a multi-line comment. *)
Fixpoint skipBlock (s : jsstring) (p : SourcePosition) (depth : Z)
  : result cursor :=
  match s with
  | [] => fail [T "Unclosed multi-line comment"] p
  | x :: s1 =>
      let p1 := advance x p in
      match s1 with
      | y :: s2 =>
          if (x =? 42) && (y =? 47) then
            if 0 <? depth - 1 then skipBlock s2 (advance y p1) (depth - 1)
            else Ok (s2, advance y p1)
          else if (x =? 47) && (y =? 42) then
            skipBlock s2 (advance y p1) (depth + 1)
          else skipBlock s1 p1 depth
      | [] => skipBlock s1 p1 depth
      end
  end.

Fixpoint skipWhitespaceAndComments (fuel : nat) (s : jsstring)
  (p : SourcePosition) : result cursor :=
  match fuel with
  | O => OutOfFuel
  | Datatypes.S fuel' =>
      match s with
      | [] => Ok (s, p)
      | c :: s1 =>
          if isSpace c then skipWhitespaceAndComments fuel' s1 (advance c p)
          else if c =? 47 then
            match s1 with
            | d :: s2 =>
                let p2 := advance d (advance c p) in
                if d =? 47 then
                  let '(s3, p3) := skipLine s2 p2 in
                  skipWhitespaceAndComments fuel' s3 p3
                else if d =? 42 then
                  '(s3, p3) <- skipBlock s2 p2 1 ;;
                  skipWhitespaceAndComments fuel' s3 p3
                else Ok (s, p)
            | [] => Ok (s, p)
            end
          else Ok (s, p)
      end
  end.

(** The four hexadecimal digits after [\u]; the result is the code unit, the
    input left and the position, or the failure of the first bad step. *)
Definition readHex4 (s : jsstring) (p : SourcePosition)
  : result (Z * nat * SourcePosition) :=
  let step (st : result (Z * nat * SourcePosition)) (i : nat) :=
    '(acc, n, q) <- st ;;
    match nth_error s i with
    | None => fail [T "Incomplete \u escape"] q
    | Some h =>
        if isHex h then Ok (acc * 16 + hexval h, Datatypes.S n, advance h q)
        else fail [T "Invalid \u escape"] (advance h q)
    end in
  fold_left step [0%nat; 1%nat; 2%nat; 3%nat] (Ok (0, 0%nat, p)).

(** The body of a quoted string, after the opening quote. *)
Fixpoint readQuotedBody (fuel : nat) (quote : Z) (s : jsstring)
  (p : SourcePosition) (buf : jsstring)
  : result (jsstring * cursor) :=
  match fuel with
  | O => OutOfFuel
  | Datatypes.S fuel' =>
      match s with
      | [] => fail [T "Unclosed string"] p
      | c :: s1 =>
          let p1 := advance c p in
          if c =? quote then Ok (buf, (s1, p1))
          else if c =? 92 then
            match s1 with
            | [] => fail [T "Unclosed string"] p1
            | next :: s2 =>
                let p2 := advance next p1 in
                if next =? quote then readQuotedBody fuel' quote s2 p2 (buf ++ [quote])
                else if next =? 92 then readQuotedBody fuel' quote s2 p2 (buf ++ [92])
                else if next =? 47 then readQuotedBody fuel' quote s2 p2 (buf ++ [47])
                else if next =? 98 then readQuotedBody fuel' quote s2 p2 (buf ++ [8])
                else if next =? 102 then readQuotedBody fuel' quote s2 p2 (buf ++ [12])
                else if next =? 110 then readQuotedBody fuel' quote s2 p2 (buf ++ [10])
                else if next =? 114 then readQuotedBody fuel' quote s2 p2 (buf ++ [13])
                else if next =? 116 then readQuotedBody fuel' quote s2 p2 (buf ++ [9])
                else if next =? 117 then
                  '(u, n, p3) <- readHex4 s2 p2 ;;
                  readQuotedBody fuel' quote (skipn n s2) p3 (buf ++ [u])
                else fail [T "Invalid escape sequence \"; S [next]] p2
            end
          else if (0 <=? c) && (c <=? 31) then
            fail [T "Control character in string"] p1
          else readQuotedBody fuel' quote s1 p1 (buf ++ [c])
      end
  end.

(** [readQuotedString(quote)], on the input at the opening quote. *)
Definition readQuotedString (quote : Z) (s : jsstring) (p : SourcePosition)
  : result (Token * cursor) :=
  match s with
  | [] => fail [T "Unclosed string"] p
  | q :: s1 =>
      '(text, (s2, p2)) <-
        readQuotedBody (List.length s1 + 1) quote s1 (advance q p) [] ;;
      Ok ({| kind := TokenKind.String; value := Str text;
             start := p; end_ := p2 |}, (s2, p2))
  end.

Definition readIdentifierOrKeyword (s : jsstring) (p : SourcePosition)
  : result (Token * cursor) :=
  match s with
  | [] => fail [T "Expected identifier or keyword"] p
  | first :: s1 =>
      if negb (isWord first) && negb (first =? 95)
      then fail [T "Expected identifier or keyword"] (advance first p)
      else
        let more := takeWhile isWordOrDash s1 in
        let raw := first :: more in
        let s2 := dropWhile isWordOrDash s1 in
        let p2 := advanceAll raw p in
        let tok k v := {| kind := k; value := v; start := p; end_ := p2 |} in
        if str_eqb raw (lit "true") then Ok (tok TokenKind.True NoValue, (s2, p2))
        else if str_eqb raw (lit "false") then Ok (tok TokenKind.False NoValue, (s2, p2))
        else if str_eqb raw (lit "null") then Ok (tok TokenKind.Null NoValue, (s2, p2))
        else Ok (tok TokenKind.Identifier (Str raw), (s2, p2))
  end.

(** [n > Number.MAX_SAFE_INTEGER || n < Number.MIN_SAFE_INTEGER] for the
    result of [parseInt], an integer or an infinity. *)
Definition outOfSafeRange (n : number) : bool :=
  (MAX_SAFE_INTEGER <? toZ n) || (toZ n <? MIN_SAFE_INTEGER).

(** The fraction and exponent of [readNumber], from [c = peek()] after the
    integer part; [buf] holds the characters read so far. *)
Definition readNumberTail (start : SourcePosition) (buf : jsstring)
  (s : jsstring) (p : SourcePosition) : result (Token * cursor) :=
  let '(isFloat1, buf1, s1, p1) :=
    match s with
    | c :: r =>
        if c =? 46 then
          let ds := takeWhile isDigit r in
          (true, buf ++ [c] ++ ds, dropWhile isDigit r, advanceAll (c :: ds) p)
        else (false, buf, s, p)
    | [] => (false, buf, s, p)
    end in
  let exponentPart :=
    match s1 with
    | c :: r =>
        if (c =? 101) || (c =? 69) then
          let pc := advance c p1 in
          let '(sg, r1, pg) :=
            match r with
            | g :: r' =>
                if (g =? 43) || (g =? 45) then ([g], r', advance g pc)
                else ([], r, pc)
            | [] => ([], r, pc)
            end in
          match takeWhile isDigit r1 with
          | [] => fail [T "Invalid exponent"] pg
          | ds => Ok (true, buf1 ++ [c] ++ sg ++ ds, dropWhile isDigit r1,
                      advanceAll ds pg)
          end
        else Ok (isFloat1, buf1, s1, p1)
    | [] => Ok (isFloat1, buf1, s1, p1)
    end in
  '(isFloat, raw, s2, p2) <- exponentPart ;;
  if isFloat : bool then
    let n := parseFloat raw in
    if isNaN n then fail [T "Invalid float"] p2
    else Ok ({| kind := TokenKind.Float; value := Num n; start := start; end_ := p2 |},
             (s2, p2))
  else
    let n := parseInt raw in
    if isNaN n || outOfSafeRange n then fail [T "Integer out of range"] p2
    else Ok ({| kind := TokenKind.Integer; value := Num n; start := start; end_ := p2 |},
             (s2, p2)).

Definition readNumber (s : jsstring) (p : SourcePosition)
  : result (Token * cursor) :=
  let start := p in
  let '(buf, s0, p0) :=
    match s with
    | c :: r => if c =? 45 then ([c], r, advance c p) else ([], s, p)
    | [] => ([], s, p)
    end in
  match s0 with
  | [] => fail [T "Invalid number"] p0
  | c :: s1 =>
      if c =? 48 then
        let p1 := advance c p0 in
        let zero :=
          Ok ({| kind := TokenKind.Integer; value := Num posZero;
                 start := start; end_ := p1 |}, (s1, p1)) in
        match s1 with
        | d :: _ =>
            if (d =? 46) || (d =? 101) || (d =? 69)
            then readNumberTail start (buf ++ [c]) s1 p1
            else if (49 <=? d) && (d <=? 57)
            then fail [T "Invalid number: leading zero"] p1
            else zero
        | [] => zero
        end
      else if (49 <=? c) && (c <=? 57) then
        let ds := takeWhile isDigit s0 in
        readNumberTail start (buf ++ ds) (dropWhile isDigit s0) (advanceAll ds p0)
      else if c =? 46 then
        let p1 := advance c p0 in
        match takeWhile isDigit s1 with
        | [] => fail [T "Invalid number: expected digits after ."] p1
        | ds =>
            let n := parseFloat (buf ++ [c] ++ ds) in
            let p2 := advanceAll ds p1 in
            if isNaN n then fail [T "Invalid float"] p2
            else Ok ({| kind := TokenKind.Float; value := Num n;
                        start := start; end_ := p2 |},
                     (dropWhile isDigit s1, p2))
        end
      else fail [T "Invalid number"] p0
  end.

(** [advance(); emit(kind)]: the token starts and ends after the character. *)
Definition punctuation (k : TokenKind.t) (c : Z) (p : SourcePosition) : Token :=
  {| kind := k; value := NoValue; start := advance c p; end_ := advance c p |}.

(** The main loop of [tokenize]. *)
Fixpoint tokenizeLoop (fuel : nat) (s : jsstring) (p : SourcePosition)
  (tokens : list Token) : result (list Token) :=
  match fuel with
  | O => OutOfFuel
  | Datatypes.S fuel' =>
      '(s1, p1) <- skipWhitespaceAndComments (List.length s + 1) s p ;;
      match s1 with
      | [] =>
          Ok (tokens ++ [{| kind := TokenKind.Eof; value := NoValue;
                            start := p1; end_ := p1 |}])
      | c :: s2 =>
          let punct k :=
            tokenizeLoop fuel' s2 (advance c p1) (tokens ++ [punctuation k c p1]) in
          let read (r : result (Token * cursor)) :=
            '(tok, (s3, p3)) <- r ;;
            tokenizeLoop fuel' s3 p3 (tokens ++ [tok]) in
          if c =? 123 then punct TokenKind.LBrace
          else if c =? 125 then punct TokenKind.RBrace
          else if c =? 91 then punct TokenKind.LBracket
          else if c =? 93 then punct TokenKind.RBracket
          else if c =? 58 then punct TokenKind.Colon
          else if c =? 44 then punct TokenKind.Comma
          else if (c =? 34) || (c =? 39) then read (readQuotedString c s1 p1)
          else if (c =? 45) || isDigit c then read (readNumber s1 p1)
          else if isLower c || isUpper c || (c =? 95)
          then read (readIdentifierOrKeyword s1 p1)
          else fail [T "Unexpected character: "; S [c]] p1
      end
  end.

Definition tokenize (input : jsstring) (options : LexerOptions)
  : result (list Token) :=
  let maxLen :=
    match maxInputLength options with
    | Some n => n
    | None => DEFAULT_MAX_INPUT_LENGTH
    end in
  if maxLen <? len input then
    fail [T "Input exceeds maximum length ("; N (len input); T " > "; N maxLen; T ")"]
         (pos 1 1 0)
  else tokenizeLoop (List.length input + 1) input (pos 1 1 0) [].

End Lexer.

(* ================================================================== *)
(** * parser.ts: the token-array parser *)
(* ================================================================== *)

Module Parser.
Import JS Ast Errors Lexer.

Record ParseOptions := {
  maxDepth : option Z;
  maxInputLength : option Z
}.

Definition DEFAULT_MAX_DEPTH : Z := 256.

(** [while (cond(s)) s = body(s)], on fuel. *)
Fixpoint while {St} (fuel : nat) (cond : St -> bool) (body : St -> result St)
  (s : St) : result St :=
  match fuel with
  | O => OutOfFuel
  | Datatypes.S fuel' =>
      if cond s then s' <- body s ;; while fuel' cond body s' else Ok s
  end.

(** [value as string] and the value a literal token stands for. *)
Definition asString (v : TokenValue) : jsstring :=
  match v with Str s => s | _ => [] end.

Definition asValue (v : TokenValue) : KodaValue :=
  match v with
  | Str s => VString s
  | Num n => VNumber n
  | NoValue => VNull
  end.

Section Parser.
Variable tokens : list Token.
Variable maxDepth : Z.

Definition eof : Token :=
  {| kind := TokenKind.Eof; value := NoValue;
     start := pos 1 1 0; end_ := pos 1 1 0 |}.

(** [this.tokens[this.index] ?? this.tokens[this.tokens.length - 1]]. *)
Definition current (index : nat) : Token :=
  nth index tokens (last tokens eof).

Definition at_kind (index : nat) (k : TokenKind.t) : bool :=
  TokenKind.eqb (kind (current index)) k.

Definition advance (index : nat) : nat :=
  if (index <? List.length tokens - 1)%nat then Datatypes.S index else index.

Definition skipIf (k : TokenKind.t) (index : nat) : nat :=
  if at_kind index k then advance index else index.

Definition fail {A} (m : message) (index : nat) : result A :=
  Throw (KodaParseError m (start (current index))).

Definition expect (k : TokenKind.t) (index : nat) : result nat :=
  if negb (at_kind index k)
  then fail [T "Expected "; T (TokenKind.name k); T ", got ";
             T (TokenKind.name (kind (current index)))] index
  else Ok (advance index).

Definition duplicateKey {A} (key : jsstring) (keyToken : Token) : result A :=
  Throw (KodaParseError [T "Duplicate key: "; S key] (start keyToken)).

Definition isKey (index : nat) : bool :=
  at_kind index TokenKind.Identifier || at_kind index TokenKind.String.

(** One [key (':')? value] pair of an object under construction; the state
    is the object and the token index. *)
Definition parsePair (parseChild : nat -> result (JSValue * nat))
  (st : JSObject * nat) : result (JSObject * nat) :=
  let '(obj, index) := st in
  let keyToken := current index in
  let key := asString (value keyToken) in
  let index1 := skipIf TokenKind.Colon (advance index) in
  '(v, index2) <- parseChild index1 ;;
  if hasOwnProperty obj key then duplicateKey key keyToken
  else Ok (Object_set key v obj, index2).

Fixpoint parseValue (fuel : nat) (depth : Z) (index : nat)
  : result (JSValue * nat) :=
  match fuel with
  | O => OutOfFuel
  | Datatypes.S fuel' =>
      if maxDepth <? depth then
        fail [T "Maximum nesting depth exceeded ("; N maxDepth; T ")"] index
      else
        match kind (current index) with
        | TokenKind.LBrace =>                               (* parseObject *)
            index1 <- expect TokenKind.LBrace index ;;
            '(obj, index2) <-
              while fuel'
                (fun st => negb (at_kind (snd st) TokenKind.RBrace))
                (fun st =>
                   if isKey (snd st) then
                     '(obj, i) <- parsePair (parseValue fuel' (depth + 1)) st ;;
                     Ok (obj, skipIf TokenKind.Comma i)
                   else fail [T "Expected key (identifier or string)"] (snd st))
                (emptyObject, index1) ;;
            index3 <- expect TokenKind.RBrace index2 ;;
            Ok (ofObject obj, index3)
        | TokenKind.LBracket =>                             (* parseArray *)
            index1 <- expect TokenKind.LBracket index ;;
            '(arr, index2) <-
              while fuel'
                (fun st => negb (at_kind (snd st) TokenKind.RBracket))
                (fun st =>
                   '(v, i) <- parseValue fuel' (depth + 1) (snd st) ;;
                   Ok (fst st ++ [value_of v], skipIf TokenKind.Comma i))
                ([], index1) ;;
            index3 <- expect TokenKind.RBracket index2 ;;
            Ok (ofArray arr, index3)
        | TokenKind.String | TokenKind.Identifier
        | TokenKind.Integer | TokenKind.Float =>
            Ok (primitive (asValue (value (current index))), advance index)
        | TokenKind.True => Ok (primitive (VBool true), advance index)
        | TokenKind.False => Ok (primitive (VBool false), advance index)
        | TokenKind.Null => Ok (primitive VNull, advance index)
        | k => fail [T "Unexpected token: "; T (TokenKind.name k)] index
        end
  end.

(** Root-level [key value key value ...] without braces. *)
Definition parseRootObject (fuel : nat) (depth : Z) (index : nat)
  : result (JSValue * nat) :=
  '(obj, index1) <-
    while fuel (fun st => isKey (snd st))
      (parsePair (parseValue fuel (depth + 1))) (emptyObject, index) ;;
  Ok (ofObject obj, index1).

Definition parseDocument (fuel : nat) (index : nat)
  : result (JSValue * nat) :=
  let canBeKey := isKey index in
  let hasMore :=
    (index + 1 <? List.length tokens)%nat
    && negb (TokenKind.eqb (kind (nth (index + 1) tokens eof)) TokenKind.Eof) in
  if canBeKey && hasMore then parseRootObject fuel 0 index
  else parseValue fuel 0 index.
End Parser.

Definition depthLimit (options : ParseOptions) : Z :=
  match maxDepth options with Some d => d | None => DEFAULT_MAX_DEPTH end.

Definition parse (text : jsstring) (options : ParseOptions) : result KodaValue :=
  tokens <- tokenize text {| Lexer.maxInputLength := maxInputLength options |} ;;
  '(value, index) <-
    parseDocument tokens (depthLimit options) (List.length tokens + 2) 0%nat ;;
  _ <- expect tokens TokenKind.Eof index ;;
  Ok (value_of value).

Definition defaults : ParseOptions :=
  {| maxDepth := None; maxInputLength := None |}.

End Parser.

(* ================================================================== *)
(** * parser.ts: the single-pass parser ([parseFast]) *)
(* ================================================================== *)

Module ParseFast.
Import JS Ast Errors.

Definition DEFAULT_MAX_DEPTH : Z := 256.
Definition DEFAULT_MAX_INPUT_LENGTH : Z := 1000000.

(** The fields of [Reader]; [rest] is the input from [pos] on.  The enum [K]
    has the members of [TokenKind]. *)
Record Reader := {
  rest : jsstring;
  at_pos : SourcePosition;            (* line, col, pos *)
  kind : TokenKind.t;
  val : Lexer.TokenValue
}.

Definition cursor := Lexer.cursor.
Definition advance := Lexer.advance.
Definition advanceAll := Lexer.advanceAll.

Definition fail {A} (m : message) (p : SourcePosition) : result A :=
  Throw (KodaParseError m p).

(** [while (depth > 0 && this.pos + 1 < this.len)] and the check after it. *)
Fixpoint skipBlock (s : jsstring) (p : SourcePosition) (depth : Z)
  : result cursor :=
  match s with
  | x :: s1 =>
      match s1 with
      | y :: s2 =>
          let p1 := advance x p in
          if (x =? 42) && (y =? 47) then
            if 0 <? depth - 1 then skipBlock s2 (advance y p1) (depth - 1)
            else Ok (s2, advance y p1)
          else if (x =? 47) && (y =? 42) then
            skipBlock s2 (advance y p1) (depth + 1)
          else skipBlock s1 p1 depth
      | [] => fail [T "Unclosed multi-line comment"] p
      end
  | [] => fail [T "Unclosed multi-line comment"] p
  end.

Fixpoint skipWs (fuel : nat) (s : jsstring) (p : SourcePosition)
  : result cursor :=
  match fuel with
  | O => OutOfFuel
  | Datatypes.S fuel' =>
      match s with
      | [] => Ok (s, p)
      | c :: s1 =>
          if Lexer.isSpace c then skipWs fuel' s1 (advance c p)
          else if c =? 47 then
            match s1 with
            | d :: s2 =>
                let p2 := advance d (advance c p) in
                if d =? 47 then
                  let '(s3, p3) := Lexer.skipLine s2 p2 in
                  skipWs fuel' s3 p3
                else if d =? 42 then
                  '(s3, p3) <- skipBlock s2 p2 1 ;;
                  skipWs fuel' s3 p3
                else Ok (s, p)
            | [] => Ok (s, p)
            end
          else Ok (s, p)
      end
  end.

(** The four characters after [\u]. *)
Definition readHex4 (s : jsstring) (p : SourcePosition)
  : result (Z * nat * SourcePosition) :=
  let step (st : result (Z * nat * SourcePosition)) (i : nat) :=
    '(acc, n, q) <- st ;;
    match nth_error s i with
    | None => fail [T "Invalid \u escape"] q
    | Some h =>
        if isHex h then Ok (acc * 16 + hexval h, Datatypes.S n, advance h q)
        else fail [T "Invalid \u escape"] (advance h q)
    end in
  fold_left step [0%nat; 1%nat; 2%nat; 3%nat] (Ok (0, 0%nat, p)).

(** The loop of [readQuoted], after the opening quote. *)
Fixpoint readQuotedBody (fuel : nat) (quote : Z) (s : jsstring)
  (p : SourcePosition) (buf : jsstring) : result (jsstring * cursor) :=
  match fuel with
  | O => OutOfFuel
  | Datatypes.S fuel' =>
      match s with
      | [] => fail [T "Unclosed string"] p
      | ch :: s1 =>
          let p1 := advance ch p in
          if ch =? quote then Ok (buf, (s1, p1))
          else if ch =? 92 then
            match s1 with
            | [] => fail [T "Unclosed string"] p1
            | next :: s2 =>
                let p2 := advance next p1 in
                if next =? quote then readQuotedBody fuel' quote s2 p2 (buf ++ [quote])
                else if next =? 92 then readQuotedBody fuel' quote s2 p2 (buf ++ [92])
                else if next =? 47 then readQuotedBody fuel' quote s2 p2 (buf ++ [47])
                else if next =? 98 then readQuotedBody fuel' quote s2 p2 (buf ++ [8])
                else if next =? 102 then readQuotedBody fuel' quote s2 p2 (buf ++ [12])
                else if next =? 110 then readQuotedBody fuel' quote s2 p2 (buf ++ [10])
                else if next =? 114 then readQuotedBody fuel' quote s2 p2 (buf ++ [13])
                else if next =? 116 then readQuotedBody fuel' quote s2 p2 (buf ++ [9])
                else if next =? 117 then
                  '(u, n, p3) <- readHex4 s2 p2 ;;
                  readQuotedBody fuel' quote (skipn n s2) p3 (buf ++ [u])
                else readQuotedBody fuel' quote s2 p2 (buf ++ [next])
            end
          else if (0 <=? ch) && (ch <=? 31) then
            fail [T "Control character in string"] p1
          else readQuotedBody fuel' quote s1 p1 (buf ++ [ch])
      end
  end.

Definition readQuoted (quote : Z) (s : jsstring) (p : SourcePosition)
  : result (jsstring * cursor) :=
  match s with
  | [] => fail [T "Unclosed string"] p
  | q :: s1 => readQuotedBody (List.length s1 + 1) quote s1 (advance q p) []
  end.

Definition readNumber (s : jsstring) (p : SourcePosition)
  : result (number * bool * cursor) :=
  let '(sg, s0, p0) :=
    match s with
    | c :: r => if c =? 45 then ([c], r, advance c p) else ([], s, p)
    | [] => ([], s, p)
    end in
  (* the integer part: a single 0, or digits *)
  let intPart : result (bool * jsstring * jsstring * SourcePosition) :=
    let digits :=
      let ds := takeWhile isDigit s0 in
      Ok (false, ds, dropWhile isDigit s0, advanceAll ds p0) in
    match s0 with
    | c :: s1 =>
        if c =? 48 then
          let p1 := advance c p0 in
          match s1 with
          | n :: _ =>
              if (49 <=? n) && (n <=? 57)
              then fail [T "Invalid number: leading zero"] p1
              else Ok ((n =? 46) || (n =? 101) || (n =? 69), [c], s1, p1)
          | [] => Ok (false, [c], s1, p1)
          end
        else digits
    | [] => digits
    end in
  '(isFloat0, ip, s1, p1) <- intPart ;;
  let '(isFloat1, fp, s2, p2) :=
    match s1 with
    | c :: r =>
        if c =? 46 then
          let ds := takeWhile isDigit r in
          (true, c :: ds, dropWhile isDigit r, advanceAll (c :: ds) p1)
        else (isFloat0, [], s1, p1)
    | [] => (isFloat0, [], s1, p1)
    end in
  let '(isFloat, ep, s3, p3) :=
    match s2 with
    | c :: r =>
        if (c =? 101) || (c =? 69) then
          let pc := advance c p2 in
          let '(g, r1, pg) :=
            match r with
            | x :: r' =>
                if (x =? 43) || (x =? 45) then ([x], r', advance x pc)
                else ([], r, pc)
            | [] => ([], r, pc)
            end in
          let ds := takeWhile isDigit r1 in
          (true, [c] ++ g ++ ds, dropWhile isDigit r1, advanceAll ds pg)
        else (isFloat1, [], s2, p2)
    | [] => (isFloat1, [], s2, p2)
    end in
  let raw := sg ++ ip ++ fp ++ ep in
  let num := if isFloat : bool then parseFloat raw else parseInt raw in
  if isNaN num then fail [T "Invalid number"] p3
  else if negb isFloat && Lexer.outOfSafeRange num
  then fail [T "Integer out of range"] p3
  else Ok (num, isFloat, (s3, p3)).

Definition readIdentifier (s : jsstring) (p : SourcePosition)
  : jsstring * cursor :=
  let raw := takeWhile isWordOrDash s in
  (raw, (dropWhile isWordOrDash s, advanceAll raw p)).

Definition readToken (r : Reader) : result Reader :=
  '(s, p) <- skipWs (List.length (rest r) + 1) (rest r) (at_pos r) ;;
  let set k v s' p' := {| rest := s'; at_pos := p'; kind := k; val := v |} in
  match s with
  | [] => Ok (set TokenKind.Eof (val r) s p)
  | c :: s1 =>
      let p1 := advance c p in
      if c =? 123 then Ok (set TokenKind.LBrace (val r) s1 p1)
      else if c =? 125 then Ok (set TokenKind.RBrace (val r) s1 p1)
      else if c =? 91 then Ok (set TokenKind.LBracket (val r) s1 p1)
      else if c =? 93 then Ok (set TokenKind.RBracket (val r) s1 p1)
      else if c =? 58 then Ok (set TokenKind.Colon (val r) s1 p1)
      else if c =? 44 then Ok (set TokenKind.Comma (val r) s1 p1)
      else if (c =? 34) || (c =? 39) then
        '(text, (s2, p2)) <- readQuoted c s p ;;
        Ok (set TokenKind.String (Lexer.Str text) s2 p2)
      else if (c =? 45) || isDigit c then
        '(num, isFloat, (s2, p2)) <- readNumber s p ;;
        Ok (set (if isFloat : bool then TokenKind.Float else TokenKind.Integer)
                (Lexer.Num num) s2 p2)
      else if isLower c || isUpper c || (c =? 95) then
        let '(raw, (s2, p2)) := readIdentifier s p in
        if str_eqb raw (lit "true") then Ok (set TokenKind.True Lexer.NoValue s2 p2)
        else if str_eqb raw (lit "false") then Ok (set TokenKind.False Lexer.NoValue s2 p2)
        else if str_eqb raw (lit "null") then Ok (set TokenKind.Null Lexer.NoValue s2 p2)
        else Ok (set TokenKind.Identifier (Lexer.Str raw) s2 p2)
      else fail [T "Unexpected character"] p
  end.

(** The constructor: [skipWs(); readToken()]. *)
Definition newReader (input : jsstring) : result Reader :=
  '(s, p) <- skipWs (List.length input + 1) input (pos 1 1 0) ;;
  readToken {| rest := s; at_pos := p; kind := TokenKind.Eof; val := Lexer.NoValue |}.

Section Reader.
Variable maxDepth : Z.

Definition failAt {A} (m : message) (r : Reader) : result A :=
  fail m (at_pos r).

Definition isKey (r : Reader) : bool :=
  TokenKind.eqb (kind r) TokenKind.Identifier
  || TokenKind.eqb (kind r) TokenKind.String.

Definition skipIf (k : TokenKind.t) (r : Reader) : result Reader :=
  if TokenKind.eqb (kind r) k then readToken r else Ok r.

Definition parsePair (parseChild : Reader -> result (JSValue * Reader))
  (st : JSObject * Reader) : result (JSObject * Reader) :=
  let '(obj, r) := st in
  let key := Parser.asString (val r) in
  r1 <- readToken r ;;
  r2 <- skipIf TokenKind.Colon r1 ;;
  '(v, r3) <- parseChild r2 ;;
  if hasOwnProperty obj key then failAt [T "Duplicate key: "; S key] r3
  else Ok (Object_set key v obj, r3).

Fixpoint parseValue (fuel : nat) (depth : Z) (r : Reader)
  : result (JSValue * Reader) :=
  match fuel with
  | O => OutOfFuel
  | Datatypes.S fuel' =>
      if maxDepth <? depth then
        failAt [T "Maximum nesting depth exceeded ("; N maxDepth; T ")"] r
      else
        match kind r with
        | TokenKind.LBrace =>                               (* parseObject *)
            r1 <- readToken r ;;
            '(obj, r2) <-
              Parser.while fuel'
                (fun st => negb (TokenKind.eqb (kind (snd st)) TokenKind.RBrace))
                (fun st =>
                   if isKey (snd st) then
                     '(obj, q) <- parsePair (parseValue fuel' (depth + 1)) st ;;
                     q' <- skipIf TokenKind.Comma q ;;
                     Ok (obj, q')
                   else failAt [T "Expected key"] (snd st))
                (emptyObject, r1) ;;
            r3 <- readToken r2 ;;
            Ok (ofObject obj, r3)
        | TokenKind.LBracket =>                             (* parseArray *)
            r1 <- readToken r ;;
            '(arr, r2) <-
              Parser.while fuel'
                (fun st => negb (TokenKind.eqb (kind (snd st)) TokenKind.RBracket))
                (fun st =>
                   '(v, q) <- parseValue fuel' (depth + 1) (snd st) ;;
                   q' <- skipIf TokenKind.Comma q ;;
                   Ok (fst st ++ [value_of v], q'))
                ([], r1) ;;
            r3 <- readToken r2 ;;
            Ok (ofArray arr, r3)
        | TokenKind.String | TokenKind.Identifier
        | TokenKind.Integer | TokenKind.Float =>
            r1 <- readToken r ;; Ok (primitive (Parser.asValue (val r)), r1)
        | TokenKind.True => r1 <- readToken r ;; Ok (primitive (VBool true), r1)
        | TokenKind.False => r1 <- readToken r ;; Ok (primitive (VBool false), r1)
        | TokenKind.Null => r1 <- readToken r ;; Ok (primitive VNull, r1)
        | _ => failAt [T "Unexpected token"] r
        end
  end.

Definition parseRootObject (fuel : nat) (depth : Z) (r : Reader)
  : result (JSValue * Reader) :=
  '(obj, r1) <-
    Parser.while fuel (fun st => isKey (snd st))
      (parsePair (parseValue fuel (depth + 1))) (emptyObject, r) ;;
  Ok (ofObject obj, r1).

(** The look-ahead reads one token and restores the saved fields. *)
Definition parseDocument (fuel : nat) (r : Reader)
  : result (JSValue * Reader) :=
  if isKey r then
    ahead <- readToken r ;;
    if negb (TokenKind.eqb (kind ahead) TokenKind.Eof)
    then parseRootObject fuel 0 r
    else parseValue fuel 0 r
  else parseValue fuel 0 r.

Definition expectEof (r : Reader) : result unit :=
  if negb (TokenKind.eqb (kind r) TokenKind.Eof)
  then failAt [T "Expected end of input"] r
  else Ok tt.
End Reader.

Definition parseFast (text : jsstring) (options : Parser.ParseOptions)
  : result KodaValue :=
  let maxDepth :=
    match Parser.maxDepth options with Some d => d | None => DEFAULT_MAX_DEPTH end in
  let maxLen :=
    match Parser.maxInputLength options with
    | Some n => n
    | None => DEFAULT_MAX_INPUT_LENGTH
    end in
  if maxLen <? len text then
    fail [T "Input exceeds maximum length ("; N (len text); T " > "; N maxLen; T ")"]
         (pos 1 1 0)
  else
    r <- newReader text ;;
    '(value, r') <- parseDocument maxDepth (List.length text + 2) r ;;
    _ <- expectEof r' ;;
    Ok (value_of value).

End ParseFast.

(* ================================================================== *)
(** * stringify.ts *)
(* ================================================================== *)

Module Stringify.
Import JS Ast Errors.

Record StringifyOptions := {
  indent : option jsstring;
  newline : option jsstring
}.

(** [s.toLowerCase()] on the strings [needsQuote] applies it to (ASCII word
    characters and dashes only). *)
Definition toLowerCase (s : jsstring) : jsstring :=
  map (fun c => if isUpper c then c + 32 else c) s.

Definition needsQuote (s : jsstring) : bool :=
  match s with
  | [] => true
  | first :: more =>
      if negb (isWord first) && negb (first =? 95) then true
      else if negb (forallb isWordOrDash more) then true
      else
        let lower := toLowerCase s in
        str_eqb lower (lit "true") || str_eqb lower (lit "false")
        || str_eqb lower (lit "null")
  end.

(** [s.replace(/c/g, rep)] for a single character [c]. *)
Definition replaceChar (c : Z) (rep : jsstring) (s : jsstring) : jsstring :=
  flat_map (fun x => if x =? c then rep else [x]) s.

(** [s.replace(/\b/g, rep)]: in a regular expression [\b] is the word
    boundary assertion, so [rep] is inserted wherever a word character meets
    a non-word character or an end of the string. *)
Fixpoint replaceWordBoundary (rep : jsstring) (prevWord : bool) (s : jsstring)
  : jsstring :=
  match s with
  | [] => if prevWord then rep else []
  | c :: s' =>
      (if xorb prevWord (isWord c) then rep else [])
        ++ c :: replaceWordBoundary rep (isWord c) s'
  end.

Definition escapeDouble (s : jsstring) : jsstring :=
  replaceChar 9 (lit "\t")
    (replaceChar 13 (lit "\r")
      (replaceChar 10 (lit "\n")
        (replaceChar 12 (lit "\f")
          (replaceWordBoundary (lit "\b") false
            (replaceChar 34 [92; 34]
              (replaceChar 92 (lit "\\") s)))))).

Definition quoteKey (key : jsstring) : jsstring :=
  if needsQuote key then [34] ++ escapeDouble key ++ [34] else key.

Definition quoteValueString (s : jsstring) : jsstring :=
  if needsQuote s then [34] ++ escapeDouble s ++ [34] else s.

Definition writeNumber (n : number) : jsstring :=
  if isSafeInteger n then numberToString n else JSON_stringify_number n.

Fixpoint join (sep : jsstring) (l : list jsstring) : jsstring :=
  match l with
  | [] => []
  | [x] => x
  | x :: r => x ++ sep ++ join sep r
  end.

Definition repeatString (s : jsstring) (n : nat) : jsstring :=
  concat (repeat s n).

Section StringifyValue.
Variables indent newline : jsstring.

Definition separator (level : nat) : jsstring :=
  match indent with
  | [] => [32]
  | _ => newline ++ repeatString indent (level + 1)
  end.

Fixpoint stringifyValue (value : KodaValue) (level : nat) : jsstring :=
  match value with
  | VNull => lit "null"
  | VBool true => lit "true"
  | VBool false => lit "false"
  | VNumber n => writeNumber n
  | VString s => quoteValueString s
  | VArray [] => lit "[]"
  | VArray items =>
      let sep := separator level in
      let inner := join sep (map (fun v => stringifyValue v (level + 1)) items) in
      lit "[" ++ sep ++ inner ++ lit " ]"
  | VObject [] => lit "{}"
  | VObject props =>
      let sep := separator level in
      let pairs :=
        map (fun p => quoteKey (fst p) ++ lit ":" ++ lit " "
                        ++ stringifyValue (snd p) (level + 1)) props in
      lit "{" ++ sep ++ join sep pairs ++ lit " }"
  end.
End StringifyValue.

(** Code units [String.prototype.trim] removes. *)
Definition isTrimmed (c : Z) : bool :=
  ((9 <=? c) && (c <=? 13)) || (c =? 32) || (c =? 160) || (c =? 5760)
  || ((8192 <=? c) && (c <=? 8202)) || (c =? 8232) || (c =? 8233)
  || (c =? 8239) || (c =? 8287) || (c =? 12288) || (c =? 65279).

Definition trim (s : jsstring) : jsstring :=
  rev (dropWhile isTrimmed (rev (dropWhile isTrimmed s))).

Definition stringify (value : KodaValue) (options : StringifyOptions) : jsstring :=
  let indent := match indent options with Some i => i | None => [] end in
  let newline := match newline options with Some n => n | None => [10] end in
  trim (stringifyValue indent newline value 0).

Definition defaults : StringifyOptions := {| indent := None; newline := None |}.

End Stringify.

(* ================================================================== *)
(** * Notions the statements are about *)
(* ================================================================== *)

Module Props.
Import JS Ast Errors.

(** Nesting depth of the deepest node of a value: the root is at depth 0 and
    the children of an array or object are one level below it. *)
Fixpoint depth (v : KodaValue) : Z :=
  match v with
  | VArray items => fold_right (fun x acc => Z.max (1 + depth x) acc) 0 items
  | VObject props =>
      fold_right (fun p acc => Z.max (1 + depth (snd p)) acc) 0 props
  | _ => 0
  end.

(** Structural equality: same scalars (numbers by bit pattern), same elements
    in the same order, same properties in any order. *)
Inductive veq : KodaValue -> KodaValue -> Prop :=
| veq_null : veq VNull VNull
| veq_bool : forall b, veq (VBool b) (VBool b)
| veq_number : forall n, veq (VNumber n) (VNumber n)
| veq_string : forall s, veq (VString s) (VString s)
| veq_array : forall xs ys,
    Forall2 veq xs ys -> veq (VArray xs) (VArray ys)
| veq_object : forall ps ps' qs,
    Permutation ps ps' ->
    Forall2 (fun p q => fst p = fst q /\ veq (snd p) (snd q)) ps' qs ->
    veq (VObject ps) (VObject qs).

(** The invariant of object keys: unique within an object (as in any
    JavaScript object) and valid Unicode text. *)
Inductive keys_ok : KodaValue -> Prop :=
| keys_ok_null : keys_ok VNull
| keys_ok_bool : forall b, keys_ok (VBool b)
| keys_ok_number : forall n, keys_ok (VNumber n)
| keys_ok_string : forall s, keys_ok (VString s)
| keys_ok_array : forall items,
    Forall keys_ok items -> keys_ok (VArray items)
| keys_ok_object : forall props,
    NoDup (map fst props) ->
    Forall (fun p => well_formed (fst p) = true /\ keys_ok (snd p)) props ->
    keys_ok (VObject props).

(** Text the binary form carries unchanged within [maxStr] bytes: valid
    Unicode that does not start with a byte order mark. *)
Definition plain_text (maxStr : Z) (s : jsstring) : Prop :=
  well_formed s = true /\ hd 0 s <> BOM /\
  len (encodeUtf8 s) <= maxStr /\ len (encodeUtf8 s) < 4294967296.

(** Values the binary form carries unchanged: numbers other than negative
    zero, plain text, containers whose sizes fit 32 bits, no property named
    [__proto__]. *)
Inductive plain (maxStr : Z) : KodaValue -> Prop :=
| plain_null : plain maxStr VNull
| plain_bool : forall b, plain maxStr (VBool b)
| plain_number : forall n,
    canonical n -> n <> negZero -> plain maxStr (VNumber n)
| plain_string : forall s, plain_text maxStr s -> plain maxStr (VString s)
| plain_array : forall items,
    len items < 4294967296 ->
    Forall (plain maxStr) items -> plain maxStr (VArray items)
| plain_object : forall props,
    len props < 4294967296 ->
    NoDup (map fst props) ->
    Forall (fun p => plain_text maxStr (fst p) /\ plain maxStr (snd p)) props ->
    Forall (fun p => fst p <> PROTO) props ->
    plain maxStr (VObject props).

(** A list in the order of a comparator, as [Array.prototype.sort] leaves
    it. *)
Inductive sorted {A} (cmp : A -> A -> Z) : list A -> Prop :=
| sorted_nil : sorted cmp []
| sorted_cons : forall x l,
    Forall (fun y => cmp x y <= 0) l -> sorted cmp l -> sorted cmp (x :: l).

(** Every object key that occurs in a value, in traversal order. *)
Fixpoint keysOf (v : KodaValue) : list jsstring :=
  match v with
  | VArray items => flat_map keysOf items
  | VObject props => flat_map (fun p => fst p :: keysOf (snd p)) props
  | _ => []
  end.

(** [n] arrays around [v]. *)
Fixpoint nest (n : nat) (v : KodaValue) : KodaValue :=
  match n with
  | O => v
  | Datatypes.S n' => VArray [nest n' v]
  end.

(** A computation of the decoder that reads only below the offset it
    returns: on a longer buffer with the same first bytes it does the same. *)
Definition Local {A} (m : bytes -> Decoder.M A) : Prop :=
  forall buffer extra off a off',
    Forall byte buffer ->
    0 <= off <= len buffer ->
    m buffer off = Ok (a, off') ->
    off <= off' <= len buffer /\ m (buffer ++ extra) off = Ok (a, off').

(** No token spells the key [__proto__]. *)
Definition proto_free (tokens : list Lexer.Token) : Prop :=
  Forall (fun t => Lexer.value t <> Lexer.Str PROTO) tokens.

(** A token list as [tokenize] returns it: [Eof] is its last token, and only
    that one. *)
Definition terminated (tokens : list Lexer.Token) : Prop :=
  exists body e,
    tokens = body ++ [e]
    /\ Forall (fun t => Lexer.kind t <> TokenKind.Eof) body
    /\ Lexer.kind e = TokenKind.Eof.

(** Every value a computation of the decoder returns satisfies [Q]. *)
Definition Returns {A} (m : Decoder.M A) (Q : A -> Prop) : Prop :=
  forall off a off', m off = Ok (a, off') -> Q a.

(** The counted loop of the decoder, unrolled one iteration at a time. *)
Fixpoint times_nat {A} (n : nat) (body : A -> Decoder.M A) (acc : A)
  : Decoder.M A :=
  match n with
  | O => Decoder.ret acc
  | Datatypes.S n' => Decoder.mbind (body acc) (times_nat n' body)
  end.

(** [out] is an encoding of [x] that the decoder reads back wherever it
    stands in a buffer: to a value equal to [x] when the depth limit allows
    it, to a depth error otherwise. *)
Definition Decodes (maxDepth maxStr : Z) (dictionary : list jsstring)
  (x : KodaValue) (out : bytes) : Prop :=
  forall pre post fuel d,
    (1 <= fuel)%nat -> maxDepth - d + 2 <= Z.of_nat fuel ->
    (d + depth x <= maxDepth ->
     exists v',
       Decoder.decodeValue (pre ++ out ++ post) maxDepth maxStr dictionary
         fuel d (len pre) = Ok (v', len pre + len out)
       /\ veq x v')
    /\ (maxDepth < d + depth x ->
        exists off,
          Decoder.decodeValue (pre ++ out ++ post) maxDepth maxStr dictionary
            fuel d (len pre)
          = Throw (KodaDecodeError [T "Maximum nesting depth exceeded"] off)).

(** What the encoder writes for one property and what the decoder needs
    to read it back. *)
Definition entry_of (maxDepth maxStr : Z) (dictionary : list jsstring)
  (props : list (jsstring * KodaValue)) (key : jsstring) (out : bytes) : Prop :=
  exists idx x body,
    out = setUint32 idx ++ body
    /\ 0 <= idx < len dictionary /\ idx < 4294967296
    /\ nth (Z.to_nat idx) dictionary [] = key
    /\ assoc_get key props = Some x
    /\ Decodes maxDepth maxStr dictionary x body.

(** The index map of the encoder agrees with the dictionary the decoder
    holds. *)
Definition indexed (keyToIndex : list (jsstring * Z))
  (dictionary : list jsstring) : Prop :=
  forall k idx,
    assoc_get k keyToIndex = Some idx ->
    0 <= idx < len dictionary /\ idx < 4294967296
    /\ nth (Z.to_nat idx) dictionary [] = k.

End Props.

(* ================================================================== *)
(** * ast.ts: the type guards *)
(* ================================================================== *)

Module Guards.
Import JS Ast.

(** The results of [typeof] on a [KodaValue]. *)
Inductive jstype := TypeObject | TypeString | TypeNumber | TypeBoolean.

Definition jstype_eqb (a b : jstype) : bool :=
  match a, b with
  | TypeObject, TypeObject | TypeString, TypeString
  | TypeNumber, TypeNumber | TypeBoolean, TypeBoolean => true
  | _, _ => false
  end.

(** [typeof v]: ["object"] for objects, arrays and [null]. *)
Definition typeof (v : KodaValue) : jstype :=
  match v with
  | VNull | VArray _ | VObject _ => TypeObject
  | VString _ => TypeString
  | VNumber _ => TypeNumber
  | VBool _ => TypeBoolean
  end.

Definition Array_isArray (v : KodaValue) : bool :=
  match v with VArray _ => true | _ => false end.

(** [v === null]. *)
Definition is_null (v : KodaValue) : bool :=
  match v with VNull => true | _ => false end.

Definition isKodaObject (v : KodaValue) : bool :=
  jstype_eqb (typeof v) TypeObject && negb (is_null v)
  && Bool.eqb (Array_isArray v) false.

Definition isKodaArray (v : KodaValue) : bool := Array_isArray v.

Definition isKodaString (v : KodaValue) : bool := jstype_eqb (typeof v) TypeString.

Definition isKodaNumber (v : KodaValue) : bool := jstype_eqb (typeof v) TypeNumber.

Definition isKodaBoolean (v : KodaValue) : bool := jstype_eqb (typeof v) TypeBoolean.

Definition isKodaNull (v : KodaValue) : bool := is_null v.

End Guards.

(* ================================================================== *)
(** * errors.ts: location and printing of an error *)
(* ================================================================== *)

Module KodaError.
Import JS Ast Errors.

(** The fields of a [KodaError]; [position] and [byteOffset] are optional. *)
Record t := {
  message : Errors.message;
  position : option SourcePosition;
  byteOffset : option Z
}.

(** The getter [location]: the position if there is one, else the byte
    offset if there is one, else the empty string. *)
Definition location (e : t) : Errors.message :=
  match position e with
  | Some p => [T "line "; N (line p); T ", column "; N (column p)]
  | None =>
      match byteOffset e with
      | Some b => [T "byte offset "; N b]
      | None => []
      end
  end.

(** [toString()]: the message, followed by the location in parentheses when
    it is not empty. *)
Definition toString (e : t) : Errors.message :=
  match location e with
  | [] => message e
  | loc => message e ++ [T " ("] ++ loc ++ [T ")"]
  end.

(** The error object behind an exception of the codecs, as their [throw]
    statements build it: a parse error with its position, an encode or
    decode error with its byte offset.  The host's [TypeError] is no
    [KodaError]. *)
Definition of_exn (e : exn) : option t :=
  match e with
  | KodaParseError m p =>
      Some {| message := m; position := Some p; byteOffset := None |}
  | KodaEncodeError m off =>
      Some {| message := m; position := None; byteOffset := Some off |}
  | KodaDecodeError m off =>
      Some {| message := m; position := None; byteOffset := Some off |}
  | TypeError => None
  end.

End KodaError.

(* ================================================================== *)
(** * Further notions for the properties of the codecs *)
(* ================================================================== *)

Module Shape.
Import JS Ast Errors.

(** Every string value that occurs in a value, in traversal order. *)
Fixpoint stringsOf (v : KodaValue) : list jsstring :=
  match v with
  | VString s => [s]
  | VArray items => flat_map stringsOf items
  | VObject props => flat_map (fun p => stringsOf (snd p)) props
  | _ => []
  end.

(** A value whose objects have pairwise distinct keys, all of which satisfy
    [Pk], and whose strings all satisfy [Ps]. *)
Inductive shaped (Pk Ps : jsstring -> Prop) : KodaValue -> Prop :=
| shaped_null : shaped Pk Ps VNull
| shaped_bool : forall b, shaped Pk Ps (VBool b)
| shaped_number : forall n, shaped Pk Ps (VNumber n)
| shaped_string : forall s, Ps s -> shaped Pk Ps (VString s)
| shaped_array : forall items,
    Forall (shaped Pk Ps) items -> shaped Pk Ps (VArray items)
| shaped_object : forall props,
    NoDup (map fst props) ->
    Forall (fun p => Pk (fst p) /\ shaped Pk Ps (snd p)) props ->
    shaped Pk Ps (VObject props).


(** The text a decoded value is made of: keys and strings of well-formed
    UTF-16. *)
Definition decoded_shape : KodaValue -> Prop :=
  shaped (fun k => well_formed k = true) (fun s => well_formed s = true).

(** A Unicode scalar value: a code point that is not a surrogate. *)
Definition scalar (cp : Z) : Prop :=
  0 <= cp < 55296 \/ 57344 <= cp < 1114112.


(** ** Positions and tokens *)

(** Lines and columns are counted from 1. *)
Definition placed (p : SourcePosition) : Prop := 1 <= line p /\ 1 <= column p.

(** A position inside a text of [n] code units, its end included. *)
Definition inside (n : Z) (p : SourcePosition) : Prop :=
  0 <= offset p <= n /\ placed p.

(** The cursor [(s', p')] comes after [(s, p)] in the same text: what was
    read is counted by the offset, the line does not decrease and the column
    stays positive. *)
Definition reaches (s : jsstring) (p : SourcePosition)
  (s' : jsstring) (p' : SourcePosition) : Prop :=
  offset p' + len s' = offset p + len s
  /\ offset p <= offset p'
  /\ line p <= line p'
  /\ (1 <= column p -> 1 <= column p').

(** A failure of a reader started at the cursor [(s, p)]: a
    [KodaParseError] at a position between [p] and the end of the text. *)
Definition stops (s : jsstring) (p : SourcePosition) (e : exn) : Prop :=
  exists m q,
    e = KodaParseError m q
    /\ offset p <= offset q <= offset p + len s
    /\ line p <= line q
    /\ (1 <= column p -> 1 <= column q).

(** The outcome of a reader started at [(s, p)]: a result [x] with the
    cursor reached, which satisfy [Q], or a failure inside the text. *)
Definition tracked {X} (s : jsstring) (p : SourcePosition)
  (Q : X -> jsstring -> SourcePosition -> Prop)
  (r : result (X * Lexer.cursor)) : Prop :=
  match r with
  | Ok (x, (s', p')) => reaches s p s' p' /\ Q x s' p'
  | Throw e => stops s p e
  | OutOfFuel => True
  end.

Definition tracked_cursor (s : jsstring) (p : SourcePosition)
  (r : result Lexer.cursor) : Prop :=
  match r with
  | Ok (s', p') => reaches s p s' p'
  | Throw e => stops s p e
  | OutOfFuel => True
  end.

(** The single-pass reader stands inside a text of [n] code units. *)
Definition reader_at (n : Z) (r : ParseFast.Reader) : Prop :=
  offset (ParseFast.at_pos r) + len (ParseFast.rest r) = n
  /\ 0 <= offset (ParseFast.at_pos r)
  /\ placed (ParseFast.at_pos r).

(** The kind of a token and the value it carries: text for strings and
    identifiers, a number that is not NaN for [Float], the number of a safe
    integer for [Integer] (so neither a fraction nor the negative zero),
    nothing for the others. *)
Definition well_typed (t : Lexer.Token) : Prop :=
  match Lexer.kind t with
  | TokenKind.String | TokenKind.Identifier =>
      exists s, Lexer.value t = Lexer.Str s
  | TokenKind.Float =>
      exists n, Lexer.value t = Lexer.Num n /\ isNaN n = false
  | TokenKind.Integer =>
      exists z, Lexer.value t = Lexer.Num (ofZ z)
                /\ MIN_SAFE_INTEGER <= z <= MAX_SAFE_INTEGER
  | _ => Lexer.value t = Lexer.NoValue
  end.

(** Tokens in the order of the text from offset [from] on, one after the
    other without overlap, the last one ending at offset [n]. *)
Fixpoint laid_out (from n : Z) (tokens : list Lexer.Token) : Prop :=
  match tokens with
  | [] => from = n
  | t :: r =>
      from <= offset (Lexer.start t) <= offset (Lexer.end_ t)
      /\ laid_out (offset (Lexer.end_ t)) n r
  end.

(** The input length limit in force: [options.maxInputLength], or its
    default. *)
Definition inputLimit (options : Parser.ParseOptions) : Z :=
  match Parser.maxInputLength options with
  | Some n => n
  | None => Lexer.DEFAULT_MAX_INPUT_LENGTH
  end.

(** A text made of spaces, tabs, carriage returns and line feeds only. *)
Definition blank (text : jsstring) : Prop := forallb Lexer.isSpace text = true.

(** ** The text of a quoted string *)

(** A character that the lexers accept in what [escapeDouble] writes for it:
    no control character other than the tab, the line feed, the form feed and
    the carriage return, which [escapeDouble] escapes. *)
Definition writable (c : Z) : bool :=
  (32 <=? c) || (c =? 9) || (c =? 10) || (c =? 12) || (c =? 13).

(** The seven passes of [escapeDouble], seen one character at a time: what is
    written for the character [c], *)
Definition escapeChar (c : Z) : jsstring :=
  if c =? 92 then [92; 92]
  else if c =? 34 then [92; 34]
  else if c =? 12 then [92; 102]
  else if c =? 10 then [92; 110]
  else if c =? 13 then [92; 114]
  else if c =? 9 then [92; 116]
  else [c].

(** and the whole text, with a backslash and a [b] wherever a word character
    meets a character that is none, or an end of the string. *)
Fixpoint escaped (prevWord : bool) (s : jsstring) : jsstring :=
  match s with
  | [] => if prevWord then [92; 98] else []
  | c :: s' =>
      (if xorb prevWord (isWord c) then [92; 98] else [])
        ++ escapeChar c ++ escaped (isWord c) s'
  end.

(** The string with a backspace at each of those places. *)
Definition withBackspaces (s : jsstring) : jsstring :=
  Stringify.replaceWordBoundary [8] false s.

(** ** Values that the text form carries *)

(** A string that is written bare, as an identifier; one that is written in
    quotes and holds no word character; and the strings of either kind. *)
Definition bare (s : jsstring) : Prop :=
  Stringify.needsQuote s = false /\ isAlpha_ (hd 0 s) = true.

Definition wordless (s : jsstring) : Prop :=
  Forall (fun c => writable c = true /\ isWord c = false) s.

Definition carried_text (s : jsstring) : Prop := bare s \/ wordless s.

(** A character that would extend a word or a number written before it. *)
Definition continues (c : Z) : bool := isWordOrDash c || (c =? 46).

(** Values made of [null], booleans, safe integers and such strings, in
    arrays and in objects whose keys are such strings, pairwise distinct and
    other than [__proto__]. *)
Inductive carried : KodaValue -> Prop :=
| carried_null : carried VNull
| carried_bool : forall b, carried (VBool b)
| carried_integer : forall z,
    MIN_SAFE_INTEGER <= z <= MAX_SAFE_INTEGER -> carried (VNumber (ofZ z))
| carried_string : forall s, carried_text s -> carried (VString s)
| carried_array : forall items, Forall carried items -> carried (VArray items)
| carried_object : forall props,
    NoDup (map fst props) ->
    Forall (fun p => carried_text (fst p) /\ fst p <> PROTO /\ carried (snd p)) props ->
    carried (VObject props).

(** A token without its span. *)
Definition erase (t : Lexer.Token) : TokenKind.t * Lexer.TokenValue :=
  (Lexer.kind t, Lexer.value t).

(** The tokens of the text of a value: a string is an identifier when it is
    written bare and a string literal when it is quoted. *)
Definition stringToken (s : jsstring) : TokenKind.t * Lexer.TokenValue :=
  (if Stringify.needsQuote s then TokenKind.String else TokenKind.Identifier,
   Lexer.Str s).

Fixpoint tokensOf (v : KodaValue) : list (TokenKind.t * Lexer.TokenValue) :=
  match v with
  | VNull => [(TokenKind.Null, Lexer.NoValue)]
  | VBool b => [(if b then TokenKind.True else TokenKind.False, Lexer.NoValue)]
  | VNumber n => [(TokenKind.Integer, Lexer.Num n)]
  | VString s => [stringToken s]
  | VArray items =>
      (TokenKind.LBracket, Lexer.NoValue) :: flat_map tokensOf items
        ++ [(TokenKind.RBracket, Lexer.NoValue)]
  | VObject props =>
      (TokenKind.LBrace, Lexer.NoValue)
        :: flat_map (fun p => stringToken (fst p) :: (TokenKind.Colon, Lexer.NoValue)
                                :: tokensOf (snd p)) props
        ++ [(TokenKind.RBrace, Lexer.NoValue)]
  end.

(** ** Texts without numbers *)

(** The kinds of the number tokens. *)
Definition numeric (k : TokenKind.t) : bool :=
  match k with TokenKind.Integer | TokenKind.Float => true | _ => false end.

(** A token list without number tokens. *)
Definition number_free (tokens : list Lexer.Token) : Prop :=
  Forall (fun t => numeric (Lexer.kind t) = false) tokens.

(** ** What the lexer has read *)

(** From the input [s] at the position [p], the lexer is at [s'] and [p']
    after the characters in between. *)
Definition advances (s : jsstring) (p : SourcePosition)
  (s' : jsstring) (p' : SourcePosition) : Prop :=
  exists read, s = read ++ s' /\ p' = Lexer.advanceAll read p.

(** The text from the start of a token on. *)
Definition textFrom (text : jsstring) (t : Lexer.Token) : jsstring :=
  skipn (Z.to_nat (offset (Lexer.start t))) text.

(** A text that does not start with a minus sign, or in which the minus sign
    is followed by a digit from 1 to 9. *)
Definition signed_from_one (s : jsstring) : Prop :=
  match s with
  | 45 :: d :: _ => 49 <= d <= 57
  | 45 :: [] => False
  | _ => True
  end.

(** The number literals of a text, seen through its tokens, are of that
    form. *)
Definition plain_numbers (text : jsstring) (tokens : list Lexer.Token) : Prop :=
  Forall (fun t => numeric (Lexer.kind t) = true -> signed_from_one (textFrom text t))
    tokens.

End Shape.

(* ================================================================== *)
(** * Properties *)
(* ================================================================== *)

Import JS Ast Errors Props.


(** ** Lists, lengths and keys *)

Lemma KodaValue_ind (P : KodaValue -> Prop) :
  P VNull ->
  (forall b, P (VBool b)) ->
  (forall n, P (VNumber n)) ->
  (forall s, P (VString s)) ->
  (forall items, Forall P items -> P (VArray items)) ->
  (forall props, Forall (fun p => P (snd p)) props -> P (VObject props)) ->
  forall v, P v.
Proof.
  intros Hnull Hbool Hnum Hstr Harr Hobj.
  fix IH 1.
  intros [ | b | n | s | items | props ].
  - exact Hnull.
  - apply Hbool.
  - apply Hnum.
  - apply Hstr.
  - apply Harr. induction items as [ | x r IHr ]; constructor.
    + apply IH.
    + exact IHr.
  - apply Hobj. induction props as [ | [k x] r IHr ]; constructor.
    + apply IH.
    + exact IHr.
Qed.

Lemma len_nil {A} : len (@nil A) = 0.
Proof. reflexivity. Qed.

Lemma len_cons {A} (x : A) l : len (x :: l) = 1 + len l.
Proof. unfold len. cbn [List.length]. lia. Qed.

Lemma len_app {A} (l1 l2 : list A) : len (l1 ++ l2) = len l1 + len l2.
Proof. unfold len. rewrite length_app. lia. Qed.

Lemma len_nonneg {A} (l : list A) : 0 <= len l.
Proof. unfold len. lia. Qed.

Lemma len_map {A B} (f : A -> B) l : len (map f l) = len l.
Proof. unfold len. now rewrite length_map. Qed.

Lemma str_eqb_refl s : str_eqb s s = true.
Proof. induction s as [ | c s IH ]; cbn; [ reflexivity | ]. now rewrite Z.eqb_refl. Qed.

Lemma str_eqb_eq a b : str_eqb a b = true <-> a = b.
Proof.
  split.
  - revert b. induction a as [ | x a IH ]; intros [ | y b ]; cbn; try discriminate.
    + reflexivity.
    + intros H. apply andb_true_iff in H as [Hxy Hab].
      apply Z.eqb_eq in Hxy. f_equal; auto.
  - intros ->. apply str_eqb_refl.
Qed.

Lemma str_eqb_neq a b : str_eqb a b = false <-> a <> b.
Proof.
  split.
  - intros H E. apply str_eqb_eq in E. congruence.
  - intros H. destruct (str_eqb a b) eqn:E; [ | reflexivity ].
    apply str_eqb_eq in E. contradiction.
Qed.

Lemma assoc_get_in {V} key (o : list (jsstring * V)) x :
  assoc_get key o = Some x -> In (key, x) o.
Proof.
  induction o as [ | [k y] r IH ]; cbn; [ discriminate | ].
  destruct (str_eqb k key) eqn:E.
  - intros [= ->]. apply str_eqb_eq in E. subst. now left.
  - intros H. right. auto.
Qed.

Lemma assoc_get_none {V} key (o : list (jsstring * V)) :
  assoc_get key o = None <-> ~ In key (map fst o).
Proof.
  induction o as [ | [k y] r IH ]; cbn.
  - tauto.
  - destruct (str_eqb k key) eqn:E.
    + apply str_eqb_eq in E. split; [ discriminate | ]. intros H. exfalso. auto.
    + apply str_eqb_neq in E. rewrite IH. tauto.
Qed.

Lemma assoc_get_some {V} key (o : list (jsstring * V)) :
  In key (map fst o) -> exists x, assoc_get key o = Some x.
Proof.
  intros H. destruct (assoc_get key o) eqn:E; [ eauto | ].
  apply assoc_get_none in E. contradiction.
Qed.

Lemma assoc_get_nodup {V} key x (o : list (jsstring * V)) :
  NoDup (map fst o) -> In (key, x) o -> assoc_get key o = Some x.
Proof.
  induction o as [ | [k y] r IH ]; cbn; [ tauto | ].
  intros Hnd [H | H].
  - injection H as -> ->. now rewrite str_eqb_refl.
  - inversion Hnd as [ | ? ? Hk Hr ]; subst.
    destruct (str_eqb k key) eqn:E.
    + apply str_eqb_eq in E. subst. exfalso. apply Hk.
      change key with (fst (key, x)). now apply in_map.
    + auto.
Qed.

Lemma assoc_set_fresh {V} key (v : V) o :
  assoc_get key o = None -> assoc_set key v o = o ++ [(key, v)].
Proof.
  induction o as [ | [k y] r IH ]; cbn; [ reflexivity | ].
  destruct (str_eqb k key); [ discriminate | ].
  intros H. now rewrite IH.
Qed.

Lemma Object_set_other key (v : JSValue) (o : JSObject) :
  key <> PROTO ->
  Object_set key v o
  = {| own := assoc_set key (value_of v) (own o); inherits := inherits o |}.
Proof.
  intros H. unfold Object_set. apply str_eqb_neq in H. now rewrite H.
Qed.

(** An assignment writes the own property, or it is one to [__proto__] that
    leaves the own properties as they are. *)
Lemma Object_set_cases key (v : JSValue) (o : JSObject) :
  (key = PROTO /\ own (Object_set key v o) = own o)
  \/ (own (Object_set key v o) = assoc_set key (value_of v) (own o)
      /\ inherits (Object_set key v o) = inherits o).
Proof.
  unfold Object_set.
  destruct (str_eqb key PROTO && negb (hasOwnProperty o key) && inherits o) eqn:E.
  - left. apply andb_true_iff in E as [E _]. apply andb_true_iff in E as [E _].
    apply str_eqb_eq in E. split; [ exact E | ].
    destruct (value_of v); reflexivity.
  - right. split; reflexivity.
Qed.


Lemma at_app_l buffer extra i :
  0 <= i < len buffer -> at_ (buffer ++ extra) i = at_ buffer i.
Proof.
  unfold at_, len. intros H. apply app_nth1. lia.
Qed.

Lemma subarray_app_l buffer extra off n :
  0 <= off -> off + n <= len buffer ->
  subarray (buffer ++ extra) off n = subarray buffer off n.
Proof.
  unfold subarray, len. intros H0 H1.
  destruct (Z_le_gt_dec n 0) as [Hn | Hn].
  - replace (Z.to_nat n) with 0%nat by lia. reflexivity.
  - rewrite skipn_app.
    replace (Z.to_nat off - List.length buffer)%nat with 0%nat by lia.
    cbn [skipn]. rewrite firstn_app.
    rewrite length_skipn.
    replace (Z.to_nat n - (List.length buffer - Z.to_nat off))%nat with 0%nat by lia.
    cbn [firstn]. now rewrite app_nil_r.
Qed.

Lemma at_byte buffer i :
  Forall byte buffer -> 0 <= i < len buffer -> byte (at_ buffer i).
Proof.
  unfold at_, len. intros H Hi.
  rewrite Forall_forall in H. apply H. apply nth_In. lia.
Qed.

Lemma getUint32_range b0 b1 b2 b3 :
  byte b0 -> byte b1 -> byte b2 -> byte b3 ->
  0 <= getUint32 b0 b1 b2 b3 < 4294967296.
Proof. unfold byte, getUint32. lia. Qed.

(** ** The decoder reads only what it consumes *)

Lemma Local_ret {A} (a : A) : Local (fun _ => Decoder.ret a).
Proof.
  intros buffer extra off x off' _ Hoff H. unfold Decoder.ret in *.
  injection H as <- <-. split; [ lia | reflexivity ].
Qed.

Lemma Local_fail {A} m : Local (fun _ => @Decoder.fail A m).
Proof. intros buffer extra off x off' _ _ H. discriminate. Qed.

(** The continuation needs to be local only on what the first part can
    return; [P] records that. *)
Lemma Local_bind {A B} (P : A -> Prop) (m : bytes -> Decoder.M A)
  (k : bytes -> A -> Decoder.M B) :
  Local m ->
  (forall buffer off a off',
      Forall byte buffer -> 0 <= off <= len buffer ->
      m buffer off = Ok (a, off') -> P a) ->
  (forall a, P a -> Local (fun b => k b a)) ->
  Local (fun b => Decoder.mbind (m b) (k b)).
Proof.
  intros Hm HP Hk buffer extra off b off' Hb Hoff H.
  unfold Decoder.mbind in *.
  destruct (m buffer off) as [ [a off1] | | ] eqn:E; try discriminate.
  destruct (Hm _ extra _ _ _ Hb Hoff E) as [Hr E'].
  rewrite E'.
  destruct (Hk a (HP _ _ _ _ Hb Hoff E) buffer extra off1 b off' Hb ltac:(lia) H)
    as [Hr' H'].
  split; [ lia | exact H' ].
Qed.

Lemma Local_bind' {A B} (m : bytes -> Decoder.M A) (k : bytes -> A -> Decoder.M B) :
  Local m -> (forall a, Local (fun b => k b a)) ->
  Local (fun b => Decoder.mbind (m b) (k b)).
Proof.
  intros Hm Hk. apply Local_bind with (P := fun _ => True); auto.
Qed.

Lemma Local_ensure n : Local (fun b => Decoder.ensure b n).
Proof.
  intros buffer extra off x off' _ Hoff H. unfold Decoder.ensure in *.
  destruct (len buffer <? off + n) eqn:E; [ discriminate | ].
  injection H as <- <-. apply Z.ltb_ge in E.
  split; [ lia | ].
  rewrite len_app. pose proof (len_nonneg extra).
  destruct (len buffer + len extra <? off + n) eqn:E'; [ | reflexivity ].
  apply Z.ltb_lt in E'. lia.
Qed.

Lemma ensure_ok buffer n off x off' :
  Decoder.ensure buffer n off = Ok (x, off') -> off' = off /\ off + n <= len buffer.
Proof.
  unfold Decoder.ensure. destruct (len buffer <? off + n) eqn:E; [ discriminate | ].
  intros [= <- <-]. apply Z.ltb_ge in E. auto.
Qed.

Lemma Local_readU8 : Local Decoder.readU8.
Proof.
  intros buffer extra off a off' Hb Hoff H. unfold Decoder.readU8, Decoder.mbind in *.
  destruct (Decoder.ensure buffer 1 off) as [ [u o1] | | ] eqn:E; try discriminate.
  pose proof (Local_ensure 1 buffer extra off u o1 Hb Hoff E) as [_ E'].
  rewrite E'. apply ensure_ok in E as [-> Hn].
  injection H as <- <-. split; [ lia | ].
  rewrite at_app_l by lia. reflexivity.
Qed.

Lemma Local_readU32 : Local Decoder.readU32.
Proof.
  intros buffer extra off a off' Hb Hoff H. unfold Decoder.readU32, Decoder.mbind in *.
  destruct (Decoder.ensure buffer 4 off) as [ [u o1] | | ] eqn:E; try discriminate.
  pose proof (Local_ensure 4 buffer extra off u o1 Hb Hoff E) as [_ E'].
  rewrite E'. apply ensure_ok in E as [-> Hn].
  injection H as <- <-. split; [ lia | ].
  rewrite !at_app_l by lia. reflexivity.
Qed.

Lemma readU32_range buffer off a off' :
  Forall byte buffer -> 0 <= off <= len buffer ->
  Decoder.readU32 buffer off = Ok (a, off') -> 0 <= a < 4294967296.
Proof.
  intros Hb Hoff H. unfold Decoder.readU32, Decoder.mbind in *.
  destruct (Decoder.ensure buffer 4 off) as [ [u o1] | | ] eqn:E; try discriminate.
  apply ensure_ok in E as [-> Hn]. injection H as <- <-.
  apply getUint32_range; apply at_byte; auto; lia.
Qed.

Lemma Local_readI64 : Local Decoder.readI64.
Proof.
  intros buffer extra off a off' Hb Hoff H. unfold Decoder.readI64, Decoder.mbind in *.
  destruct (Decoder.ensure buffer 8 off) as [ [u o1] | | ] eqn:E; try discriminate.
  pose proof (Local_ensure 8 buffer extra off u o1 Hb Hoff E) as [_ E'].
  rewrite E'. apply ensure_ok in E as [-> Hn].
  injection H as <- <-. split; [ lia | ].
  rewrite subarray_app_l by lia. reflexivity.
Qed.

Lemma Local_readF64 : Local Decoder.readF64.
Proof.
  intros buffer extra off a off' Hb Hoff H. unfold Decoder.readF64, Decoder.mbind in *.
  destruct (Decoder.ensure buffer 8 off) as [ [u o1] | | ] eqn:E; try discriminate.
  pose proof (Local_ensure 8 buffer extra off u o1 Hb Hoff E) as [_ E'].
  rewrite E'. apply ensure_ok in E as [-> Hn].
  injection H as <- <-. split; [ lia | ].
  rewrite subarray_app_l by lia. reflexivity.
Qed.

Lemma Local_readBytes n : 0 <= n -> Local (fun b => Decoder.readBytes b n).
Proof.
  intros Hn0 buffer extra off a off' Hb Hoff H.
  unfold Decoder.readBytes, Decoder.mbind in *.
  destruct (Decoder.ensure buffer n off) as [ [u o1] | | ] eqn:E; try discriminate.
  pose proof (Local_ensure n buffer extra off u o1 Hb Hoff E) as [_ E'].
  rewrite E'. apply ensure_ok in E as [-> Hn].
  injection H as <- <-. split; [ lia | ].
  rewrite subarray_app_l by lia. reflexivity.
Qed.

Lemma Local_decodeUtf8 bs : Local (fun _ => Decoder.decodeUtf8 bs).
Proof.
  intros buffer extra off a off' _ Hoff H. unfold Decoder.decodeUtf8 in *.
  destruct (TextDecoder_decode bs); [ | discriminate ].
  injection H as <- <-. split; [ lia | reflexivity ].
Qed.

Lemma Local_times_pos {A} (body : bytes -> A -> Decoder.M A) p :
  (forall acc, Local (fun b => body b acc)) ->
  forall acc, Local (fun b => Decoder.times_pos p (body b) acc).
Proof.
  intros Hbody. induction p as [ p IH | p IH | ]; intros acc; cbn [Decoder.times_pos].
  - apply Local_bind'; [ apply Hbody | ]. intros a.
    apply Local_bind'; [ apply IH | exact IH ].
  - apply Local_bind'; [ apply IH | exact IH ].
  - apply Hbody.
Qed.

Lemma Local_times {A} (body : bytes -> A -> Decoder.M A) n :
  (forall acc, Local (fun b => body b acc)) ->
  forall acc, Local (fun b => Decoder.times n (body b) acc).
Proof.
  intros Hbody acc. destruct n as [ | p | p ]; cbn [Decoder.times].
  - apply Local_ret.
  - now apply Local_times_pos.
  - apply Local_ret.
Qed.

Lemma Local_if {A} (c : bool) (m1 m2 : bytes -> Decoder.M A) :
  Local m1 -> Local m2 -> Local (fun b => if c then m1 b else m2 b).
Proof. destruct c; auto. Qed.

Lemma Local_checkMagic : Local Decoder.checkMagic.
Proof.
  intros buffer extra off a off' Hb Hoff H. unfold Decoder.checkMagic in *.
  (* the magic check only runs after [ensure 5]; an offset with fewer than
     four bytes left is handled by comparing lengths *)
  destruct (forallb _ _) eqn:E in H; [ | discriminate ].
  injection H as <- <-.
  cbn [forallb] in E. rewrite !andb_true_iff in E.
  destruct E as (E0 & E1 & E2 & E3 & _).
  apply Z.eqb_eq in E0, E1, E2, E3.
  assert (Hlen : off + 4 <= len buffer).
  { unfold at_ in *. cbn in E0, E1, E2, E3.
    destruct (Z_le_gt_dec (off + 4) (len buffer)) as [ | Hgt ]; [ assumption | ].
    exfalso. unfold len in *.
    rewrite Z.add_0_r in E0.
    assert (Hnth : nth (Z.to_nat (off + 3)) buffer 0 = 0).
    { apply nth_overflow. lia. }
    rewrite Hnth in E3. discriminate. }
  split; [ lia | ].
  cbn [forallb]. rewrite !at_app_l by lia.
  rewrite E0, E1, E2, E3. cbn. reflexivity.
Qed.

Lemma Local_decodeEntry dictionary (child : bytes -> Decoder.M JSValue) obj :
  Local child ->
  Local (fun b => Decoder.decodeEntry b dictionary (child b) obj).
Proof.
  intros Hc. unfold Decoder.decodeEntry.
  apply Local_bind'; [ apply Local_readU32 | ]. intros keyIdx.
  apply Local_if; [ apply Local_fail | ].
  apply Local_bind'; [ exact Hc | ]. intros v. apply Local_ret.
Qed.

Lemma Local_decodeValue maxDepth maxStr dictionary fuel :
  forall depth,
    Local (fun b => Decoder.decodeValue b maxDepth maxStr dictionary fuel depth).
Proof.
  induction fuel as [ | fuel IH ]; intros depth; cbn [Decoder.decodeValue].
  - intros buffer extra off a off' _ _ H. discriminate.
  - apply Local_if; [ apply Local_fail | ].
    apply Local_bind'; [ apply Local_ensure | ]. intros _.
    apply Local_bind'; [ apply Local_readU8 | ]. intros tag.
    repeat (apply Local_if; [ first [ apply Local_ret | apply Local_fail | idtac ] | ]).
    + apply Local_bind'; [ apply Local_readI64 | ]. intros big. apply Local_ret.
    + apply Local_bind'; [ apply Local_readF64 | ]. intros x. apply Local_ret.
    + apply Local_bind with (P := fun n => 0 <= n).
      * apply Local_readU32.
      * intros buffer off a off' Hb Hoff H.
        now apply (readU32_range buffer off a off').
      * intros n Hn. apply Local_if; [ apply Local_fail | ].
        apply Local_bind'; [ now apply Local_readBytes | ]. intros bs.
        apply Local_bind'; [ apply Local_decodeUtf8 | ]. intros s. apply Local_ret.
    + apply Local_bind'; [ apply Local_readU32 | ]. intros count.
      apply Local_bind'; [ | intros arr; apply Local_ret ].
      apply (Local_times
               (fun b arr => Decoder.mbind
                  (Decoder.decodeValue b maxDepth maxStr dictionary fuel (depth + 1))
                  (fun v => Decoder.ret (arr ++ [value_of v])))).
      intros arr. apply Local_bind'; [ apply IH | ]. intros v. apply Local_ret.
    + apply Local_bind'; [ apply Local_readU32 | ]. intros count.
      apply Local_bind'; [ | intros obj; apply Local_ret ].
      apply (Local_times
               (fun b obj => Decoder.decodeEntry b dictionary
                  (Decoder.decodeValue b maxDepth maxStr dictionary fuel (depth + 1))
                  obj)).
      intros obj. apply Local_decodeEntry. apply IH.
    + apply Local_fail.
Qed.

Lemma Local_readKey maxStr dictionary :
  Local (fun b => Decoder.readKey b maxStr dictionary).
Proof.
  unfold Decoder.readKey.
  apply Local_bind with (P := fun n => 0 <= n).
  - apply Local_readU32.
  - intros buffer off a off' Hb Hoff H. now apply (readU32_range buffer off a off').
  - intros n Hn. apply Local_if; [ apply Local_fail | ].
    apply Local_bind'; [ now apply Local_readBytes | ]. intros bs.
    apply Local_bind'; [ apply Local_decodeUtf8 | ]. intros s. apply Local_ret.
Qed.

Lemma Local_readDictionary maxDict maxStr :
  Local (fun b => Decoder.readDictionary b maxDict maxStr).
Proof.
  unfold Decoder.readDictionary.
  apply Local_bind'; [ apply Local_readU32 | ]. intros dictLen.
  apply Local_if; [ apply Local_fail | ].
  apply (Local_times (fun b d => Decoder.readKey b maxStr d)).
  intros d. apply Local_readKey.
Qed.

Lemma Local_decodeDocument maxDepth maxDict maxStr :
  Local (fun b => Decoder.decodeDocument b maxDepth maxDict maxStr).
Proof.
  unfold Decoder.decodeDocument.
  apply Local_bind'; [ apply Local_ensure | ]. intros _.
  apply Local_bind'; [ apply Local_checkMagic | ]. intros _.
  apply Local_bind'; [ apply Local_readU8 | ]. intros version.
  apply Local_if; [ apply Local_fail | ].
  apply Local_bind'; [ apply Local_readDictionary | ]. intros dictionary.
  apply Local_bind'; [ apply Local_decodeValue | ]. intros value. apply Local_ret.
Qed.

(** What [decode] returns, from the outcome of [decodeDocument]. *)
Lemma decode_of_document buffer options v off :
  Decoder.decodeDocument buffer (Decoder.depthLimit options)
    (Decoder.dictLimit options) (Decoder.stringLimit options) 0 = Ok (v, off) ->
  Decoder.decode buffer options =
    if off =? len buffer then Ok v
    else Throw (KodaDecodeError [T "Trailing bytes after root value"] off).
Proof.
  intros H. unfold Decoder.decode, Decoder.run, Decoder.decodeRoot, Decoder.mbind.
  rewrite H. destruct (off =? len buffer); reflexivity.
Qed.

Lemma decode_ok_inv buffer options v :
  Decoder.decode buffer options = Ok v ->
  Decoder.decodeDocument buffer (Decoder.depthLimit options)
    (Decoder.dictLimit options) (Decoder.stringLimit options) 0
  = Ok (v, len buffer).
Proof.
  unfold Decoder.decode, Decoder.run, Decoder.decodeRoot, Decoder.mbind.
  destruct (Decoder.decodeDocument _ _ _ _ 0) as [ [w off] | | ]; try discriminate.
  destruct (off =? len buffer) eqn:E; cbn; [ | discriminate ].
  apply Z.eqb_eq in E. intros [= ->]. now subst.
Qed.

(** ** Trailing bytes *)

(** C6.  If decoding of the root value completes before the end of the
    buffer, [decode] fails with [Trailing bytes after root value] at the
    offset reached and returns no value; in particular a valid encoding
    followed by any extra bytes is rejected, at the length of the valid
    encoding. *)
Theorem trailing_bytes_rejected :
  forall buffer options,
    Forall byte buffer ->
    (forall v off,
        Decoder.decodeDocument buffer (Decoder.depthLimit options)
          (Decoder.dictLimit options) (Decoder.stringLimit options) 0
          = Ok (v, off) ->
        off < len buffer ->
        Decoder.decode buffer options
        = Throw (KodaDecodeError [T "Trailing bytes after root value"] off))
    /\ (forall v extra,
           Decoder.decode buffer options = Ok v ->
           extra <> [] ->
           Decoder.decode (buffer ++ extra) options
           = Throw (KodaDecodeError [T "Trailing bytes after root value"]
                      (len buffer))).
Proof.
  intros buffer options Hb. split.
  - intros v off H Hlt. rewrite (decode_of_document _ _ _ _ H).
    destruct (off =? len buffer) eqn:E; [ | reflexivity ].
    apply Z.eqb_eq in E. lia.
  - intros v extra H Hextra. apply decode_ok_inv in H.
    pose proof (len_nonneg buffer) as Hlen.
    destruct (Local_decodeDocument _ _ _ buffer extra 0 v (len buffer) Hb
                ltac:(lia) H) as [_ H'].
    rewrite (decode_of_document _ _ _ _ H').
    rewrite len_app.
    destruct (len buffer =? len buffer + len extra) eqn:E; [ | reflexivity ].
    apply Z.eqb_eq in E. destruct extra as [ | x r ]; [ contradiction | ].
    rewrite len_cons in E. pose proof (len_nonneg r). lia.
Qed.

Lemma trailing_bytes_rejected_witness :
  let buffer := [75; 79; 68; 65; 1; 0; 0; 0; 0; 1] in
  Decoder.decode (buffer ++ [0]) Decoder.defaults
  = Throw (KodaDecodeError [T "Trailing bytes after root value"] 10).
Proof.
  intros buffer.
  assert (Hb : Forall byte buffer).
  { repeat constructor; unfold byte; lia. }
  exact (proj2 (trailing_bytes_rejected buffer Decoder.defaults Hb)
           VNull [0] eq_refl ltac:(discriminate)).
Defined.

(** ** Sorting with a comparator *)

Section SortFacts.
Context {A : Type} (cmp : A -> A -> Z) (P : A -> Prop).

Let le (a b : A) : Prop := cmp a b <= 0.

Hypothesis cmp_total : forall a b, cmp a b <= 0 \/ cmp b a <= 0.
Hypothesis cmp_trans : forall a b c, cmp a b <= 0 -> cmp b c <= 0 -> cmp a c <= 0.
Hypothesis cmp_antisym : forall a b, P a -> P b -> cmp a b <= 0 -> cmp b a <= 0 -> a = b.

Lemma insert_perm x l : Permutation (insert cmp x l) (x :: l).
Proof using Type.
  induction l as [ | y l IH ]; cbn; [ reflexivity | ].
  destruct (cmp x y <=? 0); [ reflexivity | ].
  rewrite IH. apply perm_swap.
Qed.

Lemma sort_perm l : Permutation (sort cmp l) l.
Proof using Type.
  induction l as [ | x l IH ]; cbn; [ reflexivity | ].
  rewrite insert_perm. now constructor.
Qed.

Lemma sort_in x l : In x (sort cmp l) <-> In x l.
Proof using Type.
  split; apply Permutation_in; [ | symmetry ]; apply sort_perm.
Qed.

Lemma sort_length l : List.length (sort cmp l) = List.length l.
Proof using Type. apply Permutation_length, sort_perm. Qed.

Lemma insert_sorted x l : sorted cmp l -> sorted cmp (insert cmp x l).
Proof using cmp_total cmp_trans.
  induction 1 as [ | y l Hy Hl IH ]; cbn.
  - constructor; constructor.
  - destruct (cmp x y <=? 0) eqn:E.
    + apply Z.leb_le in E. constructor.
      * constructor; [ exact E | ].
        eapply Forall_impl; [ | exact Hy ]. intros z Hz. unfold le in *. eauto.
      * now constructor.
    + apply Z.leb_gt in E. constructor; [ | exact IH ].
      assert (Hyx : le y x) by (destruct (cmp_total x y); unfold le; [ lia | assumption ]).
      rewrite Forall_forall. intros z Hz.
      apply (Permutation_in _ (insert_perm x l)) in Hz.
      destruct Hz as [ <- | Hz ]; [ exact Hyx | ].
      rewrite Forall_forall in Hy. auto.
Qed.

Lemma sort_sorted l : sorted cmp (sort cmp l).
Proof using cmp_total cmp_trans.
  induction l as [ | x l IH ]; cbn; [ constructor | now apply insert_sorted ].
Qed.

Lemma sorted_unique l1 l2 :
  sorted cmp l1 -> sorted cmp l2 -> Permutation l1 l2 -> Forall P l1 -> l1 = l2.
Proof using cmp_antisym.
  intros H1. revert l2. induction H1 as [ | x l1 Hx Hl1 IH ]; intros l2 H2 Hp HP.
  - apply Permutation_nil in Hp. now subst.
  - destruct H2 as [ | y l2 Hy Hl2 ].
    + apply Permutation_sym, Permutation_nil in Hp. discriminate.
    + assert (HP2 : Forall P (y :: l2)).
      { rewrite Forall_forall in *. intros z Hz. apply HP.
        eapply Permutation_in; [ symmetry; exact Hp | exact Hz ]. }
      assert (Exy : x = y).
      { assert (Hin1 : In x (y :: l2)) by (eapply Permutation_in; [ exact Hp | now left ]).
        assert (Hin2 : In y (x :: l1))
          by (eapply Permutation_in; [ symmetry; exact Hp | now left ]).
        destruct Hin1 as [ -> | Hin1 ]; [ reflexivity | ].
        destruct Hin2 as [ -> | Hin2 ]; [ reflexivity | ].
        rewrite Forall_forall in Hx, Hy.
        apply cmp_antisym.
        - now inversion HP.
        - now inversion HP2.
        - apply Hx, Hin2.
        - apply Hy, Hin1. }
      subst y. f_equal. apply IH; [ exact Hl2 | | now inversion HP ].
      eapply Permutation_cons_inv, Hp.
Qed.

(** Sorting forgets the order of the input. *)
Lemma sort_unique l1 l2 :
  Permutation l1 l2 -> Forall P l1 -> sort cmp l1 = sort cmp l2.
Proof using cmp_total cmp_trans cmp_antisym.
  intros Hp HP. apply sorted_unique; try apply sort_sorted.
  - rewrite sort_perm, Hp. symmetry. apply sort_perm.
  - rewrite Forall_forall in *. intros x Hx. apply HP. now apply sort_in.
Qed.
End SortFacts.

(** ** The key comparator *)

Lemma compareBytes_total a b :
  Encoder.compareBytes a b <= 0 \/ Encoder.compareBytes b a <= 0.
Proof.
  revert b. induction a as [ | x a IH ]; intros [ | y b ]; cbn [Encoder.compareBytes];
    try (unfold len; cbn [List.length]; lia).
  rewrite (Z.eqb_sym y x). destruct (x =? y) eqn:E; [ apply IH | ].
  apply Z.eqb_neq in E. lia.
Qed.

Lemma compareBytes_trans a b c :
  Encoder.compareBytes a b <= 0 -> Encoder.compareBytes b c <= 0 ->
  Encoder.compareBytes a c <= 0.
Proof.
  revert b c. induction a as [ | x a IH ]; intros [ | y b ] [ | z c ];
    cbn [Encoder.compareBytes]; intros H1 H2;
    try (unfold len in *; cbn [List.length] in *; lia).
  destruct (Z.eqb_spec x y), (Z.eqb_spec y z), (Z.eqb_spec x z);
    subst; try lia; try contradiction.
  eapply IH; eassumption.
Qed.

Lemma compareBytes_antisym a b :
  Encoder.compareBytes a b <= 0 -> Encoder.compareBytes b a <= 0 -> a = b.
Proof.
  revert b. induction a as [ | x a IH ]; intros [ | y b ];
    cbn [Encoder.compareBytes]; intros H1 H2;
    try (unfold len in *; cbn [List.length] in *; lia).
  - reflexivity.
  - rewrite (Z.eqb_sym y x) in H2. destruct (x =? y) eqn:E.
    + apply Z.eqb_eq in E. subst. f_equal. now apply IH.
    + apply Z.eqb_neq in E. lia.
Qed.

(** ** The dictionary *)

Lemma Set_add_in k x set : In x (Set_add k set) <-> x = k \/ In x set.
Proof.
  unfold Set_add. destruct (existsb (str_eqb k) set) eqn:E.
  - split; [ auto | ]. intros [ -> | H ]; [ | exact H ].
    apply existsb_exists in E as (y & Hy & Ey). apply str_eqb_eq in Ey. now subst.
  - rewrite in_app_iff. cbn. intuition.
Qed.

Lemma Set_add_nodup k set : NoDup set -> NoDup (Set_add k set).
Proof.
  intros H. unfold Set_add. destruct (existsb (str_eqb k) set) eqn:E; [ exact H | ].
  apply NoDup_app; [ exact H | constructor; [ intros [] | constructor ] | ].
  intros x Hx [ Hk | [] ]. subst x.
  assert (Ht : existsb (str_eqb k) set = true).
  { apply existsb_exists. exists k. split; [ exact Hx | apply str_eqb_refl ]. }
  congruence.
Qed.

Lemma collectKeys_spec v :
  forall set,
    (forall k, In k (Encoder.collectKeys v set) <-> In k set \/ In k (keysOf v))
    /\ (NoDup set -> NoDup (Encoder.collectKeys v set)).
Proof.
  induction v as [ | b | n | s | items IH | props IH ] using KodaValue_ind;
    intros set; cbn [Encoder.collectKeys keysOf]; try (split; [ intros k; cbn; tauto | auto ]).
  - revert set. induction IH as [ | x r Hx Hr IHr ]; intros set; cbn.
    + split; [ intros k; tauto | auto ].
    + destruct (IHr (Encoder.collectKeys x set)) as [Hin Hnd].
      destruct (Hx set) as [Hin1 Hnd1]. split.
      * intros k. rewrite Hin, Hin1, in_app_iff. tauto.
      * auto.
  - revert set. induction IH as [ | [key x] r Hx Hr IHr ]; intros set; cbn.
    + split; [ intros k; tauto | auto ].
    + cbn in Hx.
      destruct (IHr (Encoder.collectKeys x (Set_add key set))) as [Hin Hnd].
      destruct (Hx (Set_add key set)) as [Hin1 Hnd1]. split.
      * intros k. rewrite Hin, Hin1, Set_add_in, in_app_iff. intuition.
      * intros H. apply Hnd, Hnd1. now apply Set_add_nodup.
Qed.

Lemma index_keys_other k dictionary :
  forall i m, ~ In k dictionary ->
    assoc_get k (Encoder.index_keys dictionary i m) = assoc_get k m.
Proof.
  induction dictionary as [ | k0 r IH ]; intros i m Hk; cbn; [ reflexivity | ].
  rewrite IH by (cbn in Hk; tauto).
  assert (Hne : k0 <> k) by (cbn in Hk; tauto).
  clear - Hne. induction m as [ | [k1 x] m IHm ]; cbn.
  - apply str_eqb_neq in Hne. now rewrite Hne.
  - destruct (str_eqb k1 k0) eqn:E.
    + apply str_eqb_eq in E. subst. cbn.
      apply str_eqb_neq in Hne. now rewrite Hne.
    + cbn. now rewrite IHm.
Qed.

Lemma assoc_get_set_same {V} k (v : V) m : assoc_get k (assoc_set k v m) = Some v.
Proof.
  induction m as [ | [k1 x] m IH ]; cbn.
  - now rewrite str_eqb_refl.
  - destruct (str_eqb k1 k) eqn:E; cbn; rewrite E; [ reflexivity | exact IH ].
Qed.

(** The index a key gets is its position in the (duplicate-free) dictionary. *)
Lemma index_keys_nth dictionary :
  NoDup dictionary ->
  forall j k i m,
    nth_error dictionary j = Some k ->
    assoc_get k (Encoder.index_keys dictionary i m) = Some (i + Z.of_nat j).
Proof.
  induction 1 as [ | k0 r Hk0 Hr IH ]; intros j k i m Hj.
  - destruct j; discriminate.
  - destruct j as [ | j ]; cbn in Hj |- *.
    + injection Hj as ->. rewrite index_keys_other by exact Hk0.
      rewrite assoc_get_set_same. f_equal. lia.
    + rewrite (IH j k (i + 1) _ Hj). f_equal. lia.
Qed.

Lemma index_keys_in dictionary k :
  NoDup dictionary -> In k dictionary ->
  exists idx, assoc_get k (Encoder.index_keys dictionary 0 []) = Some idx
              /\ 0 <= idx < len dictionary
              /\ nth (Z.to_nat idx) dictionary [] = k.
Proof.
  intros Hnd Hin. apply In_nth_error in Hin as [j Hj].
  exists (Z.of_nat j). rewrite (index_keys_nth _ Hnd j k 0 [] Hj).
  assert (Hlt : (j < List.length dictionary)%nat).
  { apply nth_error_Some. congruence. }
  repeat split; try (unfold len; lia).
  rewrite Nat2Z.id. now apply nth_error_nth.
Qed.

Lemma dictionary_nodup v : NoDup (Encoder.dictionary_of v).
Proof.
  unfold Encoder.dictionary_of.
  eapply Permutation_NoDup; [ symmetry; apply sort_perm | ].
  apply collectKeys_spec. constructor.
Qed.

Lemma dictionary_in v k : In k (Encoder.dictionary_of v) <-> In k (keysOf v).
Proof.
  unfold Encoder.dictionary_of. rewrite sort_in.
  destruct (collectKeys_spec v []) as [H _]. rewrite H. cbn. tauto.
Qed.

(** ** UTF-8: decoding inverts encoding on well-formed text *)

Ltac decide_tests :=
  repeat
    (match goal with
     | |- context [Z.eqb ?a ?b] => destruct (Z.eqb_spec a b)
     | |- context [Z.leb ?a ?b] => destruct (Z.leb_spec a b)
     | |- context [Z.ltb ?a ?b] => destruct (Z.ltb_spec a b)
     end;
     try (exfalso; lia));
  cbn [andb orb negb].

Lemma utf8_scalars_cons b0 r0 :
  utf8_scalars (b0 :: r0) =
    if (0 <=? b0) && (b0 <? 128) then cons_opt b0 (utf8_scalars r0)
    else if (194 <=? b0) && (b0 <=? 223) then
      match r0 with
      | b1 :: r1 =>
          if is_continuation b1
          then cons_opt ((b0 - 192) * 64 + (b1 - 128)) (utf8_scalars r1)
          else None
      | _ => None
      end
    else if (224 <=? b0) && (b0 <=? 239) then
      match r0 with
      | b1 :: b2 :: r2 =>
          if second_ok b0 b1 && is_continuation b2
          then cons_opt ((b0 - 224) * 4096 + (b1 - 128) * 64 + (b2 - 128))
                        (utf8_scalars r2)
          else None
      | _ => None
      end
    else if (240 <=? b0) && (b0 <=? 244) then
      match r0 with
      | b1 :: b2 :: b3 :: r3 =>
          if second_ok b0 b1 && is_continuation b2 && is_continuation b3
          then cons_opt ((b0 - 240) * 262144 + (b1 - 128) * 4096
                         + (b2 - 128) * 64 + (b3 - 128))
                        (utf8_scalars r3)
          else None
      | _ => None
      end
    else None.
Proof. reflexivity. Qed.

Lemma utf8_scalars_1 b0 r :
  0 <= b0 < 128 -> utf8_scalars (b0 :: r) = cons_opt b0 (utf8_scalars r).
Proof. intros H. rewrite utf8_scalars_cons. decide_tests. reflexivity. Qed.

Lemma utf8_scalars_2 b0 b1 r :
  194 <= b0 <= 223 -> 128 <= b1 <= 191 ->
  utf8_scalars (b0 :: b1 :: r)
  = cons_opt ((b0 - 192) * 64 + (b1 - 128)) (utf8_scalars r).
Proof.
  intros H0 H1. rewrite utf8_scalars_cons. unfold is_continuation.
  decide_tests. reflexivity.
Qed.

Lemma utf8_scalars_3 b0 b1 b2 r :
  224 <= b0 <= 239 -> 128 <= b1 <= 191 -> 128 <= b2 <= 191 ->
  (b0 = 224 -> 160 <= b1) -> (b0 = 237 -> b1 <= 159) ->
  utf8_scalars (b0 :: b1 :: b2 :: r)
  = cons_opt ((b0 - 224) * 4096 + (b1 - 128) * 64 + (b2 - 128)) (utf8_scalars r).
Proof.
  intros H0 H1 H2 Hl Hu. rewrite utf8_scalars_cons.
  unfold second_ok, second_lower, second_upper, is_continuation.
  decide_tests; reflexivity.
Qed.

Lemma utf8_scalars_4 b0 b1 b2 b3 r :
  240 <= b0 <= 244 -> 128 <= b1 <= 191 -> 128 <= b2 <= 191 -> 128 <= b3 <= 191 ->
  (b0 = 240 -> 144 <= b1) -> (b0 = 244 -> b1 <= 143) ->
  utf8_scalars (b0 :: b1 :: b2 :: b3 :: r)
  = cons_opt ((b0 - 240) * 262144 + (b1 - 128) * 4096 + (b2 - 128) * 64 + (b3 - 128))
             (utf8_scalars r).
Proof.
  intros H0 H1 H2 H3 Hl Hu. rewrite utf8_scalars_cons.
  unfold second_ok, second_lower, second_upper, is_continuation.
  decide_tests; reflexivity.
Qed.

Lemma utf8_scalars_code_point cp r :
  0 <= cp < 1114112 -> ~ (55296 <= cp <= 57343) ->
  utf8_scalars (utf8_of_code_point cp ++ r) = cons_opt cp (utf8_scalars r).
Proof.
  intros Hcp Hns. unfold utf8_of_code_point.
  destruct (Z.ltb_spec cp 128); [ | destruct (Z.ltb_spec cp 2048);
    [ | destruct (Z.ltb_spec cp 65536) ] ]; cbn [app].
  - apply utf8_scalars_1. lia.
  - rewrite utf8_scalars_2 by (Z.div_mod_to_equations; lia).
    f_equal. Z.div_mod_to_equations. lia.
  - rewrite utf8_scalars_3 by (Z.div_mod_to_equations; lia).
    f_equal. Z.div_mod_to_equations. lia.
  - rewrite utf8_scalars_4 by (Z.div_mod_to_equations; lia).
    f_equal. Z.div_mod_to_equations. lia.
Qed.

Lemma utf16_of_pair c d :
  55296 <= c <= 56319 -> 56320 <= d <= 57343 ->
  utf16_of_code_point (65536 + (c - 55296) * 1024 + (d - 56320)) = [c; d].
Proof.
  intros Hc Hd. unfold utf16_of_code_point.
  destruct (Z.ltb_spec (65536 + (c - 55296) * 1024 + (d - 56320)) 65536); [ lia | ].
  f_equal; [ | f_equal ]; Z.div_mod_to_equations; lia.
Qed.

Lemma surrogate_tests c :
  (is_high_surrogate c = true <-> 55296 <= c <= 56319)
  /\ (is_low_surrogate c = true <-> 56320 <= c <= 57343).
Proof.
  unfold is_high_surrogate, is_low_surrogate.
  rewrite !andb_true_iff, !Z.leb_le. tauto.
Qed.

(** The scalar values of a well-formed string: its UTF-8 form decodes to
    them, they spell the string again, and the first one is a byte order
    mark only if the string starts with one. *)
Lemma utf8_scalars_encode n :
  forall s, (List.length s <= n)%nat -> well_formed s = true ->
    exists cps,
      utf8_scalars (encodeUtf8 s) = Some cps
      /\ flat_map utf16_of_code_point cps = s
      /\ (hd 0 s <> BOM -> hd 0 cps <> BOM).
Proof.
  induction n as [ | n IH ]; intros s Hlen Hwf.
  - destruct s; [ | cbn in Hlen; lia ]. exists []. cbn. auto.
  - destruct s as [ | c s' ]; [ exists []; cbn; auto | ].
    cbn [well_formed encodeUtf8] in *.
    destruct (is_high_surrogate c) eqn:Eh.
    + destruct s' as [ | d s'' ]; [ discriminate | ].
      apply andb_true_iff in Hwf as [Ed Hwf].
      rewrite Ed.
      apply surrogate_tests in Eh, Ed.
      destruct (IH s'' ltac:(cbn in Hlen; lia) Hwf) as (cps & H1 & H2 & _).
      exists (65536 + (c - 55296) * 1024 + (d - 56320) :: cps).
      rewrite utf8_scalars_code_point by lia. rewrite H1.
      cbn [cons_opt flat_map]. rewrite utf16_of_pair by lia. rewrite H2.
      repeat split. cbn [hd]. unfold BOM. lia.
    + destruct (is_low_surrogate c) eqn:El; [ discriminate | ].
      apply andb_true_iff in Hwf as [Hc Hwf].
      apply andb_true_iff in Hc as [Hc0 Hc1].
      apply Z.leb_le in Hc0. apply Z.ltb_lt in Hc1.
      assert (Hns : ~ (55296 <= c <= 57343)).
      { intros Hs. destruct (surrogate_tests c) as [Hh Hl].
        destruct (Z_le_gt_dec c 56319).
        - rewrite (proj2 Hh) in Eh by lia. discriminate.
        - rewrite (proj2 Hl) in El by lia. discriminate. }
      destruct (IH s' ltac:(cbn in Hlen; lia) Hwf) as (cps & H1 & H2 & _).
      exists (c :: cps).
      rewrite utf8_scalars_code_point by lia. rewrite H1.
      cbn [cons_opt flat_map]. unfold utf16_of_code_point at 1.
      destruct (Z.ltb_spec c 65536); [ | lia ]. cbn [app]. rewrite H2.
      repeat split. cbn [hd]. auto.
Qed.

Lemma encodeUtf8_injective a b :
  well_formed a = true -> well_formed b = true ->
  encodeUtf8 a = encodeUtf8 b -> a = b.
Proof.
  intros Ha Hb E.
  destruct (utf8_scalars_encode _ a (le_n _) Ha) as (ca & A1 & A2 & _).
  destruct (utf8_scalars_encode _ b (le_n _) Hb) as (cb & B1 & B2 & _).
  rewrite E in A1. rewrite A1 in B1. injection B1 as ->. congruence.
Qed.

(** [TextDecoder] gives back what [TextEncoder] was given, for well-formed
    text without a leading byte order mark. *)
Lemma TextDecoder_encodeUtf8 s :
  well_formed s = true -> hd 0 s <> BOM ->
  TextDecoder_decode (encodeUtf8 s) = Some s.
Proof.
  intros Hwf Hbom.
  destruct (utf8_scalars_encode _ s (le_n _) Hwf) as (cps & H1 & H2 & H3).
  unfold TextDecoder_decode. rewrite H1.
  assert (Hs : strip_bom cps = cps).
  { destruct cps as [ | c r ]; [ reflexivity | ]. cbn.
    specialize (H3 Hbom). cbn in H3.
    destruct (Z.eqb_spec c BOM); [ contradiction | reflexivity ]. }
  now rewrite Hs, H2.
Qed.

(** The comparator is a total order on well-formed keys. *)
Lemma compareKeys_antisym a b :
  well_formed a = true -> well_formed b = true ->
  Encoder.compareKeys a b <= 0 -> Encoder.compareKeys b a <= 0 -> a = b.
Proof.
  intros Ha Hb H1 H2. apply encodeUtf8_injective; auto.
  now apply compareBytes_antisym.
Qed.

Lemma sort_keys_unique l1 l2 :
  Permutation l1 l2 -> Forall (fun k => well_formed k = true) l1 ->
  sort Encoder.compareKeys l1 = sort Encoder.compareKeys l2.
Proof.
  apply sort_unique.
  - intros a b. apply compareBytes_total.
  - intros a b c. apply compareBytes_trans.
  - apply compareKeys_antisym.
Qed.

(** ** The encoder *)

Lemma encodeValue_unfold maxDepth keyToIndex v depth buf :
  Encoder.encodeValue maxDepth keyToIndex v depth buf =
    if maxDepth <? depth then
      Throw (KodaEncodeError [T "Maximum nesting depth exceeded"] (len buf))
    else
      match v with
      | VNull => Ok (Encoder.writeByte Encoder.Tag.Null buf)
      | VBool false => Ok (Encoder.writeByte Encoder.Tag.False buf)
      | VBool true => Ok (Encoder.writeByte Encoder.Tag.True buf)
      | VNumber n =>
          if isSafeInteger n
             && (Encoder.MIN_SAFE_INT64 <=? toZ n) && (toZ n <=? Encoder.MAX_SAFE_INT64)
          then Ok (Encoder.write (setBigInt64 (toZ n))
                     (Encoder.writeByte Encoder.Tag.Integer buf))
          else Ok (Encoder.write (setFloat64 n)
                     (Encoder.writeByte Encoder.Tag.Float buf))
      | VString s =>
          Ok (Encoder.write (encodeUtf8 s)
                (Encoder.write (setUint32 (len (encodeUtf8 s)))
                   (Encoder.writeByte Encoder.Tag.String buf)))
      | VArray items =>
          forEach (fun item b =>
                     Encoder.encodeValue maxDepth keyToIndex item (depth + 1) b)
                  items
                  (Encoder.write (setUint32 (len items))
                     (Encoder.writeByte Encoder.Tag.Array buf))
      | VObject props =>
          forEach (Encoder.encodeProperty keyToIndex
                     (map (fun p => (fst p,
                                     Encoder.encodeValue maxDepth keyToIndex (snd p)))
                          props) depth)
                  (sort Encoder.compareKeys (Object_keys props))
                  (Encoder.write
                     (setUint32 (len (sort Encoder.compareKeys (Object_keys props))))
                     (Encoder.writeByte Encoder.Tag.Object buf))
      end.
Proof. destruct v; reflexivity. Qed.

Lemma forEach_ext {A St} (f g : A -> St -> result St) l :
  (forall x, In x l -> forall s, f x s = g x s) ->
  forall s, forEach f l s = forEach g l s.
Proof.
  induction l as [ | x l IH ]; intros H s; cbn; [ reflexivity | ].
  rewrite (H x (or_introl eq_refl)). destruct (g x s); cbn; try reflexivity.
  apply IH. intros y Hy. apply H. now right.
Qed.

Lemma forEach_Forall2 {A B St} (f : A -> St -> result St) (g : B -> St -> result St)
  xs ys :
  Forall2 (fun x y => forall s, f x s = g y s) xs ys ->
  forall s, forEach f xs s = forEach g ys s.
Proof.
  induction 1 as [ | x y xs ys Hxy _ IH ]; intros s; cbn; [ reflexivity | ].
  rewrite Hxy. destruct (g y s); cbn; auto.
Qed.

Lemma assoc_get_map {V W} (F : V -> W) key (ps : list (jsstring * V)) :
  assoc_get key (map (fun p => (fst p, F (snd p))) ps)
  = option_map F (assoc_get key ps).
Proof.
  induction ps as [ | [k x] r IH ]; cbn; [ reflexivity | ].
  destruct (str_eqb k key); [ reflexivity | exact IH ].
Qed.

Lemma in_map_fst {V} key (ps : list (jsstring * V)) :
  In key (map fst ps) -> exists x, In (key, x) ps.
Proof.
  intros H. apply in_map_iff in H as ([k x] & E & Hin). cbn in E. subst. eauto.
Qed.

Lemma Forall2_keys ps qs :
  Forall2 (fun p q : jsstring * KodaValue => fst p = fst q /\ veq (snd p) (snd q)) ps qs ->
  map fst ps = map fst qs.
Proof. induction 1 as [ | p q ps qs [E _] _ IH ]; cbn; congruence. Qed.

Lemma Forall2_in_left {A B} (R : A -> B -> Prop) xs ys x :
  Forall2 R xs ys -> In x xs -> exists y, In y ys /\ R x y.
Proof.
  induction 1 as [ | a b xs ys Hab _ IH ]; intros Hin; [ destruct Hin | ].
  destruct Hin as [ <- | Hin ].
  - exists b. split; [ now left | exact Hab ].
  - destruct (IH Hin) as (y & Hy & HR). exists y. split; [ now right | exact HR ].
Qed.

(** Equal objects give equal values under every key. *)
Lemma veq_lookup ps ps' qs key :
  NoDup (map fst ps) -> Permutation ps ps' ->
  Forall2 (fun p q => fst p = fst q /\ veq (snd p) (snd q)) ps' qs ->
  In key (map fst ps) ->
  exists x y, In (key, x) ps /\ assoc_get key ps = Some x
              /\ assoc_get key qs = Some y /\ veq x y.
Proof.
  intros Hnd Hp HF Hin.
  destruct (in_map_fst _ _ Hin) as [x Hx].
  assert (Hx' : In (key, x) ps') by (eapply Permutation_in; eassumption).
  destruct (Forall2_in_left _ _ _ _ HF Hx') as ([k y] & Hy & Ek & Hv).
  cbn in Ek, Hv. subst k.
  exists x, y. repeat split; auto.
  - now apply assoc_get_nodup.
  - apply assoc_get_nodup; [ | exact Hy ].
    rewrite <- (Forall2_keys _ _ HF).
    eapply Permutation_NoDup; [ apply Permutation_map; exact Hp | exact Hnd ].
Qed.

Lemma keys_ok_wf v : keys_ok v -> Forall (fun k => well_formed k = true) (keysOf v).
Proof.
  induction v as [ | b | n | s | items IH | props IH ] using KodaValue_ind;
    intros H; cbn [keysOf]; try constructor.
  - inversion H as [ | | | | ? Hitems | ]; subst.
    rewrite Forall_forall in *. intros k Hk.
    apply in_flat_map in Hk as (x & Hx & Hk).
    specialize (IH x Hx (Hitems x Hx)). rewrite Forall_forall in IH. auto.
  - inversion H as [ | | | | | ? Hnd Hprops ]; subst.
    rewrite Forall_forall in *. intros k Hk.
    apply in_flat_map in Hk as (p & Hp & Hk).
    destruct (Hprops p Hp) as [Hwf Hok].
    destruct Hk as [ <- | Hk ]; [ exact Hwf | ].
    specialize (IH p Hp Hok). rewrite Forall_forall in IH. auto.
Qed.

Lemma veq_keysOf v1 :
  forall v2, veq v1 v2 -> forall k, In k (keysOf v1) <-> In k (keysOf v2).
Proof.
  induction v1 as [ | b | n | s | items IH | props IH ] using KodaValue_ind;
    intros v2 H k; inversion H; subst; try tauto.
  - cbn [keysOf]. rewrite !in_flat_map.
    match goal with HF : Forall2 veq _ _ |- _ => rename HF into HF2 end.
    clear H. induction HF2 as [ | x y xs ys Hxy HF2 IHF ].
    + split; intros (x & [] & _).
    + inversion IH as [ | ? ? Hx Hxs ]; subst. specialize (IHF Hxs).
      split; intros (z & [ <- | Hz ] & Hk).
      * exists y. split; [ now left | ]. now apply (Hx y Hxy).
      * destruct (proj1 IHF (ex_intro _ z (conj Hz Hk))) as (z' & Hz' & Hk').
        exists z'. split; [ now right | exact Hk' ].
      * exists x. split; [ now left | ]. now apply (Hx y Hxy).
      * destruct (proj2 IHF (ex_intro _ z (conj Hz Hk))) as (z' & Hz' & Hk').
        exists z'. split; [ now right | exact Hk' ].
  - cbn [keysOf].
    match goal with
    | HP : Permutation _ ?ps', HF : Forall2 _ ?ps' _ |- _ =>
        rename HP into Hperm; rename HF into HF2; rename ps' into ps1
    end.
    assert (IH' : Forall (fun p => forall v2, veq (snd p) v2 ->
                                   forall k, In k (keysOf (snd p)) <-> In k (keysOf v2)) ps1).
    { rewrite Forall_forall in *. intros p Hp. apply IH.
      eapply Permutation_in; [ symmetry; exact Hperm | exact Hp ]. }
    transitivity (In k (flat_map (fun p => fst p :: keysOf (snd p)) ps1)).
    { rewrite !in_flat_map. split; intros (p & Hp & Hk); exists p; split; auto;
        eapply Permutation_in; try eassumption. now symmetry. }
    clear H Hperm IH. rewrite !in_flat_map.
    induction HF2 as [ | p q ps qs [Ek Hv] HF2 IHF ].
    + split; intros (x & [] & _).
    + inversion IH' as [ | ? ? Hp Hps ]; subst. specialize (IHF Hps).
      split; intros (z & [ <- | Hz ] & Hk).
      * exists q. split; [ now left | ]. rewrite <- Ek.
        destruct Hk as [ Hk | Hk ]; [ now left | right; now apply (Hp _ Hv) ].
      * destruct (proj1 IHF (ex_intro _ z (conj Hz Hk))) as (z' & Hz' & Hk').
        exists z'. split; [ now right | exact Hk' ].
      * exists p. split; [ now left | ]. rewrite Ek.
        destruct Hk as [ Hk | Hk ]; [ now left | right; now apply (Hp _ Hv) ].
      * destruct (proj2 IHF (ex_intro _ z (conj Hz Hk))) as (z' & Hz' & Hk').
        exists z'. split; [ now right | exact Hk' ].
Qed.

Lemma dictionary_veq v1 v2 :
  keys_ok v1 -> veq v1 v2 -> Encoder.dictionary_of v1 = Encoder.dictionary_of v2.
Proof.
  intros Hok Hv. unfold Encoder.dictionary_of.
  destruct (collectKeys_spec v1 []) as [Hin1 Hnd1].
  destruct (collectKeys_spec v2 []) as [Hin2 Hnd2].
  apply sort_keys_unique.
  - apply NoDup_Permutation; [ apply Hnd1; constructor | apply Hnd2; constructor | ].
    intros k. rewrite Hin1, Hin2. cbn. rewrite (veq_keysOf _ _ Hv k). tauto.
  - pose proof (keys_ok_wf _ Hok) as Hwf. rewrite Forall_forall in *.
    intros k Hk. apply Hin1 in Hk as [ [] | Hk ]. auto.
Qed.

(** Equal values are written alike, whatever the order of their keys. *)
Lemma encodeValue_veq maxDepth keyToIndex v1 :
  keys_ok v1 ->
  forall v2, veq v1 v2 ->
  forall depth buf,
    Encoder.encodeValue maxDepth keyToIndex v1 depth buf
    = Encoder.encodeValue maxDepth keyToIndex v2 depth buf.
Proof.
  induction v1 as [ | b | n | s | items IH | props IH ] using KodaValue_ind;
    intros Hok v2 Hv depth buf; inversion Hv; subst; try reflexivity.
  - rewrite !encodeValue_unfold. destruct (maxDepth <? depth); [ reflexivity | ].
    match goal with HF : Forall2 veq _ _ |- _ => rename HF into HF2 end.
    assert (Elen : len items = len ys).
    { unfold len. now rewrite (Forall2_length HF2). }
    rewrite Elen. apply forEach_Forall2.
    inversion Hok as [ | | | | ? Hitems | ]; subst.
    clear - IH HF2 Hitems.
    induction HF2 as [ | x y xs ys Hxy HF2 IHF ]; constructor.
    + intros s. inversion IH; inversion Hitems; subst. auto.
    + inversion IH; inversion Hitems; subst. auto.
  - match goal with
    | HP : Permutation _ ?ps', HF : Forall2 _ ?ps' _ |- _ =>
        rename HP into Hperm; rename HF into HF2; rename ps' into ps1
    end.
    inversion Hok as [ | | | | | ? Hnd Hprops ]; subst.
    rewrite !encodeValue_unfold. destruct (maxDepth <? depth); [ reflexivity | ].
    assert (Ekeys : sort Encoder.compareKeys (Object_keys props)
                    = sort Encoder.compareKeys (Object_keys qs)).
    { unfold Object_keys. rewrite <- (Forall2_keys _ _ HF2).
      apply sort_keys_unique; [ now apply Permutation_map | ].
      rewrite Forall_forall in *. intros k Hk.
      apply in_map_iff in Hk as (p & <- & Hp). now apply Hprops. }
    rewrite <- Ekeys. apply forEach_ext. intros key Hkey b.
    apply sort_in in Hkey.
    destruct (veq_lookup _ _ _ _ Hnd Hperm HF2 Hkey) as (x & y & Hx & Gx & Gy & Hxy).
    unfold Encoder.encodeProperty.
    destruct (assoc_get key keyToIndex) as [ idx | ]; [ | reflexivity ].
    rewrite !assoc_get_map, Gx, Gy. cbn [option_map].
    rewrite Forall_forall in IH, Hprops.
    apply (IH _ Hx); [ now apply (Hprops _ Hx) | exact Hxy ].
Qed.

(** ** Canonical output *)

(** Two structurally equal values whose keys are unique within an object and
    valid Unicode have the same outcome under [encode]. *)
Lemma encode_veq v1 v2 options :
  keys_ok v1 -> veq v1 v2 ->
  Encoder.encode v1 options = Encoder.encode v2 options.
Proof.
  intros Hok Hv. unfold Encoder.encode.
  rewrite <- (dictionary_veq _ _ Hok Hv).
  now apply encodeValue_veq.
Qed.

(** ** Nesting depth *)

Lemma depth_array items :
  depth (VArray items) = fold_right (fun x acc => Z.max (1 + depth x) acc) 0 items.
Proof. reflexivity. Qed.

Lemma depth_object props :
  depth (VObject props)
  = fold_right (fun p acc => Z.max (1 + depth (snd p)) acc) 0 props.
Proof. reflexivity. Qed.

Lemma fold_max_le {A} (g : A -> Z) l n :
  fold_right (fun x acc => Z.max (g x) acc) 0 l <= n
  <-> 0 <= n /\ Forall (fun x => g x <= n) l.
Proof.
  induction l as [ | x l IH ]; cbn [fold_right].
  - split; [ intros H; split; [ exact H | constructor ] | tauto ].
  - rewrite Z.max_lub_iff, IH. split.
    + intros (Hx & Hn & Hl). split; [ exact Hn | now constructor ].
    + intros (Hn & Hl). inversion Hl; subst. tauto.
Qed.

Lemma fold_max_nonneg {A} (g : A -> Z) l :
  0 <= fold_right (fun x acc => Z.max (g x) acc) 0 l.
Proof. induction l as [ | x l IH ]; cbn [fold_right]; lia. Qed.


Lemma depth_nonneg v : 0 <= depth v.
Proof. destruct v; cbn [depth]; try lia; apply fold_max_nonneg. Qed.

Lemma depth_array_le items n :
  depth (VArray items) <= n <-> 0 <= n /\ Forall (fun x => 1 + depth x <= n) items.
Proof. rewrite depth_array. apply fold_max_le. Qed.

Lemma depth_object_le props n :
  depth (VObject props) <= n
  <-> 0 <= n /\ Forall (fun p => 1 + depth (snd p) <= n) props.
Proof. rewrite depth_object. apply (fold_max_le (fun p => 1 + depth (snd p))). Qed.

(** A loop whose steps append to the buffer, or fail with a located error
    when the step's measure is above the bound: the loop appends if every
    measure is within the bound and fails otherwise. *)
Lemma forEach_bounded {A} (f : A -> bytes -> result bytes) (g : A -> Z) n
  (E : Z -> exn) l :
  (forall x, In x l -> forall b,
      (g x <= n -> exists out, f x b = Ok (b ++ out))
      /\ (n < g x -> exists off, f x b = Throw (E off))) ->
  forall b,
    (Forall (fun x => g x <= n) l -> exists out, forEach f l b = Ok (b ++ out))
    /\ (~ Forall (fun x => g x <= n) l -> exists off, forEach f l b = Throw (E off)).
Proof.
  induction l as [ | x l IH ]; intros H b.
  - split.
    + intros _. exists []. cbn. now rewrite app_nil_r.
    + intros Hn. exfalso. apply Hn. constructor.
  - destruct (H x (or_introl eq_refl) b) as [Hok Hbad].
    assert (Hl : forall y, In y l -> forall b,
               (g y <= n -> exists out, f y b = Ok (b ++ out))
               /\ (n < g y -> exists off, f y b = Throw (E off))).
    { intros y Hy. apply H. now right. }
    cbn [forEach]. destruct (Z_le_gt_dec (g x) n) as [Hx | Hx].
    + destruct (Hok Hx) as [out1 E1]. rewrite E1. cbn [bind].
      destruct (IH Hl (b ++ out1)) as [IHok IHbad]. split.
      * intros HF. inversion HF; subst. destruct (IHok ltac:(assumption)) as [out2 E2].
        exists (out1 ++ out2). now rewrite E2, app_assoc.
      * intros HF. apply IHbad. intros HF'. apply HF. now constructor.
    + destruct (Hbad ltac:(lia)) as [off E1]. rewrite E1. cbn [bind]. split.
      * intros HF. inversion HF; subst. lia.
      * intros _. now exists off.
Qed.

Lemma Forall_perm_keys {V} (Q : V -> Prop) (ps : list (jsstring * V)) keys :
  NoDup (map fst ps) -> Permutation keys (map fst ps) ->
  (Forall (fun key => match assoc_get key ps with Some x => Q x | None => True end) keys
   <-> Forall (fun p => Q (snd p)) ps).
Proof.
  intros Hnd Hp. rewrite !Forall_forall. split.
  - intros H [k x] Hin. cbn.
    assert (Hk : In k keys).
    { eapply Permutation_in; [ symmetry; exact Hp | ].
      change k with (fst (k, x)). now apply in_map. }
    specialize (H k Hk). now rewrite (assoc_get_nodup _ _ _ Hnd Hin) in H.
  - intros H key Hkey. destruct (assoc_get key ps) as [ x | ] eqn:G; [ | exact I ].
    apply (H (key, x)). now apply assoc_get_in.
Qed.

Lemma encodeValue_depth_exceeded maxDepth keyToIndex v d buf :
  maxDepth < d ->
  (d + depth v <= maxDepth ->
   exists out, Encoder.encodeValue maxDepth keyToIndex v d buf = Ok (buf ++ out))
  /\ (maxDepth < d + depth v ->
      exists off, Encoder.encodeValue maxDepth keyToIndex v d buf
                  = Throw (KodaEncodeError [T "Maximum nesting depth exceeded"] off)).
Proof.
  intros Hd. pose proof (depth_nonneg v). split; [ lia | ]. intros _.
  exists (len buf). rewrite encodeValue_unfold.
  destruct (Z.ltb_spec maxDepth d); [ reflexivity | lia ].
Qed.

(** The encoder succeeds exactly on values within the depth limit. *)
Lemma encodeValue_depth maxDepth keyToIndex v :
  keys_ok v ->
  (forall k, In k (keysOf v) -> exists idx, assoc_get k keyToIndex = Some idx) ->
  forall d buf,
    (d + depth v <= maxDepth ->
     exists out, Encoder.encodeValue maxDepth keyToIndex v d buf = Ok (buf ++ out))
    /\ (maxDepth < d + depth v ->
        exists off, Encoder.encodeValue maxDepth keyToIndex v d buf
                    = Throw (KodaEncodeError [T "Maximum nesting depth exceeded"] off)).
Proof.
  induction v as [ | b | n | s | items IH | props IH ] using KodaValue_ind;
    intros Hok Hkeys d buf;
    (destruct (Z_lt_ge_dec maxDepth d) as [Hd | Hd];
     [ now apply encodeValue_depth_exceeded | ]);
    rewrite encodeValue_unfold; (destruct (Z.ltb_spec maxDepth d); [ lia | ]).
  - split; [ intros _ | cbn [depth]; lia ].
    unfold Encoder.writeByte. eexists. reflexivity.
  - split; [ intros _ | cbn [depth]; lia ].
    unfold Encoder.writeByte. destruct b; eexists; reflexivity.
  - split; [ intros _ | cbn [depth]; lia ].
    unfold Encoder.writeByte, Encoder.write.
    destruct (_ && _ && _); eexists; rewrite <- app_assoc; reflexivity.
  - split; [ intros _ | cbn [depth]; lia ].
    unfold Encoder.writeByte, Encoder.write.
    eexists. rewrite <- !app_assoc. reflexivity.
  - inversion Hok as [ | | | | ? Hitems | ]; subst.
    unfold Encoder.writeByte, Encoder.write.
    set (b0 := (buf ++ [Encoder.Tag.Array]) ++ setUint32 (len items)).
    destruct (forEach_bounded
                (fun item b => Encoder.encodeValue maxDepth keyToIndex item (d + 1) b)
                (fun x => d + (1 + depth x)) maxDepth
                (KodaEncodeError [T "Maximum nesting depth exceeded"]) items) with (b := b0)
      as [Hall Hsome].
    { intros x Hx b. rewrite Forall_forall in IH, Hitems.
      replace (d + (1 + depth x)) with (d + 1 + depth x) by lia.
      apply IH; auto. intros k Hk. apply Hkeys. cbn [keysOf].
      apply in_flat_map. eauto. }
    split.
    + intros Hle.
      assert (HF : Forall (fun x => d + (1 + depth x) <= maxDepth) items).
      { assert (H' : depth (VArray items) <= maxDepth - d) by lia.
        apply depth_array_le in H' as [_ H']. eapply Forall_impl; [ | exact H' ].
        cbn. intros. lia. }
      destruct (Hall HF) as [out E]. rewrite E. subst b0.
      exists ([Encoder.Tag.Array] ++ setUint32 (len items) ++ out).
      now rewrite <- !app_assoc.
    + intros Hgt. apply Hsome. intros HF.
      assert (H' : depth (VArray items) <= maxDepth - d).
      { apply depth_array_le. split; [ lia | ].
        eapply Forall_impl; [ | exact HF ]. cbn. intros. lia. }
      lia.
  - inversion Hok as [ | | | | | ? Hnd Hprops ]; subst.
    unfold Encoder.writeByte, Encoder.write.
    set (keys := sort Encoder.compareKeys (Object_keys props)).
    set (b0 := (buf ++ [Encoder.Tag.Object]) ++ setUint32 (len keys)).
    set (encoders := map (fun p => (fst p, Encoder.encodeValue maxDepth keyToIndex (snd p)))
                         props).
    assert (Hperm : Permutation keys (map fst props)) by apply sort_perm.
    destruct (forEach_bounded
                (Encoder.encodeProperty keyToIndex encoders d)
                (fun key => match assoc_get key props with
                            | Some x => d + (1 + depth x)
                            | None => maxDepth
                            end) maxDepth
                (KodaEncodeError [T "Maximum nesting depth exceeded"]) keys) with (b := b0)
      as [Hall Hsome].
    { intros key Hkey b.
      assert (Hin : In key (map fst props)) by (eapply Permutation_in; eassumption).
      destruct (in_map_fst _ _ Hin) as [x Hx].
      rewrite (assoc_get_nodup _ _ _ Hnd Hx).
      unfold Encoder.encodeProperty, encoders.
      destruct (Hkeys key) as [idx Gidx].
      { cbn [keysOf]. apply in_flat_map. exists (key, x). split; [ exact Hx | now left ]. }
      rewrite Gidx, assoc_get_map, (assoc_get_nodup _ _ _ Hnd Hx). cbn [option_map].
      rewrite Forall_forall in IH, Hprops.
      destruct (IH _ Hx (proj2 (Hprops _ Hx))
                  ltac:(intros k Hk; apply Hkeys; cbn [keysOf]; apply in_flat_map;
                        exists (key, x); split; [ exact Hx | now right ])
                  (d + 1) (Encoder.write (setUint32 idx) b)) as [H1 H2].
      cbn [snd] in H1, H2. unfold Encoder.write in *. split.
      - intros Hle. destruct (H1 ltac:(lia)) as [out E]. rewrite E.
        exists (setUint32 idx ++ out). now rewrite app_assoc.
      - intros Hgt. destruct (H2 ltac:(lia)) as [off E]. rewrite E. now exists off. }
    assert (Hiff : Forall (fun key => match assoc_get key props with
                                      | Some x => d + (1 + depth x)
                                      | None => maxDepth
                                      end <= maxDepth) keys
                   <-> Forall (fun p => d + (1 + depth (snd p)) <= maxDepth) props).
    { rewrite <- (Forall_perm_keys (fun x => d + (1 + depth x) <= maxDepth) props keys Hnd Hperm).
      rewrite !Forall_forall. split; intros HH key Hkey; specialize (HH key Hkey);
        destruct (assoc_get key props); auto; lia. }
    split.
    + intros Hle.
      assert (HF : Forall (fun p => d + (1 + depth (snd p)) <= maxDepth) props).
      { assert (H' : depth (VObject props) <= maxDepth - d) by lia.
        apply depth_object_le in H' as [_ H']. eapply Forall_impl; [ | exact H' ].
        cbn. intros. lia. }
      destruct (Hall (proj2 Hiff HF)) as [out E]. rewrite E. subst b0.
      exists ([Encoder.Tag.Object] ++ setUint32 (len keys) ++ out).
      now rewrite <- !app_assoc.
    + intros Hgt. apply Hsome. intros HF. apply Hiff in HF.
      assert (H' : depth (VObject props) <= maxDepth - d).
      { apply depth_object_le. split; [ lia | ].
        eapply Forall_impl; [ | exact HF ]. cbn. intros. lia. }
      lia.
Qed.

Lemma encode_depth v options :
  keys_ok v ->
  (depth v <= Encoder.depthLimit options ->
   exists out, Encoder.encode v options
               = Ok (Encoder.header (Encoder.dictionary_of v) ++ out))
  /\ (Encoder.depthLimit options < depth v ->
      exists off, Encoder.encode v options
                  = Throw (KodaEncodeError [T "Maximum nesting depth exceeded"] off)).
Proof.
  intros Hok. unfold Encoder.encode.
  assert (Hkeys : forall k, In k (keysOf v) ->
            exists idx, assoc_get k (Encoder.index_keys (Encoder.dictionary_of v) 0 [])
                        = Some idx).
  { intros k Hk. apply dictionary_in in Hk.
    destruct (index_keys_in _ _ (dictionary_nodup v) Hk) as (idx & G & _). eauto. }
  destruct (encodeValue_depth (Encoder.depthLimit options) _ v Hok Hkeys 0
              (Encoder.header (Encoder.dictionary_of v))) as [H1 H2].
  split; intros H; [ apply H1 | apply H2 ]; lia.
Qed.

(** ** Canonical output *)

(** C1, as stated, fails: structural equality of the values is not enough
    when keys are not valid Unicode.  The lone surrogates U+DC00 and U+D800
    are two distinct keys that [TextEncoder] both writes as EF BF BD; the
    comparator ties on them, the stable sort leaves them in insertion order,
    and two objects that hold the same two properties in different orders
    are encoded to different bytes. *)
Lemma encode_not_canonical :
  let v1 := VObject [([56320], VNumber (ofZ 1)); ([55296], VNumber (ofZ 2))] in
  let v2 := VObject [([55296], VNumber (ofZ 2)); ([56320], VNumber (ofZ 1))] in
  veq v1 v2
  /\ Encoder.encode v1 Encoder.defaults
     = Ok ([75; 79; 68; 65; 1] ++ [0; 0; 0; 2]
             ++ [0; 0; 0; 3; 239; 191; 189] ++ [0; 0; 0; 3; 239; 191; 189]
             ++ [17; 0; 0; 0; 2]
             ++ [0; 0; 0; 0; 4; 0; 0; 0; 0; 0; 0; 0; 1]
             ++ [0; 0; 0; 1; 4; 0; 0; 0; 0; 0; 0; 0; 2])
  /\ Encoder.encode v2 Encoder.defaults
     = Ok ([75; 79; 68; 65; 1] ++ [0; 0; 0; 2]
             ++ [0; 0; 0; 3; 239; 191; 189] ++ [0; 0; 0; 3; 239; 191; 189]
             ++ [17; 0; 0; 0; 2]
             ++ [0; 0; 0; 0; 4; 0; 0; 0; 0; 0; 0; 0; 2]
             ++ [0; 0; 0; 1; 4; 0; 0; 0; 0; 0; 0; 0; 1])
  /\ Encoder.encode v1 Encoder.defaults <> Encoder.encode v2 Encoder.defaults.
Proof.
  intros v1 v2.
  split; [ eapply veq_object; [ apply perm_swap | ]; repeat constructor | ].
  split; [ vm_compute; reflexivity | ].
  split; [ vm_compute; reflexivity | ].
  vm_compute. discriminate.
Qed.

(** C1, amended.  Let two values be structurally equal (same scalars,
    numbers with the same bit pattern, same elements in the same order, same
    properties whatever their order), with keys that are valid Unicode and
    unique within an object.  Within the depth limit [encode] succeeds on
    both and returns the same bytes, which start with the header of the
    sorted dictionary; beyond the limit it fails on both with the same
    error. *)
Theorem encode_canonical :
  forall v1 v2 options,
    keys_ok v1 -> veq v1 v2 ->
    (depth v1 <= Encoder.depthLimit options ->
     exists out,
       Encoder.encode v1 options
       = Ok (Encoder.header (Encoder.dictionary_of v1) ++ out)
       /\ Encoder.encode v2 options
          = Ok (Encoder.header (Encoder.dictionary_of v1) ++ out))
    /\ (Encoder.depthLimit options < depth v1 ->
        exists off,
          Encoder.encode v1 options
          = Throw (KodaEncodeError [T "Maximum nesting depth exceeded"] off)
          /\ Encoder.encode v2 options
             = Throw (KodaEncodeError [T "Maximum nesting depth exceeded"] off)).
Proof.
  intros v1 v2 options Hok Hv.
  pose proof (encode_veq v1 v2 options Hok Hv) as E.
  destruct (encode_depth v1 options Hok) as [Hin Hout]. split.
  - intros Hd. destruct (Hin Hd) as (out & E1). exists out.
    split; [ exact E1 | now rewrite <- E ].
  - intros Hd. destruct (Hout Hd) as (off & E1). exists off.
    split; [ exact E1 | now rewrite <- E ].
Qed.

Lemma encode_canonical_witness :
  let v1 := VObject [(lit "b", VNumber (ofZ 1));
                     (lit "a", VArray [VString (lit "x"); VNull])] in
  let v2 := VObject [(lit "a", VArray [VString (lit "x"); VNull]);
                     (lit "b", VNumber (ofZ 1))] in
  let bs := [75; 79; 68; 65; 1] ++ [0; 0; 0; 2]
              ++ [0; 0; 0; 1; 97] ++ [0; 0; 0; 1; 98]
              ++ [17; 0; 0; 0; 2]
              ++ [0; 0; 0; 0] ++ [16; 0; 0; 0; 2; 6; 0; 0; 0; 1; 120; 1]
              ++ [0; 0; 0; 1] ++ [4; 0; 0; 0; 0; 0; 0; 0; 1] in
  keys_ok v1 /\ veq v1 v2
  /\ Encoder.encode v1 Encoder.defaults = Ok bs
  /\ Encoder.encode v2 Encoder.defaults = Ok bs.
Proof.
  intros v1 v2 bs.
  assert (Hok : keys_ok v1).
  { constructor.
    - repeat constructor; cbn; intuition discriminate.
    - repeat constructor. }
  assert (Hv : veq v1 v2).
  { eapply veq_object; [ apply perm_swap | ]. repeat constructor. }
  assert (E1 : Encoder.encode v1 Encoder.defaults = Ok bs) by (vm_compute; reflexivity).
  split; [ exact Hok | ]. split; [ exact Hv | ]. split; [ exact E1 | ].
  destruct (proj1 (encode_canonical v1 v2 Encoder.defaults Hok Hv))
    as (out & E1' & E2); [ vm_compute; discriminate | ].
  rewrite E2, <- E1'. exact E1.
Defined.

(** ** Fixed-width fields *)

Lemma len_setUint32 n : len (setUint32 n) = 4.
Proof. reflexivity. Qed.

Lemma len_be64 u : len (be64 u) = 8.
Proof. reflexivity. Qed.

Lemma setUint32_bytes n : Forall byte (setUint32 n).
Proof.
  unfold setUint32, byte. repeat constructor; Z.div_mod_to_equations; lia.
Qed.

Lemma getUint32_setUint32 n :
  0 <= n < 4294967296 ->
  match setUint32 n with
  | [b0; b1; b2; b3] => getUint32 b0 b1 b2 b3 = n
  | _ => False
  end.
Proof.
  intros H. unfold setUint32, getUint32. Z.div_mod_to_equations. lia.
Qed.

Lemma of_be_be64 u :
  0 <= u < 18446744073709551616 -> of_be (be64 u) = u.
Proof.
  intros H. unfold be64, of_be. cbn [fold_left].
  Z.div_mod_to_equations. lia.
Qed.

Lemma getBigInt64_setBigInt64 z :
  -9223372036854775808 <= z <= 9223372036854775807 ->
  getBigInt64 (setBigInt64 z) = z.
Proof.
  intros H. unfold getBigInt64, setBigInt64.
  assert (E : be64 z = be64 (z mod 18446744073709551616)).
  { unfold be64. now rewrite Z.mod_mod by lia. }
  rewrite E, of_be_be64 by (apply Z.mod_pos_bound; lia).
  destruct (Z.ltb_spec (z mod 18446744073709551616) 9223372036854775808);
    Z.div_mod_to_equations; lia.
Qed.

Lemma getFloat64_setFloat64 x : canonical x -> getFloat64 (setFloat64 x) = x.
Proof.
  intros [Hr Hnan]. unfold getFloat64, setFloat64.
  rewrite of_be_be64 by exact Hr. destruct x as [b]. cbn [bits_of] in *.
  unfold isNaN. destruct (Z.eqb_spec (biased_exp (F64 b)) 2047) as [E | E];
    [ | reflexivity ].
  destruct (Z.eqb_spec (mantissa (F64 b)) 0) as [M | M]; [ reflexivity | ].
  cbn [andb negb]. symmetry. now apply Hnan.
Qed.

(** ** Safe integers survive [BigInt] and [Number] *)

Lemma pow2_pos k : 0 <= k -> 0 < 2 ^ k.
Proof. intros H. apply Z.pow_pos_nonneg; lia. Qed.

Lemma pow2_split k : 0 <= k <= 52 -> 2 ^ (52 - k) * 2 ^ k = 4503599627370496.
Proof.
  intros H. rewrite <- Z.pow_add_r by lia. replace (52 - k + k) with 52 by lia.
  reflexivity.
Qed.

(** [ofZ] on a nonzero integer given as [a = m / 2^k], [m] a 53-bit
    significand. *)
Lemma roundQ_exact neg a k M :
  0 <= k <= 52 -> 0 <= M < 4503599627370496 ->
  a * 2 ^ k = 4503599627370496 + M ->
  roundQ neg a 1
  = F64 ((if neg then 9223372036854775808 else 0)
         + ((1075 - k) * 4503599627370496 + M)).
Proof.
  intros Hk HM Ha.
  pose proof (pow2_pos k ltac:(lia)) as Hp.
  pose proof (pow2_split k Hk) as Hs.
  pose proof (pow2_pos (52 - k) ltac:(lia)) as Hq.
  assert (Hlo : 2 ^ (52 - k) <= a) by nia.
  assert (Hhi : a < 2 ^ (52 - k + 1)).
  { rewrite Z.pow_add_r by lia. change (2 ^ 1) with 2. nia. }
  assert (Hlog : Z.log2 a = 52 - k).
  { apply Z.log2_unique; [ lia | split; [ exact Hlo | exact Hhi ] ]. }
  unfold roundQ.
  destruct (Z.leb_spec a 0); [ lia | ].
  rewrite Hlog. change (Z.log2 1) with 0. rewrite Z.sub_0_r.
  destruct (Z.leb_spec 0 (52 - k)); [ | lia ].
  rewrite Z.mul_1_l.
  destruct (Z.leb_spec (2 ^ (52 - k)) a); [ | lia ].
  replace (52 - k - 52) with (- k) by lia.
  rewrite Z.max_l by lia.
  assert (Enum : (if - k <? 0 then a * 2 ^ (- - k) else a) = 4503599627370496 + M).
  { destruct (Z.ltb_spec (- k) 0).
    - now rewrite Z.opp_involutive.
    - replace k with 0 in Ha by lia. change (2 ^ 0) with 1 in Ha. lia. }
  assert (Eden : (if - k <? 0 then 1 else 1 * 2 ^ (- k)) = 1).
  { destruct (Z.ltb_spec (- k) 0); [ reflexivity | ].
    replace (- k) with 0 by lia. reflexivity. }
  rewrite Enum, Eden. rewrite Z.div_1_r, Z.mul_1_r, Z.sub_diag.
  cbn [Z.ltb Z.eqb Z.mul Z.compare orb andb].
  replace ((- k + 1074) * 4503599627370496 + (4503599627370496 + M))
    with ((1075 - k) * 4503599627370496 + M) by lia.
  destruct (Z.leb_spec 9218868437227405312 ((1075 - k) * 4503599627370496 + M));
    [ lia | reflexivity ].
Qed.

Lemma bits_split b :
  0 <= b < 18446744073709551616 ->
  b = (if 9223372036854775808 <=? b then 9223372036854775808 else 0)
      + (((b / 4503599627370496) mod 2048) * 4503599627370496
         + b mod 4503599627370496).
Proof.
  intros H. destruct (Z.leb_spec 9223372036854775808 b); Z.div_mod_to_equations; lia.
Qed.

Lemma ofZ_toZ x :
  canonical x -> x <> negZero -> isSafeInteger x = true -> ofZ (toZ x) = x.
Proof.
  intros [Hr _] Hnz Hsafe. destruct x as [b]. cbn [bits_of] in Hr.
  unfold isSafeInteger, isInteger, isFinite in Hsafe.
  rewrite !andb_true_iff in Hsafe. destruct Hsafe as [[[Hfin Hint] Hmin] Hmax].
  apply Z.leb_le in Hmin, Hmax. apply negb_true_iff, Z.eqb_neq in Hfin.
  unfold MIN_SAFE_INTEGER in Hmin. unfold MAX_SAFE_INTEGER in Hmax.
  pose proof (bits_split b Hr) as Hb.
  unfold toZ, significand, exponent, sign_bit, biased_exp, mantissa in *.
  cbn [bits_of] in *.
  assert (HE : 0 <= (b / 4503599627370496) mod 2048 < 2048)
    by (apply Z.mod_pos_bound; lia).
  assert (HM : 0 <= b mod 4503599627370496 < 4503599627370496)
    by (apply Z.mod_pos_bound; lia).
  remember ((b / 4503599627370496) mod 2048) as E eqn:EE.
  remember (b mod 4503599627370496) as M eqn:EM.
  clear EE EM.
  destruct (Z.eqb_spec E 0) as [E0 | E0].
  - (* zero: the only integer with a zero exponent field *)
    destruct (Z.leb_spec 0 (-1074)); [ lia | ]. cbn [orb] in Hint.
    apply Z.eqb_eq in Hint.
    assert (Hbig : 4503599627370496 <= 2 ^ (- -1074)).
    { change 4503599627370496 with (2 ^ 52). apply Z.pow_le_mono_r; lia. }
    rewrite Z.mod_small in Hint by lia.
    rewrite Hint, E0 in Hb. rewrite Hint.
    destruct (Z.leb_spec 9223372036854775808 b).
    + exfalso. apply Hnz. unfold negZero. f_equal. lia.
    + rewrite Z.div_0_l by lia. replace b with 0 by lia. reflexivity.
  - destruct (Z.leb_spec 0 (E - 1075)) as [He | He].
    + (* exponent 0: the significand is the integer *)
      pose proof (pow2_pos (E - 1075) He) as Hp.
      assert (E1075 : E = 1075).
      { destruct (Z.eq_dec E 1075); [ assumption | exfalso ].
        assert (2 <= 2 ^ (E - 1075)).
        { change 2 with (2 ^ 1) at 1. apply Z.pow_le_mono_r; lia. }
        destruct (9223372036854775808 <=? b); nia. }
      rewrite E1075 in *. change (2 ^ (1075 - 1075)) with 1 in *.
      rewrite Z.mul_1_r in *.
      unfold ofZ. rewrite Hb at 3.
      destruct (Z.leb_spec 9223372036854775808 b).
      * replace (- (4503599627370496 + M) <? 0) with true
          by (symmetry; apply Z.ltb_lt; lia).
        rewrite Z.abs_opp, Z.abs_eq by lia.
        rewrite (roundQ_exact true _ 0 M) by (change (2 ^ 0) with 1; lia).
        reflexivity.
      * replace (4503599627370496 + M <? 0) with false
          by (symmetry; apply Z.ltb_ge; lia).
        rewrite Z.abs_eq by lia.
        rewrite (roundQ_exact false _ 0 M) by (change (2 ^ 0) with 1; lia).
        reflexivity.
    + (* negative exponent: the significand is a multiple of 2^k *)
      cbn [orb] in Hint. apply Z.eqb_eq in Hint.
      remember (- (E - 1075)) as k eqn:Ek.
      pose proof (pow2_pos k ltac:(lia)) as Hp.
      remember ((4503599627370496 + M) / 2 ^ k) as a eqn:Ea.
      assert (Ha : a * 2 ^ k = 4503599627370496 + M).
      { pose proof (Z.div_mod (4503599627370496 + M) (2 ^ k) ltac:(lia)). lia. }
      clear Ea.
      assert (Hk : k <= 52).
      { destruct (Z_le_gt_dec k 52); [ assumption | exfalso ].
        assert (2 ^ 53 <= 2 ^ k) by (apply Z.pow_le_mono_r; lia).
        change (2 ^ 53) with 9007199254740992 in *.
        assert (a <= 0) by nia. nia. }
      assert (Hapos : 0 < a) by nia.
      unfold ofZ. rewrite Hb at 3. replace E with (1075 - k) by lia.
      destruct (Z.leb_spec 9223372036854775808 b).
      * replace (- a <? 0) with true by (symmetry; apply Z.ltb_lt; lia).
        rewrite Z.abs_opp, Z.abs_eq by lia.
        now rewrite (roundQ_exact true a k M) by lia.
      * replace (a <? 0) with false by (symmetry; apply Z.ltb_ge; lia).
        rewrite Z.abs_eq by lia.
        now rewrite (roundQ_exact false a k M) by lia.
Qed.

Lemma safe_integer_in_int64 x :
  isSafeInteger x = true ->
  (Encoder.MIN_SAFE_INT64 <=? toZ x) && (toZ x <=? Encoder.MAX_SAFE_INT64) = true.
Proof.
  unfold isSafeInteger, MIN_SAFE_INTEGER, MAX_SAFE_INTEGER,
    Encoder.MIN_SAFE_INT64, Encoder.MAX_SAFE_INT64.
  rewrite !andb_true_iff, !Z.leb_le. lia.
Qed.

(** ** Reading what was written *)

Lemma mbind_ok {A B} (m : Decoder.M A) (k : A -> Decoder.M B) off a off' :
  m off = Ok (a, off') -> Decoder.mbind m k off = k a off'.
Proof. intros H. unfold Decoder.mbind. now rewrite H. Qed.

Lemma mbind_throw {A B} (m : Decoder.M A) (k : A -> Decoder.M B) off e :
  m off = Throw e -> Decoder.mbind m k off = Throw e.
Proof. intros H. unfold Decoder.mbind. now rewrite H. Qed.

Lemma mbind_ext {A B} (m : Decoder.M A) (k k' : A -> Decoder.M B) off :
  (forall a o, k a o = k' a o) -> Decoder.mbind m k off = Decoder.mbind m k' off.
Proof.
  intros H. unfold Decoder.mbind. destruct (m off) as [ [a o] | | ]; auto.
Qed.

Lemma mbind_assoc {A B C} (m : Decoder.M A) (k : A -> Decoder.M B)
  (h : B -> Decoder.M C) off :
  Decoder.mbind (Decoder.mbind m k) h off
  = Decoder.mbind m (fun a => Decoder.mbind (k a) h) off.
Proof. unfold Decoder.mbind. destruct (m off) as [ [a o] | | ]; reflexivity. Qed.

Lemma times_nat_add {A} (body : A -> Decoder.M A) n1 n2 acc off :
  times_nat (n1 + n2) body acc off
  = Decoder.mbind (times_nat n1 body acc) (times_nat n2 body) off.
Proof.
  revert acc off. induction n1 as [ | n1 IH ]; intros acc off; cbn [times_nat Nat.add].
  - reflexivity.
  - rewrite mbind_assoc. apply mbind_ext. intros a o. apply IH.
Qed.

Lemma times_pos_nat {A} (body : A -> Decoder.M A) p :
  forall acc off,
    Decoder.times_pos p body acc off = times_nat (Pos.to_nat p) body acc off.
Proof.
  induction p as [ p IH | p IH | ]; intros acc off; cbn [Decoder.times_pos].
  - rewrite Pos2Nat.inj_xI. cbn [times_nat].
    apply mbind_ext. intros a o.
    replace (2 * Pos.to_nat p)%nat with (Pos.to_nat p + Pos.to_nat p)%nat by lia.
    rewrite times_nat_add. unfold Decoder.mbind. rewrite IH.
    destruct (times_nat (Pos.to_nat p) body a o) as [ [a' o'] | | ]; auto.
  - rewrite Pos2Nat.inj_xO.
    replace (2 * Pos.to_nat p)%nat with (Pos.to_nat p + Pos.to_nat p)%nat by lia.
    rewrite times_nat_add. unfold Decoder.mbind. rewrite IH.
    destruct (times_nat (Pos.to_nat p) body acc off) as [ [a' o'] | | ]; auto.
  - change (Pos.to_nat 1) with 1%nat. cbn [times_nat].
    unfold Decoder.mbind, Decoder.ret.
    destruct (body acc off) as [ [a o] | | ]; reflexivity.
Qed.

(** The counted loop is the loop unrolled [count] times. *)
Lemma times_len {A B} (body : A -> Decoder.M A) (l : list B) acc off :
  Decoder.times (len l) body acc off = times_nat (List.length l) body acc off.
Proof.
  unfold len. destruct l as [ | x l ]; [ reflexivity | ].
  cbn [List.length]. rewrite Nat2Z.inj_succ.
  destruct (Z.succ (Z.of_nat (List.length l))) as [ | p | p ] eqn:E; try lia.
  cbn [Decoder.times]. rewrite times_pos_nat. f_equal. lia.
Qed.

Lemma ensure_at buffer pre rest n off :
  buffer = pre ++ rest -> off = len pre -> n <= len rest ->
  Decoder.ensure buffer n off = Ok (tt, off).
Proof.
  intros -> -> Hn. unfold Decoder.ensure. rewrite len_app.
  destruct (Z.ltb_spec (len pre + len rest) (len pre + n)); [ lia | reflexivity ].
Qed.

Lemma at_middle pre x rest : at_ (pre ++ x :: rest) (len pre) = x.
Proof.
  unfold at_, len. rewrite Nat2Z.id. now rewrite nth_middle.
Qed.

Lemma at_offset pre rest i :
  0 <= i -> at_ (pre ++ rest) (len pre + i) = at_ rest i.
Proof.
  intros Hi. unfold at_, len. rewrite app_nth2 by lia. f_equal. lia.
Qed.

Lemma subarray_middle pre bs rest :
  subarray (pre ++ bs ++ rest) (len pre) (len bs) = bs.
Proof.
  unfold subarray, len. rewrite !Nat2Z.id.
  rewrite skipn_app, skipn_all, Nat.sub_diag. cbn [skipn app].
  rewrite firstn_app, firstn_all, Nat.sub_diag. cbn [firstn]. apply app_nil_r.
Qed.

Lemma readU8_at buffer pre x rest off :
  buffer = pre ++ x :: rest -> off = len pre ->
  Decoder.readU8 buffer off = Ok (x, off + 1).
Proof.
  intros Hb ->. unfold Decoder.readU8.
  rewrite (mbind_ok _ _ _ tt (len pre)).
  - subst buffer. now rewrite at_middle.
  - apply (ensure_at buffer pre (x :: rest)); auto.
    rewrite len_cons. pose proof (len_nonneg rest). lia.
Qed.

Lemma readU32_at buffer pre n rest off :
  buffer = pre ++ setUint32 n ++ rest -> off = len pre -> 0 <= n < 4294967296 ->
  Decoder.readU32 buffer off = Ok (n, off + 4).
Proof.
  intros Hb -> Hn. unfold Decoder.readU32.
  rewrite (mbind_ok _ _ _ tt (len pre)).
  - subst buffer. pose proof (getUint32_setUint32 n Hn) as G.
    destruct (setUint32 n) as [ | b0 [ | b1 [ | b2 [ | b3 [ | ] ] ] ] ] eqn:E;
      try contradiction.
    cbn [app].
    rewrite at_middle, !at_offset by lia.
    change (at_ (b0 :: b1 :: b2 :: b3 :: rest) 1) with b1.
    change (at_ (b0 :: b1 :: b2 :: b3 :: rest) 2) with b2.
    change (at_ (b0 :: b1 :: b2 :: b3 :: rest) 3) with b3.
    now rewrite G.
  - apply (ensure_at buffer pre (setUint32 n ++ rest)); auto.
    rewrite len_app, len_setUint32. pose proof (len_nonneg rest). lia.
Qed.

Lemma readI64_at buffer pre z rest off :
  buffer = pre ++ setBigInt64 z ++ rest -> off = len pre ->
  -9223372036854775808 <= z <= 9223372036854775807 ->
  Decoder.readI64 buffer off = Ok (z, off + 8).
Proof.
  intros Hb -> Hz. unfold Decoder.readI64.
  rewrite (mbind_ok _ _ _ tt (len pre)).
  - subst buffer. change 8 with (len (setBigInt64 z)) at 1.
    now rewrite subarray_middle, getBigInt64_setBigInt64.
  - apply (ensure_at buffer pre (setBigInt64 z ++ rest)); auto.
    rewrite len_app. change (len (setBigInt64 z)) with 8.
    pose proof (len_nonneg rest). lia.
Qed.

Lemma readF64_at buffer pre x rest off :
  buffer = pre ++ setFloat64 x ++ rest -> off = len pre -> canonical x ->
  Decoder.readF64 buffer off = Ok (x, off + 8).
Proof.
  intros Hb -> Hx. unfold Decoder.readF64.
  rewrite (mbind_ok _ _ _ tt (len pre)).
  - subst buffer. change 8 with (len (setFloat64 x)) at 1.
    now rewrite subarray_middle, getFloat64_setFloat64.
  - apply (ensure_at buffer pre (setFloat64 x ++ rest)); auto.
    rewrite len_app. change (len (setFloat64 x)) with 8.
    pose proof (len_nonneg rest). lia.
Qed.

Lemma readBytes_at buffer pre bs rest off :
  buffer = pre ++ bs ++ rest -> off = len pre ->
  Decoder.readBytes buffer (len bs) off = Ok (bs, off + len bs).
Proof.
  intros Hb ->. unfold Decoder.readBytes.
  rewrite (mbind_ok _ _ _ tt (len pre)).
  - subst buffer. now rewrite subarray_middle.
  - apply (ensure_at buffer pre (bs ++ rest)); auto.
    rewrite len_app. pose proof (len_nonneg rest). lia.
Qed.

(** A length-prefixed text: the length, the bytes, the decoded string. *)
Lemma read_text_at buffer pre s rest off maxStr :
  buffer = pre ++ setUint32 (len (encodeUtf8 s)) ++ encodeUtf8 s ++ rest ->
  off = len pre -> plain_text maxStr s ->
  Decoder.readU32 buffer off = Ok (len (encodeUtf8 s), off + 4)
  /\ (maxStr <? len (encodeUtf8 s)) = false
  /\ Decoder.readBytes buffer (len (encodeUtf8 s)) (off + 4)
     = Ok (encodeUtf8 s, off + 4 + len (encodeUtf8 s))
  /\ TextDecoder_decode (encodeUtf8 s) = Some s.
Proof.
  intros Hb Hoff (Hwf & Hbom & Hmax & H32).
  pose proof (len_nonneg (encodeUtf8 s)).
  split; [ | split; [ | split ] ].
  - apply (readU32_at buffer pre _ (encodeUtf8 s ++ rest)); auto; lia.
  - apply Z.ltb_ge. lia.
  - apply (readBytes_at buffer (pre ++ setUint32 (len (encodeUtf8 s))) _ rest).
    + subst buffer. now rewrite <- app_assoc.
    + rewrite len_app, len_setUint32. lia.
  - now apply TextDecoder_encodeUtf8.
Qed.

(** ** Decoding what the encoder wrote *)

(** The dispatch of [decodeValue] once the tag byte is known. *)
Lemma decodeValue_tag buffer maxDepth maxStr dictionary fuel d pre tag rest off :
  buffer = pre ++ tag :: rest -> off = len pre -> d <= maxDepth ->
  Decoder.decodeValue buffer maxDepth maxStr dictionary (Datatypes.S fuel) d off
  = (if tag =? 1 then Decoder.ret (primitive VNull)
     else if tag =? 2 then Decoder.ret (primitive (VBool false))
     else if tag =? 3 then Decoder.ret (primitive (VBool true))
     else if tag =? 4 then
       Decoder.mbind (Decoder.readI64 buffer)
         (fun big => Decoder.ret (primitive (VNumber (ofZ big))))
     else if tag =? 5 then
       Decoder.mbind (Decoder.readF64 buffer)
         (fun x => Decoder.ret (primitive (VNumber x)))
     else if tag =? 6 then
       Decoder.mbind (Decoder.readU32 buffer) (fun len_ =>
       if maxStr <? len_ then Decoder.fail [T "String too long"]
       else Decoder.mbind (Decoder.readBytes buffer len_) (fun bs =>
            Decoder.mbind (Decoder.decodeUtf8 bs)
              (fun s => Decoder.ret (primitive (VString s)))))
     else if tag =? 7 then
       Decoder.fail [T "Binary type not supported in this version"]
     else if tag =? 16 then
       Decoder.mbind (Decoder.readU32 buffer) (fun count =>
       Decoder.mbind
         (Decoder.times count
            (fun arr =>
               Decoder.mbind
                 (Decoder.decodeValue buffer maxDepth maxStr dictionary fuel (d + 1))
                 (fun v => Decoder.ret (arr ++ [value_of v]))) [])
         (fun arr => Decoder.ret (ofArray arr)))
     else if tag =? 17 then
       Decoder.mbind (Decoder.readU32 buffer) (fun count =>
       Decoder.mbind
         (Decoder.times count
            (Decoder.decodeEntry buffer dictionary
               (Decoder.decodeValue buffer maxDepth maxStr dictionary fuel (d + 1)))
            emptyObject)
         (fun obj => Decoder.ret (ofObject obj)))
     else Decoder.fail [T "Unknown type tag: 0x"; N tag]) (off + 1).
Proof.
  intros Hb Hoff Hd. cbn [Decoder.decodeValue].
  destruct (Z.ltb_spec maxDepth d); [ lia | ].
  rewrite (mbind_ok _ _ _ tt off).
  - rewrite (mbind_ok _ _ _ tag (off + 1)); [ reflexivity | ].
    now apply (readU8_at buffer pre tag rest).
  - apply (ensure_at buffer pre (tag :: rest)); auto.
    rewrite len_cons. pose proof (len_nonneg rest). lia.
Qed.

Lemma decodeValue_too_deep buffer maxDepth maxStr dictionary fuel d off :
  (1 <= fuel)%nat -> maxDepth < d ->
  Decoder.decodeValue buffer maxDepth maxStr dictionary fuel d off
  = Throw (KodaDecodeError [T "Maximum nesting depth exceeded"] off).
Proof.
  intros Hf Hd. destruct fuel as [ | fuel ]; [ lia | ].
  cbn [Decoder.decodeValue]. destruct (Z.ltb_spec maxDepth d); [ reflexivity | lia ].
Qed.

(** A scalar (a value of depth 0) whose bytes decode to an equal value. *)
Lemma Decodes_scalar maxDepth maxStr dictionary x out :
  depth x = 0 ->
  (forall pre post fuel d,
      d <= maxDepth ->
      exists v',
        Decoder.decodeValue (pre ++ out ++ post) maxDepth maxStr dictionary
          (Datatypes.S fuel) d (len pre) = Ok (v', len pre + len out)
        /\ veq x v') ->
  Decodes maxDepth maxStr dictionary x out.
Proof.
  intros Hx H pre post fuel d Hf Hfuel. rewrite Hx. split.
  - intros Hd. destruct fuel as [ | fuel ]; [ lia | ]. apply H. lia.
  - intros Hd. eexists. apply decodeValue_too_deep; [ exact Hf | lia ].
Qed.

Lemma Decodes_null maxDepth maxStr dictionary :
  Decodes maxDepth maxStr dictionary VNull [1].
Proof.
  apply Decodes_scalar; [ reflexivity | ]. intros pre post fuel d Hd.
  exists (primitive VNull). split; [ | constructor ].
  rewrite (decodeValue_tag _ _ _ _ _ _ pre 1 post (len pre)); auto.
Qed.

Lemma Decodes_bool maxDepth maxStr dictionary b :
  Decodes maxDepth maxStr dictionary (VBool b) [if b then 3 else 2].
Proof.
  apply Decodes_scalar; [ reflexivity | ]. intros pre post fuel d Hd.
  exists (primitive (VBool b)). split; [ | constructor ].
  rewrite (decodeValue_tag _ _ _ _ _ _ pre (if b then 3 else 2) post (len pre)); auto.
  destruct b; reflexivity.
Qed.

Lemma Decodes_integer maxDepth maxStr dictionary n :
  canonical n -> n <> negZero -> isSafeInteger n = true ->
  Decodes maxDepth maxStr dictionary (VNumber n) ([4] ++ setBigInt64 (toZ n)).
Proof.
  intros Hc Hnz Hsafe.
  apply Decodes_scalar; [ reflexivity | ]. intros pre post fuel d Hd.
  exists (primitive (VNumber n)). split; [ | constructor ].
  rewrite (decodeValue_tag _ _ _ _ _ _ pre 4 (setBigInt64 (toZ n) ++ post) (len pre));
    auto.
  cbn [Z.eqb Pos.eqb].
  rewrite (mbind_ok _ _ _ (toZ n) (len pre + 1 + 8)).
  - unfold Decoder.ret. rewrite ofZ_toZ by assumption.
    rewrite len_app. do 2 f_equal. change (len (setBigInt64 (toZ n))) with 8.
    change (len [4]) with 1. lia.
  - apply (readI64_at _ (pre ++ [4]) (toZ n) post).
    + now rewrite <- !app_assoc.
    + rewrite len_app. reflexivity.
    + pose proof (safe_integer_in_int64 n Hsafe) as H.
      apply andb_true_iff in H as [H1 H2]. apply Z.leb_le in H1, H2.
      unfold Encoder.MIN_SAFE_INT64, Encoder.MAX_SAFE_INT64 in *. lia.
Qed.

Lemma Decodes_float maxDepth maxStr dictionary n :
  canonical n ->
  Decodes maxDepth maxStr dictionary (VNumber n) ([5] ++ setFloat64 n).
Proof.
  intros Hc.
  apply Decodes_scalar; [ reflexivity | ]. intros pre post fuel d Hd.
  exists (primitive (VNumber n)). split; [ | constructor ].
  rewrite (decodeValue_tag _ _ _ _ _ _ pre 5 (setFloat64 n ++ post) (len pre)); auto.
  cbn [Z.eqb Pos.eqb].
  rewrite (mbind_ok _ _ _ n (len pre + 1 + 8)).
  - unfold Decoder.ret. rewrite len_app. do 2 f_equal.
    change (len (setFloat64 n)) with 8. change (len [5]) with 1. lia.
  - apply (readF64_at _ (pre ++ [5]) n post).
    + now rewrite <- !app_assoc.
    + rewrite len_app. reflexivity.
    + exact Hc.
Qed.

Lemma Decodes_string maxDepth maxStr dictionary s :
  plain_text maxStr s ->
  Decodes maxDepth maxStr dictionary (VString s)
    ([6] ++ setUint32 (len (encodeUtf8 s)) ++ encodeUtf8 s).
Proof.
  intros Hs.
  apply Decodes_scalar; [ reflexivity | ]. intros pre post fuel d Hd.
  exists (primitive (VString s)). split; [ | constructor ].
  rewrite (decodeValue_tag _ _ _ _ _ _ pre 6
             (setUint32 (len (encodeUtf8 s)) ++ encodeUtf8 s ++ post) (len pre)); auto.
  cbn [Z.eqb Pos.eqb].
  destruct (read_text_at (pre ++ [6] ++ (setUint32 (len (encodeUtf8 s)) ++ encodeUtf8 s) ++ post)
              (pre ++ [6]) s post (len pre + 1) maxStr) as (R1 & R2 & R3 & R4).
  { now rewrite <- !app_assoc. }
  { rewrite len_app. reflexivity. }
  { exact Hs. }
  rewrite (mbind_ok _ _ _ _ _ R1). rewrite R2.
  rewrite (mbind_ok _ _ _ _ _ R3).
  unfold Decoder.mbind, Decoder.decodeUtf8, Decoder.ret. rewrite R4.
  rewrite !len_app, len_setUint32. do 2 f_equal. change (len [6]) with 1. lia.
Qed.

Lemma forEach_outs {A} (f : A -> bytes -> result bytes) (D : A -> bytes -> Prop)
  items :
  (forall x, In x items -> forall b b',
      f x b = Ok b' -> exists out, b' = b ++ out /\ D x out) ->
  forall b b',
    forEach f items b = Ok b' ->
    exists outs, b' = b ++ concat outs /\ Forall2 D items outs.
Proof.
  induction items as [ | x items IH ]; intros H b b' E; cbn [forEach] in E.
  - injection E as <-. exists []. cbn. now rewrite app_nil_r.
  - destruct (f x b) as [ b1 | | ] eqn:E1; cbn [bind] in E; try discriminate.
    destruct (H x (or_introl eq_refl) _ _ E1) as (out & -> & HD).
    destruct (IH (fun y Hy => H y (or_intror Hy)) _ _ E) as (outs & -> & HF).
    exists (out :: outs). cbn [concat]. rewrite app_assoc. split; [ reflexivity | ].
    now constructor.
Qed.

(** The element loop of an array, on the encodings of its elements. *)
Lemma decode_items maxDepth maxStr dictionary items outs :
  Forall2 (Decodes maxDepth maxStr dictionary) items outs ->
  forall buffer pre post fuel d acc,
    buffer = pre ++ concat outs ++ post ->
    (1 <= fuel)%nat -> maxDepth - (d + 1) + 2 <= Z.of_nat fuel ->
    (Forall (fun x => d + 1 + depth x <= maxDepth) items ->
     exists vs,
       times_nat (List.length items)
         (fun arr =>
            Decoder.mbind
              (Decoder.decodeValue buffer maxDepth maxStr dictionary fuel (d + 1))
              (fun v => Decoder.ret (arr ++ [value_of v]))) acc (len pre)
       = Ok (acc ++ vs, len pre + len (concat outs))
       /\ Forall2 veq items vs)
    /\ (~ Forall (fun x => d + 1 + depth x <= maxDepth) items ->
        exists off,
          times_nat (List.length items)
            (fun arr =>
               Decoder.mbind
                 (Decoder.decodeValue buffer maxDepth maxStr dictionary fuel (d + 1))
                 (fun v => Decoder.ret (arr ++ [value_of v]))) acc (len pre)
          = Throw (KodaDecodeError [T "Maximum nesting depth exceeded"] off)).
Proof.
  induction 1 as [ | x out items outs Hx HF IH ];
    intros buffer pre post fuel d acc Hb Hf Hfuel.
  - split.
    + intros _. exists []. cbn. rewrite app_nil_r, Z.add_0_r. split; [ reflexivity | constructor ].
    + intros Hn. exfalso. apply Hn. constructor.
  - cbn [concat] in Hb. rewrite <- app_assoc in Hb.
    destruct (Hx pre (concat outs ++ post) fuel (d + 1) Hf Hfuel) as [Hok Hbad].
    rewrite <- Hb in Hok, Hbad.
    cbn [List.length times_nat].
    destruct (Z_le_gt_dec (d + 1 + depth x) maxDepth) as [Hle | Hgt].
    + destruct (Hok Hle) as (v' & E & Hv).
      destruct (IH buffer (pre ++ out) post fuel d (acc ++ [value_of v'])
                  ltac:(now rewrite <- app_assoc) Hf Hfuel) as [IHok IHbad].
      rewrite len_app in IHok, IHbad.
      assert (Estep : forall k : list KodaValue -> Decoder.M (list KodaValue),
                 Decoder.mbind
                   (Decoder.mbind
                      (Decoder.decodeValue buffer maxDepth maxStr dictionary fuel (d + 1))
                      (fun v => Decoder.ret (acc ++ [value_of v]))) k (len pre)
                 = k (acc ++ [value_of v']) (len pre + len out)).
      { intros k. unfold Decoder.mbind at 1 2. now rewrite E. }
      rewrite Estep. split.
      * intros HA. apply Forall_cons_iff in HA as [Hhd Htl].
        destruct (IHok Htl) as (vs & E2 & Hvs).
        exists (value_of v' :: vs). rewrite E2. cbn [concat]. rewrite len_app, <- app_assoc.
        split; [ do 2 f_equal; lia | now constructor ].
      * intros HA. apply IHbad. intros HA'. apply HA. now constructor.
    + destruct (Hbad ltac:(lia)) as (off & E). split.
      * intros HA. apply Forall_cons_iff in HA as [Hhd Htl]. lia.
      * intros _. exists off. unfold Decoder.mbind at 1 2. now rewrite E.
Qed.

(** The entry loop of an object, on the encodings of its properties. *)
Lemma decode_entries maxDepth maxStr dictionary props keys outs :
  Forall2 (entry_of maxDepth maxStr dictionary props) keys outs ->
  NoDup keys ->
  Forall (fun key => key <> PROTO) keys ->
  forall buffer pre post fuel d (acc : JSObject),
    buffer = pre ++ concat outs ++ post ->
    (1 <= fuel)%nat -> maxDepth - (d + 1) + 2 <= Z.of_nat fuel ->
    (forall key, In key keys -> assoc_get key acc = None) ->
    (Forall (fun key => forall x, assoc_get key props = Some x ->
                                  d + 1 + depth x <= maxDepth) keys ->
     exists vs,
       times_nat (List.length keys)
         (Decoder.decodeEntry buffer dictionary
            (Decoder.decodeValue buffer maxDepth maxStr dictionary fuel (d + 1)))
         acc (len pre)
       = Ok ({| own := own acc ++ vs; inherits := inherits acc |},
             len pre + len (concat outs))
       /\ Forall2 (fun key p => fst p = key /\
                    exists x, assoc_get key props = Some x /\ veq x (snd p)) keys vs)
    /\ (~ Forall (fun key => forall x, assoc_get key props = Some x ->
                                       d + 1 + depth x <= maxDepth) keys ->
        exists off,
          times_nat (List.length keys)
            (Decoder.decodeEntry buffer dictionary
               (Decoder.decodeValue buffer maxDepth maxStr dictionary fuel (d + 1)))
            acc (len pre)
          = Throw (KodaDecodeError [T "Maximum nesting depth exceeded"] off)).
Proof.
  induction 1 as [ | key out keys outs Hk HF IH ];
    intros Hnd Hnp buffer pre post fuel d acc Hb Hf Hfuel Hfresh.
  - split.
    + intros _. exists []. cbn. rewrite app_nil_r, Z.add_0_r.
      split; [ now destruct acc | constructor ].
    + intros Hn. exfalso. apply Hn. constructor.
  - destruct Hk as (idx & x & body & -> & Hidx & H32 & Hnth & Gx & HD).
    apply NoDup_cons_iff in Hnd as [Hnotin Hnd'].
    apply Forall_cons_iff in Hnp as [Hkey Hnp'].
    cbn [concat] in Hb. rewrite <- !app_assoc in Hb.
    assert (R1 : Decoder.readU32 buffer (len pre) = Ok (idx, len pre + 4)).
    { apply (readU32_at buffer pre idx (body ++ concat outs ++ post)); auto. lia. }
    destruct (HD (pre ++ setUint32 idx) (concat outs ++ post) fuel (d + 1) Hf Hfuel)
      as [Hok Hbad].
    rewrite <- !app_assoc, <- Hb in Hok, Hbad.
    rewrite len_app, len_setUint32 in Hok, Hbad.
    cbn [List.length times_nat].
    assert (Hhead : forall k : JSObject -> Decoder.M JSObject,
               Decoder.mbind
                 (Decoder.decodeEntry buffer dictionary
                    (Decoder.decodeValue buffer maxDepth maxStr dictionary fuel (d + 1))
                    acc) k (len pre)
               = Decoder.mbind
                   (Decoder.decodeValue buffer maxDepth maxStr dictionary fuel (d + 1))
                   (fun v => k {| own := assoc_set key (value_of v) (own acc);
                                  inherits := inherits acc |})
                   (len pre + 4)).
    { intros k. unfold Decoder.decodeEntry. rewrite mbind_assoc.
      rewrite (mbind_ok _ _ _ _ _ R1).
      destruct (Z.leb_spec (len dictionary) idx); [ lia | ].
      rewrite mbind_assoc. apply mbind_ext. intros v o.
      now rewrite Hnth, (Object_set_other key v acc Hkey). }
    rewrite Hhead.
    destruct (Z_le_gt_dec (d + 1 + depth x) maxDepth) as [Hle | Hgt].
    + destruct (Hok Hle) as (v' & E & Hv).
      rewrite (mbind_ok _ _ _ _ _ E).
      rewrite assoc_set_fresh by (apply Hfresh; now left).
      destruct (IH Hnd' Hnp' buffer (pre ++ setUint32 idx ++ body) post fuel d
                  {| own := own acc ++ [(key, value_of v')]; inherits := inherits acc |}
                  ltac:(now rewrite <- !app_assoc) Hf Hfuel) as [IHok IHbad].
      { intros k Hk. apply assoc_get_none. cbn [own]. rewrite map_app, in_app_iff. cbn.
        intros [ Hin | [ Heq | [] ] ]; [ | subst k ].
        - apply assoc_get_none in Hin; [ exact Hin | ]. apply Hfresh. now right.
        - contradiction. }
      rewrite !len_app, len_setUint32 in IHok, IHbad.
      replace (len pre + (4 + len body)) with (len pre + 4 + len body) in IHok, IHbad
        by lia.
      split.
      * intros HA. apply Forall_cons_iff in HA as [Hhd Htl].
        destruct (IHok Htl) as (vs & E2 & Hvs).
        exists ((key, value_of v') :: vs). rewrite E2. cbn [own inherits].
        cbn [concat]. rewrite !len_app, len_setUint32, <- app_assoc.
        split; [ do 2 f_equal; lia | ].
        constructor; [ | exact Hvs ]. cbn. split; [ reflexivity | ]. eauto.
      * intros HA. apply IHbad. intros HA'. apply HA. constructor; [ | exact HA' ].
        intros y Gy. rewrite Gx in Gy. injection Gy as <-. exact Hle.
    + destruct (Hbad ltac:(lia)) as (off & E). split.
      * intros HA. apply Forall_cons_iff in HA as [Hhd Htl].
        specialize (Hhd x Gx). lia.
      * intros _. exists off. now rewrite (mbind_throw _ _ _ _ E).
Qed.

Lemma props_by_keys (props : list (jsstring * KodaValue)) keys :
  NoDup (map fst props) -> Permutation keys (map fst props) ->
  Permutation props
    (map (fun k => (k, match assoc_get k props with Some x => x | None => VNull end))
         keys).
Proof.
  intros Hnd Hp.
  assert (E : map (fun k => (k, match assoc_get k props with
                                | Some x => x | None => VNull end)) (map fst props)
              = props).
  { rewrite map_map. transitivity (map (fun p : jsstring * KodaValue => p) props);
      [ | apply map_id ].
    apply map_ext_in.
    intros [k x] Hin. cbn [fst]. now rewrite (assoc_get_nodup _ _ _ Hnd Hin). }
  rewrite <- E at 1. apply Permutation_map. now symmetry.
Qed.

Lemma Forall2_map_l {A B C} (R : B -> C -> Prop) (g : A -> B) l l' :
  Forall2 (fun a c => R (g a) c) l l' -> Forall2 R (map g l) l'.
Proof. induction 1; cbn; constructor; auto. Qed.

Lemma plain_keys_ok maxStr v : plain maxStr v -> keys_ok v.
Proof.
  induction v as [ | b | n | s | items IH | props IH ] using KodaValue_ind;
    intros H; try constructor.
  - inversion H as [ | | | | ? ? Hitems | ]; subst.
    rewrite Forall_forall in *. auto.
  - inversion H as [ | | | | | ? ? Hnd Hprops ]; subst. exact Hnd.
  - inversion H as [ | | | | | ? ? Hnd Hprops ]; subst.
    rewrite Forall_forall in *. intros p Hp. destruct (Hprops p Hp) as [Ht Hv].
    split; [ apply Ht | auto ].
Qed.

Lemma plain_keys maxStr v :
  plain maxStr v -> Forall (plain_text maxStr) (keysOf v).
Proof.
  induction v as [ | b | n | s | items IH | props IH ] using KodaValue_ind;
    intros H; cbn [keysOf]; try constructor.
  - inversion H as [ | | | | ? ? Hitems | ]; subst.
    rewrite Forall_forall in *. intros k Hk.
    apply in_flat_map in Hk as (x & Hx & Hk).
    specialize (IH x Hx (Hitems x Hx)). rewrite Forall_forall in IH. auto.
  - inversion H as [ | | | | | ? ? Hnd Hprops ]; subst.
    rewrite Forall_forall in *. intros k Hk.
    apply in_flat_map in Hk as (p & Hp & Hk).
    destruct (Hprops p Hp) as [Ht Hv].
    destruct Hk as [ <- | Hk ]; [ exact Ht | ].
    specialize (IH p Hp Hv). rewrite Forall_forall in IH. auto.
Qed.

(** Whatever the encoder writes for a plain value, the decoder reads back. *)
Lemma encodeValue_decodes mE keyToIndex mD maxStr dictionary :
  indexed keyToIndex dictionary ->
  forall v, plain maxStr v ->
  forall dE buf buf',
    Encoder.encodeValue mE keyToIndex v dE buf = Ok buf' ->
    exists out, buf' = buf ++ out /\ Decodes mD maxStr dictionary v out.
Proof.
  intros Hidx.
  induction v as [ | b | n | s | items IH | props IH ] using KodaValue_ind;
    intros Hp dE buf buf' E; rewrite encodeValue_unfold in E;
    (destruct (mE <? dE); [ discriminate | ]).
  - injection E as <-. exists [1]. split; [ reflexivity | apply Decodes_null ].
  - exists [if b then 3 else 2]. split; [ | apply Decodes_bool ].
    destruct b; injection E as <-; reflexivity.
  - inversion Hp as [ | | ? Hc Hnz | | | ]; subst.
    destruct (isSafeInteger n) eqn:Hs.
    + cbn [andb] in E. rewrite (safe_integer_in_int64 n Hs) in E.
      injection E as <-. exists ([4] ++ setBigInt64 (toZ n)).
      unfold Encoder.write, Encoder.writeByte. rewrite <- app_assoc.
      split; [ reflexivity | now apply Decodes_integer ].
    + cbn [andb] in E. injection E as <-. exists ([5] ++ setFloat64 n).
      unfold Encoder.write, Encoder.writeByte. rewrite <- app_assoc.
      split; [ reflexivity | now apply Decodes_float ].
  - inversion Hp as [ | | | ? Hs | | ]; subst. injection E as <-.
    exists ([6] ++ setUint32 (len (encodeUtf8 s)) ++ encodeUtf8 s).
    unfold Encoder.write, Encoder.writeByte. rewrite <- !app_assoc.
    split; [ reflexivity | now apply Decodes_string ].
  - inversion Hp as [ | | | | ? H32 Hitems | ]; subst.
    unfold Encoder.write, Encoder.writeByte in E.
    assert (Hstep : forall x, In x items -> forall b b',
               Encoder.encodeValue mE keyToIndex x (dE + 1) b = Ok b' ->
               exists out, b' = b ++ out /\ Decodes mD maxStr dictionary x out).
    { intros x Hx b b' Eb. rewrite Forall_forall in IH, Hitems.
      exact (IH x Hx (Hitems x Hx) _ _ _ Eb). }
    destruct (forEach_outs _ (Decodes mD maxStr dictionary) items Hstep _ _ E)
      as (outs & -> & HF).
    exists ([16] ++ setUint32 (len items) ++ concat outs).
    split; [ now rewrite <- !app_assoc | ].
    intros pre post fuel d Hf Hfuel.
    destruct (Z_lt_ge_dec mD d) as [Hd | Hd].
    { pose proof (depth_nonneg (VArray items)). split; [ lia | ].
      intros _. eexists. now apply decodeValue_too_deep. }
    destruct fuel as [ | fuel ]; [ lia | ].
    rewrite (decodeValue_tag _ _ _ _ _ _ pre 16
               (setUint32 (len items) ++ concat outs ++ post) (len pre));
      [ | now rewrite <- !app_assoc | reflexivity | lia ].
    cbn [Z.eqb Pos.eqb].
    pose proof (len_nonneg items) as Hlen.
    rewrite (mbind_ok _ _ _ (len items) (len pre + 1 + 4)).
    2: { apply (readU32_at _ (pre ++ [16]) (len items) (concat outs ++ post)).
         - now rewrite <- !app_assoc.
         - rewrite len_app. reflexivity.
         - lia. }
    destruct (decode_items mD maxStr dictionary items outs HF
                (pre ++ ([16] ++ setUint32 (len items) ++ concat outs) ++ post)
                (pre ++ [16] ++ setUint32 (len items)) post fuel d []
                ltac:(now rewrite <- !app_assoc) ltac:(lia) ltac:(lia))
      as [Hok Hbad].
    rewrite !len_app, len_setUint32 in Hok, Hbad. change (len [16]) with 1 in *.
    replace (len pre + (1 + 4)) with (len pre + 1 + 4) in Hok, Hbad by lia.
    assert (Hiff : Forall (fun x => d + 1 + depth x <= mD) items
                   <-> d + depth (VArray items) <= mD).
    { assert (H' : depth (VArray items) <= mD - d
                   <-> 0 <= mD - d /\ Forall (fun x => 1 + depth x <= mD - d) items)
        by apply depth_array_le.
      rewrite !Forall_forall in *. split.
      - intros H. assert (depth (VArray items) <= mD - d); [ | lia ].
        apply H'. split; [ lia | ]. intros x Hx. specialize (H x Hx). lia.
      - intros H x Hx. destruct H' as [H' _].
        destruct (H' ltac:(lia)) as [_ H'']. specialize (H'' x Hx). lia. }
    split.
    + intros Hle. destruct (Hok (proj2 Hiff Hle)) as (vs & Ev & Hvs).
      exists (ofArray vs). split; [ | now constructor ].
      unfold Decoder.mbind at 1. rewrite times_len, Ev.
      unfold Decoder.ret. cbn [app]. do 2 f_equal.
        rewrite len_cons, len_app, len_setUint32. lia.
    + intros Hgt. destruct Hbad as (off & Ev).
      { intros HA. apply Hiff in HA. lia. }
      exists off. unfold Decoder.mbind at 1. now rewrite times_len, Ev.
  - inversion Hp as [ | | | | | ? H32 Hnd Hprops Hproto ]; subst.
    unfold Encoder.write, Encoder.writeByte in E.
    set (keys := sort Encoder.compareKeys (Object_keys props)) in *.
    assert (Hperm : Permutation keys (map fst props)) by apply sort_perm.
    assert (Hlenk : len keys = len props).
    { unfold len, keys, Object_keys. now rewrite sort_length, length_map. }
    assert (Hstep : forall key, In key keys -> forall b b',
               Encoder.encodeProperty keyToIndex
                 (map (fun p => (fst p, Encoder.encodeValue mE keyToIndex (snd p))) props)
                 dE key b = Ok b' ->
               exists out, b' = b ++ out /\ entry_of mD maxStr dictionary props key out).
    { intros key Hkey b b' Eb. unfold Encoder.encodeProperty in Eb.
      destruct (assoc_get key keyToIndex) as [ idx | ] eqn:Gi; [ | discriminate ].
      rewrite assoc_get_map in Eb.
      destruct (assoc_get key props) as [ x | ] eqn:Gx; cbn [option_map] in Eb;
        [ | discriminate ].
      pose proof (assoc_get_in _ _ _ Gx) as Hx.
      rewrite Forall_forall in IH, Hprops.
      destruct (IH _ Hx (proj2 (Hprops _ Hx)) _ _ _ Eb) as (body & -> & HD).
      cbn [snd] in HD.
      exists (setUint32 idx ++ body). unfold Encoder.write.
      split; [ now rewrite <- app_assoc | ].
      destruct (Hidx _ _ Gi) as (Hi & H32' & Hnth).
      exists idx, x, body.
      split; [ reflexivity | ]. split; [ exact Hi | ]. split; [ exact H32' | ].
      split; [ exact Hnth | ]. split; [ exact Gx | exact HD ]. }
    destruct (forEach_outs _ (entry_of mD maxStr dictionary props) keys Hstep _ _ E)
      as (outs & -> & HF).
    exists ([17] ++ setUint32 (len keys) ++ concat outs).
    split; [ now rewrite <- !app_assoc | ].
    intros pre post fuel d Hf Hfuel.
    destruct (Z_lt_ge_dec mD d) as [Hd | Hd].
    { pose proof (depth_nonneg (VObject props)). split; [ lia | ].
      intros _. eexists. now apply decodeValue_too_deep. }
    destruct fuel as [ | fuel ]; [ lia | ].
    rewrite (decodeValue_tag _ _ _ _ _ _ pre 17
               (setUint32 (len keys) ++ concat outs ++ post) (len pre));
      [ | now rewrite <- !app_assoc | reflexivity | lia ].
    cbn [Z.eqb Pos.eqb].
    pose proof (len_nonneg props) as Hlen.
    rewrite (mbind_ok _ _ _ (len keys) (len pre + 1 + 4)).
    2: { apply (readU32_at _ (pre ++ [17]) (len keys) (concat outs ++ post)).
         - now rewrite <- !app_assoc.
         - rewrite len_app. reflexivity.
         - lia. }
    assert (Hndk : NoDup keys).
    { eapply Permutation_NoDup; [ symmetry; exact Hperm | exact Hnd ]. }
    assert (Hnpk : Forall (fun key => key <> PROTO) keys).
    { rewrite Forall_forall in *. intros key Hkey.
      apply (Permutation_in _ Hperm) in Hkey. apply in_map_iff in Hkey.
      destruct Hkey as (p & <- & Hp'). now apply Hproto. }
    destruct (decode_entries mD maxStr dictionary props keys outs HF Hndk Hnpk
                (pre ++ ([17] ++ setUint32 (len keys) ++ concat outs) ++ post)
                (pre ++ [17] ++ setUint32 (len keys)) post fuel d emptyObject
                ltac:(now rewrite <- !app_assoc) ltac:(lia) ltac:(lia)
                ltac:(reflexivity))
      as [Hok Hbad].
    rewrite !len_app, len_setUint32 in Hok, Hbad. change (len [17]) with 1 in *.
    replace (len pre + (1 + 4)) with (len pre + 1 + 4) in Hok, Hbad by lia.
    assert (Hiff : Forall (fun key => forall x, assoc_get key props = Some x ->
                                      d + 1 + depth x <= mD) keys
                   <-> d + depth (VObject props) <= mD).
    { assert (H' : depth (VObject props) <= mD - d
                   <-> 0 <= mD - d
                       /\ Forall (fun p => 1 + depth (snd p) <= mD - d) props)
        by apply depth_object_le.
      rewrite !Forall_forall in *. split.
      - intros H. assert (depth (VObject props) <= mD - d); [ | lia ].
        apply H'. split; [ lia | ]. intros [k x] Hx. cbn [snd].
        assert (Hk : In k keys).
        { eapply Permutation_in; [ symmetry; exact Hperm | ].
          change k with (fst (k, x)). now apply in_map. }
        specialize (H k Hk x (assoc_get_nodup _ _ _ Hnd Hx)). lia.
      - intros H key Hkey x Gx. destruct H' as [H' _].
        destruct (H' ltac:(lia)) as [_ H''].
        specialize (H'' (key, x) (assoc_get_in _ _ _ Gx)). cbn [snd] in H''. lia. }
    split.
    + intros Hle. destruct (Hok (proj2 Hiff Hle)) as (vs & Ev & Hvs).
      exists (ofObject {| own := vs; inherits := true |}). split.
      * unfold Decoder.mbind at 1. rewrite times_len, Ev.
        unfold Decoder.ret. cbn [app own inherits emptyObject]. do 2 f_equal.
        rewrite len_cons, len_app, len_setUint32. lia.
      * eapply veq_object; [ exact (props_by_keys props keys Hnd Hperm) | ].
        apply Forall2_map_l. eapply Forall2_impl; [ | exact Hvs ].
        intros key [k v'] (Ek & x & Gx & Hv). cbn [fst snd] in *. subst k.
        rewrite Gx. auto.
    + intros Hgt. destruct Hbad as (off & Ev).
      { intros HA. apply Hiff in HA. lia. }
      exists off. unfold Decoder.mbind at 1. now rewrite times_len, Ev.
Qed.

(** The dictionary loop of the decoder, on the dictionary the encoder wrote. *)
Lemma read_keys maxStr ks :
  Forall (plain_text maxStr) ks ->
  forall buffer pre post acc,
    buffer = pre ++ flat_map (fun k => setUint32 (len (encodeUtf8 k)) ++ encodeUtf8 k) ks
                 ++ post ->
    times_nat (List.length ks) (Decoder.readKey buffer maxStr) acc (len pre)
    = Ok (acc ++ ks,
          len pre + len (flat_map (fun k => setUint32 (len (encodeUtf8 k)) ++ encodeUtf8 k) ks)).
Proof.
  induction 1 as [ | k ks Hk HF IH ]; intros buffer pre post acc Hb.
  - cbn. now rewrite app_nil_r, Z.add_0_r.
  - cbn [flat_map] in Hb. rewrite <- !app_assoc in Hb.
    destruct (read_text_at buffer pre k
                (flat_map (fun k => setUint32 (len (encodeUtf8 k)) ++ encodeUtf8 k) ks ++ post)
                (len pre) maxStr Hb eq_refl Hk) as (R1 & R2 & R3 & R4).
    cbn [List.length times_nat flat_map].
    assert (Estep : Decoder.readKey buffer maxStr acc (len pre)
                    = Ok (acc ++ [k], len pre + 4 + len (encodeUtf8 k))).
    { unfold Decoder.readKey. rewrite (mbind_ok _ _ _ _ _ R1), R2.
      rewrite (mbind_ok _ _ _ _ _ R3).
      unfold Decoder.mbind, Decoder.decodeUtf8, Decoder.ret. now rewrite R4. }
    rewrite (mbind_ok _ _ _ _ _ Estep).
    replace (len pre + 4 + len (encodeUtf8 k))
      with (len (pre ++ setUint32 (len (encodeUtf8 k)) ++ encodeUtf8 k))
      by (rewrite !len_app, len_setUint32; lia).
    rewrite (IH buffer (pre ++ setUint32 (len (encodeUtf8 k)) ++ encodeUtf8 k) post
               (acc ++ [k])) by (now rewrite <- !app_assoc).
    rewrite !len_app, len_setUint32, <- app_assoc. cbn [app]. do 2 f_equal. lia.
Qed.

Lemma len_header dictionary :
  len (Encoder.header dictionary)
  = 9 + len (flat_map (fun k => setUint32 (len (encodeUtf8 k)) ++ encodeUtf8 k) dictionary).
Proof.
  unfold Encoder.header. rewrite !len_app, len_setUint32.
  change (len Encoder.MAGIC) with 4. change (len [Encoder.VERSION]) with 1. lia.
Qed.

(** On a buffer that starts with the encoder's header, the decoder reaches
    the root value with the encoder's dictionary. *)
Lemma decodeDocument_header dictionary rest mD maxDict maxStr :
  Forall (plain_text maxStr) dictionary ->
  len dictionary <= maxDict -> len dictionary < 4294967296 ->
  Decoder.decodeDocument (Encoder.header dictionary ++ rest) mD maxDict maxStr 0
  = Decoder.mbind
      (Decoder.decodeValue (Encoder.header dictionary ++ rest) mD maxStr dictionary
         (Z.to_nat (mD + 1) + 1) 0)
      (fun value => Decoder.ret (value_of value))
      (len (Encoder.header dictionary)).
Proof.
  intros Hks Hmax H32.
  set (keysBytes := flat_map (fun k => setUint32 (len (encodeUtf8 k)) ++ encodeUtf8 k)
                             dictionary).
  set (buffer := Encoder.header dictionary ++ rest).
  assert (Hb : buffer = [75; 79; 68; 65; 1] ++ setUint32 (len dictionary)
                          ++ keysBytes ++ rest).
  { unfold buffer, Encoder.header, Encoder.MAGIC, Encoder.VERSION.
    fold keysBytes. now rewrite <- !app_assoc. }
  pose proof (len_nonneg dictionary) as Hlen.
  unfold Decoder.decodeDocument.
  rewrite (mbind_ok _ _ _ tt 0).
  2: { apply (ensure_at buffer [] buffer); auto. rewrite Hb, len_app.
       change (len [75; 79; 68; 65; 1]) with 5.
       pose proof (len_nonneg (setUint32 (len dictionary) ++ keysBytes ++ rest)). lia. }
  rewrite (mbind_ok _ _ _ tt 4).
  2: { unfold Decoder.checkMagic. rewrite Hb. reflexivity. }
  rewrite (mbind_ok _ _ _ 1 5).
  2: { apply (readU8_at buffer [75; 79; 68; 65] 1
                (setUint32 (len dictionary) ++ keysBytes ++ rest)); auto. }
  change (negb (1 =? Decoder.VERSION)) with false. cbn iota.
  rewrite (mbind_ok _ _ _ dictionary (len (Encoder.header dictionary)));
    [ reflexivity | ].
  unfold Decoder.readDictionary.
  rewrite (mbind_ok _ _ _ (len dictionary) 9).
  2: { apply (readU32_at buffer [75; 79; 68; 65; 1] (len dictionary)
                (keysBytes ++ rest)); auto; lia. }
  destruct (Z.ltb_spec maxDict (len dictionary)); [ lia | ].
  rewrite times_len.
  change 9 with (len ([75; 79; 68; 65; 1] ++ setUint32 (len dictionary))) at 1.
  rewrite (read_keys maxStr dictionary Hks buffer
             ([75; 79; 68; 65; 1] ++ setUint32 (len dictionary)) rest []).
  - rewrite len_header. fold keysBytes. cbn [app]. do 2 f_equal.
  - rewrite Hb. now rewrite <- !app_assoc.
Qed.

Lemma indexed_index_keys dictionary :
  NoDup dictionary -> len dictionary < 4294967296 ->
  indexed (Encoder.index_keys dictionary 0 []) dictionary.
Proof.
  intros Hnd H32 k idx G.
  destruct (in_dec (list_eq_dec Z.eq_dec) k dictionary) as [Hin | Hout].
  - destruct (index_keys_in _ _ Hnd Hin) as (idx' & G' & Hr & Hnth).
    rewrite G in G'. injection G' as <-. repeat split; try lia. exact Hnth.
  - rewrite index_keys_other in G by exact Hout. discriminate.
Qed.

(** The two outcomes of decoding an encoding, by the depth of the value. *)
Lemma decode_encode v eo dopt :
  plain (Decoder.stringLimit dopt) v ->
  depth v <= Encoder.depthLimit eo ->
  len (Encoder.dictionary_of v) <= Decoder.dictLimit dopt ->
  len (Encoder.dictionary_of v) < 4294967296 ->
  exists bs,
    Encoder.encode v eo = Ok bs
    /\ (depth v <= Decoder.depthLimit dopt ->
        exists v', Decoder.decode bs dopt = Ok v' /\ veq v v')
    /\ (Decoder.depthLimit dopt < depth v ->
        exists off,
          Decoder.decode bs dopt
          = Throw (KodaDecodeError [T "Maximum nesting depth exceeded"] off)).
Proof.
  intros Hp HdE Hdict H32.
  pose proof (plain_keys_ok _ _ Hp) as Hok.
  destruct (proj1 (encode_depth v eo Hok) HdE) as (out & E).
  exists (Encoder.header (Encoder.dictionary_of v) ++ out). split; [ exact E | ].
  unfold Encoder.encode in E.
  set (dictionary := Encoder.dictionary_of v) in *.
  pose proof (indexed_index_keys dictionary (dictionary_nodup v) H32) as Hidx.
  destruct (encodeValue_decodes _ _ (Decoder.depthLimit dopt)
              (Decoder.stringLimit dopt) dictionary Hidx v Hp _ _ _ E)
    as (out' & Eout & HD).
  apply app_inv_head in Eout. subst out'.
  assert (Hks : Forall (plain_text (Decoder.stringLimit dopt)) dictionary).
  { pose proof (plain_keys _ _ Hp) as Hk. rewrite Forall_forall in *.
    intros k Hin. apply Hk. now apply dictionary_in. }
  pose proof (decodeDocument_header dictionary out (Decoder.depthLimit dopt)
                (Decoder.dictLimit dopt) (Decoder.stringLimit dopt) Hks Hdict H32)
    as Hdoc.
  destruct (HD (Encoder.header dictionary) [] (Z.to_nat (Decoder.depthLimit dopt + 1) + 1)%nat
              0 ltac:(lia) ltac:(lia)) as [Hgood Hbad].
  rewrite app_nil_r in Hgood, Hbad.
  split.
  - intros Hle. destruct (Hgood ltac:(lia)) as (v' & Ev & Hv).
    exists (value_of v'). split; [ | exact Hv ].
    rewrite (decode_of_document _ _ (value_of v')
               (len (Encoder.header dictionary) + len out)).
    + rewrite len_app, Z.eqb_refl. reflexivity.
    + rewrite Hdoc. unfold Decoder.mbind. now rewrite Ev.
  - intros Hgt. destruct (Hbad ltac:(lia)) as (off & Ev).
    exists off. unfold Decoder.decode, Decoder.run, Decoder.decodeRoot.
    unfold Decoder.mbind at 1. rewrite Hdoc. unfold Decoder.mbind. now rewrite Ev.
Qed.

(** ** The depth limit of the text parser *)






(** The current token is one of the list, or the stand-in for an empty list. *)
Lemma current_in_or_eof tokens i :
  In (Parser.current tokens i) tokens \/ Parser.current tokens i = Parser.eof.
Proof.
  unfold Parser.current.
  destruct (nth_in_or_default i tokens (last tokens Parser.eof)) as [ H | H ];
    [ now left | rewrite H ].
  destruct tokens as [ | t ts ]; [ now right | left ].
  destruct (@exists_last _ (t :: ts) ltac:(discriminate)) as (body & e & Eq).
  rewrite Eq, last_last. apply in_or_app. right. now left.
Qed.

Section ParserDepth.
Variable tokens : list Lexer.Token.
Variable M : Z.

(** The error of [parseValue] under the limit [m]. *)
Let tooDeep (m : Z) (e : exn) : Prop :=
  exists p,
    e = KodaParseError [T "Maximum nesting depth exceeded ("; N m; T ")"] p.

(** A call at depth [d] that succeeded under the limit [M] has a threshold
    [n], the deepest level it reached: it does the same under every limit
    from [n] on and fails with the depth error under every limit below.  The
    value is no deeper than that, and exactly that deep when no key is
    [__proto__]. *)
Let reaches (run : Z -> result (JSValue * nat)) (d : Z) : Prop :=
  forall v i',
    run M = Ok (v, i') ->
    exists n,
      d <= n <= M /\ d + depth v <= n
      /\ (proto_free tokens -> n = d + depth v)
      /\ forall m,
           (n <= m -> run m = Ok (v, i'))
           /\ (m < n -> exists e, run m = Throw e /\ tooDeep m e).




End ParserDepth.

(** ** The depth limit of the single-pass parser *)

Section ReaderDepth.
Variable M : Z.

Let tooDeep (m : Z) (e : exn) : Prop :=
  exists p,
    e = KodaParseError [T "Maximum nesting depth exceeded ("; N m; T ")"] p.

(** As for the token-array parser: a call at depth [d] that succeeded under
    the limit [M] has a threshold [n]. *)
Let reaches (run : Z -> result (JSValue * ParseFast.Reader)) (d : Z) : Prop :=
  forall v r',
    run M = Ok (v, r') ->
    exists n,
      d <= n <= M /\ d + depth v <= n
      /\ forall m,
           (n <= m -> run m = Ok (v, r'))
           /\ (m < n -> exists e, run m = Throw e /\ tooDeep m e).



End ReaderDepth.



(** ** The depth limit of the decoder on any buffer *)

Lemma Returns_ret {A} (a : A) (Q : A -> Prop) : Q a -> Returns (Decoder.ret a) Q.
Proof. intros H off b off' [= <- _]. exact H. Qed.

Lemma Returns_fail {A} msg (Q : A -> Prop) : Returns (Decoder.fail msg) Q.
Proof. intros off b off' H. discriminate. Qed.

Lemma Returns_bind {A B} (m : Decoder.M A) (k : A -> Decoder.M B)
  (P : A -> Prop) (Q : B -> Prop) :
  Returns m P -> (forall a, P a -> Returns (k a) Q) -> Returns (Decoder.mbind m k) Q.
Proof.
  intros Hm Hk off b off' H. unfold Decoder.mbind in H.
  destruct (m off) as [ [a o] | | ] eqn:E; try discriminate.
  exact (Hk a (Hm _ _ _ E) _ _ _ H).
Qed.

Lemma Returns_any {A} (m : Decoder.M A) : Returns m (fun _ => True).
Proof. intros off a off' _. exact I. Qed.

Lemma Returns_bind' {A B} (m : Decoder.M A) (k : A -> Decoder.M B) (Q : B -> Prop) :
  (forall a, Returns (k a) Q) -> Returns (Decoder.mbind m k) Q.
Proof.
  intros Hk. apply (Returns_bind m k (fun _ => True)); [ apply Returns_any | auto ].
Qed.

Lemma Returns_if {A} (c : bool) (m1 m2 : Decoder.M A) (Q : A -> Prop) :
  Returns m1 Q -> Returns m2 Q -> Returns (if c then m1 else m2) Q.
Proof. destruct c; auto. Qed.

Lemma Returns_times_pos {A} (body : A -> Decoder.M A) (P : A -> Prop) :
  (forall a, P a -> Returns (body a) P) ->
  forall p a, P a -> Returns (Decoder.times_pos p body a) P.
Proof.
  intros Hbody. induction p as [ p IH | p IH | ]; intros a Ha;
    cbn [Decoder.times_pos].
  - apply (Returns_bind _ _ P); [ now apply Hbody | ]. intros a1 H1.
    apply (Returns_bind _ _ P); [ now apply IH | ]. intros a2 H2. now apply IH.
  - apply (Returns_bind _ _ P); [ now apply IH | ]. intros a1 H1. now apply IH.
  - now apply Hbody.
Qed.

Lemma Returns_times {A} (body : A -> Decoder.M A) (P : A -> Prop) n a :
  (forall a, P a -> Returns (body a) P) ->
  P a -> Returns (Decoder.times n body a) P.
Proof.
  intros Hbody Ha. destruct n; cbn [Decoder.times];
    [ now apply Returns_ret | now apply Returns_times_pos | now apply Returns_ret ].
Qed.





(** ** The depth limit of [parse] *)





(** ** Binary round trip *)

Lemma roundtrip_refuted v eo dopt :
  match Encoder.encode v eo with
  | Ok bs =>
      match Decoder.decode bs dopt with Ok v' => ~ veq v v' | _ => True end
  | _ => True
  end ->
  ~ (exists bs v',
        Encoder.encode v eo = Ok bs /\ Decoder.decode bs dopt = Ok v' /\ veq v v').
Proof. intros H (bs & v' & Hbs & Hd & Heq). rewrite Hbs, Hd in H. auto. Qed.

(** C2, as stated, fails at constructible values.  Under the default options:
    an array nested deeper than the depth limit is not encoded at all;
    negative zero is written as the integer 0 and comes back as positive
    zero; a string that starts with U+FEFF comes back without it; a lone
    surrogate comes back as U+FFFD; a property named [__proto__] is not
    stored by the decoder.  Under limits of the caller's choice: a
    string longer than [maxStringLength] and a value with more keys than
    [maxDictionarySize] are encoded but not decoded. *)
Lemma decode_encode_not_identity :
  let roundtrips v dopt :=
    exists bs v',
      Encoder.encode v Encoder.defaults = Ok bs
      /\ Decoder.decode bs dopt = Ok v' /\ veq v v' in
  ~ roundtrips (nest 257 VNull) Decoder.defaults
  /\ ~ roundtrips (VNumber negZero) Decoder.defaults
  /\ ~ roundtrips (VString (BOM :: lit "a")) Decoder.defaults
  /\ ~ roundtrips (VString [55296]) Decoder.defaults
  /\ ~ roundtrips (VObject [(PROTO, VNull)]) Decoder.defaults
  /\ ~ roundtrips (VString (lit "ab"))
        {| Decoder.maxDepth := None; Decoder.maxDictionarySize := None;
           Decoder.maxStringLength := Some 1 |}
  /\ ~ roundtrips (VObject [(lit "k", VNull)])
        {| Decoder.maxDepth := None; Decoder.maxDictionarySize := Some 0;
           Decoder.maxStringLength := None |}.
Proof.
  cbv zeta.
  repeat split; apply roundtrip_refuted; vm_compute;
    try exact I; intros H; inversion H as [ | | | | | ps ps' qs Hperm Hall ].
  inversion Hall; subst.
  apply Permutation_length in Hperm. discriminate.
Qed.

(** C2, amended: a value within the depth limits of the encoder and of the
    decoder, whose text is valid Unicode without a leading byte order mark
    and within the string limit, whose numbers are not negative zero, none of
    whose keys is [__proto__], and whose distinct keys fit the dictionary
    limit, is encoded, and its encoding decodes to a structurally equal
    value. *)
Theorem decode_encode_roundtrip v eo dopt :
  plain (Decoder.stringLimit dopt) v ->
  depth v <= Encoder.depthLimit eo ->
  depth v <= Decoder.depthLimit dopt ->
  len (Encoder.dictionary_of v) <= Decoder.dictLimit dopt ->
  len (Encoder.dictionary_of v) < 4294967296 ->
  exists bs v',
    Encoder.encode v eo = Ok bs /\ Decoder.decode bs dopt = Ok v' /\ veq v v'.
Proof.
  intros Hplain He Hd Hdict Hdict32.
  destruct (decode_encode v eo dopt Hplain He Hdict Hdict32) as (bs & Hbs & Hok & _).
  destruct (Hok Hd) as (v' & Hv' & Heq). eauto.
Qed.

Lemma decode_encode_roundtrip_witness :
  let v := VObject [(lit "b", VNumber (ofZ 1));
                    (lit "a", VArray [VString (lit "x"); VNull; VBool true])] in
  plain (Decoder.stringLimit Decoder.defaults) v
  /\ depth v <= Encoder.depthLimit Encoder.defaults
  /\ depth v <= Decoder.depthLimit Decoder.defaults
  /\ len (Encoder.dictionary_of v) <= Decoder.dictLimit Decoder.defaults
  /\ len (Encoder.dictionary_of v) < 4294967296
  /\ exists bs v',
       Encoder.encode v Encoder.defaults = Ok bs
       /\ Decoder.decode bs Decoder.defaults = Ok v' /\ veq v v'.
Proof.
  intros v.
  assert (Htext : forall s, In s [lit "a"; lit "b"; lit "x"] ->
            plain_text (Decoder.stringLimit Decoder.defaults) s).
  { intros s [ <- | [ <- | [ <- | [] ] ] ];
      (split; [ reflexivity | ]; split; [ vm_compute; discriminate | ];
       split; vm_compute; congruence). }
  assert (Hplain : plain (Decoder.stringLimit Decoder.defaults) v).
  { apply plain_object.
    - vm_compute; reflexivity.
    - repeat constructor; cbn; intuition discriminate.
    - repeat constructor; try (apply Htext; cbn; tauto).
      + vm_compute. discriminate.
      + vm_compute. intros [= ].
      + vm_compute. intros [= ].
    - repeat constructor; cbn [fst]; vm_compute; discriminate. }
  assert (H1 : depth v <= Encoder.depthLimit Encoder.defaults)
    by (vm_compute; discriminate).
  assert (H2 : depth v <= Decoder.depthLimit Decoder.defaults)
    by (vm_compute; discriminate).
  assert (H3 : len (Encoder.dictionary_of v) <= Decoder.dictLimit Decoder.defaults)
    by (vm_compute; discriminate).
  assert (H4 : len (Encoder.dictionary_of v) < 4294967296)
    by (vm_compute; reflexivity).
  exact (conj Hplain (conj H1 (conj H2 (conj H3 (conj H4
           (decode_encode_roundtrip v Encoder.defaults Decoder.defaults
              Hplain H1 H2 H3 H4)))))).
Defined.

(** ** The fuel of the models is never exhausted *)

Lemma Total_bind {A B} (m : Decoder.M A) (k : A -> Decoder.M B) :
  (forall off, m off <> OutOfFuel) ->
  (forall a off, k a off <> OutOfFuel) ->
  forall off, Decoder.mbind m k off <> OutOfFuel.
Proof.
  intros Hm Hk off. unfold Decoder.mbind. specialize (Hm off).
  destruct (m off) as [ [a o] | | ]; [ apply Hk | discriminate | contradiction ].
Qed.

Lemma Total_times_pos {A} (body : A -> Decoder.M A) :
  (forall a off, body a off <> OutOfFuel) ->
  forall p a off, Decoder.times_pos p body a off <> OutOfFuel.
Proof.
  intros Hbody. induction p as [ p IH | p IH | ]; intros a off;
    cbn [Decoder.times_pos].
  - apply Total_bind; [ apply Hbody | ]. intros a1 o1.
    apply Total_bind; [ apply IH | apply IH ].
  - apply Total_bind; [ apply IH | apply IH ].
  - apply Hbody.
Qed.

Lemma Total_times {A} (body : A -> Decoder.M A) n :
  (forall a off, body a off <> OutOfFuel) ->
  forall a off, Decoder.times n body a off <> OutOfFuel.
Proof.
  intros Hbody a off. destruct n; cbn [Decoder.times];
    [ discriminate | now apply Total_times_pos | discriminate ].
Qed.

Lemma Total_ensure buffer n off : Decoder.ensure buffer n off <> OutOfFuel.
Proof. unfold Decoder.ensure. destruct (_ <? _); discriminate. Qed.

Lemma Total_readU8 buffer off : Decoder.readU8 buffer off <> OutOfFuel.
Proof.
  unfold Decoder.readU8. apply Total_bind; [ apply Total_ensure | discriminate ].
Qed.

Lemma Total_readU32 buffer off : Decoder.readU32 buffer off <> OutOfFuel.
Proof.
  unfold Decoder.readU32. apply Total_bind; [ apply Total_ensure | discriminate ].
Qed.

Lemma Total_readI64 buffer off : Decoder.readI64 buffer off <> OutOfFuel.
Proof.
  unfold Decoder.readI64. apply Total_bind; [ apply Total_ensure | discriminate ].
Qed.

Lemma Total_readF64 buffer off : Decoder.readF64 buffer off <> OutOfFuel.
Proof.
  unfold Decoder.readF64. apply Total_bind; [ apply Total_ensure | discriminate ].
Qed.

Lemma Total_readBytes buffer n off : Decoder.readBytes buffer n off <> OutOfFuel.
Proof.
  unfold Decoder.readBytes. apply Total_bind; [ apply Total_ensure | discriminate ].
Qed.

Lemma Total_decodeUtf8 bs off : Decoder.decodeUtf8 bs off <> OutOfFuel.
Proof. unfold Decoder.decodeUtf8. destruct (TextDecoder_decode bs); discriminate. Qed.

Lemma Total_text {B} buffer n (k : jsstring -> Decoder.M B) :
  (forall s off, k s off <> OutOfFuel) ->
  forall off,
    Decoder.mbind (Decoder.readBytes buffer n)
      (fun bs => Decoder.mbind (Decoder.decodeUtf8 bs) k) off <> OutOfFuel.
Proof.
  intros Hk. apply Total_bind; [ apply Total_readBytes | ]. intros bs.
  apply Total_bind; [ apply Total_decodeUtf8 | exact Hk ].
Qed.

(** The decoder stops at the depth limit before its fuel runs out. *)
Lemma decodeValue_total buffer maxDepth maxStr dictionary fuel :
  forall d off,
    (1 <= fuel)%nat -> maxDepth - d + 2 <= Z.of_nat fuel ->
    Decoder.decodeValue buffer maxDepth maxStr dictionary fuel d off <> OutOfFuel.
Proof.
  induction fuel as [ | fuel IH ]; intros d off Hf Hd; [ lia | ].
  cbn [Decoder.decodeValue].
  destruct (Z.ltb_spec maxDepth d) as [ | Hle ]; [ discriminate | ].
  assert (Hchild : forall o,
            Decoder.decodeValue buffer maxDepth maxStr dictionary fuel (d + 1) o
            <> OutOfFuel) by (intros o; apply IH; lia).
  apply Total_bind; [ apply Total_ensure | ]. intros _.
  apply Total_bind; [ apply Total_readU8 | ]. intros tag o.
  repeat match goal with
         | |- (if ?c then _ else _) _ <> _ => destruct c
         end; try discriminate.
  - apply Total_bind; [ apply Total_readI64 | discriminate ].
  - apply Total_bind; [ apply Total_readF64 | discriminate ].
  - apply Total_bind; [ apply Total_readU32 | ]. intros n o1.
    destruct (maxStr <? n); [ discriminate | ].
    apply Total_text. discriminate.
  - apply Total_bind; [ apply Total_readU32 | ]. intros count.
    apply Total_bind; [ | discriminate ].
    apply Total_times. intros arr. apply Total_bind; [ exact Hchild | discriminate ].
  - apply Total_bind; [ apply Total_readU32 | ]. intros count.
    apply Total_bind; [ | discriminate ].
    apply Total_times. intros obj. unfold Decoder.decodeEntry.
    apply Total_bind; [ apply Total_readU32 | ]. intros keyIdx o1.
    destruct (_ <=? _); [ discriminate | ].
    apply Total_bind; [ exact Hchild | discriminate ].
Qed.

Lemma decode_total buffer options : Decoder.decode buffer options <> OutOfFuel.
Proof.
  unfold Decoder.decode, Decoder.run.
  enough (H : forall off,
             Decoder.decodeRoot buffer (Decoder.depthLimit options)
               (Decoder.dictLimit options) (Decoder.stringLimit options) off
             <> OutOfFuel).
  { specialize (H 0). destruct (Decoder.decodeRoot _ _ _ _ 0) as [ [a o] | | ];
      [ discriminate | discriminate | contradiction ]. }
  unfold Decoder.decodeRoot. apply Total_bind.
  - unfold Decoder.decodeDocument.
    apply Total_bind; [ apply Total_ensure | ]. intros _.
    apply Total_bind.
    { intros off. unfold Decoder.checkMagic. destruct (forallb _ _); discriminate. }
    intros _. apply Total_bind; [ apply Total_readU8 | ]. intros version off.
    destruct (negb _); [ discriminate | ].
    revert off. apply Total_bind.
    + unfold Decoder.readDictionary.
      apply Total_bind; [ apply Total_readU32 | ]. intros n off.
      destruct (_ <? n); [ discriminate | ].
      revert off. apply Total_times. intros dict. unfold Decoder.readKey.
      apply Total_bind; [ apply Total_readU32 | ]. intros keyLen off.
      destruct (_ <? keyLen); [ discriminate | ].
      revert off. apply Total_text. discriminate.
    + intros dictionary. apply Total_bind; [ | discriminate ].
      intros off. apply decodeValue_total; lia.
  - intros v off. destruct (negb _); discriminate.
Qed.

(** ** The lexer consumes its input *)

Lemma dropWhile_length {A} (f : A -> bool) l :
  (List.length (dropWhile f l) <= List.length l)%nat.
Proof.
  induction l as [ | x l IH ]; cbn [dropWhile]; [ lia | ].
  destruct (f x); cbn [List.length]; lia.
Qed.

Lemma skipLine_length s :
  forall p, (List.length (fst (Lexer.skipLine s p)) <= List.length s)%nat.
Proof.
  induction s as [ | c s IH ]; intros p; cbn [Lexer.skipLine]; [ cbn; lia | ].
  destruct (c =? 10); cbn [fst List.length]; [ lia | ].
  specialize (IH (Lexer.advance c p)). lia.
Qed.

Lemma skipBlock_cons x s1 p d :
  Lexer.skipBlock (x :: s1) p d
  = let p1 := Lexer.advance x p in
    match s1 with
    | y :: s2 =>
        if (x =? 42) && (y =? 47) then
          if 0 <? d - 1 then Lexer.skipBlock s2 (Lexer.advance y p1) (d - 1)
          else Ok (s2, Lexer.advance y p1)
        else if (x =? 47) && (y =? 42) then
          Lexer.skipBlock s2 (Lexer.advance y p1) (d + 1)
        else Lexer.skipBlock s1 p1 d
    | [] => Lexer.skipBlock s1 p1 d
    end.
Proof. destruct s1; reflexivity. Qed.

Lemma skipBlock_length n :
  forall s p d,
    (List.length s <= n)%nat ->
    Lexer.skipBlock s p d <> OutOfFuel
    /\ forall s' p', Lexer.skipBlock s p d = Ok (s', p') ->
                     (List.length s' <= List.length s)%nat.
Proof.
  induction n as [ | n IH ]; intros s p d Hn; destruct s as [ | x s1 ];
    try (split; [ discriminate | intros; discriminate ]);
    cbn [List.length] in Hn; [ lia | ].
  rewrite skipBlock_cons. cbv zeta.
  destruct s1 as [ | y s2 ]; [ split; [ discriminate | intros; discriminate ] | ].
  cbn [List.length] in *.
  destruct ((x =? 42) && (y =? 47)); [ destruct (0 <? d - 1) | ].
  - destruct (IH s2 (Lexer.advance y (Lexer.advance x p)) (d - 1) ltac:(lia))
      as [H1 H2].
    split; [ exact H1 | ]. intros s' p' E. specialize (H2 _ _ E). lia.
  - split; [ discriminate | ]. intros s' p' [= <- <-]. lia.
  - destruct ((x =? 47) && (y =? 42)).
    + destruct (IH s2 (Lexer.advance y (Lexer.advance x p)) (d + 1) ltac:(lia))
        as [H1 H2].
      split; [ exact H1 | ]. intros s' p' E. specialize (H2 _ _ E). lia.
    + destruct (IH (y :: s2) (Lexer.advance x p) d ltac:(cbn [List.length]; lia))
        as [H1 H2].
      split; [ exact H1 | ]. intros s' p' E. specialize (H2 _ _ E).
      cbn [List.length] in H2. lia.
Qed.

Lemma skipWhitespaceAndComments_length fuel :
  forall s p,
    (List.length s < fuel)%nat ->
    Lexer.skipWhitespaceAndComments fuel s p <> OutOfFuel
    /\ forall s' p', Lexer.skipWhitespaceAndComments fuel s p = Ok (s', p') ->
                     (List.length s' <= List.length s)%nat.
Proof.
  induction fuel as [ | fuel IH ]; intros s p Hf; [ lia | ].
  cbn [Lexer.skipWhitespaceAndComments].
  assert (Hstop : forall r : result Lexer.cursor,
            r = Ok (s, p) ->
            r <> OutOfFuel
            /\ forall s' p', r = Ok (s', p') ->
                             (List.length s' <= List.length s)%nat).
  { intros r ->. split; [ discriminate | ]. intros s' p' [= <- <-]. lia. }
  destruct s as [ | c s1 ]; [ now apply Hstop | ]. cbn [List.length] in *.
  destruct (Lexer.isSpace c).
  { destruct (IH s1 (Lexer.advance c p) ltac:(lia)) as [H1 H2].
    split; [ exact H1 | ]. intros s' p' E. specialize (H2 _ _ E). lia. }
  destruct (c =? 47); [ | now apply Hstop ].
  destruct s1 as [ | d s2 ]; [ now apply Hstop | ]. cbn [List.length] in *.
  destruct (d =? 47).
  { pose proof (skipLine_length s2 (Lexer.advance d (Lexer.advance c p))) as Hl.
    destruct (Lexer.skipLine s2 _) as [s3 p3]. cbn [fst] in Hl.
    destruct (IH s3 p3 ltac:(lia)) as [H1 H2].
    split; [ exact H1 | ]. intros s' p' E. specialize (H2 _ _ E). lia. }
  destruct (d =? 42); [ | now apply Hstop ].
  destruct (skipBlock_length _ s2 (Lexer.advance d (Lexer.advance c p)) 1 (le_n _))
    as [B1 B2].
  destruct (Lexer.skipBlock s2 _ 1) as [ [s3 p3] | | ]; cbn [bind];
    [ | split; [ discriminate | intros; discriminate ] | contradiction ].
  specialize (B2 _ _ eq_refl).
  destruct (IH s3 p3 ltac:(lia)) as [H1 H2].
  split; [ exact H1 | ]. intros s' p' E. specialize (H2 _ _ E). lia.
Qed.

Lemma readHex4_total s p : Lexer.readHex4 s p <> OutOfFuel.
Proof.
  unfold Lexer.readHex4, Lexer.fail. cbn [fold_left bind].
  repeat match goal with
         | |- context [match nth_error ?l ?i with _ => _ end] =>
             destruct (nth_error l i); cbn [bind]
         | |- context [if isHex ?h then _ else _] =>
             destruct (isHex h); cbn [bind]
         end; discriminate.
Qed.

Lemma readQuotedBody_length fuel quote :
  forall s p buf,
    (List.length s < fuel)%nat ->
    Lexer.readQuotedBody fuel quote s p buf <> OutOfFuel
    /\ forall text s' p',
         Lexer.readQuotedBody fuel quote s p buf = Ok (text, (s', p')) ->
         (List.length s' < List.length s)%nat.
Proof.
  induction fuel as [ | fuel IH ]; intros s p buf Hf; [ lia | ].
  cbn [Lexer.readQuotedBody].
  assert (Hrec : forall s0 p0 buf0,
            (List.length s0 < List.length s)%nat ->
            Lexer.readQuotedBody fuel quote s0 p0 buf0 <> OutOfFuel
            /\ forall text s' p',
                 Lexer.readQuotedBody fuel quote s0 p0 buf0 = Ok (text, (s', p')) ->
                 (List.length s' < List.length s)%nat).
  { intros s0 p0 buf0 Hs0. destruct (IH s0 p0 buf0 ltac:(lia)) as [H1 H2].
    split; [ exact H1 | ]. intros text s' p' E. specialize (H2 _ _ _ E). lia. }
  destruct s as [ | c s1 ]; [ split; [ discriminate | intros; discriminate ] | ].
  cbn [List.length] in *.
  destruct (c =? quote).
  { split; [ discriminate | ]. intros text s' p' [= _ <- _]. lia. }
  destruct (c =? 92).
  - destruct s1 as [ | next s2 ]; [ split; [ discriminate | intros; discriminate ] | ].
    cbn [List.length] in *.
    repeat match goal with
           | |- context [if next =? ?k then _ else _] =>
               destruct (next =? k); [ apply Hrec; lia | ]
           end.
    destruct (next =? 117); [ | split; [ discriminate | intros; discriminate ] ].
    pose proof (readHex4_total s2 (Lexer.advance next (Lexer.advance c p))) as Hh.
    destruct (Lexer.readHex4 s2 _) as [ [[u n] p3] | | ]; cbn [bind];
      [ | split; [ discriminate | intros; discriminate ] | contradiction ].
    apply Hrec. rewrite length_skipn. lia.
  - destruct ((0 <=? c) && (c <=? 31));
      [ split; [ discriminate | intros; discriminate ] | ].
    apply Hrec. lia.
Qed.

Section LexerProgress.

(** A reader of one token that uses up part of the input [s] and does not
    produce [Eof]. *)
Let consumes (s : jsstring) (r : result (Lexer.Token * Lexer.cursor)) : Prop :=
  r <> OutOfFuel
  /\ forall tok s' p',
       r = Ok (tok, (s', p')) ->
       (List.length s' < List.length s)%nat /\ Lexer.kind tok <> TokenKind.Eof.

Lemma consumes_fail s e : consumes s (Throw e).
Proof. split; [ discriminate | intros; discriminate ]. Qed.

Lemma readQuotedString_consumes quote s p :
  consumes s (Lexer.readQuotedString quote s p).
Proof.
  unfold Lexer.readQuotedString. destruct s as [ | q s1 ]; [ apply consumes_fail | ].
  destruct (readQuotedBody_length (List.length s1 + 1) quote s1
              (Lexer.advance q p) [] ltac:(lia)) as [H1 H2].
  destruct (Lexer.readQuotedBody _ quote s1 _ []) as [ [text [s2 p2]] | | ];
    cbn [bind]; [ | apply consumes_fail | contradiction ].
  specialize (H2 _ _ _ eq_refl).
  split; [ discriminate | ]. intros tok s' p' [= <- <- _]. cbn [List.length Lexer.kind].
  split; [ lia | discriminate ].
Qed.

Lemma readIdentifierOrKeyword_consumes s p :
  consumes s (Lexer.readIdentifierOrKeyword s p).
Proof.
  unfold Lexer.readIdentifierOrKeyword.
  destruct s as [ | first s1 ]; [ apply consumes_fail | ].
  destruct (negb (isWord first) && negb (first =? 95)); [ apply consumes_fail | ].
  cbv zeta. pose proof (dropWhile_length isWordOrDash s1) as Hd.
  repeat match goal with
         | |- context [if str_eqb ?a ?b then _ else _] => destruct (str_eqb a b)
         end;
    (split; [ discriminate | ]; intros tok s' p' [= <- <- _];
     cbn [List.length Lexer.kind]; split; [ lia | discriminate ]).
Qed.

Lemma readNumberTail_consumes start buf s0 s p :
  (List.length s < List.length s0)%nat ->
  consumes s0 (Lexer.readNumberTail start buf s p).
Proof.
  intros Hs. unfold Lexer.readNumberTail.
  (* the fraction *)
  match goal with
  | |- consumes _ (match ?frac with _ => _ end) =>
      assert (Hfrac : (List.length (snd (fst frac)) <= List.length s)%nat);
      [ | destruct frac as [[[isFloat1 buf1] s1] p1] ]
  end.
  { destruct s as [ | c r ]; cbn [fst snd]; [ lia | ].
    destruct (c =? 46); cbn [fst snd List.length]; [ | lia ].
    pose proof (dropWhile_length isDigit r). lia. }
  cbn [fst snd] in Hfrac.
  (* the exponent *)
  match goal with
  | |- consumes _ (bind ?e _) =>
      assert (Hexp : e <> OutOfFuel
                     /\ forall isFloat raw s2 p2,
                          e = Ok (isFloat, raw, s2, p2) ->
                          (List.length s2 <= List.length s1)%nat);
      [ | destruct Hexp as [E1 E2];
          destruct e as [ [[[isFloat raw] s2] p2] | | ]; cbn [bind];
          [ specialize (E2 _ _ _ _ eq_refl) | apply consumes_fail | contradiction ] ]
  end.
  { destruct s1 as [ | c r ].
    { split; [ discriminate | ]. intros ? ? ? ? [= _ _ <- _]. lia. }
    destruct ((c =? 101) || (c =? 69)).
    2:{ split; [ discriminate | ]. intros ? ? ? ? [= _ _ <- _]. lia. }
    cbv zeta.
    match goal with
    | |- context [match ?sign with (_, _) => _ end] =>
        assert (Hsign : (List.length (snd (fst sign)) <= List.length r)%nat);
        [ | destruct sign as [[sg r1] pg] ]
    end.
    { destruct r as [ | g r' ]; cbn [fst snd]; [ lia | ].
      destruct ((g =? 43) || (g =? 45)); cbn [fst snd List.length]; lia. }
    cbn [fst snd] in Hsign. pose proof (dropWhile_length isDigit r1) as Hd.
    destruct (takeWhile isDigit r1);
      [ split; [ discriminate | intros; discriminate ] | ].
    split; [ discriminate | ]. intros ? ? ? ? [= _ _ <- _].
    cbn [List.length]. lia. }
  destruct isFloat.
  - destruct (isNaN (parseFloat raw)); [ apply consumes_fail | ].
    split; [ discriminate | ]. intros tok s' p' [= <- <- _]. cbn [Lexer.kind].
    split; [ lia | discriminate ].
  - destruct (isNaN (parseInt raw) || Lexer.outOfSafeRange (parseInt raw));
      [ apply consumes_fail | ].
    split; [ discriminate | ]. intros tok s' p' [= <- <- _]. cbn [Lexer.kind].
    split; [ lia | discriminate ].
Qed.

Lemma readNumber_consumes s p : consumes s (Lexer.readNumber s p).
Proof.
  unfold Lexer.readNumber. cbv zeta.
  match goal with
  | |- consumes _ (match ?sign with _ => _ end) =>
      assert (Hsign : (List.length (snd (fst sign)) <= List.length s)%nat);
      [ | destruct sign as [[buf s0] p0] ]
  end.
  { destruct s as [ | c r ]; cbn [fst snd]; [ lia | ].
    destruct (c =? 45); cbn [fst snd List.length]; lia. }
  cbn [fst snd] in Hsign.
  destruct s0 as [ | c s1 ]; [ apply consumes_fail | ]. cbn [List.length] in Hsign.
  destruct (c =? 48).
  { assert (Hzero : forall tokEnd,
              consumes s (Ok ({| Lexer.kind := TokenKind.Integer;
                                 Lexer.value := Lexer.Num posZero;
                                 Lexer.start := p; Lexer.end_ := tokEnd |},
                              (s1, tokEnd)))).
    { intros tokEnd. split; [ discriminate | ].
      intros tok s' p' [= <- <- _]. cbn [Lexer.kind]. split; [ lia | discriminate ]. }
    destruct s1 as [ | d s2 ]; [ apply Hzero | ].
    destruct ((d =? 46) || (d =? 101) || (d =? 69)).
    - apply readNumberTail_consumes. lia.
    - destruct ((49 <=? d) && (d <=? 57)); [ apply consumes_fail | apply Hzero ]. }
  destruct ((49 <=? c) && (c <=? 57)) eqn:Ec.
  { apply readNumberTail_consumes.
    assert (Hc : isDigit c = true).
    { unfold isDigit. apply andb_true_iff in Ec. destruct Ec as [E1 E2].
      apply Z.leb_le in E1. rewrite E2, andb_true_r. apply Z.leb_le. lia. }
    cbn [dropWhile]. rewrite Hc. pose proof (dropWhile_length isDigit s1). lia. }
  destruct (c =? 46); [ | apply consumes_fail ].
  pose proof (dropWhile_length isDigit s1) as Hd.
  destruct (takeWhile isDigit s1); [ apply consumes_fail | ].
  match goal with |- context [if ?b then _ else _] => destruct b end;
    [ apply consumes_fail | ].
  split; [ discriminate | ]. intros tok s' p' [= <- <- _]. cbn [Lexer.kind].
  split; [ lia | discriminate ].
Qed.

(** The main loop ends, with [Eof] as the last token and only there. *)
Lemma tokenizeLoop_terminated fuel :
  forall s p tokens,
    (List.length s < fuel)%nat ->
    Forall (fun t => Lexer.kind t <> TokenKind.Eof) tokens ->
    Lexer.tokenizeLoop fuel s p tokens <> OutOfFuel
    /\ forall ts, Lexer.tokenizeLoop fuel s p tokens = Ok ts -> terminated ts.
Proof.
  induction fuel as [ | fuel IH ]; intros s p tokens Hf Htok; [ lia | ].
  cbn [Lexer.tokenizeLoop].
  destruct (skipWhitespaceAndComments_length (List.length s + 1) s p ltac:(lia))
    as [W1 W2].
  destruct (Lexer.skipWhitespaceAndComments _ s p) as [ [s1 p1] | | ]; cbn [bind];
    [ | split; [ discriminate | intros; discriminate ] | contradiction ].
  specialize (W2 _ _ eq_refl).
  destruct s1 as [ | c s2 ].
  { split; [ discriminate | ]. intros ts [= <-].
    exists tokens. eexists. split; [ reflexivity | ]. split; [ exact Htok | reflexivity ]. }
  cbn [List.length] in W2. cbv zeta.
  assert (Hpunct : forall k,
            k <> TokenKind.Eof ->
            Lexer.tokenizeLoop fuel s2 (Lexer.advance c p1)
              (tokens ++ [Lexer.punctuation k c p1]) <> OutOfFuel
            /\ forall ts,
                 Lexer.tokenizeLoop fuel s2 (Lexer.advance c p1)
                   (tokens ++ [Lexer.punctuation k c p1]) = Ok ts ->
                 terminated ts).
  { intros k Hk. apply IH; [ lia | ].
    apply Forall_app. split; [ exact Htok | ]. constructor; [ exact Hk | constructor ]. }
  assert (Hread : forall r,
            consumes (c :: s2) r ->
            ('(tok, (s3, p3)) <- r ;;
             Lexer.tokenizeLoop fuel s3 p3 (tokens ++ [tok])) <> OutOfFuel
            /\ forall ts,
                 ('(tok, (s3, p3)) <- r ;;
                  Lexer.tokenizeLoop fuel s3 p3 (tokens ++ [tok])) = Ok ts ->
                 terminated ts).
  { intros r [R1 R2].
    destruct r as [ [tok [s3 p3]] | | ]; cbn [bind];
      [ | split; [ discriminate | intros; discriminate ] | contradiction ].
    destruct (R2 _ _ _ eq_refl) as [R3 R4]. cbn [List.length] in R3.
    apply IH; [ lia | ].
    apply Forall_app. split; [ exact Htok | ]. constructor; [ exact R4 | constructor ]. }
  repeat match goal with
         | |- context [if c =? ?k then _ else _] =>
             destruct (c =? k); [ apply Hpunct; discriminate | ]
         end.
  destruct ((c =? 34) || (c =? 39));
    [ apply Hread, readQuotedString_consumes | ].
  destruct ((c =? 45) || isDigit c); [ apply Hread, readNumber_consumes | ].
  destruct (isLower c || isUpper c || (c =? 95));
    [ apply Hread, readIdentifierOrKeyword_consumes | ].
  split; [ discriminate | intros; discriminate ].
Qed.
End LexerProgress.

Lemma tokenize_terminated input options :
  Lexer.tokenize input options <> OutOfFuel
  /\ forall ts, Lexer.tokenize input options = Ok ts -> terminated ts.
Proof.
  unfold Lexer.tokenize.
  match goal with |- context [if ?c then _ else _] => destruct c end;
    [ split; [ discriminate | intros; discriminate ] | ].
  apply tokenizeLoop_terminated; [ lia | constructor ].
Qed.

(** ** The token-array parser consumes its tokens *)

Lemma TokenKind_eqb_eq a b : TokenKind.eqb a b = true -> a = b.
Proof. destruct a, b; (reflexivity || discriminate). Qed.

(** A loop whose steps move an index forward, below a bound. *)
Lemma while_progress {St} (cond : St -> bool) (body : St -> result St)
  (idx : St -> nat) (i0 L1 : nat) :
  (forall s, (i0 <= idx s <= L1)%nat -> cond s = true ->
     body s <> OutOfFuel
     /\ forall s', body s = Ok s' -> (idx s < idx s' <= L1)%nat) ->
  forall fuel s,
    (i0 <= idx s <= L1)%nat -> (L1 - idx s < fuel)%nat ->
    Parser.while fuel cond body s <> OutOfFuel
    /\ forall s', Parser.while fuel cond body s = Ok s' ->
                  (idx s <= idx s' <= L1)%nat.
Proof.
  intros Hbody. induction fuel as [ | fuel IH ]; intros s Hs Hf; [ lia | ].
  cbn [Parser.while]. destruct (cond s) eqn:Ec.
  - destruct (Hbody s Hs Ec) as [B1 B2].
    destruct (body s) as [ s1 | | ]; cbn [bind];
      [ | split; [ discriminate | intros; discriminate ] | contradiction ].
    specialize (B2 _ eq_refl).
    destruct (IH s1 ltac:(lia) ltac:(lia)) as [H1 H2].
    split; [ exact H1 | ]. intros s' E. specialize (H2 _ E). lia.
  - split; [ discriminate | ]. intros s' [= <-]. lia.
Qed.

Section ParserProgress.
Variable tokens : list Lexer.Token.
Hypothesis tokens_terminated : terminated tokens.
Variable maxDepth : Z.

(** The index of the [Eof] token. *)
Let L1 : nat := (List.length tokens - 1)%nat.

Lemma current_not_eof i :
  Lexer.kind (Parser.current tokens i) <> TokenKind.Eof -> (i < L1)%nat.
Proof using tokens_terminated.
  intros Hk. destruct tokens_terminated as (body & e & -> & Hbody & He).
  unfold L1. rewrite length_app. cbn [List.length].
  destruct (Nat.lt_ge_cases i (List.length body)) as [ Hlt | Hge ]; [ lia | ].
  exfalso. apply Hk. unfold Parser.current. rewrite last_last.
  destruct (Nat.eq_dec i (List.length body)) as [ -> | Hne ].
  - rewrite nth_middle. exact He.
  - rewrite nth_overflow; [ exact He | ]. rewrite length_app. cbn [List.length]. lia.
Qed.

Lemma at_kind_lt i k :
  k <> TokenKind.Eof -> Parser.at_kind tokens i k = true -> (i < L1)%nat.
Proof using tokens_terminated.
  intros Hk H. apply TokenKind_eqb_eq in H. apply current_not_eof. congruence.
Qed.

Lemma advance_lt i : (i < L1)%nat -> Parser.advance tokens i = Datatypes.S i.
Proof using Type.
  intros H. unfold Parser.advance.
  destruct (Nat.ltb_spec i (List.length tokens - 1)); [ reflexivity | unfold L1 in H; lia ].
Qed.

Lemma advance_le i : (i <= L1)%nat -> (i <= Parser.advance tokens i <= L1)%nat.
Proof using Type.
  intros H. unfold Parser.advance.
  destruct (Nat.ltb_spec i (List.length tokens - 1)); unfold L1 in *; lia.
Qed.

Lemma skipIf_le k i :
  (i <= L1)%nat -> (i <= Parser.skipIf tokens k i <= L1)%nat.
Proof using Type.
  intros H. unfold Parser.skipIf.
  destruct (Parser.at_kind tokens i k); [ now apply advance_le | lia ].
Qed.

Lemma expect_ok k i i' :
  k <> TokenKind.Eof -> Parser.expect tokens k i = Ok i' ->
  (i < L1)%nat /\ i' = Datatypes.S i.
Proof using tokens_terminated.
  intros Hk. unfold Parser.expect.
  destruct (Parser.at_kind tokens i k) eqn:E; cbn [negb]; [ | discriminate ].
  intros [= <-]. pose proof (at_kind_lt i k Hk E) as Hlt.
  split; [ exact Hlt | now apply advance_lt ].
Qed.

Lemma expect_cases k i :
  k <> TokenKind.Eof ->
  (exists e, Parser.expect tokens k i = Throw e)
  \/ (Parser.expect tokens k i = Ok (Datatypes.S i) /\ (i < L1)%nat).
Proof using tokens_terminated.
  intros Hk. destruct (Parser.expect tokens k i) as [ i' | e | ] eqn:E.
  - right. apply expect_ok in E; [ | exact Hk ]. destruct E as [Hlt ->]. auto.
  - left. eauto.
  - exfalso. revert E. unfold Parser.expect. destruct (negb _); discriminate.
Qed.

Lemma isKey_lt i : Parser.isKey tokens i = true -> (i < L1)%nat.
Proof using tokens_terminated.
  unfold Parser.isKey. intros H. apply orb_true_iff in H.
  destruct H as [ H | H ]; eapply at_kind_lt; try exact H; discriminate.
Qed.

(** One pair moves the index forward when its value does. *)
Lemma parsePair_progress (child : nat -> result (JSValue * nat)) st :
  (snd st < L1)%nat ->
  (forall i, (snd st < i <= L1)%nat ->
     child i <> OutOfFuel
     /\ forall v i', child i = Ok (v, i') -> (i < i' <= L1)%nat) ->
  Parser.parsePair tokens child st <> OutOfFuel
  /\ forall st', Parser.parsePair tokens child st = Ok st' ->
                 (snd st < snd st' <= L1)%nat.
Proof using Type.
  destruct st as [obj i]. cbn [snd]. intros Hi Hchild. unfold Parser.parsePair.
  pose proof (advance_lt i Hi) as Ha.
  pose proof (skipIf_le TokenKind.Colon (Parser.advance tokens i) ltac:(lia)) as Hs.
  destruct (Hchild (Parser.skipIf tokens TokenKind.Colon (Parser.advance tokens i))
              ltac:(lia)) as [C1 C2].
  destruct (child _) as [ [v i2] | | ]; cbn [bind];
    [ | split; [ discriminate | intros; discriminate ] | contradiction ].
  specialize (C2 _ _ eq_refl).
  destruct (hasOwnProperty obj _); [ split; [ discriminate | intros; discriminate ] | ].
  split; [ discriminate | ]. intros st' [= <-]. cbn [snd]. lia.
Qed.

Lemma parseValue_progress fuel :
  forall d i,
    (i <= L1)%nat -> (L1 - i < fuel)%nat ->
    Parser.parseValue tokens maxDepth fuel d i <> OutOfFuel
    /\ forall v i', Parser.parseValue tokens maxDepth fuel d i = Ok (v, i') ->
                    (i < i' <= L1)%nat.
Proof using tokens_terminated.
  induction fuel as [ | fuel IH ]; intros d i Hi Hf; [ lia | ].
  cbn [Parser.parseValue].
  destruct (maxDepth <? d); [ split; [ discriminate | intros; discriminate ] | ].
  assert (Hscalar : forall v : JSValue,
            Lexer.kind (Parser.current tokens i) <> TokenKind.Eof ->
            (Ok (v, Parser.advance tokens i) : result (JSValue * nat)) <> OutOfFuel
            /\ forall (v' : JSValue) (i' : nat),
                 Ok (v, Parser.advance tokens i) = Ok (v', i') ->
                 (i < i' <= L1)%nat).
  { intros v Hk. apply current_not_eof in Hk. rewrite (advance_lt i Hk).
    split; [ discriminate | ]. intros v' i' [= _ <-]. lia. }
  destruct (Lexer.kind (Parser.current tokens i)) eqn:Ek;
    try (split; [ discriminate | intros; discriminate ]);
    try (apply Hscalar; discriminate).
  - (* object *)
    destruct (expect_cases TokenKind.LBrace i ltac:(discriminate))
      as [ [e ->] | [-> Hlt] ]; cbn [bind];
      [ split; [ discriminate | intros; discriminate ] | ].
    match goal with
    | |- context [Parser.while fuel ?c ?b ?s] =>
        pose proof (fun H => while_progress c b snd (Datatypes.S i) L1 H fuel s) as W;
        match type of W with
        | ?P -> _ =>
            assert (Hb : P);
            [ | destruct (W Hb ltac:(cbn [snd]; lia) ltac:(cbn [snd]; lia))
                  as [W1 W2]; clear W Hb;
                destruct (Parser.while fuel c b s) as [ [obj i2] | | ]; cbn [bind];
                [ | split; [ discriminate | intros; discriminate ] | contradiction ] ]
        end
    end.
    + intros s Hs Hc.
      destruct (Parser.isKey tokens (snd s)) eqn:Ekey;
        [ | split; [ discriminate | intros; discriminate ] ].
      apply isKey_lt in Ekey.
      destruct (parsePair_progress (Parser.parseValue tokens maxDepth fuel (d + 1)) s
                  Ekey) as [P1 P2].
      { intros j Hj. apply IH; lia. }
      destruct (Parser.parsePair tokens _ s) as [ [o j] | | ]; cbn [bind];
        [ | split; [ discriminate | intros; discriminate ] | contradiction ].
      specialize (P2 _ eq_refl). cbn [snd] in P2.
      pose proof (skipIf_le TokenKind.Comma j ltac:(lia)).
      split; [ discriminate | ]. intros s' [= <-]. cbn [snd]. lia.
    + specialize (W2 _ eq_refl). cbn [snd] in W2.
      destruct (expect_cases TokenKind.RBrace i2 ltac:(discriminate))
        as [ [e ->] | [-> Hlt3] ]; cbn [bind];
        [ split; [ discriminate | intros; discriminate ] | ].
      split; [ discriminate | ]. intros v i' [= _ <-]. lia.
  - (* array *)
    destruct (expect_cases TokenKind.LBracket i ltac:(discriminate))
      as [ [e ->] | [-> Hlt] ]; cbn [bind];
      [ split; [ discriminate | intros; discriminate ] | ].
    match goal with
    | |- context [Parser.while fuel ?c ?b ?s] =>
        pose proof (fun H => while_progress c b snd (Datatypes.S i) L1 H fuel s) as W;
        match type of W with
        | ?P -> _ =>
            assert (Hb : P);
            [ | destruct (W Hb ltac:(cbn [snd]; lia) ltac:(cbn [snd]; lia))
                  as [W1 W2]; clear W Hb;
                destruct (Parser.while fuel c b s) as [ [arr i2] | | ]; cbn [bind];
                [ | split; [ discriminate | intros; discriminate ] | contradiction ] ]
        end
    end.
    + intros s Hs Hc.
      destruct (IH (d + 1) (snd s) ltac:(lia) ltac:(lia)) as [P1 P2].
      destruct (Parser.parseValue tokens maxDepth fuel (d + 1) (snd s))
        as [ [w j] | | ]; cbn [bind];
        [ | split; [ discriminate | intros; discriminate ] | contradiction ].
      specialize (P2 _ _ eq_refl).
      pose proof (skipIf_le TokenKind.Comma j ltac:(lia)).
      split; [ discriminate | ]. intros s' [= <-]. cbn [snd]. lia.
    + specialize (W2 _ eq_refl). cbn [snd] in W2.
      destruct (expect_cases TokenKind.RBracket i2 ltac:(discriminate))
        as [ [e ->] | [-> Hlt3] ]; cbn [bind];
        [ split; [ discriminate | intros; discriminate ] | ].
      split; [ discriminate | ]. intros v i' [= _ <-]. lia.
Qed.

Lemma parseDocument_total fuel :
  (L1 < fuel)%nat ->
  Parser.parseDocument tokens maxDepth fuel 0 <> OutOfFuel.
Proof using tokens_terminated.
  intros Hf. unfold Parser.parseDocument.
  match goal with |- context [if ?c then _ else _] => destruct c end.
  - unfold Parser.parseRootObject.
    match goal with
    | |- context [Parser.while fuel ?c ?b ?s] =>
        pose proof (fun H => while_progress c b snd 0%nat L1 H fuel s) as W;
        match type of W with
        | ?P -> _ =>
            assert (Hb : P);
            [ | destruct (W Hb ltac:(cbn [snd]; lia) ltac:(cbn [snd]; lia))
                  as [W1 W2]; clear W Hb;
                destruct (Parser.while fuel c b s) as [ [obj i2] | | ]; cbn [bind];
                [ discriminate | discriminate | contradiction ] ]
        end
    end.
    intros s Hs Hc. apply isKey_lt in Hc.
    apply parsePair_progress; [ exact Hc | ].
    intros j Hj. apply parseValue_progress; lia.
  - apply parseValue_progress; lia.
Qed.
End ParserProgress.

(** [parse] gives a value or throws, whatever the text. *)
Lemma parse_total text options : Parser.parse text options <> OutOfFuel.
Proof.
  unfold Parser.parse.
  destruct (tokenize_terminated text
              {| Lexer.maxInputLength := Parser.maxInputLength options |})
    as [T1 T2].
  destruct (Lexer.tokenize text _) as [ tokens | | ]; cbn [bind];
    [ | discriminate | contradiction ].
  specialize (T2 _ eq_refl).
  pose proof (parseDocument_total tokens T2 (Parser.depthLimit options)
                (List.length tokens + 2) ltac:(lia)) as Hd.
  destruct (Parser.parseDocument tokens _ _ 0) as [ [v i] | | ]; cbn [bind];
    [ | discriminate | contradiction ].
  unfold Parser.expect. destruct (negb _); cbn [bind]; discriminate.
Qed.

(** ** The single-pass parser consumes its input *)

Lemma fast_skipBlock_cons x s1 p d :
  ParseFast.skipBlock (x :: s1) p d
  = match s1 with
    | y :: s2 =>
        let p1 := ParseFast.advance x p in
        if (x =? 42) && (y =? 47) then
          if 0 <? d - 1 then ParseFast.skipBlock s2 (ParseFast.advance y p1) (d - 1)
          else Ok (s2, ParseFast.advance y p1)
        else if (x =? 47) && (y =? 42) then
          ParseFast.skipBlock s2 (ParseFast.advance y p1) (d + 1)
        else ParseFast.skipBlock s1 p1 d
    | [] => ParseFast.fail [T "Unclosed multi-line comment"] p
    end.
Proof. destruct s1; reflexivity. Qed.

Lemma fast_skipBlock_length n :
  forall s p d,
    (List.length s <= n)%nat ->
    ParseFast.skipBlock s p d <> OutOfFuel
    /\ forall s' p', ParseFast.skipBlock s p d = Ok (s', p') ->
                     (List.length s' <= List.length s)%nat.
Proof.
  induction n as [ | n IH ]; intros s p d Hn; destruct s as [ | x s1 ];
    try (split; [ discriminate | intros; discriminate ]);
    cbn [List.length] in Hn; [ lia | ].
  rewrite fast_skipBlock_cons.
  destruct s1 as [ | y s2 ]; [ split; [ discriminate | intros; discriminate ] | ].
  cbv zeta. cbn [List.length] in *.
  destruct ((x =? 42) && (y =? 47)); [ destruct (0 <? d - 1) | ].
  - destruct (IH s2 (ParseFast.advance y (ParseFast.advance x p)) (d - 1) ltac:(lia))
      as [H1 H2].
    split; [ exact H1 | ]. intros s' p' E. specialize (H2 _ _ E). lia.
  - split; [ discriminate | ]. intros s' p' [= <- <-]. lia.
  - destruct ((x =? 47) && (y =? 42)).
    + destruct (IH s2 (ParseFast.advance y (ParseFast.advance x p)) (d + 1) ltac:(lia))
        as [H1 H2].
      split; [ exact H1 | ]. intros s' p' E. specialize (H2 _ _ E). lia.
    + destruct (IH (y :: s2) (ParseFast.advance x p) d ltac:(cbn [List.length]; lia))
        as [H1 H2].
      split; [ exact H1 | ]. intros s' p' E. specialize (H2 _ _ E).
      cbn [List.length] in H2. lia.
Qed.

Lemma skipWs_length fuel :
  forall s p,
    (List.length s < fuel)%nat ->
    ParseFast.skipWs fuel s p <> OutOfFuel
    /\ forall s' p', ParseFast.skipWs fuel s p = Ok (s', p') ->
                     (List.length s' <= List.length s)%nat.
Proof.
  induction fuel as [ | fuel IH ]; intros s p Hf; [ lia | ].
  cbn [ParseFast.skipWs].
  assert (Hstop : forall r : result ParseFast.cursor,
            r = Ok (s, p) ->
            r <> OutOfFuel
            /\ forall s' p', r = Ok (s', p') ->
                             (List.length s' <= List.length s)%nat).
  { intros r ->. split; [ discriminate | ]. intros s' p' [= <- <-]. lia. }
  destruct s as [ | c s1 ]; [ now apply Hstop | ]. cbn [List.length] in *.
  destruct (Lexer.isSpace c).
  { destruct (IH s1 (ParseFast.advance c p) ltac:(lia)) as [H1 H2].
    split; [ exact H1 | ]. intros s' p' E. specialize (H2 _ _ E). lia. }
  destruct (c =? 47); [ | now apply Hstop ].
  destruct s1 as [ | d s2 ]; [ now apply Hstop | ]. cbn [List.length] in *.
  destruct (d =? 47).
  { pose proof (skipLine_length s2 (ParseFast.advance d (ParseFast.advance c p))) as Hl.
    destruct (Lexer.skipLine s2 _) as [s3 p3]. cbn [fst] in Hl.
    destruct (IH s3 p3 ltac:(lia)) as [H1 H2].
    split; [ exact H1 | ]. intros s' p' E. specialize (H2 _ _ E). lia. }
  destruct (d =? 42); [ | now apply Hstop ].
  destruct (fast_skipBlock_length _ s2 (ParseFast.advance d (ParseFast.advance c p)) 1
              (le_n _)) as [B1 B2].
  destruct (ParseFast.skipBlock s2 _ 1) as [ [s3 p3] | | ]; cbn [bind];
    [ | split; [ discriminate | intros; discriminate ] | contradiction ].
  specialize (B2 _ _ eq_refl).
  destruct (IH s3 p3 ltac:(lia)) as [H1 H2].
  split; [ exact H1 | ]. intros s' p' E. specialize (H2 _ _ E). lia.
Qed.

Lemma fast_readHex4_total s p : ParseFast.readHex4 s p <> OutOfFuel.
Proof.
  unfold ParseFast.readHex4, ParseFast.fail. cbn [fold_left bind].
  repeat match goal with
         | |- context [match nth_error ?l ?i with _ => _ end] =>
             destruct (nth_error l i); cbn [bind]
         | |- context [if isHex ?h then _ else _] =>
             destruct (isHex h); cbn [bind]
         end; discriminate.
Qed.

Lemma fast_readQuotedBody_length fuel quote :
  forall s p buf,
    (List.length s < fuel)%nat ->
    ParseFast.readQuotedBody fuel quote s p buf <> OutOfFuel
    /\ forall text s' p',
         ParseFast.readQuotedBody fuel quote s p buf = Ok (text, (s', p')) ->
         (List.length s' < List.length s)%nat.
Proof.
  induction fuel as [ | fuel IH ]; intros s p buf Hf; [ lia | ].
  cbn [ParseFast.readQuotedBody].
  assert (Hrec : forall s0 p0 buf0,
            (List.length s0 < List.length s)%nat ->
            ParseFast.readQuotedBody fuel quote s0 p0 buf0 <> OutOfFuel
            /\ forall text s' p',
                 ParseFast.readQuotedBody fuel quote s0 p0 buf0 = Ok (text, (s', p')) ->
                 (List.length s' < List.length s)%nat).
  { intros s0 p0 buf0 Hs0. destruct (IH s0 p0 buf0 ltac:(lia)) as [H1 H2].
    split; [ exact H1 | ]. intros text s' p' E. specialize (H2 _ _ _ E). lia. }
  destruct s as [ | c s1 ]; [ split; [ discriminate | intros; discriminate ] | ].
  cbn [List.length] in *.
  destruct (c =? quote).
  { split; [ discriminate | ]. intros text s' p' [= _ <- _]. lia. }
  destruct (c =? 92).
  - destruct s1 as [ | next s2 ]; [ split; [ discriminate | intros; discriminate ] | ].
    cbn [List.length] in *.
    repeat match goal with
           | |- context [if next =? ?k then _ else _] =>
               destruct (next =? k); [ apply Hrec; lia | ]
           end.
    destruct (next =? 117); [ | apply Hrec; lia ].
    pose proof (fast_readHex4_total s2
                  (ParseFast.advance next (ParseFast.advance c p))) as Hh.
    destruct (ParseFast.readHex4 s2 _) as [ [[u n] p3] | | ]; cbn [bind];
      [ | split; [ discriminate | intros; discriminate ] | contradiction ].
    apply Hrec. rewrite length_skipn. lia.
  - destruct ((0 <=? c) && (c <=? 31));
      [ split; [ discriminate | intros; discriminate ] | ].
    apply Hrec. lia.
Qed.

Lemma readQuoted_length quote s p :
  ParseFast.readQuoted quote s p <> OutOfFuel
  /\ forall text s' p',
       ParseFast.readQuoted quote s p = Ok (text, (s', p')) ->
       (List.length s' < List.length s)%nat.
Proof.
  unfold ParseFast.readQuoted.
  destruct s as [ | q s1 ]; [ split; [ discriminate | intros; discriminate ] | ].
  destruct (fast_readQuotedBody_length (List.length s1 + 1) quote s1
              (ParseFast.advance q p) [] ltac:(lia)) as [H1 H2].
  split; [ exact H1 | ]. intros text s' p' E. specialize (H2 _ _ _ E).
  cbn [List.length]. lia.
Qed.

Lemma isDigit_dropWhile c s1 :
  isDigit c = true ->
  (List.length (dropWhile isDigit (c :: s1)) <= List.length s1)%nat.
Proof.
  intros Hc. cbn [dropWhile]. rewrite Hc. apply dropWhile_length.
Qed.

(** Case analysis on every test of a reader, keeping what [dropWhile] leaves. *)
Ltac note_drops :=
  repeat match goal with
         | |- context [dropWhile ?f ?X] =>
             lazymatch goal with
             | _ : (List.length (dropWhile f X) <= List.length X)%nat |- _ => fail
             | _ => pose proof (dropWhile_length f X)
             end
         end.

Lemma length_cons_S {A} (x : A) l :
  List.length (x :: l) = Datatypes.S (List.length l).
Proof. reflexivity. Qed.

Ltac norm_length :=
  repeat match goal with
         | H : context [List.length (_ :: _)] |- _ => rewrite length_cons_S in H
         | H : context [List.length []] |- _ => rewrite length_nil in H
         end;
  rewrite ?length_cons_S, ?length_nil.

Ltac reader_cases :=
  repeat (note_drops; cbv beta iota zeta; cbn [bind fst snd];
          match goal with
          | |- context [match ?l with [] => _ | _ :: _ => _ end] => destruct l
          | |- context [if ?b then _ else _] => destruct b
          end).

Lemma fast_readNumber_length c s1 p :
  (c =? 45) || isDigit c = true ->
  ParseFast.readNumber (c :: s1) p <> OutOfFuel
  /\ forall num isFloat s' p',
       ParseFast.readNumber (c :: s1) p = Ok (num, isFloat, (s', p')) ->
       (List.length s' <= List.length s1)%nat.
Proof.
  intros Hc. unfold ParseFast.readNumber, ParseFast.fail.
  destruct (c =? 45) eqn:E45;
    [ | cbn [orb] in Hc; cbn [dropWhile takeWhile]; rewrite ?Hc ];
    reader_cases;
    (split; [ discriminate | ]; intros num fl s' p' E; try discriminate;
     injection E as _ _ <- _; cbn [dropWhile] in *; norm_length; lia).
Qed.

Section ReaderProgress.
Variable maxDepth : Z.

(** What is left to read: the input after the current token, and the
    current token unless it is [Eof]. *)
Let remaining (r : ParseFast.Reader) : nat :=
  (List.length (ParseFast.rest r)
   + if TokenKind.eqb (ParseFast.kind r) TokenKind.Eof then 0 else 1)%nat.

Lemma readToken_length r :
  ParseFast.readToken r <> OutOfFuel
  /\ forall r', ParseFast.readToken r = Ok r' ->
                (remaining r' <= List.length (ParseFast.rest r))%nat.
Proof using Type.
  unfold ParseFast.readToken.
  destruct (skipWs_length (List.length (ParseFast.rest r) + 1) (ParseFast.rest r)
              (ParseFast.at_pos r) ltac:(lia)) as [W1 W2].
  destruct (ParseFast.skipWs _ _ _) as [ [s p] | | ]; cbn [bind];
    [ | split; [ discriminate | intros; discriminate ] | contradiction ].
  specialize (W2 _ _ eq_refl). cbv zeta.
  assert (Hset : forall k v s' p',
            (List.length s' < List.length s)%nat ->
            (Ok {| ParseFast.rest := s'; ParseFast.at_pos := p';
                   ParseFast.kind := k; ParseFast.val := v |}
             : result ParseFast.Reader) <> OutOfFuel
            /\ forall r',
                 Ok {| ParseFast.rest := s'; ParseFast.at_pos := p';
                       ParseFast.kind := k; ParseFast.val := v |} = Ok r' ->
                 (remaining r' <= List.length (ParseFast.rest r))%nat).
  { intros k v s' p' Hs. split; [ discriminate | ]. intros r' [= <-].
    unfold remaining. cbn [ParseFast.rest ParseFast.kind].
    destruct (TokenKind.eqb k TokenKind.Eof); lia. }
  destruct s as [ | c s1 ].
  { split; [ discriminate | ]. intros r' [= <-].
    unfold remaining. cbn [ParseFast.rest ParseFast.kind TokenKind.eqb List.length] in *. lia. }
  cbn [List.length] in W2.
  repeat match goal with
         | |- context [if c =? ?k then _ else _] =>
             destruct (c =? k); [ apply Hset; cbn [List.length]; lia | ]
         end.
  destruct ((c =? 34) || (c =? 39)).
  { destruct (readQuoted_length c (c :: s1) p) as [Q1 Q2].
    destruct (ParseFast.readQuoted c (c :: s1) p) as [ [text [s2 p2]] | | ];
      cbn [bind]; [ | split; [ discriminate | intros; discriminate ] | contradiction ].
    apply Hset. eapply Q2. reflexivity. }
  destruct ((c =? 45) || isDigit c) eqn:En.
  { destruct (fast_readNumber_length c s1 p En) as [N1 N2].
    destruct (ParseFast.readNumber (c :: s1) p) as [ [[num isFloat] [s2 p2]] | | ];
      cbn [bind]; [ | split; [ discriminate | intros; discriminate ] | contradiction ].
    specialize (N2 _ _ _ _ eq_refl). apply Hset. cbn [List.length]. lia. }
  destruct (isLower c || isUpper c || (c =? 95)) eqn:Ei;
    [ | split; [ discriminate | intros; discriminate ] ].
  unfold ParseFast.readIdentifier.
  assert (Hd : (List.length (dropWhile isWordOrDash (c :: s1)) < List.length (c :: s1))%nat).
  { cbn [dropWhile]. unfold isWordOrDash, isWord, isAlpha_. rewrite Ei.
    cbn [orb List.length]. pose proof (dropWhile_length isWordOrDash s1).
    unfold isWordOrDash, isWord, isAlpha_ in *. lia. }
  repeat match goal with
         | |- context [if str_eqb ?a ?b then _ else _] => destruct (str_eqb a b)
         end; apply Hset; exact Hd.
Qed.

Lemma readToken_total r : ParseFast.readToken r <> OutOfFuel.
Proof using Type. apply readToken_length. Qed.

(** Reading the next token uses up the current one. *)
Lemma readToken_left r r' :
  ParseFast.kind r <> TokenKind.Eof ->
  ParseFast.readToken r = Ok r' -> (remaining r' < remaining r)%nat.
Proof using Type.
  intros Hk E. apply (proj2 (readToken_length r)) in E.
  unfold remaining at 2.
  destruct (TokenKind.eqb (ParseFast.kind r) TokenKind.Eof) eqn:Ek; [ | lia ].
  apply TokenKind_eqb_eq in Ek. contradiction.
Qed.

Lemma readToken_left_le r r' :
  ParseFast.readToken r = Ok r' -> (remaining r' <= remaining r)%nat.
Proof using Type.
  intros E. apply (proj2 (readToken_length r)) in E. unfold remaining at 2. lia.
Qed.

Lemma fast_skipIf_left k r :
  ParseFast.skipIf k r <> OutOfFuel
  /\ forall r', ParseFast.skipIf k r = Ok r' -> (remaining r' <= remaining r)%nat.
Proof using Type.
  unfold ParseFast.skipIf. destruct (TokenKind.eqb (ParseFast.kind r) k).
  - split; [ apply readToken_total | apply readToken_left_le ].
  - split; [ discriminate | ]. intros r' [= <-]. lia.
Qed.

Lemma fast_isKey_not_eof r :
  ParseFast.isKey r = true -> ParseFast.kind r <> TokenKind.Eof.
Proof using Type.
  unfold ParseFast.isKey. intros H. apply orb_true_iff in H.
  destruct H as [ H | H ]; apply TokenKind_eqb_eq in H; rewrite H; discriminate.
Qed.

(** A loop whose steps use up what is left. *)
Lemma while_decreasing {St} (cond : St -> bool) (body : St -> result St)
  (mu : St -> nat) (bound : nat) :
  (forall s, (mu s <= bound)%nat -> cond s = true ->
     body s <> OutOfFuel
     /\ forall s', body s = Ok s' -> (mu s' < mu s)%nat) ->
  forall fuel s,
    (mu s <= bound)%nat -> (mu s < fuel)%nat ->
    Parser.while fuel cond body s <> OutOfFuel
    /\ forall s', Parser.while fuel cond body s = Ok s' -> (mu s' <= mu s)%nat.
Proof using Type.
  intros Hbody. induction fuel as [ | fuel IH ]; intros s Hs Hf; [ lia | ].
  cbn [Parser.while]. destruct (cond s) eqn:Ec.
  - destruct (Hbody s Hs Ec) as [B1 B2].
    destruct (body s) as [ s1 | | ]; cbn [bind];
      [ | split; [ discriminate | intros; discriminate ] | contradiction ].
    specialize (B2 _ eq_refl).
    destruct (IH s1 ltac:(lia) ltac:(lia)) as [H1 H2].
    split; [ exact H1 | ]. intros s' E. specialize (H2 _ E). lia.
  - split; [ discriminate | ]. intros s' [= <-]. lia.
Qed.

Lemma fast_parsePair_progress
  (child : ParseFast.Reader -> result (JSValue * ParseFast.Reader)) st :
  ParseFast.kind (snd st) <> TokenKind.Eof ->
  (forall r, (remaining r < remaining (snd st))%nat ->
     child r <> OutOfFuel
     /\ forall v r', child r = Ok (v, r') -> (remaining r' < remaining r)%nat) ->
  ParseFast.parsePair child st <> OutOfFuel
  /\ forall st', ParseFast.parsePair child st = Ok st' ->
                 (remaining (snd st') < remaining (snd st))%nat.
Proof using Type.
  destruct st as [obj r]. cbn [snd]. intros Hk Hchild. unfold ParseFast.parsePair.
  pose proof (readToken_total r) as T1.
  destruct (ParseFast.readToken r) as [ r1 | | ] eqn:E1; cbn [bind];
    [ | split; [ discriminate | intros; discriminate ] | contradiction ].
  apply (readToken_left r r1 Hk) in E1.
  destruct (fast_skipIf_left TokenKind.Colon r1) as [S1 S2].
  destruct (ParseFast.skipIf TokenKind.Colon r1) as [ r2 | | ]; cbn [bind];
    [ | split; [ discriminate | intros; discriminate ] | contradiction ].
  specialize (S2 _ eq_refl).
  destruct (Hchild r2 ltac:(lia)) as [C1 C2].
  destruct (child r2) as [ [v r3] | | ]; cbn [bind];
    [ | split; [ discriminate | intros; discriminate ] | contradiction ].
  specialize (C2 _ _ eq_refl).
  destruct (hasOwnProperty obj _); [ split; [ discriminate | intros; discriminate ] | ].
  split; [ discriminate | ]. intros st' [= <-]. cbn [snd]. lia.
Qed.

Lemma fast_parseValue_progress fuel :
  forall d r,
    (remaining r < fuel)%nat ->
    ParseFast.parseValue maxDepth fuel d r <> OutOfFuel
    /\ forall v r', ParseFast.parseValue maxDepth fuel d r = Ok (v, r') ->
                    (remaining r' < remaining r)%nat.
Proof using Type.
  induction fuel as [ | fuel IH ]; intros d r Hf; [ lia | ].
  cbn [ParseFast.parseValue].
  destruct (maxDepth <? d); [ split; [ discriminate | intros; discriminate ] | ].
  assert (Hscalar : forall v : JSValue,
            ParseFast.kind r <> TokenKind.Eof ->
            (r1 <- ParseFast.readToken r ;; Ok (v, r1)) <> OutOfFuel
            /\ forall (v' : JSValue) (r' : ParseFast.Reader),
                 (r1 <- ParseFast.readToken r ;; Ok (v, r1)) = Ok (v', r') ->
                 (remaining r' < remaining r)%nat).
  { intros v Hk. pose proof (readToken_total r) as T1.
    destruct (ParseFast.readToken r) as [ r1 | | ] eqn:E1; cbn [bind];
      [ | split; [ discriminate | intros; discriminate ] | contradiction ].
    apply (readToken_left r r1 Hk) in E1.
    split; [ discriminate | ]. intros v' r' [= _ <-]. exact E1. }
  destruct (ParseFast.kind r) eqn:Ek;
    try (split; [ discriminate | intros; discriminate ]);
    try (apply Hscalar; discriminate).
  - (* object *)
    pose proof (readToken_total r) as T1.
    destruct (ParseFast.readToken r) as [ r1 | | ] eqn:E1; cbn [bind];
      [ | split; [ discriminate | intros; discriminate ] | contradiction ].
    apply (readToken_left r r1) in E1; [ | rewrite Ek; discriminate ].
    match goal with
    | |- context [Parser.while fuel ?c ?b ?s] =>
        pose proof (fun H => while_decreasing c b (fun st => remaining (snd st))
                               (remaining r1) H fuel s) as W;
        match type of W with
        | ?P -> _ =>
            assert (Hb : P);
            [ | destruct (W Hb ltac:(cbn [snd]; lia) ltac:(cbn [snd]; lia))
                  as [W1 W2]; clear W Hb;
                destruct (Parser.while fuel c b s) as [ [obj r2] | | ]; cbn [bind];
                [ | split; [ discriminate | intros; discriminate ] | contradiction ] ]
        end
    end.
    + intros s Hs Hc.
      destruct (ParseFast.isKey (snd s)) eqn:Ekey;
        [ | split; [ discriminate | intros; discriminate ] ].
      apply fast_isKey_not_eof in Ekey.
      destruct (fast_parsePair_progress (ParseFast.parseValue maxDepth fuel (d + 1)) s
                  Ekey) as [P1 P2].
      { intros j Hj. apply IH. lia. }
      destruct (ParseFast.parsePair _ s) as [ [o j] | | ]; cbn [bind];
        [ | split; [ discriminate | intros; discriminate ] | contradiction ].
      specialize (P2 _ eq_refl). cbn [snd] in P2.
      destruct (fast_skipIf_left TokenKind.Comma j) as [S1 S2].
      destruct (ParseFast.skipIf TokenKind.Comma j) as [ j' | | ]; cbn [bind];
        [ | split; [ discriminate | intros; discriminate ] | contradiction ].
      specialize (S2 _ eq_refl).
      split; [ discriminate | ]. intros s' [= <-]. cbn [snd]. lia.
    + specialize (W2 _ eq_refl). cbn [snd] in W2.
      pose proof (readToken_total r2) as T3.
      destruct (ParseFast.readToken r2) as [ r3 | | ] eqn:E3; cbn [bind];
        [ | split; [ discriminate | intros; discriminate ] | contradiction ].
      apply readToken_left_le in E3.
      split; [ discriminate | ]. intros v r' [= _ <-]. lia.
  - (* array *)
    pose proof (readToken_total r) as T1.
    destruct (ParseFast.readToken r) as [ r1 | | ] eqn:E1; cbn [bind];
      [ | split; [ discriminate | intros; discriminate ] | contradiction ].
    apply (readToken_left r r1) in E1; [ | rewrite Ek; discriminate ].
    match goal with
    | |- context [Parser.while fuel ?c ?b ?s] =>
        pose proof (fun H => while_decreasing c b (fun st => remaining (snd st))
                               (remaining r1) H fuel s) as W;
        match type of W with
        | ?P -> _ =>
            assert (Hb : P);
            [ | destruct (W Hb ltac:(cbn [snd]; lia) ltac:(cbn [snd]; lia))
                  as [W1 W2]; clear W Hb;
                destruct (Parser.while fuel c b s) as [ [arr r2] | | ]; cbn [bind];
                [ | split; [ discriminate | intros; discriminate ] | contradiction ] ]
        end
    end.
    + intros s Hs Hc.
      destruct (IH (d + 1) (snd s) ltac:(lia)) as [P1 P2].
      destruct (ParseFast.parseValue maxDepth fuel (d + 1) (snd s))
        as [ [w j] | | ]; cbn [bind];
        [ | split; [ discriminate | intros; discriminate ] | contradiction ].
      specialize (P2 _ _ eq_refl).
      destruct (fast_skipIf_left TokenKind.Comma j) as [S1 S2].
      destruct (ParseFast.skipIf TokenKind.Comma j) as [ j' | | ]; cbn [bind];
        [ | split; [ discriminate | intros; discriminate ] | contradiction ].
      specialize (S2 _ eq_refl).
      split; [ discriminate | ]. intros s' [= <-]. cbn [snd]. lia.
    + specialize (W2 _ eq_refl). cbn [snd] in W2.
      pose proof (readToken_total r2) as T3.
      destruct (ParseFast.readToken r2) as [ r3 | | ] eqn:E3; cbn [bind];
        [ | split; [ discriminate | intros; discriminate ] | contradiction ].
      apply readToken_left_le in E3.
      split; [ discriminate | ]. intros v r' [= _ <-]. lia.
Qed.

Lemma fast_parseDocument_total fuel r :
  (remaining r < fuel)%nat ->
  ParseFast.parseDocument maxDepth fuel r <> OutOfFuel.
Proof using Type.
  intros Hf. unfold ParseFast.parseDocument.
  destruct (ParseFast.isKey r) eqn:Ekey; [ | apply fast_parseValue_progress; lia ].
  pose proof (readToken_total r) as T1.
  destruct (ParseFast.readToken r) as [ ahead | | ]; cbn [bind];
    [ | discriminate | contradiction ].
  destruct (negb _); [ | apply fast_parseValue_progress; lia ].
  unfold ParseFast.parseRootObject.
  match goal with
  | |- context [Parser.while fuel ?c ?b ?s] =>
      pose proof (fun H => while_decreasing c b (fun st => remaining (snd st))
                             (remaining r) H fuel s) as W;
      match type of W with
      | ?P -> _ =>
          assert (Hb : P);
          [ | destruct (W Hb ltac:(cbn [snd]; lia) ltac:(cbn [snd]; lia))
                as [W1 W2]; clear W Hb;
              destruct (Parser.while fuel c b s) as [ [obj r2] | | ]; cbn [bind];
              [ discriminate | discriminate | contradiction ] ]
      end
  end.
  intros s Hs Hc. apply fast_isKey_not_eof in Hc.
  apply fast_parsePair_progress; [ exact Hc | ].
  intros j Hj. apply fast_parseValue_progress. lia.
Qed.

Lemma newReader_left input :
  ParseFast.newReader input <> OutOfFuel
  /\ forall r, ParseFast.newReader input = Ok r ->
               (remaining r <= List.length input)%nat.
Proof using Type.
  unfold ParseFast.newReader.
  destruct (skipWs_length (List.length input + 1) input (pos 1 1 0) ltac:(lia))
    as [W1 W2].
  destruct (ParseFast.skipWs _ input _) as [ [s p] | | ]; cbn [bind];
    [ | split; [ discriminate | intros; discriminate ] | contradiction ].
  specialize (W2 _ _ eq_refl).
  split; [ apply readToken_total | ]. intros r E.
  apply (proj2 (readToken_length _)) in E. cbn [ParseFast.rest] in E. lia.
Qed.
End ReaderProgress.

(** [parseFast] gives a value or throws, whatever the text. *)
Lemma parseFast_total text options :
  ParseFast.parseFast text options <> OutOfFuel.
Proof.
  unfold ParseFast.parseFast. cbv zeta.
  match goal with |- context [if ?c then _ else _] => destruct c end;
    [ discriminate | ].
  destruct (newReader_left text) as [N1 N2].
  destruct (ParseFast.newReader text) as [ r | | ]; cbn [bind];
    [ | discriminate | contradiction ].
  specialize (N2 _ eq_refl).
  match goal with
  | |- context [ParseFast.parseDocument ?m ?f r] =>
      pose proof (fast_parseDocument_total m f r) as Hd;
      destruct (ParseFast.parseDocument m f r) as [ [v r'] | | ]; cbn [bind];
      [ | discriminate | exfalso; apply Hd; [ lia | reflexivity ] ]
  end.
  unfold ParseFast.expectEof. destruct (negb _); cbn [bind]; discriminate.
Qed.

(** ** Behaviour on particular inputs *)

(** C3.  The text parser rejects a repeated key with a duplicate-key error,
    but the binary decoder does not: for an object whose two entries carry
    the same key index, [decode] returns the object with the later value,
    the earlier one being silently overwritten. *)
Theorem decode_repeated_key_index_overwrites :
  Parser.parse (lit "{k: false k: true}") Parser.defaults
    = Throw (KodaParseError [T "Duplicate key: "; S (lit "k")] (pos 1 11 10))
  /\ Decoder.decode
       ([75; 79; 68; 65; 1] ++ [0; 0; 0; 1] ++ [0; 0; 0; 1; 107]
          ++ [17; 0; 0; 0; 2] ++ [0; 0; 0; 0; 2] ++ [0; 0; 0; 0; 3])
       Decoder.defaults
     = Ok (VObject [(lit "k", VBool true)]).
Proof. split; vm_compute; reflexivity. Qed.

(** C4.  [needsQuote] lets a string of digits through: the String ["123"] is
    written unquoted and reads back as the number 123, with the token-array
    parser and with the single-pass one; a string that is quoted comes back
    with backspaces at its word boundaries. *)
Theorem stringify_digit_string_reads_back_as_number :
  Stringify.needsQuote (lit "123") = false
  /\ Stringify.stringify (VString (lit "123")) Stringify.defaults = lit "123"
  /\ Parser.parse (Stringify.stringify (VString (lit "123")) Stringify.defaults)
       Parser.defaults = Ok (VNumber (ofZ 123))
  /\ ParseFast.parseFast
       (Stringify.stringify (VString (lit "123")) Stringify.defaults)
       Parser.defaults = Ok (VNumber (ofZ 123))
  /\ Parser.parse (Stringify.stringify (VString (lit "a b")) Stringify.defaults)
       Parser.defaults = Ok (VString [8; 97; 8; 32; 8; 98; 8]).
Proof. repeat split; vm_compute; reflexivity. Qed.

(** C7.  On the string literal ["\q"] the lexer of [parse] fails with an
    invalid-escape error, while [Reader.readQuoted] of [parseFast] accepts
    the escape and yields the text [q]. *)
Theorem parseFast_accepts_unknown_escape :
  Parser.parse [34; 92; 113; 34] Parser.defaults
    = Throw (KodaParseError [T "Invalid escape sequence \"; S [113]] (pos 1 4 3))
  /\ ParseFast.parseFast [34; 92; 113; 34] Parser.defaults
    = Ok (VString [113]).
Proof. split; vm_compute; reflexivity. Qed.

(** C8.  A dictionary key or a string payload that is not well-formed UTF-8
    makes [decode] fail with the [TypeError] of the host's decoder, an error
    that carries no byte offset. *)
Theorem decode_ill_formed_utf8_has_no_offset :
  Decoder.decode
    ([75; 79; 68; 65; 1] ++ [0; 0; 0; 1] ++ [0; 0; 0; 1; 255] ++ [1])
    Decoder.defaults = Throw TypeError
  /\ Decoder.decode
       ([75; 79; 68; 65; 1] ++ [0; 0; 0; 0] ++ [6; 0; 0; 0; 2; 192; 128])
       Decoder.defaults = Throw TypeError.
Proof. split; vm_compute; reflexivity. Qed.

(** C9.  A leading [0] followed by [1]..[9] is a lex error, but a leading [0]
    followed by another [0] is not: ["00"] lexes as two Integer tokens and
    ["[00]"] parses to the array of two zeros, with the token-array parser
    and with the single-pass one. *)
Theorem leading_zero_before_zero_is_accepted :
  Parser.parse (lit "01") Parser.defaults
    = Throw (KodaParseError [T "Invalid number: leading zero"] (pos 1 2 1))
  /\ Parser.parse (lit "[00]") Parser.defaults
    = Ok (VArray [VNumber posZero; VNumber posZero])
  /\ ParseFast.parseFast (lit "[00]") Parser.defaults
    = Ok (VArray [VNumber posZero; VNumber posZero])
  /\ Parser.parse (lit "00") Parser.defaults
    = Throw (KodaParseError
               [T "Expected "; T "Eof"; T ", got "; T "Integer"] (pos 1 2 1))
  /\ ParseFast.parseFast (lit "00") Parser.defaults
    = Throw (KodaParseError [T "Expected end of input"] (pos 1 3 2)).
Proof. repeat split; vm_compute; reflexivity. Qed.

(** C10.  [parse] and [parseFast] disagree: on ["1e"] the first throws and the
    second returns 1; on ["[-.5e3]"] they return different values; on the
    string literal ["\q"] the first throws and the second returns a string. *)
Theorem parse_and_parseFast_disagree :
  (Parser.parse (lit "1e") Parser.defaults
     = Throw (KodaParseError [T "Invalid exponent"] (pos 1 3 2))
   /\ ParseFast.parseFast (lit "1e") Parser.defaults = Ok (VNumber (ofZ 1)))
  /\ (Parser.parse (lit "[-.5e3]") Parser.defaults
        = Ok (VArray [VNumber (parseFloat (lit "-.5")); VString (lit "e3")])
      /\ ParseFast.parseFast (lit "[-.5e3]") Parser.defaults
        = Ok (VArray [VNumber (ofZ (-500))]))
  /\ (Parser.parse [34; 92; 122; 34] Parser.defaults
        = Throw (KodaParseError [T "Invalid escape sequence \"; S [122]] (pos 1 4 3))
      /\ ParseFast.parseFast [34; 92; 122; 34] Parser.defaults
        = Ok (VString [122])).
Proof. repeat split; vm_compute; reflexivity. Qed.

(* ================================================================== *)
(** * Further properties of the code *)
(* ================================================================== *)

From Stdlib Require DecimalPos DecimalFacts.

Import Shape.

(** ** What the decoder returns *)

Lemma cons_opt_some {A} (x : A) o l :
  cons_opt x o = Some l -> exists r, o = Some r /\ l = x :: r.
Proof. destruct o as [ r | ]; cbn; [ intros [= <-]; eauto | discriminate ]. Qed.

(** The strict UTF-8 decoder yields scalar values only: no surrogate, no
    overlong form, nothing above U+10FFFF. *)
Lemma utf8_scalars_scalar n :
  forall bs cps,
    (List.length bs <= n)%nat -> utf8_scalars bs = Some cps -> Forall scalar cps.
Proof.
  induction n as [ | n IH ]; intros bs cps Hn H.
  - destruct bs; [ | cbn in Hn; lia ]. injection H as <-. constructor.
  - destruct bs as [ | b0 r0 ]; [ injection H as <-; constructor | ].
    rewrite utf8_scalars_cons in H. cbn [List.length] in Hn.
    destruct ((0 <=? b0) && (b0 <? 128)) eqn:E1.
    { apply cons_opt_some in H as (r & Hr & ->).
      constructor; [ unfold scalar; lia | apply (IH r0); [ lia | exact Hr ] ]. }
    destruct ((194 <=? b0) && (b0 <=? 223)) eqn:E2.
    { destruct r0 as [ | b1 r1 ]; [ discriminate | ].
      unfold is_continuation in H.
      destruct ((128 <=? b1) && (b1 <=? 191)) eqn:C1; [ | discriminate ].
      apply cons_opt_some in H as (r & Hr & ->). cbn [List.length] in Hn.
      constructor; [ unfold scalar; lia | apply (IH r1); [ lia | exact Hr ] ]. }
    destruct ((224 <=? b0) && (b0 <=? 239)) eqn:E3.
    { destruct r0 as [ | b1 [ | b2 r2 ] ]; try discriminate.
      unfold second_ok, second_lower, second_upper, is_continuation in H.
      match type of H with
      | (if ?c then _ else _) = _ => destruct c eqn:C; [ | discriminate ]
      end.
      apply cons_opt_some in H as (r & Hr & ->). cbn [List.length] in Hn.
      constructor; [ | apply (IH r2); [ lia | exact Hr ] ].
      unfold scalar.
      destruct (Z.eqb_spec b0 224), (Z.eqb_spec b0 237), (Z.eqb_spec b0 240),
        (Z.eqb_spec b0 244); lia. }
    destruct ((240 <=? b0) && (b0 <=? 244)) eqn:E4; [ | discriminate ].
    destruct r0 as [ | b1 [ | b2 [ | b3 r3 ] ] ]; try discriminate.
    unfold second_ok, second_lower, second_upper, is_continuation in H.
    match type of H with
    | (if ?c then _ else _) = _ => destruct c eqn:C; [ | discriminate ]
    end.
    apply cons_opt_some in H as (r & Hr & ->). cbn [List.length] in Hn.
    constructor; [ | apply (IH r3); [ lia | exact Hr ] ].
    unfold scalar.
    destruct (Z.eqb_spec b0 224), (Z.eqb_spec b0 237), (Z.eqb_spec b0 240),
      (Z.eqb_spec b0 244); lia.
Qed.

Lemma well_formed_scalars cps :
  Forall scalar cps -> well_formed (flat_map utf16_of_code_point cps) = true.
Proof.
  induction 1 as [ | cp cps Hcp _ IH ]; [ reflexivity | ].
  cbn [flat_map]. unfold utf16_of_code_point, scalar in *.
  destruct (Z.ltb_spec cp 65536); cbn [app well_formed].
  - unfold is_high_surrogate, is_low_surrogate. rewrite IH.
    destruct Hcp; decide_tests; reflexivity.
  - unfold is_high_surrogate, is_low_surrogate. rewrite IH.
    assert (0 <= (cp - 65536) / 1024 < 1024) by (Z.div_mod_to_equations; lia).
    assert (0 <= (cp - 65536) mod 1024 < 1024) by (Z.div_mod_to_equations; lia).
    decide_tests; reflexivity.
Qed.

(** Whatever bytes it is given, [TextDecoder] returns well-formed UTF-16 or
    throws. *)
Lemma TextDecoder_well_formed bs s :
  TextDecoder_decode bs = Some s -> well_formed s = true.
Proof.
  unfold TextDecoder_decode.
  destruct (utf8_scalars bs) as [ cps | ] eqn:E; [ | discriminate ].
  intros [= <-]. apply well_formed_scalars.
  apply (utf8_scalars_scalar _ _ _ (le_n _)) in E.
  unfold strip_bom. destruct E as [ | c r Hc Hr ]; [ constructor | ].
  destruct (c =? BOM); [ exact Hr | now constructor ].
Qed.

(** [obj[key] = v] keeps the own keys distinct. *)
Lemma assoc_set_keys {V} key (v : V) o :
  map fst (assoc_set key v o)
  = if hasOwnProperty o key then map fst o else map fst o ++ [key].
Proof.
  unfold hasOwnProperty.
  induction o as [ | [k x] r IH ]; cbn [assoc_set assoc_get map fst app];
    [ reflexivity | ].
  destruct (str_eqb k key) eqn:E; cbn [map fst]; [ reflexivity | ].
  rewrite IH. destruct (assoc_get key r); reflexivity.
Qed.

Lemma assoc_set_all {V} (P : jsstring * V -> Prop) key (v : V) o :
  P (key, v) -> (forall k x, k = key -> P (k, x) -> P (k, v)) ->
  Forall P o -> Forall P (assoc_set key v o).
Proof.
  intros Hkv Hrep. induction 1 as [ | [k x] r Hx Hr IH ]; cbn [assoc_set].
  - constructor; [ exact Hkv | constructor ].
  - destruct (str_eqb k key) eqn:E.
    + apply str_eqb_eq in E. constructor; [ | exact Hr ]. subst. exact Hkv.
    + constructor; assumption.
Qed.

Lemma Object_set_shaped Pk Ps key (v : JSValue) (obj : JSObject) :
  Pk key ->
  shaped Pk Ps v ->
  shaped Pk Ps (VObject obj) ->
  shaped Pk Ps (VObject (Object_set key v obj)).
Proof.
  intros Hkey Hv Hobj.
  destruct (Object_set_cases key v obj) as [ [_ ->] | [-> _] ]; [ exact Hobj | ].
  inversion Hobj as [ | | | | | props Hnd Hall ]; subst.
  constructor.
  - rewrite assoc_set_keys. unfold hasOwnProperty.
    destruct (assoc_get key obj) eqn:E; [ exact Hnd | ].
    apply assoc_get_none in E.
    apply NoDup_app; [ exact Hnd | repeat constructor; intros [] | ].
    intros k Hk [ <- | [] ]. contradiction.
  - apply assoc_set_all; [ cbn; auto | | exact Hall ].
    cbn. intros k x -> [Hk _]. auto.
Qed.

Lemma Returns_decodeUtf8 bs :
  Returns (Decoder.decodeUtf8 bs) (fun s => well_formed s = true).
Proof.
  intros off s off' H. unfold Decoder.decodeUtf8 in H.
  destruct (TextDecoder_decode bs) as [ t | ] eqn:E; [ | discriminate ].
  injection H as <- _. exact (TextDecoder_well_formed _ _ E).
Qed.

Lemma Returns_readDictionary buffer maxDict maxStr :
  Returns (Decoder.readDictionary buffer maxDict maxStr)
    (Forall (fun k => well_formed k = true)).
Proof.
  unfold Decoder.readDictionary. apply Returns_bind'. intros dictLen.
  apply Returns_if; [ apply Returns_fail | ].
  apply Returns_times; [ | constructor ].
  intros d Hd. unfold Decoder.readKey. apply Returns_bind'. intros keyLen.
  apply Returns_if; [ apply Returns_fail | ].
  apply Returns_bind'. intros keyBytes.
  apply (Returns_bind _ _ (fun s => well_formed s = true));
    [ apply Returns_decodeUtf8 | ].
  intros key Hkey. apply Returns_ret. apply Forall_app. split; [ exact Hd | ].
  constructor; [ exact Hkey | constructor ].
Qed.

Lemma decodeValue_shaped buffer maxDepth maxStr dictionary fuel :
  Forall (fun k => well_formed k = true) dictionary ->
  forall d,
    Returns (Decoder.decodeValue buffer maxDepth maxStr dictionary fuel d)
      decoded_shape.
Proof.
  intros Hdict.
  induction fuel as [ | fuel IH ]; intros d; cbn [Decoder.decodeValue].
  - intros off a off' H. discriminate.
  - apply Returns_if; [ apply Returns_fail | ].
    apply Returns_bind'. intros _. apply Returns_bind'. intros tag.
    repeat (apply Returns_if;
            [ first [ apply Returns_ret; constructor
                    | apply Returns_fail | idtac ] | ]).
    + apply Returns_bind'. intros big. apply Returns_ret. constructor.
    + apply Returns_bind'. intros x. apply Returns_ret. constructor.
    + apply Returns_bind'. intros n. apply Returns_if; [ apply Returns_fail | ].
      apply Returns_bind'. intros bs.
      apply (Returns_bind _ _ (fun s => well_formed s = true));
        [ apply Returns_decodeUtf8 | ].
      intros s Hs. apply Returns_ret. now constructor.
    + apply Returns_bind'. intros count.
      apply (Returns_bind _ _ (fun arr => Forall decoded_shape arr)).
      * apply Returns_times; [ | constructor ].
        intros arr Harr.
        apply (Returns_bind _ _ (fun v : JSValue => decoded_shape v)); [ apply IH | ].
        intros v Hv. apply Returns_ret. apply Forall_app. split; [ exact Harr | ].
        constructor; [ exact Hv | constructor ].
      * intros arr Harr. apply Returns_ret. now constructor.
    + apply Returns_bind'. intros count.
      apply (Returns_bind _ _ (fun obj : JSObject => decoded_shape (VObject obj))).
      * apply Returns_times; [ | constructor; constructor ].
        intros obj Hobj. unfold Decoder.decodeEntry.
        apply Returns_bind'. intros keyIdx.
        apply Returns_if; [ apply Returns_fail | ].
        apply (Returns_bind _ _ (fun v : JSValue => decoded_shape v)); [ apply IH | ].
        intros v Hv. apply Returns_ret.
        apply Object_set_shaped; [ | exact Hv | exact Hobj ].
        destruct (nth_in_or_default (Z.to_nat keyIdx) dictionary []) as [ Hin | -> ];
          [ | reflexivity ].
        rewrite Forall_forall in Hdict. exact (Hdict _ Hin).
      * intros obj Hobj. now apply Returns_ret.
    + apply Returns_fail.
Qed.

Lemma shaped_keys_ok Ps v :
  shaped (fun k => well_formed k = true) Ps v -> keys_ok v.
Proof.
  induction v as [ | b | n | s | items IH | props IH ] using KodaValue_ind;
    intros H; inversion H as [ | | | | xs Hxs | ps Hnd Hps ]; subst;
    try constructor.
  - rewrite Forall_forall in *. intros x Hx. apply IH; auto.
  - exact Hnd.
  - rewrite Forall_forall in *. intros p Hp. destruct (Hps p Hp) as (Hwf & Hs).
    split; [ exact Hwf | apply IH; auto ].
Qed.

Lemma shaped_strings Pk Ps v : shaped Pk Ps v -> Forall Ps (stringsOf v).
Proof.
  induction v as [ | b | n | s | items IH | props IH ] using KodaValue_ind;
    intros H; inversion H as [ | | | t Ht | xs Hxs | ps Hnd Hps ]; subst;
    cbn [stringsOf]; try constructor; auto.
  - rewrite Forall_forall in *. intros t Ht.
    apply in_flat_map in Ht as (x & Hx & Ht).
    specialize (IH x Hx (Hxs x Hx)). rewrite Forall_forall in IH. auto.
  - rewrite Forall_forall in *. intros t Ht.
    apply in_flat_map in Ht as (p & Hp & Ht).
    specialize (IH p Hp (proj2 (Hps p Hp))). rewrite Forall_forall in IH. auto.
Qed.

Lemma shaped_keys Pk Ps v : shaped Pk Ps v -> Forall Pk (keysOf v).
Proof.
  induction v as [ | b | n | s | items IH | props IH ] using KodaValue_ind;
    intros H; inversion H as [ | | | t Ht | xs Hxs | ps Hnd Hps ]; subst;
    cbn [keysOf]; try constructor; auto.
  - rewrite Forall_forall in *. intros t Ht.
    apply in_flat_map in Ht as (x & Hx & Ht).
    specialize (IH x Hx (Hxs x Hx)). rewrite Forall_forall in IH. auto.
  - rewrite Forall_forall in *. intros t Ht.
    apply in_flat_map in Ht as (p & Hp & [ <- | Ht ]).
    + exact (proj1 (Hps p Hp)).
    + specialize (IH p Hp (proj2 (Hps p Hp))). rewrite Forall_forall in IH. auto.
Qed.

(** X1 (decoder.ts, [decode]): whatever the buffer, a value that [decode]
    returns is made of well-formed UTF-16 text: no string and no key of it
    holds a lone surrogate, since all of them come out of the fatal
    [TextDecoder]; and the keys of each object are pairwise distinct.  So
    the value satisfies the invariant of keys on which canonical encoding
    relies.  The key [__proto__] is not excluded: an object whose entries
    assign it twice, first [null], comes back with that own key. *)
Theorem decode_returns_well_formed_text :
  forall buffer options v,
    Decoder.decode buffer options = Ok v ->
    decoded_shape v
    /\ keys_ok v
    /\ Forall (fun s => well_formed s = true) (stringsOf v).
Proof.
  intros buffer options v H. apply decode_ok_inv in H.
  assert (Hs : decoded_shape v).
  { revert H. unfold Decoder.decodeDocument.
    enough (Hr : Returns
                   (Decoder.mbind (Decoder.ensure buffer 5) (fun _ =>
                    Decoder.mbind (Decoder.checkMagic buffer) (fun _ =>
                    Decoder.mbind (Decoder.readU8 buffer) (fun version =>
                    if negb (version =? Decoder.VERSION)
                    then Decoder.fail [T "Unsupported version: "; N version]
                    else
                      Decoder.mbind
                        (Decoder.readDictionary buffer (Decoder.dictLimit options)
                           (Decoder.stringLimit options))
                        (fun dictionary =>
                           Decoder.mbind
                             (Decoder.decodeValue buffer (Decoder.depthLimit options)
                                (Decoder.stringLimit options) dictionary
                                (Z.to_nat (Decoder.depthLimit options + 1) + 1) 0)
                             (fun value => Decoder.ret (value_of value)))))))
                   decoded_shape).
    { intros H. exact (Hr _ _ _ H). }
    apply Returns_bind'. intros _. apply Returns_bind'. intros _.
    apply Returns_bind'. intros version.
    apply Returns_if; [ apply Returns_fail | ].
    apply (Returns_bind _ _ (Forall (fun k => well_formed k = true)));
      [ apply Returns_readDictionary | ].
    intros dictionary Hd.
    apply (Returns_bind _ _ (fun v : JSValue => decoded_shape v));
      [ now apply decodeValue_shaped | ].
    intros value Hvalue. now apply Returns_ret. }
  split; [ exact Hs | ]. split; [ exact (shaped_keys_ok _ _ Hs) | ].
  exact (shaped_strings _ _ _ Hs).
Qed.

Lemma decode_returns_well_formed_text_witness :
  let buffer := [75; 79; 68; 65; 1] ++ [0; 0; 0; 1] ++ [0; 0; 0; 1; 107]
                  ++ [17; 0; 0; 0; 1] ++ [0; 0; 0; 0] ++ [6; 0; 0; 0; 1; 97] in
  let v := VObject [(lit "k", VString (lit "a"))] in
  let twice := [75; 79; 68; 65; 1] ++ [0; 0; 0; 1]
                 ++ [0; 0; 0; 9; 95; 95; 112; 114; 111; 116; 111; 95; 95]
                 ++ [17; 0; 0; 0; 2] ++ [0; 0; 0; 0; 1] ++ [0; 0; 0; 0; 3] in
  let w := VObject [(PROTO, VBool true)] in
  (Decoder.decode buffer Decoder.defaults = Ok v
   /\ decoded_shape v /\ keys_ok v
   /\ Forall (fun s => well_formed s = true) (stringsOf v))
  /\ (Decoder.decode twice Decoder.defaults = Ok w
      /\ decoded_shape w /\ keys_ok w).
Proof.
  intros buffer v twice w.
  assert (H : Decoder.decode buffer Decoder.defaults = Ok v)
    by (vm_compute; reflexivity).
  assert (H' : Decoder.decode twice Decoder.defaults = Ok w)
    by (vm_compute; reflexivity).
  split.
  - split; [ exact H | ].
    exact (decode_returns_well_formed_text buffer Decoder.defaults v H).
  - split; [ exact H' | ].
    destruct (decode_returns_well_formed_text twice Decoder.defaults w H')
      as (H1 & H2 & _).
    split; assumption.
Defined.

(** ** Where the decoder fails *)

Section DecoderBounds.
Variable buffer : bytes.
Hypothesis Hbytes : Forall byte buffer.

(** A computation of the decoder that keeps the offset inside the buffer and
    fails only with a located [KodaDecodeError] or the host's [TypeError]. *)
Let within {A} (m : Decoder.M A) (P : A -> Prop) : Prop :=
  forall off, 0 <= off <= len buffer ->
    match m off with
    | Ok (a, off') => off <= off' <= len buffer /\ P a
    | Throw (KodaDecodeError _ o) => off <= o <= len buffer
    | Throw TypeError => True
    | Throw _ => False
    | OutOfFuel => True
    end.

Lemma within_ret {A} (a : A) (P : A -> Prop) : P a -> within (Decoder.ret a) P.
Proof. intros H off Hoff. cbn. split; [ lia | exact H ]. Qed.

Lemma within_fail {A} msg (P : A -> Prop) : within (Decoder.fail msg) P.
Proof. intros off Hoff. cbn. lia. Qed.

Lemma within_bind {A B} (m : Decoder.M A) (k : A -> Decoder.M B)
  (P : A -> Prop) (Q : B -> Prop) :
  within m P -> (forall a, P a -> within (k a) Q) -> within (Decoder.mbind m k) Q.
Proof.
  intros Hm Hk off Hoff. unfold Decoder.mbind. specialize (Hm off Hoff).
  destruct (m off) as [ [a off1] | [ | | | ] | ]; try exact Hm.
  destruct Hm as [H1 Ha]. specialize (Hk a Ha off1 ltac:(lia)).
  destruct (k a off1) as [ [b off2] | [ | | | ] | ]; try exact Hk;
    [ split; [ lia | tauto ] | lia ].
Qed.

Lemma within_weaken {A} (m : Decoder.M A) (P Q : A -> Prop) :
  (forall a, P a -> Q a) -> within m P -> within m Q.
Proof.
  intros HPQ Hm off Hoff. specialize (Hm off Hoff).
  destruct (m off) as [ [a off1] | [ | | | ] | ]; try exact Hm.
  split; [ tauto | apply HPQ; tauto ].
Qed.

Lemma within_if {A} (c : bool) (m1 m2 : Decoder.M A) (P : A -> Prop) :
  within m1 P -> within m2 P -> within (if c then m1 else m2) P.
Proof. destruct c; auto. Qed.

Lemma within_times_pos {A} (body : A -> Decoder.M A) (P : A -> Prop) :
  (forall a, P a -> within (body a) P) ->
  forall p a, P a -> within (Decoder.times_pos p body a) P.
Proof.
  intros Hbody. induction p as [ p IH | p IH | ]; intros a Ha;
    cbn [Decoder.times_pos].
  - apply (within_bind _ _ P); [ now apply Hbody | ]. intros a1 H1.
    apply (within_bind _ _ P); [ now apply IH | ]. intros a2 H2. now apply IH.
  - apply (within_bind _ _ P); [ now apply IH | ]. intros a1 H1. now apply IH.
  - now apply Hbody.
Qed.

Lemma within_times {A} (body : A -> Decoder.M A) (P : A -> Prop) n a :
  (forall a, P a -> within (body a) P) ->
  P a -> within (Decoder.times n body a) P.
Proof.
  intros Hbody Ha. destruct n; cbn [Decoder.times];
    [ now apply within_ret | now apply within_times_pos | now apply within_ret ].
Qed.

Lemma within_ensure n :
  within (Decoder.ensure buffer n) (fun _ => True).
Proof.
  intros off Hoff. unfold Decoder.ensure, Decoder.fail.
  destruct (len buffer <? off + n); [ lia | split; [ lia | exact I ] ].
Qed.

Lemma within_readU8 : within (Decoder.readU8 buffer) (fun _ => True).
Proof.
  intros off Hoff. unfold Decoder.readU8, Decoder.mbind, Decoder.ensure, Decoder.fail.
  destruct (Z.ltb_spec (len buffer) (off + 1)); [ lia | split; [ lia | exact I ] ].
Qed.

Lemma within_readU32 : within (Decoder.readU32 buffer) (fun n => 0 <= n).
Proof using Hbytes.
  intros off Hoff. unfold Decoder.readU32, Decoder.mbind, Decoder.ensure, Decoder.fail.
  destruct (Z.ltb_spec (len buffer) (off + 4)); [ lia | split; [ lia | ] ].
  apply getUint32_range; apply at_byte; auto; lia.
Qed.

Lemma within_readI64 : within (Decoder.readI64 buffer) (fun _ => True).
Proof.
  intros off Hoff. unfold Decoder.readI64, Decoder.mbind, Decoder.ensure, Decoder.fail.
  destruct (Z.ltb_spec (len buffer) (off + 8)); [ lia | split; [ lia | exact I ] ].
Qed.

Lemma within_readF64 : within (Decoder.readF64 buffer) (fun _ => True).
Proof.
  intros off Hoff. unfold Decoder.readF64, Decoder.mbind, Decoder.ensure, Decoder.fail.
  destruct (Z.ltb_spec (len buffer) (off + 8)); [ lia | split; [ lia | exact I ] ].
Qed.

Lemma within_readBytes n :
  0 <= n -> within (Decoder.readBytes buffer n) (fun _ => True).
Proof.
  intros Hn off Hoff.
  unfold Decoder.readBytes, Decoder.mbind, Decoder.ensure, Decoder.fail.
  destruct (Z.ltb_spec (len buffer) (off + n)); [ lia | split; [ lia | exact I ] ].
Qed.

Lemma within_decodeUtf8 bs : within (Decoder.decodeUtf8 bs) (fun _ => True).
Proof.
  intros off Hoff. unfold Decoder.decodeUtf8.
  destruct (TextDecoder_decode bs); [ split; [ lia | exact I ] | exact I ].
Qed.

Lemma within_checkMagic :
  within (Decoder.mbind (Decoder.ensure buffer 5) (fun _ => Decoder.checkMagic buffer))
    (fun _ => True).
Proof.
  intros off Hoff.
  unfold Decoder.mbind, Decoder.ensure, Decoder.checkMagic, Decoder.fail.
  destruct (Z.ltb_spec (len buffer) (off + 5)); [ lia | ].
  destruct (forallb _ _); [ split; [ lia | exact I ] | lia ].
Qed.

Lemma within_text maxStr (msg : message) {A} (k : jsstring -> Decoder.M A)
  (Q : A -> Prop) :
  (forall s, within (k s) Q) ->
  within
    (Decoder.mbind (Decoder.readU32 buffer) (fun n =>
       if maxStr <? n then Decoder.fail msg
       else Decoder.mbind (Decoder.readBytes buffer n) (fun bs =>
            Decoder.mbind (Decoder.decodeUtf8 bs) k))) Q.
Proof using Hbytes.
  intros Hk. apply (within_bind _ _ (fun n => 0 <= n)); [ apply within_readU32 | ].
  intros n Hn. apply within_if; [ apply within_fail | ].
  apply (within_bind _ _ (fun _ => True)); [ now apply within_readBytes | ].
  intros bs _.
  apply (within_bind _ _ (fun _ => True)); [ apply within_decodeUtf8 | ].
  intros s _. apply Hk.
Qed.

Lemma within_decodeValue maxDepth maxStr dictionary fuel :
  forall d,
    within (Decoder.decodeValue buffer maxDepth maxStr dictionary fuel d)
      (fun _ => True).
Proof using Hbytes.
  induction fuel as [ | fuel IH ]; intros d; cbn [Decoder.decodeValue].
  - intros off Hoff. exact I.
  - apply within_if; [ apply within_fail | ].
    apply (within_bind _ _ (fun _ => True)); [ apply within_ensure | ]. intros _ _.
    apply (within_bind _ _ (fun _ => True)); [ apply within_readU8 | ]. intros tag _.
    repeat (apply within_if;
            [ first [ apply within_ret; exact I | apply within_fail | idtac ] | ]).
    + apply (within_bind _ _ (fun _ => True)); [ apply within_readI64 | ].
      intros big _. now apply within_ret.
    + apply (within_bind _ _ (fun _ => True)); [ apply within_readF64 | ].
      intros x _. now apply within_ret.
    + apply within_text. intros s. now apply within_ret.
    + apply (within_bind _ _ (fun _ => True));
        [ apply (within_weaken _ (fun n => 0 <= n)); [ auto | apply within_readU32 ] | ].
      intros count _.
      apply (within_bind _ _ (fun _ => True)); [ | intros arr _; now apply within_ret ].
      apply within_times; [ | exact I ]. intros arr _.
      apply (within_bind _ _ (fun _ => True)); [ apply IH | ].
      intros v _. now apply within_ret.
    + apply (within_bind _ _ (fun _ => True));
        [ apply (within_weaken _ (fun n => 0 <= n)); [ auto | apply within_readU32 ] | ].
      intros count _.
      apply (within_bind _ _ (fun _ => True)); [ | intros obj _; now apply within_ret ].
      apply within_times; [ | exact I ]. intros obj _. unfold Decoder.decodeEntry.
      apply (within_bind _ _ (fun _ => True));
        [ apply (within_weaken _ (fun n => 0 <= n)); [ auto | apply within_readU32 ] | ].
      intros keyIdx _. apply within_if; [ apply within_fail | ].
      apply (within_bind _ _ (fun _ => True)); [ apply IH | ].
      intros v _. now apply within_ret.
    + apply within_fail.
Qed.

Lemma within_decodeDocument maxDepth maxDict maxStr :
  within (Decoder.decodeDocument buffer maxDepth maxDict maxStr) (fun _ => True).
Proof using Hbytes.
  unfold Decoder.decodeDocument.
  assert (Hassoc : forall (k : unit -> Decoder.M KodaValue) off,
             Decoder.mbind (Decoder.ensure buffer 5) (fun _ =>
               Decoder.mbind (Decoder.checkMagic buffer) k) off
             = Decoder.mbind
                 (Decoder.mbind (Decoder.ensure buffer 5)
                    (fun _ => Decoder.checkMagic buffer)) k off).
  { intros k off. unfold Decoder.mbind.
    destruct (Decoder.ensure buffer 5 off) as [ [u o] | | ]; reflexivity. }
  intros off Hoff. rewrite Hassoc. revert off Hoff.
  apply (within_bind _ _ (fun _ => True)); [ apply within_checkMagic | ]. intros _ _.
  apply (within_bind _ _ (fun _ => True)); [ apply within_readU8 | ]. intros version _.
  apply within_if; [ apply within_fail | ].
  apply (within_bind _ _ (fun _ => True)).
  2: { intros dictionary _.
       apply (within_bind _ _ (fun _ => True)); [ apply within_decodeValue | ].
       intros value _. now apply within_ret. }
  unfold Decoder.readDictionary.
  apply (within_bind _ _ (fun _ => True));
    [ apply (within_weaken _ (fun n => 0 <= n)); [ auto | apply within_readU32 ] | ].
  intros dictLen _. apply within_if; [ apply within_fail | ].
  apply within_times; [ | exact I ]. intros d _. unfold Decoder.readKey.
  apply within_text. intros key. now apply within_ret.
Qed.

Lemma decode_failure_within options e :
  Decoder.decode buffer options = Throw e ->
  e = TypeError
  \/ exists m off, e = KodaDecodeError m off /\ 0 <= off <= len buffer.
Proof using Hbytes.
  unfold Decoder.decode, Decoder.run, Decoder.decodeRoot, Decoder.mbind.
  pose proof (within_decodeDocument (Decoder.depthLimit options)
                (Decoder.dictLimit options) (Decoder.stringLimit options) 0
                ltac:(pose proof (len_nonneg buffer); lia)) as H.
  destruct (Decoder.decodeDocument _ _ _ _ 0) as [ [v off] | [ | | | ] | ];
    try contradiction.
  - destruct (negb (off =? len buffer)); cbn; intros E; [ | discriminate E ].
    injection E as <-. right. do 2 eexists. split; [ reflexivity | lia ].
  - intros [= <-]. right. do 2 eexists. split; [ reflexivity | lia ].
  - intros [= <-]. now left.
  - intros E. discriminate E.
Qed.
End DecoderBounds.

(** X2 (decoder.ts, [decode] and its readers): on a buffer of bytes, a
    failure of [decode] is either a [KodaDecodeError] whose byte offset lies
    inside the buffer (between 0 and its length), or the [TypeError] that the
    UTF-8 decoder throws; nothing else is thrown. *)
Theorem decode_failure_is_located :
  forall buffer options e,
    Forall byte buffer ->
    Decoder.decode buffer options = Throw e ->
    e = TypeError
    \/ exists m off, e = KodaDecodeError m off /\ 0 <= off <= len buffer.
Proof. intros buffer options e Hb. now apply decode_failure_within. Qed.

Lemma decode_failure_is_located_witness :
  let buffer := [75; 79; 68; 65; 1; 0; 0; 0; 0; 16; 0; 0; 0; 2; 1] in
  Decoder.decode buffer Decoder.defaults
    = Throw (KodaDecodeError [T "Truncated input"] 15)
  /\ exists m off,
       KodaDecodeError [T "Truncated input"] 15 = KodaDecodeError m off
       /\ 0 <= off <= len buffer.
Proof.
  intros buffer.
  assert (Hb : Forall byte buffer) by (repeat constructor; unfold byte; lia).
  assert (H : Decoder.decode buffer Decoder.defaults
              = Throw (KodaDecodeError [T "Truncated input"] 15))
    by (vm_compute; reflexivity).
  split; [ exact H | ].
  destruct (decode_failure_is_located buffer Decoder.defaults _ Hb H)
    as [ E | Hloc ]; [ discriminate E | exact Hloc ].
Defined.

(** ** The header checks of the decoder *)

Lemma magic_test buffer :
  5 <= len buffer ->
  forallb (fun i => at_ buffer (0 + i) =? at_ Decoder.MAGIC i) [0; 1; 2; 3] = true
  <-> firstn 4 buffer = Decoder.MAGIC.
Proof.
  intros Hlen.
  destruct buffer as [ | b0 [ | b1 [ | b2 [ | b3 rest ] ] ] ];
    try (unfold len in Hlen; cbn in Hlen; lia).
  unfold at_, Decoder.MAGIC. cbn [forallb firstn].
  change (Z.to_nat (0 + 0)) with 0%nat. change (Z.to_nat (0 + 1)) with 1%nat.
  change (Z.to_nat (0 + 2)) with 2%nat. change (Z.to_nat (0 + 3)) with 3%nat.
  change (Z.to_nat 0) with 0%nat. change (Z.to_nat 1) with 1%nat.
  change (Z.to_nat 2) with 2%nat. change (Z.to_nat 3) with 3%nat.
  cbn [nth].
  rewrite !andb_true_iff, !Z.eqb_eq. split.
  - intros (-> & -> & -> & -> & _). reflexivity.
  - intros [= -> -> -> ->]. auto.
Qed.

Lemma firstn_5_split buffer :
  firstn 5 buffer = Decoder.MAGIC ++ [Decoder.VERSION] ->
  firstn 4 buffer = Decoder.MAGIC /\ at_ buffer 4 = Decoder.VERSION.
Proof.
  destruct buffer as [ | b0 [ | b1 [ | b2 [ | b3 [ | b4 rest ] ] ] ] ];
    try discriminate.
  cbn. intros [= -> -> -> -> ->]. split; reflexivity.
Qed.

Lemma ensure_enough buffer n off :
  off + n <= len buffer -> Decoder.ensure buffer n off = Ok (tt, off).
Proof.
  intros H. unfold Decoder.ensure.
  destruct (Z.ltb_spec (len buffer) (off + n)); [ lia | reflexivity ].
Qed.

Lemma ensure_short buffer n off :
  len buffer < off + n ->
  Decoder.ensure buffer n off = Throw (KodaDecodeError [T "Truncated input"] off).
Proof.
  intros H. unfold Decoder.ensure.
  destruct (Z.ltb_spec (len buffer) (off + n)); [ reflexivity | lia ].
Qed.

Lemma readU8_enough buffer off :
  off + 1 <= len buffer ->
  Decoder.readU8 buffer off = Ok (at_ buffer off, off + 1).
Proof.
  intros H. unfold Decoder.readU8.
  now rewrite (mbind_ok _ _ _ tt off) by now apply ensure_enough.
Qed.

Lemma readU32_enough buffer off :
  off + 4 <= len buffer ->
  Decoder.readU32 buffer off
  = Ok (getUint32 (at_ buffer off) (at_ buffer (off + 1))
                  (at_ buffer (off + 2)) (at_ buffer (off + 3)), off + 4).
Proof.
  intros H. unfold Decoder.readU32.
  now rewrite (mbind_ok _ _ _ tt off) by now apply ensure_enough.
Qed.

Lemma readU32_short buffer off :
  len buffer < off + 4 ->
  Decoder.readU32 buffer off = Throw (KodaDecodeError [T "Truncated input"] off).
Proof.
  intros H. unfold Decoder.readU32. apply mbind_throw. now apply ensure_short.
Qed.

Lemma checkMagic_ok buffer :
  5 <= len buffer -> firstn 4 buffer = Decoder.MAGIC ->
  Decoder.checkMagic buffer 0 = Ok (tt, 4).
Proof.
  intros Hlen Hm. unfold Decoder.checkMagic.
  apply magic_test in Hm; [ | exact Hlen ]. now rewrite Hm.
Qed.

Lemma checkMagic_bad buffer :
  5 <= len buffer -> firstn 4 buffer <> Decoder.MAGIC ->
  Decoder.checkMagic buffer 0
  = Throw (KodaDecodeError [T "Invalid magic number"] 0).
Proof.
  intros Hlen Hm. unfold Decoder.checkMagic.
  destruct (forallb _ _) eqn:E; [ | reflexivity ].
  apply magic_test in E; [ contradiction | exact Hlen ].
Qed.

Lemma decode_throw buffer options e :
  Decoder.decodeDocument buffer (Decoder.depthLimit options)
    (Decoder.dictLimit options) (Decoder.stringLimit options) 0 = Throw e ->
  Decoder.decode buffer options = Throw e.
Proof.
  intros H. unfold Decoder.decode, Decoder.run, Decoder.decodeRoot.
  now rewrite (mbind_throw _ _ _ _ H).
Qed.

(** The document after a good magic number and version: the dictionary. *)
Lemma decodeDocument_after_header buffer maxDepth maxDict maxStr :
  5 <= len buffer ->
  firstn 5 buffer = Decoder.MAGIC ++ [Decoder.VERSION] ->
  Decoder.decodeDocument buffer maxDepth maxDict maxStr 0
  = Decoder.mbind (Decoder.readDictionary buffer maxDict maxStr)
      (fun dictionary =>
         Decoder.mbind
           (Decoder.decodeValue buffer maxDepth maxStr dictionary
              (Z.to_nat (maxDepth + 1) + 1) 0)
           (fun value => Decoder.ret (value_of value))) 5.
Proof.
  intros Hlen Hhead. apply firstn_5_split in Hhead as [Hmagic Hversion].
  unfold Decoder.decodeDocument.
  rewrite (mbind_ok _ _ _ tt 0) by (apply ensure_enough; lia).
  rewrite (mbind_ok _ _ _ tt 4) by now apply checkMagic_ok.
  rewrite (mbind_ok _ _ _ (at_ buffer 4) 5) by (apply readU8_enough; lia).
  now rewrite Hversion, Z.eqb_refl.
Qed.

(** X3 (decoder.ts, [decode], lines 91-100): the header checks, in the order
    in which they are made.  A buffer shorter than five bytes is truncated
    input at offset 0; five bytes that do not start with the magic number
    [KODA] are an invalid magic number at offset 0; a version byte other than
    1 is an unsupported version, reported at offset 5 with the byte read; a
    dictionary count cut short is truncated input at offset 5; and a
    dictionary count above [maxDictionarySize] is refused at offset 9, before
    any key is read. *)
Theorem decode_checks_header :
  forall buffer options,
    let failure m off :=
      Decoder.decode buffer options = Throw (KodaDecodeError m off) in
    (len buffer < 5 -> failure [T "Truncated input"] 0)
    /\ (5 <= len buffer -> firstn 4 buffer <> Decoder.MAGIC ->
        failure [T "Invalid magic number"] 0)
    /\ (5 <= len buffer -> firstn 4 buffer = Decoder.MAGIC ->
        at_ buffer 4 <> Decoder.VERSION ->
        failure [T "Unsupported version: "; N (at_ buffer 4)] 5)
    /\ (5 <= len buffer < 9 ->
        firstn 5 buffer = Decoder.MAGIC ++ [Decoder.VERSION] ->
        failure [T "Truncated input"] 5)
    /\ (9 <= len buffer ->
        firstn 5 buffer = Decoder.MAGIC ++ [Decoder.VERSION] ->
        Decoder.dictLimit options
          < getUint32 (at_ buffer 5) (at_ buffer 6) (at_ buffer 7) (at_ buffer 8) ->
        failure [T "Dictionary too large"] 9).
Proof.
  intros buffer options failure. subst failure. cbv beta.
  split; [ | split; [ | split; [ | split ] ] ].
  - intros Hlen. apply decode_throw. unfold Decoder.decodeDocument.
    apply mbind_throw. apply ensure_short. lia.
  - intros Hlen Hmagic. apply decode_throw. unfold Decoder.decodeDocument.
    rewrite (mbind_ok _ _ _ tt 0) by (apply ensure_enough; lia).
    apply mbind_throw. now apply checkMagic_bad.
  - intros Hlen Hmagic Hversion. apply decode_throw. unfold Decoder.decodeDocument.
    rewrite (mbind_ok _ _ _ tt 0) by (apply ensure_enough; lia).
    rewrite (mbind_ok _ _ _ tt 4) by now apply checkMagic_ok.
    rewrite (mbind_ok _ _ _ (at_ buffer 4) 5) by (apply readU8_enough; lia).
    destruct (Z.eqb_spec (at_ buffer 4) Decoder.VERSION) as [ | _ ];
      [ contradiction | reflexivity ].
  - intros Hlen Hhead. apply decode_throw.
    rewrite decodeDocument_after_header by (lia || assumption).
    apply mbind_throw. unfold Decoder.readDictionary.
    apply mbind_throw. apply readU32_short. lia.
  - intros Hlen Hhead Hbig. apply decode_throw.
    rewrite decodeDocument_after_header by (lia || assumption).
    apply mbind_throw. unfold Decoder.readDictionary.
    rewrite (mbind_ok _ _ _ _ _ (readU32_enough buffer 5 ltac:(lia))).
    change (5 + 1) with 6. change (5 + 2) with 7. change (5 + 3) with 8.
    change (5 + 4) with 9.
    destruct (Z.ltb_spec (Decoder.dictLimit options)
                (getUint32 (at_ buffer 5) (at_ buffer 6) (at_ buffer 7)
                   (at_ buffer 8))); [ reflexivity | lia ].
Qed.

Lemma decode_checks_header_witness :
  let failure buffer m off :=
    Decoder.decode buffer Decoder.defaults = Throw (KodaDecodeError m off) in
  failure [] [T "Truncated input"] 0
  /\ failure [75; 79; 68; 66; 1] [T "Invalid magic number"] 0
  /\ failure [75; 79; 68; 65; 2] [T "Unsupported version: "; N 2] 5
  /\ failure [75; 79; 68; 65; 1; 0; 0] [T "Truncated input"] 5
  /\ failure [75; 79; 68; 65; 1; 0; 1; 0; 1; 1] [T "Dictionary too large"] 9.
Proof.
  intros failure. subst failure. cbv beta.
  split; [ | split; [ | split; [ | split ] ] ].
  - apply (proj1 (decode_checks_header [] Decoder.defaults)). reflexivity.
  - apply (proj1 (proj2 (decode_checks_header [75; 79; 68; 66; 1] Decoder.defaults)));
      [ vm_compute; discriminate | discriminate ].
  - apply (proj1 (proj2 (proj2
             (decode_checks_header [75; 79; 68; 65; 2] Decoder.defaults))));
      [ vm_compute; discriminate | reflexivity | discriminate ].
  - apply (proj1 (proj2 (proj2 (proj2
             (decode_checks_header [75; 79; 68; 65; 1; 0; 0] Decoder.defaults)))));
      [ split; [ vm_compute; discriminate | reflexivity ] | reflexivity ].
  - apply (proj2 (proj2 (proj2 (proj2
             (decode_checks_header [75; 79; 68; 65; 1; 0; 1; 0; 1; 1]
                Decoder.defaults)))));
      [ vm_compute; discriminate | reflexivity | reflexivity ].
Defined.

(** ** Structural equality is an equivalence *)

Lemma Forall2_sym_in {A} (R : A -> A -> Prop) l1 :
  forall l2,
    (forall a, In a l1 -> forall b, R a b -> R b a) ->
    Forall2 R l1 l2 -> Forall2 R l2 l1.
Proof.
  induction l1 as [ | a l1 IH ]; intros l2 Hsym H; inversion H; subst;
    constructor.
  - apply Hsym; [ now left | assumption ].
  - apply IH; [ | assumption ]. intros x Hx. apply Hsym. now right.
Qed.

Lemma Forall2_trans_in {A} (R : A -> A -> Prop) l1 :
  forall l2 l3,
    (forall a, In a l1 -> forall b c, R a b -> R b c -> R a c) ->
    Forall2 R l1 l2 -> Forall2 R l2 l3 -> Forall2 R l1 l3.
Proof.
  induction l1 as [ | a l1 IH ]; intros l2 l3 Htr H12 H23;
    inversion H12; subst; inversion H23; subst; constructor.
  - eapply Htr; [ now left | eassumption | eassumption ].
  - eapply IH; [ | eassumption | eassumption ].
    intros x Hx. apply Htr. now right.
Qed.

Lemma veq_refl v : veq v v.
Proof.
  induction v as [ | b | n | s | items IH | props IH ] using KodaValue_ind;
    try constructor.
  - induction IH; constructor; auto.
  - apply (veq_object props props props); [ apply Permutation_refl | ].
    induction IH; constructor; auto.
Qed.

Lemma veq_sym v1 : forall v2, veq v1 v2 -> veq v2 v1.
Proof.
  induction v1 as [ | b | n | s | items IH | props IH ] using KodaValue_ind;
    intros v2 H; inversion H as [ | | | | xs ys Hxs | ps ps' qs Hperm Hall ];
    subst; try constructor.
  - apply Forall2_sym_in; [ | exact Hxs ].
    rewrite Forall_forall in IH. exact IH.
  - set (R := fun p q : jsstring * KodaValue =>
                fst p = fst q /\ veq (snd p) (snd q)) in *.
    assert (Hsym : Forall2 R qs ps').
    { apply Forall2_sym_in; [ | exact Hall ].
      intros p Hp q [Hk Hv]. split; [ now symmetry | ].
      rewrite Forall_forall in IH. apply (IH p); [ | exact Hv ].
      apply (Permutation_in _ (Permutation_sym Hperm)). exact Hp. }
    apply Forall2_flip in Hsym.
    destruct (Permutation_Forall2 (Permutation_sym Hperm) Hsym)
      as (qs' & Hq & Hall').
    apply Forall2_flip in Hall'.
    exact (veq_object qs qs' props Hq Hall').
Qed.

Lemma veq_trans v1 : forall v2 v3, veq v1 v2 -> veq v2 v3 -> veq v1 v3.
Proof.
  induction v1 as [ | b | n | s | items IH | props IH ] using KodaValue_ind;
    intros v2 v3 H12 H23;
    inversion H12 as [ | | | | xs ys Hxs | ps ps' qs Hperm Hall ]; subst;
    inversion H23 as [ | | | | ys' zs Hys | qs0 qs' rs Hperm' Hall' ]; subst;
    try constructor.
  - eapply Forall2_trans_in; [ | exact Hxs | exact Hys ].
    rewrite Forall_forall in IH. exact IH.
  - set (R := fun p q : jsstring * KodaValue =>
                fst p = fst q /\ veq (snd p) (snd q)) in *.
    apply Forall2_flip in Hall.
    destruct (Permutation_Forall2 Hperm' Hall) as (ps'' & Hp & Hall'').
    apply Forall2_flip in Hall''.
    apply (veq_object props ps'' rs); [ now transitivity ps' | ].
    eapply Forall2_trans_in; [ | exact Hall'' | exact Hall' ].
    intros p Hp' q r [Hk Hv] [Hk' Hv']. split; [ congruence | ].
    rewrite Forall_forall in IH. apply (IH p) with (v2 := snd q); auto.
    apply (Permutation_in _ (Permutation_sym (Permutation_trans Hperm Hp))).
    exact Hp'.
Qed.

(** ** Encoding after decoding, and values with the same encoding *)

Lemma encode_ok_depth v eo bs :
  keys_ok v -> Encoder.encode v eo = Ok bs -> depth v <= Encoder.depthLimit eo.
Proof.
  intros Hk H. destruct (Z_le_gt_dec (depth v) (Encoder.depthLimit eo)) as [ | Hgt ];
    [ assumption | ].
  destruct (proj2 (encode_depth v eo Hk) ltac:(lia)) as (off & E). congruence.
Qed.

Lemma decode_of_encoding v eo dopt bs v' :
  plain (Decoder.stringLimit dopt) v ->
  len (Encoder.dictionary_of v) <= Decoder.dictLimit dopt ->
  len (Encoder.dictionary_of v) < 4294967296 ->
  Encoder.encode v eo = Ok bs ->
  Decoder.decode bs dopt = Ok v' ->
  veq v v'.
Proof.
  intros Hplain Hdict Hdict32 He Hd.
  pose proof (encode_ok_depth v eo bs (plain_keys_ok _ _ Hplain) He) as Hdepth.
  destruct (decode_encode v eo dopt Hplain Hdepth Hdict Hdict32)
    as (bs0 & Hbs0 & Hok & Hdeep).
  assert (bs0 = bs) by congruence. subst bs0.
  destruct (Z_le_gt_dec (depth v) (Decoder.depthLimit dopt)) as [ Hle | Hgt ].
  - destruct (Hok Hle) as (w & Hw & Heq). congruence.
  - destruct (Hdeep ltac:(lia)) as (off & E). congruence.
Qed.

(** X4 (encoder.ts [encode] with decoder.ts [decode]): encoding is stable
    under a round trip.  When the encoding of a plain value is decoded, the
    value obtained is structurally equal to the original and encodes to the
    very same bytes. *)
Theorem reencode_reproduces_bytes :
  forall v eo dopt bs v',
    plain (Decoder.stringLimit dopt) v ->
    len (Encoder.dictionary_of v) <= Decoder.dictLimit dopt ->
    len (Encoder.dictionary_of v) < 4294967296 ->
    Encoder.encode v eo = Ok bs ->
    Decoder.decode bs dopt = Ok v' ->
    veq v v' /\ Encoder.encode v' eo = Ok bs.
Proof.
  intros v eo dopt bs v' Hplain Hdict Hdict32 He Hd.
  pose proof (decode_of_encoding v eo dopt bs v' Hplain Hdict Hdict32 He Hd) as Heq.
  split; [ exact Heq | ].
  rewrite <- He. symmetry.
  apply encode_veq; [ exact (plain_keys_ok _ _ Hplain) | exact Heq ].
Qed.

Lemma reencode_reproduces_bytes_witness :
  let v := VObject [(lit "b", VNumber (ofZ 1)); (lit "a", VArray [VString (lit "x")])] in
  let v' := VObject [(lit "a", VArray [VString (lit "x")]); (lit "b", VNumber (ofZ 1))] in
  exists bs,
    Encoder.encode v Encoder.defaults = Ok bs
    /\ Decoder.decode bs Decoder.defaults = Ok v'
    /\ veq v v' /\ Encoder.encode v' Encoder.defaults = Ok bs.
Proof.
  intros v v'.
  assert (Htext : forall s, In s [lit "a"; lit "b"; lit "x"] ->
            plain_text (Decoder.stringLimit Decoder.defaults) s).
  { intros s [ <- | [ <- | [ <- | [] ] ] ];
      (split; [ reflexivity | ]; split; [ vm_compute; discriminate | ];
       split; vm_compute; congruence). }
  assert (Hplain : plain (Decoder.stringLimit Decoder.defaults) v).
  { apply plain_object.
    - vm_compute; reflexivity.
    - repeat constructor; cbn; intuition discriminate.
    - repeat constructor; try (apply Htext; cbn; tauto).
      all: vm_compute; try discriminate; intros [= ].
    - repeat constructor; cbn [fst]; vm_compute; discriminate. }
  destruct (Encoder.encode v Encoder.defaults) as [ bs | | ] eqn:He;
    [ | vm_compute in He; discriminate He | vm_compute in He; discriminate He ].
  exists bs.
  assert (Hd : Decoder.decode bs Decoder.defaults = Ok v').
  { vm_compute in He. injection He as <-. vm_compute. reflexivity. }
  split; [ reflexivity | ]. split; [ exact Hd | ].
  apply (reencode_reproduces_bytes v Encoder.defaults Decoder.defaults bs v' Hplain);
    [ vm_compute; discriminate | vm_compute; reflexivity | exact He | exact Hd ].
Defined.

(** X5 (encoder.ts, [encode]): the encoding tells plain values apart.  Two
    plain values that encode to the same bytes are structurally equal. *)
Theorem encode_injective :
  forall maxStr v1 v2 eo bs,
    plain maxStr v1 -> plain maxStr v2 ->
    len (Encoder.dictionary_of v1) < 4294967296 ->
    len (Encoder.dictionary_of v2) < 4294967296 ->
    Encoder.encode v1 eo = Ok bs ->
    Encoder.encode v2 eo = Ok bs ->
    veq v1 v2.
Proof.
  intros maxStr v1 v2 eo bs Hp1 Hp2 H1 H2 He1 He2.
  set (dopt := {| Decoder.maxDepth := Some (Encoder.depthLimit eo);
                  Decoder.maxDictionarySize :=
                    Some (Z.max (len (Encoder.dictionary_of v1))
                                (len (Encoder.dictionary_of v2)));
                  Decoder.maxStringLength := Some maxStr |}).
  pose proof (encode_ok_depth v1 eo bs (plain_keys_ok _ _ Hp1) He1) as Hd1.
  destruct (decode_encode v1 eo dopt Hp1 Hd1) as (bs1 & Hbs1 & Hok1 & _);
    [ cbn; lia | exact H1 | ].
  assert (bs1 = bs) by congruence. subst bs1.
  destruct (Hok1 Hd1) as (w & Hw & Heq1).
  apply veq_trans with (v2 := w); [ exact Heq1 | ]. apply veq_sym.
  exact (decode_of_encoding v2 eo dopt bs w Hp2 ltac:(cbn; lia) H2 He2 Hw).
Qed.

Lemma encode_injective_witness :
  let v1 := VObject [(lit "b", VNull); (lit "a", VBool true)] in
  let v2 := VObject [(lit "a", VBool true); (lit "b", VNull)] in
  let bs := [75; 79; 68; 65; 1; 0; 0; 0; 2; 0; 0; 0; 1; 97; 0; 0; 0; 1; 98;
             17; 0; 0; 0; 2; 0; 0; 0; 0; 3; 0; 0; 0; 1; 1] in
  plain 1000000 v1 /\ plain 1000000 v2
  /\ Encoder.encode v1 Encoder.defaults = Ok bs
  /\ Encoder.encode v2 Encoder.defaults = Ok bs
  /\ veq v1 v2.
Proof.
  intros v1 v2 bs.
  assert (Htext : forall s, In s [lit "a"; lit "b"] -> plain_text 1000000 s).
  { intros s [ <- | [ <- | [] ] ];
      (split; [ reflexivity | ]; split; [ vm_compute; discriminate | ];
       split; vm_compute; congruence). }
  assert (Hp1 : plain 1000000 v1).
  { apply plain_object.
    - vm_compute; reflexivity.
    - repeat constructor; cbn; intuition discriminate.
    - repeat constructor; apply Htext; cbn; tauto.
    - repeat constructor; cbn [fst]; vm_compute; discriminate. }
  assert (Hp2 : plain 1000000 v2).
  { apply plain_object.
    - vm_compute; reflexivity.
    - repeat constructor; cbn; intuition discriminate.
    - repeat constructor; apply Htext; cbn; tauto.
    - repeat constructor; cbn [fst]; vm_compute; discriminate. }
  assert (He1 : Encoder.encode v1 Encoder.defaults = Ok bs)
    by (vm_compute; reflexivity).
  assert (He2 : Encoder.encode v2 Encoder.defaults = Ok bs)
    by (vm_compute; reflexivity).
  split; [ exact Hp1 | ]. split; [ exact Hp2 | ].
  split; [ exact He1 | ]. split; [ exact He2 | ].
  apply (encode_injective 1000000 v1 v2 Encoder.defaults bs Hp1 Hp2);
    [ vm_compute; reflexivity | vm_compute; reflexivity | exact He1 | exact He2 ].
Defined.

(** ** The order of keys and the dictionary *)

Lemma compareBytes_opp a :
  forall b, Encoder.compareBytes b a = - Encoder.compareBytes a b.
Proof.
  induction a as [ | x a IH ]; intros [ | y b ]; cbn [Encoder.compareBytes];
    rewrite ?len_nil, ?len_cons; try lia.
  rewrite (Z.eqb_sym y x). destruct (x =? y); [ apply IH | lia ].
Qed.

Lemma compareBytes_refl a : Encoder.compareBytes a a = 0.
Proof. pose proof (compareBytes_opp a a). lia. Qed.

Lemma compareKeys_zero a b :
  well_formed a = true -> well_formed b = true ->
  (Encoder.compareKeys a b = 0 <-> a = b).
Proof.
  intros Ha Hb. split.
  - intros H. apply compareKeys_antisym; try assumption; [ lia | ].
    unfold Encoder.compareKeys in *. rewrite compareBytes_opp. lia.
  - intros ->. apply compareBytes_refl.
Qed.

(** X6 (encoder.ts, the comparator of [encode], lines 58-65 and 155-162):
    the comparator handed to [sort] is a consistent total order.  Swapping
    its arguments negates the result; it is transitive; and on well-formed
    keys it answers 0 exactly for equal keys, so no two distinct keys tie. *)
Theorem compareKeys_total_order :
  (forall a b, Encoder.compareKeys b a = - Encoder.compareKeys a b)
  /\ (forall a b c,
         Encoder.compareKeys a b <= 0 -> Encoder.compareKeys b c <= 0 ->
         Encoder.compareKeys a c <= 0)
  /\ (forall a b,
         well_formed a = true -> well_formed b = true ->
         (Encoder.compareKeys a b = 0 <-> a = b)).
Proof.
  split; [ | split ].
  - intros a b. apply compareBytes_opp.
  - intros a b c. apply compareBytes_trans.
  - exact compareKeys_zero.
Qed.

Lemma compareKeys_total_order_witness :
  (Encoder.compareKeys (lit "a") (lit "ab") <= 0
   /\ Encoder.compareKeys (lit "ab") (lit "b") <= 0
   /\ Encoder.compareKeys (lit "a") (lit "b") <= 0)
  /\ (well_formed (lit "k") = true
      /\ (Encoder.compareKeys (lit "k") (lit "k") = 0 <-> lit "k" = lit "k")).
Proof.
  destruct compareKeys_total_order as (_ & Htrans & Hzero).
  assert (H1 : Encoder.compareKeys (lit "a") (lit "ab") <= 0)
    by (vm_compute; discriminate).
  assert (H2 : Encoder.compareKeys (lit "ab") (lit "b") <= 0)
    by (vm_compute; discriminate).
  split.
  - split; [ exact H1 | ]. split; [ exact H2 | ].
    exact (Htrans _ _ _ H1 H2).
  - split; [ reflexivity | ].
    exact (Hzero (lit "k") (lit "k") eq_refl eq_refl).
Defined.





(** ** Decimal digits *)

Lemma digits_value_app a b :
  digits_value (a ++ b)
  = fold_left (fun acc d => acc * 10 + (d - 48)) b (digits_value a).
Proof. unfold digits_value. apply fold_left_app. Qed.

Lemma fold_digits_acc l :
  forall acc,
    fold_left (fun a d => a * 10 + (d - 48)) (uint_digits l) (Z.pos acc)
    = Z.pos (Pos.of_uint_acc l acc).
Proof.
  induction l; intros acc; cbn [uint_digits fold_left Pos.of_uint_acc];
    try reflexivity; rewrite <- IHl; f_equal; lia.
Qed.

Lemma digits_value_uint l :
  digits_value (uint_digits l) = Z.of_N (Pos.of_uint l).
Proof.
  unfold digits_value.
  induction l; cbn [uint_digits fold_left Pos.of_uint]; try reflexivity;
    try exact IHl;
    match goal with
    | |- fold_left _ _ ?k = _ =>
        let p := eval cbv in (Z.to_pos k) in
        change k with (Z.pos p); rewrite fold_digits_acc; reflexivity
    end.
Qed.

Lemma uint_digits_digits l : Forall (fun c => isDigit c = true) (uint_digits l).
Proof. induction l; cbn [uint_digits]; constructor; auto. Qed.

Lemma nzhead_not_zero u w : Decimal.nzhead u <> Decimal.D0 w.
Proof. induction u; cbn [Decimal.nzhead]; try discriminate. exact IHu. Qed.

Lemma unorm_head d :
  Decimal.unorm d = d -> d <> Decimal.zero ->
  exists c r, uint_digits d = c :: r /\ 49 <= c <= 57.
Proof.
  intros Hn Hz.
  destruct d as [ | u | u | u | u | u | u | u | u | u | u ]; cbn [uint_digits];
    try (do 2 eexists; split; [ reflexivity | lia ]).
  - discriminate Hn.
  - exfalso. unfold Decimal.unorm in Hn. cbn [Decimal.nzhead] in Hn.
    pose proof (nzhead_not_zero u) as Hh.
    destruct (Decimal.nzhead u) eqn:Eu; try discriminate Hn.
    + injection Hn as <-. apply Hz. reflexivity.
    + exact (Hh _ eq_refl).
Qed.

(** The decimal digits of a positive number: digits, the first of them not a
    zero, whose value is the number. *)
Lemma decimal_positive a :
  0 < a ->
  digits_value (decimal a) = a
  /\ Forall (fun c => isDigit c = true) (decimal a)
  /\ exists d r, decimal a = d :: r /\ 49 <= d <= 57.
Proof.
  intros Ha. destruct a as [ | p | p ]; try lia. cbn [decimal].
  split; [ | split ].
  - rewrite digits_value_uint, DecimalPos.Unsigned.of_to. reflexivity.
  - apply uint_digits_digits.
  - apply unorm_head; [ | apply DecimalPos.Unsigned.to_uint_nonzero ].
    pose proof (DecimalPos.Unsigned.to_of (Pos.to_uint p)) as Hn.
    rewrite DecimalPos.Unsigned.of_to in Hn. symmetry. exact Hn.
Qed.

Lemma digits_value_zeros ds n :
  digits_value (ds ++ zeros n) = digits_value ds * 10 ^ Z.max 0 n.
Proof.
  unfold zeros. rewrite digits_value_app.
  replace (Z.max 0 n) with (Z.of_nat (Z.to_nat n)) by lia.
  induction (Z.to_nat n) as [ | k IH ] in ds |- *.
  - cbn. lia.
  - rewrite Nat2Z.inj_succ, Z.pow_succ_r by lia.
    replace (repeat 48 (Datatypes.S k)) with (repeat 48 k ++ [48])
      by (rewrite <- repeat_cons; reflexivity).
    rewrite fold_left_app. cbn [fold_left]. 
    specialize (IH ds). unfold digits_value in *. lia.
Qed.

(** ** Integers as numbers *)

Lemma fields_of_bits (neg : bool) E M :
  0 <= E < 2048 -> 0 <= M < 4503599627370496 ->
  let x := F64 ((if neg then 9223372036854775808 else 0)
                + (E * 4503599627370496 + M)) in
  biased_exp x = E /\ mantissa x = M /\ sign_bit x = neg.
Proof.
  intros HE HM x. subst x. unfold biased_exp, mantissa, sign_bit. cbn [bits_of].
  assert (Hdiv : ((if neg then 9223372036854775808 else 0)
                  + (E * 4503599627370496 + M)) / 4503599627370496
                 = (if neg then 2048 else 0) + E).
  { symmetry. apply (Z.div_unique _ _ _ M); [ lia | destruct neg; lia ]. }
  rewrite Hdiv. split; [ | split ].
  - destruct neg; [ | apply Z.mod_small; lia ].
    replace (2048 + E) with (E + 1 * 2048) by lia.
    rewrite Z.mod_add by lia. apply Z.mod_small. lia.
  - symmetry. apply (Z.mod_unique _ _ ((if neg then 2048 else 0) + E)); [ lia | ].
    destruct neg; lia.
  - destruct neg.
    + apply Z.leb_le. lia.
    + apply Z.leb_gt. lia.
Qed.

(** A nonzero integer below [2 ^ 53] is a number with a 53-bit significand. *)
Lemma integer_bits a :
  1 <= a < 9007199254740992 ->
  exists k M,
    0 <= k <= 52 /\ 0 <= M < 4503599627370496
    /\ a * 2 ^ k = 4503599627370496 + M
    /\ forall neg,
         roundQ neg a 1
         = F64 ((if neg then 9223372036854775808 else 0)
                + ((1075 - k) * 4503599627370496 + M)).
Proof.
  intros Ha.
  pose proof (Z.log2_spec a ltac:(lia)) as [Hlo Hhi].
  pose proof (Z.log2_nonneg a) as Hnn.
  assert (Hlog : Z.log2 a < 53).
  { apply Z.log2_lt_pow2; [ lia | ]. change (2 ^ 53) with 9007199254740992. lia. }
  set (L := Z.log2 a) in *.
  assert (Hsplit : 2 ^ L * 2 ^ (52 - L) = 4503599627370496).
  { rewrite <- Z.pow_add_r by lia. replace (L + (52 - L)) with 52 by lia. reflexivity. }
  assert (Hp : 0 < 2 ^ (52 - L)) by (apply Z.pow_pos_nonneg; lia).
  exists (52 - L), (a * 2 ^ (52 - L) - 4503599627370496).
  assert (H1 : 4503599627370496 <= a * 2 ^ (52 - L)) by nia.
  assert (H2 : a * 2 ^ (52 - L) < 2 * 4503599627370496).
  { replace (Z.succ L) with (L + 1) in Hhi by lia.
    rewrite Z.pow_add_r in Hhi by lia. change (2 ^ 1) with 2 in Hhi. nia. }
  split; [ lia | ]. split; [ lia | ]. split; [ lia | ].
  intros neg. apply roundQ_exact; lia.
Qed.

(** Above, the exponent field is larger. *)
Lemma roundQ_large w :
  9007199254740992 <= w ->
  exists b, roundQ false w 1 = F64 b /\ 1076 * 4503599627370496 <= b.
Proof.
  intros Hw. unfold roundQ.
  destruct (Z.leb_spec w 0); [ lia | ].
  change (Z.log2 1) with 0. rewrite Z.sub_0_r.
  pose proof (Z.log2_spec w ltac:(lia)) as [Hlo Hhi].
  assert (Hlog : 53 <= Z.log2 w).
  { apply Z.log2_le_pow2; [ lia | ]. change (2 ^ 53) with 9007199254740992. lia. }
  set (L := Z.log2 w) in *.
  destruct (Z.leb_spec 0 L); [ | lia ].
  rewrite Z.mul_1_l.
  destruct (Z.leb_spec (2 ^ L) w); [ | lia ].
  replace (Z.max (L - 52) (-1074)) with (L - 52) by lia.
  destruct (Z.ltb_spec (L - 52) 0); [ lia | ].
  rewrite Z.mul_1_l.
  assert (Hp : 0 < 2 ^ (L - 52)) by (apply Z.pow_pos_nonneg; lia).
  assert (Hsplit : 2 ^ L = 4503599627370496 * 2 ^ (L - 52)).
  { change 4503599627370496 with (2 ^ 52). rewrite <- Z.pow_add_r by lia.
    f_equal. lia. }
  assert (Hm : 4503599627370496 <= w / 2 ^ (L - 52)).
  { apply Z.div_le_lower_bound; [ lia | ]. lia. }
  set (m := w / 2 ^ (L - 52)) in *.
  match goal with
  | |- context [if ?c then m + 1 else m] =>
      set (m' := if c then m + 1 else m);
      assert (Hm' : m <= m') by (subst m'; destruct c; lia)
  end.
  cbv zeta.
  match goal with
  | |- context [if ?c then _ else _] => destruct c
  end; eexists; (split; [ reflexivity | ]); lia.
Qed.

(** Numbers tell the integers below [2 ^ 53] apart. *)
Lemma roundQ_injective a w :
  1 <= a < 9007199254740992 -> 1 <= w ->
  roundQ false w 1 = roundQ false a 1 -> w = a.
Proof.
  intros Ha Hw E.
  destruct (integer_bits a Ha) as (k & M & Hk & HM & Hak & Hbits).
  rewrite (Hbits false) in E.
  destruct (Z_lt_ge_dec w 9007199254740992) as [ Hsmall | Hbig ].
  - destruct (integer_bits w ltac:(lia)) as (k' & M' & Hk' & HM' & Hwk & Hbits').
    rewrite (Hbits' false) in E. apply (f_equal bits_of) in E. cbn [bits_of] in E.
    assert (Ek : k' = k) by lia. subst k'.
    assert (EM : M' = M) by lia. subst M'.
    assert (Hp : 0 < 2 ^ k) by (apply Z.pow_pos_nonneg; lia). nia.
  - destruct (roundQ_large w ltac:(lia)) as (b & Eb & Hb).
    rewrite Eb in E. apply (f_equal bits_of) in E. cbn [bits_of] in E. lia.
Qed.

(** What [ofZ] makes of a safe integer other than zero: a finite number that
    is no NaN, with the sign of the integer, whose value is the integer. *)
Lemma ofZ_safe z :
  MIN_SAFE_INTEGER <= z <= MAX_SAFE_INTEGER -> z <> 0 ->
  isNaN (ofZ z) = false /\ isFinite (ofZ z) = true
  /\ sign_bit (ofZ z) = (z <? 0)
  /\ toZ (ofZ z) = z
  /\ (significand (ofZ z) =? 0) = false
  /\ F64 (bits_of (ofZ z) mod 9223372036854775808) = roundQ false (Z.abs z) 1
  /\ exists k,
       0 <= k <= 52 /\ exponent (ofZ z) = - k
       /\ significand (ofZ z) = Z.abs z * 2 ^ k.
Proof.
  unfold MIN_SAFE_INTEGER, MAX_SAFE_INTEGER. intros Hz Hnz.
  destruct (integer_bits (Z.abs z) ltac:(lia)) as (k & M & Hk & HM & Hak & Hbits).
  unfold ofZ. rewrite (Hbits (z <? 0)).
  destruct (fields_of_bits (z <? 0) (1075 - k) M ltac:(lia) HM) as (HE & HMn & Hs).
  cbv zeta in HE, HMn, Hs.
  assert (Hexp0 : ((1075 - k) =? 0) = false) by (apply Z.eqb_neq; lia).
  assert (Hexp47 : ((1075 - k) =? 2047) = false) by (apply Z.eqb_neq; lia).
  unfold isNaN, isFinite, toZ, significand, exponent.
  rewrite HE, HMn, Hs, Hexp0, Hexp47. cbn [andb negb].
  split; [ reflexivity | ]. split; [ reflexivity | ]. split; [ reflexivity | ].
  assert (Hp : 0 < 2 ^ k) by (apply Z.pow_pos_nonneg; lia).
  split; [ | split; [ | split ] ].
  - replace (1075 - k - 1075) with (- k) by lia.
    destruct (Z.leb_spec 0 (- k)).
    + assert (k = 0) by lia. subst k. cbn [Z.opp Z.pow] in *.
      destruct (Z.ltb_spec z 0); lia.
    + replace (- - k) with k by lia. rewrite <- Hak, Z.div_mul by lia.
      destruct (Z.ltb_spec z 0); lia.
  - apply Z.eqb_neq. lia.
  - cbn [bits_of]. rewrite (Hbits false). f_equal. cbn [Z.add].
    destruct (z <? 0).
    + replace (9223372036854775808 + ((1075 - k) * 4503599627370496 + M))
        with ((1075 - k) * 4503599627370496 + M + 1 * 9223372036854775808) by lia.
      rewrite Z.mod_add by lia. apply Z.mod_small. lia.
    + apply Z.mod_small. lia.
  - exists k. split; [ exact Hk | ]. split; lia.
Qed.

(** ** The digits that [Number::toString] writes for an integer *)

Lemma scale10_test {X} a q n (t e : X) :
  1 <= a -> 0 < q ->
  (let '(p', q') := scale10 (a * q) q n in if p' <? q' then t else e)
  = if (0 <=? n) && (a <? 10 ^ n) then t else e.
Proof.
  intros Ha Hq. unfold scale10. destruct (Z.leb_spec 0 n); cbn [andb].
  - rewrite (Z.mul_comm q).
    pose proof (Z.mul_lt_mono_pos_r q a (10 ^ n) Hq) as Hiff.
    destruct (Z.ltb_spec (a * q) (10 ^ n * q)), (Z.ltb_spec a (10 ^ n));
      try reflexivity; exfalso; [ apply Hiff in H0 | apply Hiff in H1 ]; lia.
  - assert (Hp : 0 < 10 ^ (- n)) by (apply Z.pow_pos_nonneg; lia).
    destruct (Z.ltb_spec (a * q * 10 ^ (- n)) q); [ exfalso | reflexivity ].
    assert (a * q <= a * q * 10 ^ (- n)) by nia. nia.
Qed.

Lemma first_exponent_spec a q lo dflt :
  1 <= a -> 0 < q ->
  forall m s,
    let n := first_exponent (a * q) q
               (map (fun i => lo + Z.of_nat i) (seq s m)) dflt in
    (n = dflt
     /\ forall i, (s <= i < s + m)%nat ->
                  (0 <=? lo + Z.of_nat i) && (a <? 10 ^ (lo + Z.of_nat i)) = false)
    \/ (exists i,
           (s <= i < s + m)%nat /\ n = lo + Z.of_nat i
           /\ 0 <= n /\ a < 10 ^ n
           /\ forall j, (s <= j < i)%nat ->
                        (0 <=? lo + Z.of_nat j) && (a <? 10 ^ (lo + Z.of_nat j))
                        = false).
Proof.
  intros Ha Hq. induction m as [ | m IH ]; intros s; cbn [seq map first_exponent].
  - left. split; [ reflexivity | ]. intros i Hi. lia.
  - rewrite (scale10_test a q _ _ _ Ha Hq).
    destruct ((0 <=? lo + Z.of_nat s) && (a <? 10 ^ (lo + Z.of_nat s))) eqn:E.
    + right. exists s. apply andb_true_iff in E as [E1 E2].
      apply Z.leb_le in E1. apply Z.ltb_lt in E2.
      split; [ lia | ]. split; [ reflexivity | ]. split; [ exact E1 | ].
      split; [ exact E2 | ]. intros j Hj. lia.
    + destruct (IH (Datatypes.S s)) as [ [Hn Hall] | (i & Hi & Hn & H0 & Hlt & Hall) ].
      * left. split; [ exact Hn | ]. intros i Hi.
        destruct (Nat.eq_dec i s) as [-> | Hne]; [ exact E | ]. apply Hall. lia.
      * right. exists i. split; [ lia | ]. split; [ exact Hn | ].
        split; [ exact H0 | ]. split; [ exact Hlt | ]. intros j Hj.
        destruct (Nat.eq_dec j s) as [-> | Hne]; [ exact E | ]. apply Hall. lia.
Qed.

(** The estimate of the decimal exponent is within seven of it. *)
Lemma exponent_estimate L :
  0 <= L <= 52 ->
  let lo := ((L - 1) * 30103) / 100000 - 1 in
  (1 <= lo -> 10 ^ (lo - 1) <= 2 ^ L)
  /\ 2 ^ (L + 1) <= 10 ^ (lo + 7) /\ 0 <= lo + 7.
Proof.
  intros HL.
  assert (Htable :
            forallb
              (fun l =>
                 let L := Z.of_nat l in
                 let lo := ((L - 1) * 30103) / 100000 - 1 in
                 ((lo <=? 0) || (10 ^ (lo - 1) <=? 2 ^ L))
                 && (2 ^ (L + 1) <=? 10 ^ (lo + 7)) && (0 <=? lo + 7))
              (seq 0 53) = true) by (vm_compute; reflexivity).
  rewrite forallb_forall in Htable.
  specialize (Htable (Z.to_nat L)). rewrite Z2Nat.id in Htable by lia.
  specialize (Htable ltac:(apply in_seq; lia)). cbv zeta in Htable |- *.
  apply andb_true_iff in Htable as [Htable H3].
  apply andb_true_iff in Htable as [H1 H2].
  apply Z.leb_le in H2, H3. split; [ | split; assumption ].
  intros Hlo. apply orb_true_iff in H1 as [ H1 | H1 ];
    [ apply Z.leb_le in H1; lia | now apply Z.leb_le in H1 ].
Qed.

(** The decimal exponent of an integer is the number of its digits. *)
Lemma decimal_exponent_integer a k :
  1 <= a < 9007199254740992 -> 0 <= k ->
  let n := decimal_exponent (a * 2 ^ k) (2 ^ k) in
  1 <= n <= 16 /\ 10 ^ (n - 1) <= a < 10 ^ n.
Proof.
  intros Ha Hk.
  assert (Hq : 0 < 2 ^ k) by (apply Z.pow_pos_nonneg; lia).
  unfold decimal_exponent.
  rewrite Z.log2_mul_pow2 by lia. rewrite Z.log2_pow2 by lia.
  replace (k + Z.log2 a - k) with (Z.log2 a) by lia.
  pose proof (Z.log2_spec a ltac:(lia)) as [Hlo Hhi].
  pose proof (Z.log2_nonneg a) as Hnn.
  assert (Hlog : Z.log2 a < 53).
  { apply Z.log2_lt_pow2; [ lia | ]. change (2 ^ 53) with 9007199254740992. lia. }
  set (L := Z.log2 a) in *.
  destruct (exponent_estimate L ltac:(lia)) as (F1 & F2 & F3).
  cbv zeta in F1, F2, F3 |- *.
  set (lo := (L - 1) * 30103 / 100000 - 1) in *.
  replace (Z.succ L) with (L + 1) in Hhi by lia.
  destruct (first_exponent_spec a (2 ^ k) lo (lo + 8) ltac:(lia) Hq 8 0)
    as [ [_ Hall] | (i & Hi & Hn & H0 & Hlt & Hall) ].
  { specialize (Hall 7%nat ltac:(lia)). cbn [Z.of_nat Pos.of_succ_nat Pos.succ] in Hall.
    apply andb_false_iff in Hall as [ Hall | Hall ];
      [ apply Z.leb_gt in Hall | apply Z.ltb_ge in Hall ]; lia. }
  cbv zeta in Hn. rewrite Hn in *. clear Hn.
  set (n := lo + Z.of_nat i) in *.
  assert (Hn1 : 1 <= n).
  { destruct (Z.eq_dec n 0) as [ E0 | ]; [ | lia ].
    rewrite E0 in Hlt. change (10 ^ 0) with 1 in Hlt. lia. }
  assert (Hlow : 10 ^ (n - 1) <= a).
  { destruct (Nat.eq_dec i 0) as [ -> | Hi0 ].
    - subst n. rewrite Z.add_0_r in *. specialize (F1 Hn1). lia.
    - specialize (Hall (i - 1)%nat ltac:(lia)).
      replace (lo + Z.of_nat (i - 1)) with (n - 1) in Hall by (subst n; lia).
      apply andb_false_iff in Hall as [ Hall | Hall ];
        [ apply Z.leb_gt in Hall; lia | now apply Z.ltb_ge in Hall ]. }
  split; [ | lia ]. split; [ exact Hn1 | ].
  destruct (Z_le_gt_dec n 16) as [ | Hbig ]; [ assumption | exfalso ].
  assert (H16 : 10 ^ 16 <= 10 ^ (n - 1)) by (apply Z.pow_le_mono_r; lia).
  change (10 ^ 16) with 10000000000000000 in H16. lia.
Qed.

(** Whatever candidate [shortest] returns, before or at the full number of
    digits, denotes the number. *)
Lemma shortest_denotes a q n post :
  1 <= a -> 0 < q -> 10 ^ (n - 1) <= a < 10 ^ n ->
  forall pre,
    let '(k, s, n') :=
      shortest (roundQ false a 1) (a * q) q n (pre ++ n :: post) in
    denotes (roundQ false a 1) k s n' = true
    /\ (In k pre \/ k = n) /\ (n' = n \/ n' = n + 1).
Proof.
  intros Ha Hq Hn.
  assert (Hnorm : forall k s, snd (normalise_candidate k s n) = n
                              \/ snd (normalise_candidate k s n) = n + 1).
  { intros k s. unfold normalise_candidate. destruct (s =? 10 ^ k); cbn [snd]; auto. }
  induction pre as [ | k0 pre IH ]; cbn [app shortest].
  - (* all the digits *)
    replace (n - n) with 0 by lia.
    change (scale10 (a * q) q 0) with (a * q, q * 1). cbv beta iota.
    rewrite Z.mul_1_r, Z.div_mul by lia.
    assert (E1 : normalise_candidate n a n = (a, n)).
    { unfold normalise_candidate. destruct (Z.eqb_spec a (10 ^ n)); [ lia | reflexivity ]. }
    rewrite E1.
    assert (Hok1 : denotes (roundQ false a 1) n a n = true).
    { unfold denotes. replace (n - n) with 0 by lia.
      change (0 <=? 0) with true. change (10 ^ 0) with 1. cbv iota.
      rewrite Z.mul_1_r. unfold num_eqb. rewrite Z.eqb_refl.
      destruct (Z.leb_spec (10 ^ (n - 1)) a), (Z.ltb_spec a (10 ^ n));
        first [ reflexivity | lia ]. }
    destruct (normalise_candidate n (a + 1) n) as [s2 n2] eqn:E2.
    pose proof (Hnorm n (a + 1)) as Hn2. rewrite E2 in Hn2. cbn [snd] in Hn2.
    cbv zeta. rewrite Hok1. cbn [andb].
    destruct (denotes (roundQ false a 1) n s2 n2) eqn:Eok2.
    + destruct (_ || _); auto.
    + auto.
  - (* fewer digits *)
    destruct (scale10 (a * q) q (n - k0)) as [p' q'].
    destruct (normalise_candidate k0 (p' / q') n) as [s1 n1] eqn:E1.
    destruct (normalise_candidate k0 (p' / q' + 1) n) as [s2 n2] eqn:E2.
    pose proof (Hnorm k0 (p' / q')) as Hn1. rewrite E1 in Hn1. cbn [snd] in Hn1.
    pose proof (Hnorm k0 (p' / q' + 1)) as Hn2. rewrite E2 in Hn2. cbn [snd] in Hn2.
    cbv zeta.
    destruct (denotes (roundQ false a 1) k0 s1 n1) eqn:Eok1,
             (denotes (roundQ false a 1) k0 s2 n2) eqn:Eok2; cbn [andb].
    + destruct (_ || _); cbn [In]; auto.
    + cbn [In]. auto.
    + cbn [In]. auto.
    + destruct (shortest (roundQ false a 1) (a * q) q n (pre ++ n :: post))
        as [[k s] n'].
      destruct IH as (H1 & H2 & H3). cbn [In]. tauto.
Qed.

Lemma number_eq x y : bits_of x = bits_of y -> x = y.
Proof. destruct x, y. cbn [bits_of]. now intros ->. Qed.

(** [Number::toString] writes a safe integer other than zero as a minus sign
    if it is negative and the decimal digits of its absolute value, without a
    leading zero. *)
Lemma numberToString_integer z :
  MIN_SAFE_INTEGER <= z <= MAX_SAFE_INTEGER -> z <> 0 ->
  exists ds,
    numberToString (ofZ z) = (if z <? 0 then [45] else []) ++ ds
    /\ digits_value ds = Z.abs z
    /\ Forall (fun c => isDigit c = true) ds
    /\ exists d r, ds = d :: r /\ 49 <= d <= 57.
Proof.
  intros Hz Hnz.
  destruct (ofZ_safe z Hz Hnz)
    as (Hnan & Hfin & Hsign & HtoZ & Hsig & Hx' & k & Hk & Hexp & Hsigk).
  assert (Ha : 1 <= Z.abs z < 9007199254740992)
    by (unfold MIN_SAFE_INTEGER, MAX_SAFE_INTEGER in Hz; lia).
  set (a := Z.abs z) in *.
  assert (Hq : 0 < 2 ^ k) by (apply Z.pow_pos_nonneg; lia).
  unfold numberToString. rewrite Hnan, Hsig, Hfin, Hexp, Hsigk, Hx', Hsign.
  cbn [negb].
  assert (Hp : (if 0 <=? - k then a * 2 ^ k * 2 ^ (- k) else a * 2 ^ k) = a * 2 ^ k).
  { destruct (Z.leb_spec 0 (- k)); [ | reflexivity ].
    assert (k = 0) by lia. subst k. cbn. lia. }
  assert (Hq' : (if 0 <=? - k then 1 else 2 ^ (- - k)) = 2 ^ k).
  { destruct (Z.leb_spec 0 (- k)).
    - assert (k = 0) by lia. subst k. reflexivity.
    - f_equal. lia. }
  rewrite Hp, Hq'. cbv zeta.
  destruct (decimal_exponent_integer a k Ha ltac:(lia)) as [Hn Hdigits].
  cbv zeta in Hn, Hdigits.
  set (n := decimal_exponent (a * 2 ^ k) (2 ^ k)) in *.
  assert (Hlist : map (fun i => 1 + Z.of_nat i) (seq 0 17)
                  = map (fun i => 1 + Z.of_nat i) (seq 0 (Z.to_nat (n - 1)))
                    ++ n :: map (fun i => 1 + Z.of_nat i)
                              (seq (Datatypes.S (Z.to_nat (n - 1)))
                                 (16 - Z.to_nat (n - 1)))).
  { replace 17%nat with (Z.to_nat (n - 1) + Datatypes.S (16 - Z.to_nat (n - 1)))%nat
      at 1 by lia.
    rewrite seq_app, map_app. cbn [seq map Nat.add]. do 2 f_equal. lia. }
  rewrite Hlist.
  pose proof (shortest_denotes a (2 ^ k) n
                (map (fun i => 1 + Z.of_nat i)
                   (seq (Datatypes.S (Z.to_nat (n - 1))) (16 - Z.to_nat (n - 1))))
                ltac:(lia) Hq Hdigits
                (map (fun i => 1 + Z.of_nat i) (seq 0 (Z.to_nat (n - 1))))) as Hshort.
  destruct (shortest (roundQ false a 1) (a * 2 ^ k) (2 ^ k) n _) as [[kk s] n'].
  destruct Hshort as (Hden & Hkk & Hn').
  assert (Hkk' : 1 <= kk <= n).
  { destruct Hkk as [ Hin | -> ]; [ | lia ].
    apply in_map_iff in Hin as (i & <- & Hi). apply in_seq in Hi. lia. }
  unfold denotes in Hden.
  apply andb_true_iff in Hden as [Hden Hbits].
  apply andb_true_iff in Hden as [Hlow Hhigh].
  apply Z.leb_le in Hlow. apply Z.ltb_lt in Hhigh.
  destruct (Z.leb_spec 0 (n' - kk)); [ | lia ].
  assert (Hs : 1 <= s).
  { assert (0 < 10 ^ (kk - 1)) by (apply Z.pow_pos_nonneg; lia). lia. }
  assert (Hpow : 0 < 10 ^ (n' - kk)) by (apply Z.pow_pos_nonneg; lia).
  unfold num_eqb in Hbits. apply Z.eqb_eq in Hbits. apply number_eq in Hbits.
  symmetry in Hbits.
  apply (roundQ_injective a (s * 10 ^ (n' - kk)) Ha ltac:(nia)) in Hbits.
  assert (Hbody : (kk <=? n') && (n' <=? 21) = true).
  { apply andb_true_iff. split; apply Z.leb_le; lia. }
  rewrite Hbody.
  destruct (decimal_positive s ltac:(lia)) as (Hval & Hall & d & r & Ed & Hd).
  exists (decimal s ++ zeros (n' - kk)).
  split; [ destruct (z <? 0); reflexivity | ].
  split; [ rewrite digits_value_zeros, Hval; replace (Z.max 0 (n' - kk)) with (n' - kk) by lia; exact Hbits | ].
  split.
  - apply Forall_app. split; [ exact Hall | ].
    unfold zeros. apply Forall_forall. intros c Hc. apply repeat_spec in Hc.
    now subst c.
  - exists d, (r ++ zeros (n' - kk)). rewrite Ed. auto.
Qed.

(** What [writeNumber] writes for a safe integer: the decimal literal of the
    integer. *)
Lemma writeNumber_integer z :
  MIN_SAFE_INTEGER <= z <= MAX_SAFE_INTEGER ->
  exists ds,
    Stringify.writeNumber (ofZ z) = (if z <? 0 then [45] else []) ++ ds
    /\ digits_value ds = Z.abs z
    /\ forallb isDigit ds = true
    /\ ((z = 0 /\ ds = [48]) \/ (z <> 0 /\ exists d r, ds = d :: r /\ 49 <= d <= 57)).
Proof.
  intros Hz. destruct (Z.eq_dec z 0) as [-> | Hnz].
  - exists [48]. repeat split; try reflexivity. left. split; reflexivity.
  - destruct (ofZ_safe z Hz Hnz)
      as (Hnan & Hfin & Hsign & HtoZ & Hsig & Hx' & k & Hk & Hexp & Hsigk).
    destruct (numberToString_integer z Hz Hnz) as (ds & E & Hv & Hall & Hd).
    exists ds. unfold Stringify.writeNumber.
    assert (Hsafe : isSafeInteger (ofZ z) = true).
    { unfold isSafeInteger, isInteger. rewrite Hfin, Hexp, Hsigk, HtoZ.
      rewrite Z.opp_involutive, Z_mod_mult, Z.eqb_refl, orb_true_r. cbn [andb].
      apply andb_true_iff. split; apply Z.leb_le; lia. }
    rewrite Hsafe. split; [ exact E | ]. split; [ exact Hv | ].
    split; [ now apply forallb_forall, Forall_forall | ].
    right. split; assumption.
Qed.

(** ** Integer literals that [parseInt] reads *)

(** An integer from [2 ^ 53] on becomes a number with a biased exponent from
    1076 on. *)
Lemma roundQ_beyond neg w :
  9007199254740992 <= w ->
  exists b,
    roundQ neg w 1 = F64 ((if neg then 9223372036854775808 else 0) + b)
    /\ 1076 * 4503599627370496 <= b <= 2047 * 4503599627370496.
Proof.
  intros Hw. unfold roundQ.
  destruct (Z.leb_spec w 0); [ lia | ].
  change (Z.log2 1) with 0. rewrite Z.sub_0_r.
  pose proof (Z.log2_spec w ltac:(lia)) as [Hlo Hhi].
  assert (Hlog : 53 <= Z.log2 w).
  { apply Z.log2_le_pow2; [ lia | ]. change (2 ^ 53) with 9007199254740992. lia. }
  set (L := Z.log2 w) in *.
  destruct (Z.leb_spec 0 L); [ | lia ].
  rewrite Z.mul_1_l.
  destruct (Z.leb_spec (2 ^ L) w); [ | lia ].
  replace (Z.max (L - 52) (-1074)) with (L - 52) by lia.
  destruct (Z.ltb_spec (L - 52) 0); [ lia | ].
  rewrite Z.mul_1_l.
  assert (Hp : 0 < 2 ^ (L - 52)) by (apply Z.pow_pos_nonneg; lia).
  assert (Hsplit : 2 ^ L = 4503599627370496 * 2 ^ (L - 52)).
  { change 4503599627370496 with (2 ^ 52). rewrite <- Z.pow_add_r by lia.
    f_equal. lia. }
  assert (Hm : 4503599627370496 <= w / 2 ^ (L - 52)).
  { apply Z.div_le_lower_bound; [ lia | ]. lia. }
  set (m := w / 2 ^ (L - 52)) in *.
  match goal with
  | |- context [if ?c then m + 1 else m] =>
      set (m' := if c then m + 1 else m);
      assert (Hm' : m <= m') by (subst m'; destruct c; lia)
  end.
  cbv zeta.
  match goal with
  | |- context [if ?a <=? ?b then _ else _] => destruct (Z.leb_spec a b)
  end; eexists; (split; [ reflexivity | ]); lia.
Qed.

Lemma outOfSafeRange_beyond neg w :
  9007199254740992 <= w -> Lexer.outOfSafeRange (roundQ neg w 1) = true.
Proof.
  intros Hw. destruct (roundQ_beyond neg w Hw) as (b & -> & Hb).
  set (E := b / 4503599627370496). set (M := b mod 4503599627370496).
  assert (HbEM : b = E * 4503599627370496 + M)
    by (subst E M; rewrite Z.mul_comm; apply Z.div_mod; lia).
  assert (HM : 0 <= M < 4503599627370496) by (subst M; apply Z.mod_pos_bound; lia).
  assert (HE : 1076 <= E <= 2047).
  { subst E. split.
    - apply Z.div_le_lower_bound; lia.
    - apply Z.div_le_upper_bound; lia. }
  rewrite HbEM.
  destruct (fields_of_bits neg E M ltac:(lia) HM) as (H1 & H2 & H3).
  cbv zeta in H1, H2, H3.
  unfold Lexer.outOfSafeRange, toZ, exponent, significand.
  rewrite H1, H2, H3.
  destruct (Z.eqb_spec E 0); [ lia | ].
  destruct (Z.leb_spec 0 (E - 1075)); [ | lia ].
  assert (Hpow : 2 <= 2 ^ (E - 1075)).
  { change 2 with (2 ^ 1) at 1. apply Z.pow_le_mono_r; lia. }
  unfold MAX_SAFE_INTEGER, MIN_SAFE_INTEGER.
  apply orb_true_iff. destruct neg; [ right | left ]; apply Z.ltb_lt; nia.
Qed.

Lemma takeWhile_all {A} (f : A -> bool) l :
  forallb f l = true -> takeWhile f l = l /\ dropWhile f l = [].
Proof.
  induction l as [ | x l IH ]; cbn [forallb takeWhile dropWhile]; [ auto | ].
  intros H. apply andb_true_iff in H as [Hx Hl]. rewrite Hx.
  destruct (IH Hl) as [-> ->]. auto.
Qed.

Lemma digits_value_head d r :
  49 <= d <= 57 -> forallb isDigit r = true -> 1 <= digits_value (d :: r).
Proof.
  intros Hd Hr. unfold digits_value. cbn [fold_left].
  assert (H : forall acc, 1 <= acc ->
            1 <= fold_left (fun a c => a * 10 + (c - 48)) r acc).
  { induction r as [ | c r IH ]; intros acc Hacc; cbn [fold_left]; [ exact Hacc | ].
    cbn [forallb] in Hr. apply andb_true_iff in Hr as [Hc Hr].
    unfold isDigit in Hc. apply andb_true_iff in Hc as [Hc1 Hc2].
    apply Z.leb_le in Hc1, Hc2. apply IH; [ exact Hr | lia ]. }
  apply H. lia.
Qed.

Lemma strip_sign_other d r : d <> 45 -> d <> 43 -> strip_sign (d :: r) = (false, d :: r).
Proof.
  intros H45 H43. unfold strip_sign.
  destruct d as [ | q | q ]; try reflexivity.
  do 6 (destruct q as [ q | q | ]; try reflexivity); congruence.
Qed.

(** An integer literal without a leading zero that [parseInt] reads within
    the safe range denotes a safe integer other than zero. *)
Lemma parseInt_literal sg d r :
  sg = [] \/ sg = [45] ->
  49 <= d <= 57 -> forallb isDigit r = true ->
  isNaN (parseInt (sg ++ d :: r)) = false ->
  Lexer.outOfSafeRange (parseInt (sg ++ d :: r)) = false ->
  exists z,
    parseInt (sg ++ d :: r) = ofZ z
    /\ MIN_SAFE_INTEGER <= z <= MAX_SAFE_INTEGER /\ z <> 0.
Proof.
  intros Hsg Hd Hr.
  assert (Hall : forallb isDigit (d :: r) = true).
  { cbn [forallb]. rewrite Hr, andb_true_r. unfold isDigit.
    apply andb_true_iff. split; apply Z.leb_le; lia. }
  pose proof (digits_value_head d r Hd Hr) as Hp.
  assert (E : parseInt (sg ++ d :: r)
              = roundQ (match sg with [] => false | _ => true end)
                  (digits_value (d :: r)) 1).
  { unfold parseInt. destruct Hsg as [-> | ->]; cbn [app].
    - rewrite strip_sign_other by lia. now rewrite (proj1 (takeWhile_all _ _ Hall)).
    - cbn [strip_sign]. now rewrite (proj1 (takeWhile_all _ _ Hall)). }
  rewrite E. set (p := digits_value (d :: r)) in *. intros _ Hrange.
  destruct (Z_lt_ge_dec p 9007199254740992) as [ Hsmall | Hbig ].
  2: { rewrite outOfSafeRange_beyond in Hrange by lia. discriminate. }
  unfold MIN_SAFE_INTEGER, MAX_SAFE_INTEGER.
  destruct Hsg as [-> | ->].
  - exists p. unfold ofZ. destruct (Z.ltb_spec p 0); [ lia | ].
    rewrite Z.abs_eq by lia. split; [ reflexivity | lia ].
  - exists (- p). unfold ofZ. destruct (Z.ltb_spec (- p) 0); [ | lia ].
    rewrite Z.abs_neq by lia. rewrite Z.opp_involutive. split; [ reflexivity | lia ].
Qed.

(** ** Positions: the lexer counts what it reads *)

Lemma advance_offset c p : offset (Lexer.advance c p) = offset p + 1.
Proof. unfold Lexer.advance. destruct (c =? 10); reflexivity. Qed.

Lemma advance_line c p : line p <= line (Lexer.advance c p).
Proof. unfold Lexer.advance. destruct (c =? 10); cbn [line]; lia. Qed.

Lemma advance_column c p : 1 <= column p -> 1 <= column (Lexer.advance c p).
Proof. unfold Lexer.advance. destruct (c =? 10); cbn [column]; lia. Qed.

Lemma advanceAll_nil p : Lexer.advanceAll [] p = p.
Proof. reflexivity. Qed.

Lemma advanceAll_cons c cs p :
  Lexer.advanceAll (c :: cs) p = Lexer.advanceAll cs (Lexer.advance c p).
Proof. reflexivity. Qed.

Lemma advanceAll_facts cs :
  forall p,
    offset (Lexer.advanceAll cs p) = offset p + len cs
    /\ line p <= line (Lexer.advanceAll cs p)
    /\ (1 <= column p -> 1 <= column (Lexer.advanceAll cs p)).
Proof.
  induction cs as [ | c cs IH ]; intros p.
  - rewrite advanceAll_nil, len_nil. lia.
  - rewrite advanceAll_cons, len_cons.
    destruct (IH (Lexer.advance c p)) as (H1 & H2 & H3).
    pose proof (advance_offset c p). pose proof (advance_line c p).
    pose proof (advance_column c p). lia.
Qed.

Lemma take_drop_len {A} (f : A -> bool) l :
  len (takeWhile f l) + len (dropWhile f l) = len l.
Proof.
  induction l as [ | x l IH ]; cbn [takeWhile dropWhile]; [ reflexivity | ].
  destruct (f x); rewrite ?len_cons, ?len_nil; lia.
Qed.

(** The facts about every position and every remainder in the goal. *)
Ltac note_positions :=
  unfold ParseFast.advance, ParseFast.advanceAll in *;
  repeat match goal with
         | |- context [Lexer.advance ?c ?p] =>
             lazymatch goal with
             | _ : offset (Lexer.advance c p) = _ |- _ => fail
             | _ => pose proof (advance_offset c p);
                    pose proof (advance_line c p);
                    pose proof (advance_column c p)
             end
         | |- context [Lexer.advanceAll ?cs ?p] =>
             lazymatch goal with
             | _ : offset (Lexer.advanceAll cs p) = _ /\ _ |- _ => fail
             | _ => pose proof (advanceAll_facts cs p)
             end
         | |- context [dropWhile ?f ?X] =>
             lazymatch goal with
             | _ : len (takeWhile f X) + len (dropWhile f X) = len X |- _ => fail
             | _ => pose proof (take_drop_len f X);
                    pose proof (len_nonneg (takeWhile f X));
                    pose proof (len_nonneg (dropWhile f X))
             end
         end.

Ltac norm_len :=
  repeat match goal with
         | H : context [len (_ :: _)] |- _ => rewrite len_cons in H
         | H : context [len (_ ++ _)] |- _ => rewrite len_app in H
         | H : context [len []] |- _ => rewrite len_nil in H
         end;
  repeat first [ rewrite len_cons | rewrite len_app | rewrite len_nil ].

Ltac solve_reaches :=
  unfold reaches in *; note_positions; norm_len; pose proof (@len_nil Z);
  repeat match goal with
         | |- context [len ?l] =>
             lazymatch goal with
             | _ : 0 <= len l |- _ => fail
             | _ => pose proof (len_nonneg l)
             end
         | _ : context [len ?l] |- _ =>
             lazymatch goal with
             | _ : 0 <= len l |- _ => fail
             | _ => pose proof (len_nonneg l)
             end
         end;
  lia.

Ltac solve_stops :=
  unfold stops, Lexer.fail, ParseFast.fail;
  do 2 eexists; split; [ reflexivity | ]; solve_reaches.

Lemma reaches_refl s p : reaches s p s p.
Proof. unfold reaches. lia. Qed.

Lemma reaches_trans s p s1 p1 s2 p2 :
  reaches s p s1 p1 -> reaches s1 p1 s2 p2 -> reaches s p s2 p2.
Proof. unfold reaches. lia. Qed.

Lemma stops_after s p s1 p1 e :
  reaches s p s1 p1 -> stops s1 p1 e -> stops s p e.
Proof.
  unfold reaches, stops. intros H (m & q & -> & Hq).
  exists m, q. split; [ reflexivity | lia ].
Qed.

Lemma tracked_after {X} s p s1 p1 (Q : X -> jsstring -> SourcePosition -> Prop) r :
  reaches s p s1 p1 -> tracked s1 p1 Q r -> tracked s p Q r.
Proof.
  intros H. destruct r as [ [x [s' p']] | e | ]; cbn [tracked]; [ | | auto ].
  - intros [H1 H2]. split; [ exact (reaches_trans _ _ _ _ _ _ H H1) | exact H2 ].
  - apply stops_after. exact H.
Qed.

Lemma tracked_weaken {X} s p (Q Q' : X -> jsstring -> SourcePosition -> Prop) r :
  (forall x s' p', reaches s p s' p' -> Q x s' p' -> Q' x s' p') ->
  tracked s p Q r -> tracked s p Q' r.
Proof.
  intros H. destruct r as [ [x [s' p']] | e | ]; cbn [tracked]; auto.
  intros [H1 H2]. split; auto.
Qed.

Lemma tracked_cursor_after s p s1 p1 r :
  reaches s p s1 p1 -> tracked_cursor s1 p1 r -> tracked_cursor s p r.
Proof.
  intros H. destruct r as [ [s' p'] | e | ]; cbn [tracked_cursor]; [ | | auto ].
  - intros H1. exact (reaches_trans _ _ _ _ _ _ H H1).
  - apply stops_after. exact H.
Qed.

Lemma skipLine_reaches s :
  forall p, reaches s p (fst (Lexer.skipLine s p)) (snd (Lexer.skipLine s p)).
Proof.
  induction s as [ | c s IH ]; intros p; cbn [Lexer.skipLine].
  - apply reaches_refl.
  - destruct (c =? 10); cbn [fst snd]; [ apply reaches_refl | ].
    eapply reaches_trans; [ | apply IH ]. solve_reaches.
Qed.

Lemma skipBlock_tracked n :
  forall s p d,
    (List.length s <= n)%nat -> tracked_cursor s p (Lexer.skipBlock s p d).
Proof.
  induction n as [ | n IH ]; intros s p d Hn; destruct s as [ | x s1 ];
    try (cbn; solve_stops); cbn [List.length] in Hn; [ lia | ].
  rewrite skipBlock_cons. cbv zeta.
  destruct s1 as [ | y s2 ].
  { cbn. solve_stops. }
  cbn [List.length] in *.
  destruct ((x =? 42) && (y =? 47)); [ destruct (0 <? d - 1) | ].
  - eapply tracked_cursor_after; [ | apply IH; lia ]. solve_reaches.
  - cbn [tracked_cursor]. solve_reaches.
  - destruct ((x =? 47) && (y =? 42)).
    + eapply tracked_cursor_after; [ | apply IH; lia ]. solve_reaches.
    + eapply tracked_cursor_after; [ | apply IH; cbn [List.length]; lia ].
      solve_reaches.
Qed.

Lemma skipWhitespaceAndComments_tracked fuel :
  forall s p, tracked_cursor s p (Lexer.skipWhitespaceAndComments fuel s p).
Proof.
  induction fuel as [ | fuel IH ]; intros s p; [ exact I | ].
  cbn [Lexer.skipWhitespaceAndComments].
  assert (Hstop : tracked_cursor s p (Ok (s, p))) by apply reaches_refl.
  destruct s as [ | c s1 ]; [ exact Hstop | ].
  destruct (Lexer.isSpace c).
  { eapply tracked_cursor_after; [ | apply IH ]. solve_reaches. }
  destruct (c =? 47); [ | exact Hstop ].
  destruct s1 as [ | d s2 ]; [ exact Hstop | ].
  destruct (d =? 47).
  { pose proof (skipLine_reaches s2 (Lexer.advance d (Lexer.advance c p))) as Hl.
    destruct (Lexer.skipLine s2 _) as [s3 p3]. cbn [fst snd] in Hl.
    eapply tracked_cursor_after; [ | apply IH ].
    eapply reaches_trans; [ | exact Hl ]. solve_reaches. }
  destruct (d =? 42); [ | exact Hstop ].
  pose proof (skipBlock_tracked _ s2 (Lexer.advance d (Lexer.advance c p)) 1
                (le_n _)) as Hb.
  assert (Hr : reaches (c :: d :: s2) p s2 (Lexer.advance d (Lexer.advance c p)))
    by solve_reaches.
  destruct (Lexer.skipBlock s2 _ 1) as [ [s3 p3] | e | ]; cbn [bind tracked_cursor] in *.
  - eapply tracked_cursor_after; [ | apply IH ].
    exact (reaches_trans _ _ _ _ _ _ Hr Hb).
  - exact (stops_after _ _ _ _ _ Hr Hb).
  - exact I.
Qed.

Lemma readHex4_tracked s p :
  match Lexer.readHex4 s p with
  | Ok (u, k, q) => reaches s p (skipn k s) q
  | Throw e => stops s p e
  | OutOfFuel => True
  end.
Proof.
  unfold Lexer.readHex4, Lexer.fail. cbn [fold_left].
  destruct s as [ | h0 [ | h1 [ | h2 [ | h3 r ] ] ] ]; cbn [nth_error bind];
    repeat match goal with
           | |- context [if isHex ?h then _ else _] => destruct (isHex h); cbn [bind]
           end;
    first [ solve_stops | cbn [skipn]; solve_reaches ].
Qed.

Lemma readQuotedBody_tracked fuel quote :
  forall s p buf,
    tracked s p (fun _ _ _ => True) (Lexer.readQuotedBody fuel quote s p buf).
Proof.
  induction fuel as [ | fuel IH ]; intros s p buf; [ exact I | ].
  cbn [Lexer.readQuotedBody].
  assert (Hrec : forall s0 p0 buf0,
            reaches s p s0 p0 ->
            tracked s p (fun _ _ _ => True)
              (Lexer.readQuotedBody fuel quote s0 p0 buf0)).
  { intros s0 p0 buf0 Hr. eapply tracked_after; [ exact Hr | apply IH ]. }
  destruct s as [ | c s1 ]; [ cbn; solve_stops | ].
  destruct (c =? quote).
  { cbn [tracked]. split; [ solve_reaches | exact I ]. }
  destruct (c =? 92).
  - destruct s1 as [ | next s2 ]; [ cbn; solve_stops | ].
    repeat match goal with
           | |- context [if next =? ?k then _ else _] =>
               destruct (next =? k); [ apply Hrec; solve_reaches | ]
           end.
    destruct (next =? 117); [ | cbn; solve_stops ].
    pose proof (readHex4_tracked s2 (Lexer.advance next (Lexer.advance c p))) as Hh.
    assert (Hr : reaches (c :: next :: s2) p s2
                   (Lexer.advance next (Lexer.advance c p))) by solve_reaches.
    destruct (Lexer.readHex4 s2 _) as [ [[u n] p3] | e | ]; cbn [bind];
      [ | exact (stops_after _ _ _ _ _ Hr Hh) | exact I ].
    apply Hrec. exact (reaches_trans _ _ _ _ _ _ Hr Hh).
  - destruct ((0 <=? c) && (c <=? 31)); [ cbn; solve_stops | ].
    apply Hrec. solve_reaches.
Qed.

Section LexerPositions.

(** What a reader of one token returns: the token starts where the reader
    started and ends at the cursor reached, it carries the value of its kind
    and it is not [Eof]. *)
Let reads (p : SourcePosition) : Lexer.Token -> jsstring -> SourcePosition -> Prop :=
  fun tok _ p' =>
    Lexer.start tok = p /\ Lexer.end_ tok = p'
    /\ well_typed tok /\ Lexer.kind tok <> TokenKind.Eof.

(** The same without the value. *)
Let spans (p : SourcePosition) : Lexer.Token -> jsstring -> SourcePosition -> Prop :=
  fun tok _ p' =>
    Lexer.start tok = p /\ Lexer.end_ tok = p' /\ Lexer.kind tok <> TokenKind.Eof.

Lemma readQuotedString_tracked quote s p :
  tracked s p (reads p) (Lexer.readQuotedString quote s p).
Proof.
  unfold Lexer.readQuotedString. destruct s as [ | q s1 ]; [ cbn; solve_stops | ].
  pose proof (readQuotedBody_tracked (List.length s1 + 1) quote s1
                (Lexer.advance q p) []) as Hb.
  assert (Hr : reaches (q :: s1) p s1 (Lexer.advance q p)) by solve_reaches.
  destruct (Lexer.readQuotedBody _ quote s1 _ []) as [ [text [s2 p2]] | e | ];
    cbn [bind tracked] in *; [ | exact (stops_after _ _ _ _ _ Hr Hb) | exact I ].
  split; [ exact (reaches_trans _ _ _ _ _ _ Hr (proj1 Hb)) | ].
  unfold reads, well_typed. cbn.
  repeat split; [ eauto | discriminate ].
Qed.

Lemma readIdentifierOrKeyword_tracked s p :
  tracked s p (reads p) (Lexer.readIdentifierOrKeyword s p).
Proof.
  unfold Lexer.readIdentifierOrKeyword.
  destruct s as [ | first s1 ]; [ cbn; solve_stops | ].
  destruct (negb (isWord first) && negb (first =? 95)); [ cbn; solve_stops | ].
  cbv zeta.
  repeat match goal with
         | |- context [if str_eqb ?a ?b then _ else _] => destruct (str_eqb a b)
         end;
    (cbn [tracked]; split;
     [ rewrite advanceAll_cons; solve_reaches
     | unfold reads, well_typed; cbn; repeat split; eauto; discriminate ]).
Qed.

Lemma readNumberTail_spans start buf s0 p0 s p :
  reaches s0 p0 s p ->
  tracked s0 p0 (spans start) (Lexer.readNumberTail start buf s p).
Proof.
  intros Hs. unfold Lexer.readNumberTail.
  (* the fraction *)
  match goal with
  | |- tracked _ _ _ (match ?frac with _ => _ end) =>
      assert (Hfrac : reaches s p (snd (fst frac)) (snd frac));
      [ | destruct frac as [[[isFloat1 buf1] s1] p1] ]
  end.
  { destruct s as [ | c r ]; cbn [fst snd]; [ apply reaches_refl | ].
    destruct (c =? 46); cbn [fst snd]; [ | apply reaches_refl ].
    rewrite advanceAll_cons. solve_reaches. }
  cbn [fst snd] in Hfrac.
  pose proof (reaches_trans _ _ _ _ _ _ Hs Hfrac) as Hs1.
  (* the exponent *)
  match goal with
  | |- tracked _ _ _ (bind ?e _) =>
      assert (Hexp : match e with
                     | Ok (_, _, s2, p2) => reaches s1 p1 s2 p2
                     | Throw err => stops s1 p1 err
                     | OutOfFuel => True
                     end);
      [ | destruct e as [ [[[isFloat raw] s2] p2] | err | ]; cbn [bind];
          [ | exact (stops_after _ _ _ _ _ Hs1 Hexp) | exact I ] ]
  end.
  { destruct s1 as [ | c r ]; [ apply reaches_refl | ].
    destruct ((c =? 101) || (c =? 69)); [ | apply reaches_refl ].
    cbv zeta.
    match goal with
    | |- context [match ?sign with (_, _) => _ end] =>
        assert (Hsign : reaches (c :: r) p1 (snd (fst sign)) (snd sign));
        [ | destruct sign as [[sg r1] pg] ]
    end.
    { destruct r as [ | g r' ]; cbn [fst snd]; [ solve_reaches | ].
      destruct ((g =? 43) || (g =? 45)); cbn [fst snd]; solve_reaches. }
    cbn [fst snd] in Hsign.
    assert (Hd : reaches r1 pg (dropWhile isDigit r1)
                   (Lexer.advanceAll (takeWhile isDigit r1) pg)) by solve_reaches.
    destruct (takeWhile isDigit r1) eqn:Et.
    - eapply stops_after; [ exact Hsign | ]. solve_stops.
    - exact (reaches_trans _ _ _ _ _ _ Hsign Hd). }
  pose proof (reaches_trans _ _ _ _ _ _ Hs1 Hexp) as Hs2.
  destruct isFloat.
  - destruct (isNaN (parseFloat raw)) eqn:En.
    { eapply stops_after; [ exact Hs2 | ]. solve_stops. }
    cbn [tracked]. split; [ exact Hs2 | ].
    unfold spans. cbn. repeat split; discriminate.
  - destruct (isNaN (parseInt raw) || Lexer.outOfSafeRange (parseInt raw)) eqn:En.
    { eapply stops_after; [ exact Hs2 | ]. solve_stops. }
    apply orb_false_elim in En as [En1 En2].
    cbn [tracked]. split; [ exact Hs2 | ].
    unfold spans. cbn. repeat split; discriminate.
Qed.

Lemma readNumber_spans s p : tracked s p (spans p) (Lexer.readNumber s p).
Proof.
  unfold Lexer.readNumber. cbv zeta.
  match goal with
  | |- tracked _ _ _ (match ?sign with _ => _ end) =>
      assert (Hsign : reaches s p (snd (fst sign)) (snd sign));
      [ | destruct sign as [[buf s0] p0] ]
  end.
  { destruct s as [ | c r ]; cbn [fst snd]; [ apply reaches_refl | ].
    destruct (c =? 45); cbn [fst snd]; solve_reaches. }
  cbn [fst snd] in Hsign.
  destruct s0 as [ | c s1 ].
  { eapply stops_after; [ exact Hsign | ]. solve_stops. }
  assert (Hc : reaches (c :: s1) p0 s1 (Lexer.advance c p0)) by solve_reaches.
  pose proof (reaches_trans _ _ _ _ _ _ Hsign Hc) as Hc'.
  destruct (c =? 48).
  { assert (Hzero :
              tracked s p (spans p)
                (Ok ({| Lexer.kind := TokenKind.Integer;
                        Lexer.value := Lexer.Num posZero;
                        Lexer.start := p; Lexer.end_ := Lexer.advance c p0 |},
                     (s1, Lexer.advance c p0)))).
    { cbn [tracked]. split; [ exact Hc' | ].
      unfold spans. cbn. repeat split; discriminate. }
    destruct s1 as [ | d s2 ]; [ exact Hzero | ].
    destruct ((d =? 46) || (d =? 101) || (d =? 69)).
    - apply readNumberTail_spans. exact Hc'.
    - destruct ((49 <=? d) && (d <=? 57)); [ | exact Hzero ].
      eapply stops_after; [ exact Hc' | ]. solve_stops. }
  destruct ((49 <=? c) && (c <=? 57)) eqn:Ec.
  { apply readNumberTail_spans.
    eapply reaches_trans; [ exact Hsign | ]. solve_reaches. }
  destruct (c =? 46).
  2:{ eapply stops_after; [ exact Hsign | ]. solve_stops. }
  assert (Hd : reaches s1 (Lexer.advance c p0) (dropWhile isDigit s1)
                 (Lexer.advanceAll (takeWhile isDigit s1) (Lexer.advance c p0)))
    by solve_reaches.
  destruct (takeWhile isDigit s1) eqn:Et.
  { eapply stops_after; [ exact Hc' | ]. solve_stops. }
  pose proof (reaches_trans _ _ _ _ _ _ Hc' Hd) as Hd'.
  match goal with |- context [if ?b then _ else _] => destruct b eqn:En end.
  { eapply stops_after; [ exact Hd' | ]. solve_stops. }
  cbn [tracked]. split; [ exact Hd' | ].
  unfold spans. cbn. repeat split; discriminate.
Qed.

(** What the rest of a number is read as: a float, or the integer of the
    characters read before, which no fraction and no exponent follows. *)
Lemma readNumberTail_typed start buf s p tok c :
  Lexer.readNumberTail start buf s p = Ok (tok, c) ->
  (Lexer.kind tok = TokenKind.Float
   /\ exists n, Lexer.value tok = Lexer.Num n /\ isNaN n = false)
  \/ (Lexer.kind tok = TokenKind.Integer
      /\ Lexer.value tok = Lexer.Num (parseInt buf)
      /\ isNaN (parseInt buf) = false
      /\ Lexer.outOfSafeRange (parseInt buf) = false
      /\ match s with
         | x :: _ => (x =? 46) || (x =? 101) || (x =? 69) = false
         | [] => True
         end).
Proof.
  unfold Lexer.readNumberTail.
  (* the fraction *)
  match goal with
  | |- match ?frac with _ => _ end = _ -> _ =>
      assert (Hfrac : fst (fst (fst frac)) = true
                      \/ (frac = (false, buf, s, p)
                          /\ match s with
                             | x :: _ => (x =? 46) = false
                             | [] => True
                             end));
      [ | destruct frac as [[[isFloat1 buf1] s1] p1] ]
  end.
  { destruct s as [ | x r ]; [ now right | ].
    destruct (x =? 46); [ now left | now right ]. }
  cbn [fst] in Hfrac.
  (* the exponent *)
  match goal with
  | |- bind ?e _ = _ -> _ =>
      assert (Hexp : match e with
                     | Ok (isFloat, raw, _, _) =>
                         isFloat = true
                         \/ (isFloat = false /\ raw = buf
                             /\ match s with
                                | x :: _ => (x =? 46) || (x =? 101) || (x =? 69) = false
                                | [] => True
                                end)
                     | _ => True
                     end);
      [ | destruct e as [ [[[isFloat raw] s2] p2] | err | ]; cbn [bind];
          [ | discriminate | discriminate ] ]
  end.
  { assert (Hsame : isFloat1 = true
                    \/ (isFloat1 = false /\ buf1 = buf /\ s1 = s
                        /\ match s with
                           | x :: _ => (x =? 46) = false
                           | [] => True
                           end)).
    { destruct Hfrac as [ H | [[= -> -> -> ->] H] ]; [ now left | right; auto ]. }
    clear Hfrac.
    destruct s1 as [ | x r ].
    - destruct Hsame as [ H | (H1 & H2 & <- & _) ]; [ now left | right; auto ].
    - destruct ((x =? 101) || (x =? 69)) eqn:Ee.
      + cbv zeta.
        match goal with
        | |- context [match ?sign with (_, _) => _ end] =>
            destruct sign as [[sg r1] pg]
        end.
        destruct (takeWhile isDigit r1); [ exact I | now left ].
      + destruct Hsame as [ H | (H1 & H2 & <- & H4) ]; [ now left | right ].
        repeat split; try assumption. rewrite H4. exact Ee. }
  clear Hfrac.
  destruct Hexp as [ -> | (-> & -> & Hs) ].
  - cbv zeta. destruct (isNaN (parseFloat raw)) eqn:En; [ discriminate | ].
    intros [= <- <-]. left. cbn. eauto.
  - cbv zeta.
    destruct (isNaN (parseInt buf) || Lexer.outOfSafeRange (parseInt buf)) eqn:En;
      [ discriminate | ].
    apply orb_false_elim in En as [En1 En2].
    intros [= <- <-]. right. cbn. auto.
Qed.

Lemma forallb_takeWhile {A} (f : A -> bool) l : forallb f (takeWhile f l) = true.
Proof.
  induction l as [ | x l IH ]; cbn [takeWhile]; [ reflexivity | ].
  destruct (f x) eqn:E; [ cbn [forallb]; now rewrite E | reflexivity ].
Qed.

(** The token of a number carries a number of its kind. *)
Lemma readNumber_typed s p tok c :
  Lexer.readNumber s p = Ok (tok, c) -> well_typed tok.
Proof.
  unfold Lexer.readNumber. cbv zeta.
  assert (Hsign : exists buf s0 p0,
             match s with
             | x :: r => if x =? 45 then ([x], r, Lexer.advance x p) else ([], s, p)
             | [] => ([], s, p)
             end = (buf, s0, p0) /\ (buf = [] \/ buf = [45])).
  { destruct s as [ | x r ]; [ do 3 eexists; split; [ reflexivity | now left ] | ].
    destruct (Z.eqb_spec x 45) as [-> | _ ];
      do 3 eexists; (split; [ reflexivity | ]); auto. }
  destruct Hsign as (buf & s0 & p0 & -> & Hbuf).
  assert (Hfl : forall t,
             (Lexer.kind t = TokenKind.Float
              /\ exists n, Lexer.value t = Lexer.Num n /\ isNaN n = false) ->
             well_typed t).
  { intros t [Hk Hv]. unfold well_typed. now rewrite Hk. }
  destruct s0 as [ | c0 s1 ]; [ discriminate | ].
  destruct (c0 =? 48).
  { assert (Hz : forall q cur,
               Ok ({| Lexer.kind := TokenKind.Integer; Lexer.value := Lexer.Num posZero;
                      Lexer.start := p; Lexer.end_ := q |}, cur)
               = Ok (tok, c) -> well_typed tok).
    { intros q cur [= <- _]. unfold well_typed. cbn. exists 0.
      split; [ reflexivity | unfold MIN_SAFE_INTEGER, MAX_SAFE_INTEGER; lia ]. }
    destruct s1 as [ | d s2 ]; [ apply Hz | ].
    destruct ((d =? 46) || (d =? 101) || (d =? 69)) eqn:Ed.
    - intros H. apply readNumberTail_typed in H as [ H | (_ & _ & _ & _ & H) ].
      + now apply Hfl.
      + rewrite Ed in H. discriminate.
    - destruct ((49 <=? d) && (d <=? 57)); [ discriminate | apply Hz ]. }
  destruct ((49 <=? c0) && (c0 <=? 57)) eqn:Ec.
  { intros H. apply readNumberTail_typed in H as [ H | (Hk & Hv & Hn & Hr & _) ].
    - now apply Hfl.
    - apply andb_true_iff in Ec as [Ec1 Ec2]. apply Z.leb_le in Ec1, Ec2.
      assert (Hd : isDigit c0 = true)
        by (unfold isDigit; apply andb_true_iff; split; apply Z.leb_le; lia).
      cbn [takeWhile] in Hv, Hn, Hr. rewrite Hd in Hv, Hn, Hr.
      destruct (parseInt_literal buf c0 (takeWhile isDigit s1) Hbuf ltac:(lia)
                  (forallb_takeWhile _ _) Hn Hr) as (z & Ez & Hz & _).
      unfold well_typed. rewrite Hk. exists z. rewrite Hv, Ez. auto. }
  destruct (c0 =? 46); [ | discriminate ].
  destruct (takeWhile isDigit s1) as [ | d ds ]; [ discriminate | ].
  match goal with |- context [if ?b then _ else _] => destruct b eqn:En end;
    [ discriminate | ].
  intros [= <- _]. unfold well_typed. cbn. eauto.
Qed.

Lemma readNumber_tracked s p : tracked s p (reads p) (Lexer.readNumber s p).
Proof.
  pose proof (readNumber_spans s p) as H.
  pose proof (readNumber_typed s p) as T.
  destruct (Lexer.readNumber s p) as [ [tok [s' p']] | e | ]; cbn [tracked] in *;
    [ | exact H | exact I ].
  destruct H as (H1 & H2 & H3 & H4).
  split; [ exact H1 | ]. unfold reads. repeat split; try assumption.
  exact (T _ _ eq_refl).
Qed.
End LexerPositions.

Lemma stops_inside n s p e :
  offset p + len s = n -> 0 <= offset p -> placed p ->
  stops s p e -> exists m q, e = KodaParseError m q /\ inside n q.
Proof.
  unfold stops, inside, placed. intros Hn Hp Hpl (m & q & -> & Hq).
  exists m, q. split; [ reflexivity | lia ].
Qed.

Lemma reaches_cursor n s p s' p' :
  offset p + len s = n -> 0 <= offset p -> placed p ->
  reaches s p s' p' ->
  offset p' + len s' = n /\ 0 <= offset p' /\ placed p' /\ offset p <= offset p'.
Proof. unfold reaches, placed. lia. Qed.

(** The tokens that the main loop adds, from the cursor on. *)
Lemma tokenizeLoop_tracked n fuel :
  forall s p tokens,
    offset p + len s = n -> 0 <= offset p -> placed p ->
    match Lexer.tokenizeLoop fuel s p tokens with
    | Ok ts =>
        exists new,
          ts = tokens ++ new
          /\ laid_out (offset p) n new
          /\ Forall well_typed new
          /\ Forall (fun t => placed (Lexer.start t) /\ placed (Lexer.end_ t)) new
    | Throw e => exists m q, e = KodaParseError m q /\ inside n q
    | OutOfFuel => True
    end.
Proof.
  induction fuel as [ | fuel IH ]; intros s p tokens Hn Hp Hpl; [ exact I | ].
  cbn [Lexer.tokenizeLoop].
  pose proof (skipWhitespaceAndComments_tracked (List.length s + 1) s p) as Hw.
  destruct (Lexer.skipWhitespaceAndComments _ s p) as [ [s1 p1] | e | ];
    cbn [bind tracked_cursor] in *;
    [ | exact (stops_inside n s p e Hn Hp Hpl Hw) | exact I ].
  destruct (reaches_cursor n s p s1 p1 Hn Hp Hpl Hw) as (Hn1 & Hp1 & Hpl1 & Hle1).
  destruct s1 as [ | c s2 ].
  { rewrite len_nil in Hn1. eexists. split; [ reflexivity | ].
    cbn [laid_out Lexer.start Lexer.end_]. split; [ lia | ].
    split; (constructor; [ | constructor ]); [ reflexivity | now split ]. }
  cbv zeta.
  (* one more token, then the rest of the loop *)
  assert (Hnext : forall tok s3 p3,
            reaches (c :: s2) p1 s3 p3 ->
            offset p1 <= offset (Lexer.start tok) <= offset (Lexer.end_ tok) ->
            Lexer.end_ tok = p3 ->
            placed (Lexer.start tok) ->
            well_typed tok ->
            match Lexer.tokenizeLoop fuel s3 p3 (tokens ++ [tok]) with
            | Ok ts =>
                exists new,
                  ts = tokens ++ new
                  /\ laid_out (offset p) n new
                  /\ Forall well_typed new
                  /\ Forall (fun t => placed (Lexer.start t)
                                      /\ placed (Lexer.end_ t)) new
            | Throw e => exists m q, e = KodaParseError m q /\ inside n q
            | OutOfFuel => True
            end).
  { intros tok s3 p3 Hr Hspan Hend Hst Hty.
    destruct (reaches_cursor n _ p1 s3 p3 Hn1 Hp1 Hpl1 Hr) as (Hn3 & Hp3 & Hpl3 & _).
    specialize (IH s3 p3 (tokens ++ [tok]) Hn3 Hp3 Hpl3).
    destruct (Lexer.tokenizeLoop fuel s3 p3 (tokens ++ [tok])) as [ ts | e | ];
      [ | exact IH | exact I ].
    destruct IH as (new & -> & Hlaid & Hty' & Hpl').
    exists (tok :: new). split; [ now rewrite <- app_assoc | ].
    cbn [laid_out]. split; [ split; [ lia | now rewrite Hend ] | ].
    split; constructor; try assumption.
    split; [ exact Hst | now rewrite Hend ]. }
  assert (Hpunct : forall k,
            well_typed (Lexer.punctuation k c p1) ->
            match Lexer.tokenizeLoop fuel s2 (Lexer.advance c p1)
                    (tokens ++ [Lexer.punctuation k c p1]) with
            | Ok ts =>
                exists new,
                  ts = tokens ++ new
                  /\ laid_out (offset p) n new
                  /\ Forall well_typed new
                  /\ Forall (fun t => placed (Lexer.start t)
                                      /\ placed (Lexer.end_ t)) new
            | Throw e => exists m q, e = KodaParseError m q /\ inside n q
            | OutOfFuel => True
            end).
  { intros k Hk. apply Hnext; try exact Hk; cbn [Lexer.punctuation Lexer.start Lexer.end_].
    - solve_reaches.
    - pose proof (advance_offset c p1). lia.
    - reflexivity.
    - unfold placed in *. pose proof (advance_line c p1).
      pose proof (advance_column c p1). lia. }
  assert (Hread : forall r,
            tracked (c :: s2) p1
              (fun tok _ p' =>
                 Lexer.start tok = p1 /\ Lexer.end_ tok = p'
                 /\ well_typed tok /\ Lexer.kind tok <> TokenKind.Eof) r ->
            match ('(tok, (s3, p3)) <- r ;;
                   Lexer.tokenizeLoop fuel s3 p3 (tokens ++ [tok])) with
            | Ok ts =>
                exists new,
                  ts = tokens ++ new
                  /\ laid_out (offset p) n new
                  /\ Forall well_typed new
                  /\ Forall (fun t => placed (Lexer.start t)
                                      /\ placed (Lexer.end_ t)) new
            | Throw e => exists m q, e = KodaParseError m q /\ inside n q
            | OutOfFuel => True
            end).
  { intros r Hr. destruct r as [ [tok [s3 p3]] | e | ]; cbn [bind tracked] in *;
      [ | exact (stops_inside n _ p1 e Hn1 Hp1 Hpl1 Hr) | exact I ].
    destruct Hr as (Hr & Hst & Hend & Hty & _).
    apply Hnext; try assumption.
    - rewrite Hst, Hend. unfold reaches in Hr. lia.
    - now rewrite Hst. }
  repeat match goal with
         | |- context [if c =? ?k then _ else _] =>
             destruct (c =? k); [ apply Hpunct; reflexivity | ]
         end.
  destruct ((c =? 34) || (c =? 39));
    [ apply Hread, readQuotedString_tracked | ].
  destruct ((c =? 45) || isDigit c); [ apply Hread, readNumber_tracked | ].
  destruct (isLower c || isUpper c || (c =? 95));
    [ apply Hread, readIdentifierOrKeyword_tracked | ].
  apply (stops_inside n (c :: s2) p1); try assumption. solve_stops.
Qed.

Lemma tokenize_tracked input options :
  match Lexer.tokenize input options with
  | Ok ts =>
      laid_out 0 (len input) ts
      /\ Forall well_typed ts
      /\ Forall (fun t => placed (Lexer.start t) /\ placed (Lexer.end_ t)) ts
  | Throw e => exists m q, e = KodaParseError m q /\ inside (len input) q
  | OutOfFuel => True
  end.
Proof.
  unfold Lexer.tokenize.
  match goal with |- context [if ?b then _ else _] => destruct b end.
  - unfold Lexer.fail. do 2 eexists. split; [ reflexivity | ].
    unfold inside, placed. cbn. pose proof (len_nonneg input). lia.
  - pose proof (tokenizeLoop_tracked (len input) (List.length input + 1) input
                  (pos 1 1 0) [] eq_refl ltac:(cbn; lia)
                  ltac:(unfold placed; cbn; lia)) as H.
    destruct (Lexer.tokenizeLoop _ input _ []) as [ ts | e | ]; [ | exact H | exact I ].
    destruct H as (new & -> & H1 & H2 & H3). cbn [app]. auto.
Qed.

(** X8 (lexer.ts, [tokenize] and its readers): what the lexer returns is a
    well-formed token list.  Its last token is [Eof] and no other token is;
    and every token carries the value of its kind: a string for [String] and
    [Identifier], a number that is not NaN for [Float], the number of an
    integer between [MIN_SAFE_INTEGER] and [MAX_SAFE_INTEGER] for [Integer]
    (never a fraction, never the negative zero: the text [-0] gives the
    integer 0), and nothing for punctuation, keywords and [Eof]. *)
Theorem tokenize_returns_typed_tokens :
  forall input options tokens,
    Lexer.tokenize input options = Ok tokens ->
    terminated tokens /\ Forall well_typed tokens.
Proof.
  intros input options tokens H. split.
  - exact (proj2 (tokenize_terminated input options) tokens H).
  - pose proof (tokenize_tracked input options) as Ht. rewrite H in Ht. tauto.
Qed.

Lemma tokenize_returns_typed_tokens_witness :
  exists tokens,
    Lexer.tokenize (lit "{a: [1, 2.5] 'x' true}") {| Lexer.maxInputLength := None |}
      = Ok tokens
    /\ map Lexer.kind tokens
       = [TokenKind.LBrace; TokenKind.Identifier; TokenKind.Colon;
          TokenKind.LBracket; TokenKind.Integer; TokenKind.Comma;
          TokenKind.Float; TokenKind.RBracket; TokenKind.String;
          TokenKind.True; TokenKind.RBrace; TokenKind.Eof]
    /\ terminated tokens /\ Forall well_typed tokens.
Proof.
  destruct (Lexer.tokenize (lit "{a: [1, 2.5] 'x' true}")
              {| Lexer.maxInputLength := None |}) as [ tokens | | ] eqn:E;
    [ | vm_compute in E; discriminate E | vm_compute in E; discriminate E ].
  exists tokens. split; [ reflexivity | ].
  split; [ vm_compute in E; injection E as <-; reflexivity | ].
  exact (tokenize_returns_typed_tokens _ _ tokens E).
Defined.

(** X9 (lexer.ts, [tokenize], [advance], [emit]): the spans of the tokens
    follow the text.  Each token starts at or after the end of the one
    before, ends at or after its own start, and the last one ([Eof]) ends at
    the length of the input; every start and end has a line and a column
    that are at least 1. *)
Theorem tokenize_lays_out_tokens :
  forall input options tokens,
    Lexer.tokenize input options = Ok tokens ->
    laid_out 0 (len input) tokens
    /\ Forall (fun t => placed (Lexer.start t) /\ placed (Lexer.end_ t)) tokens.
Proof.
  intros input options tokens H.
  pose proof (tokenize_tracked input options) as Ht. rewrite H in Ht. tauto.
Qed.

Lemma tokenize_lays_out_tokens_witness :
  exists tokens,
    Lexer.tokenize (lit "a: [1]") {| Lexer.maxInputLength := None |} = Ok tokens
    /\ map (fun t => (offset (Lexer.start t), offset (Lexer.end_ t))) tokens
       = [(0, 1); (2, 2); (4, 4); (4, 5); (6, 6); (6, 6)]
    /\ laid_out 0 6 tokens.
Proof.
  destruct (Lexer.tokenize (lit "a: [1]") {| Lexer.maxInputLength := None |})
    as [ tokens | | ] eqn:E;
    [ | vm_compute in E; discriminate E | vm_compute in E; discriminate E ].
  exists tokens. split; [ reflexivity | ].
  split; [ vm_compute in E; injection E as <-; reflexivity | ].
  exact (proj1 (tokenize_lays_out_tokens _ _ tokens E)).
Defined.

(** ** What the parsers return and how they fail *)

Lemma laid_out_le n tokens :
  forall from, laid_out from n tokens -> from <= n.
Proof.
  induction tokens as [ | t r IH ]; intros from; cbn [laid_out]; [ lia | ].
  intros [H1 H2]. specialize (IH _ H2). lia.
Qed.

Lemma laid_out_inside n tokens :
  forall from,
    0 <= from -> laid_out from n tokens ->
    Forall (fun t => placed (Lexer.start t) /\ placed (Lexer.end_ t)) tokens ->
    Forall (fun t => inside n (Lexer.start t)) tokens.
Proof.
  induction tokens as [ | t r IH ]; intros from Hf; cbn [laid_out];
    [ constructor | ].
  intros [H1 H2] Hpl. apply Forall_cons_iff in Hpl as [ [Hs _] Hr ].
  pose proof (laid_out_le _ _ _ H2).
  constructor; [ unfold inside; split; [ lia | exact Hs ] | ].
  apply (IH (offset (Lexer.end_ t))); [ lia | exact H2 | exact Hr ].
Qed.

(** The loop of the parsers keeps an invariant of its state and fails only
    as its body does. *)
Lemma while_keeps {St} (Inv : St -> Prop) (E : exn -> Prop) cond
  (body : St -> result St) :
  (forall s, Inv s -> cond s = true ->
             match body s with Ok s' => Inv s' | Throw e => E e | OutOfFuel => True end) ->
  forall fuel s,
    Inv s ->
    match Parser.while fuel cond body s with
    | Ok s' => Inv s' /\ cond s' = false
    | Throw e => E e
    | OutOfFuel => True
    end.
Proof.
  intros Hbody. induction fuel as [ | fuel IH ]; intros s Hs; [ exact I | ].
  cbn [Parser.while]. destruct (cond s) eqn:Ec; [ | auto ].
  specialize (Hbody s Hs Ec).
  destruct (body s) as [ s' | e | ]; cbn [bind];
    [ apply IH; exact Hbody | exact Hbody | exact I ].
Qed.

Section ParserShape.
Variable tokens : list Lexer.Token.
Variable maxDepth : Z.
Variable n : Z.
Hypothesis n_nonneg : 0 <= n.
Hypothesis tokens_inside : Forall (fun t => inside n (Lexer.start t)) tokens.

Let located (e : exn) : Prop :=
  exists m q, e = KodaParseError m q /\ inside n q.

Let fine {A} (Q : A -> Prop) (r : result A) : Prop :=
  match r with
  | Ok a => Q a
  | Throw e => located e
  | OutOfFuel => True
  end.

Let distinct : KodaValue -> Prop := shaped (fun _ => True) (fun _ => True).

Lemma current_inside i : inside n (Lexer.start (Parser.current tokens i)).
Proof using n_nonneg tokens_inside.
  destruct (current_in_or_eof tokens i) as [ H | -> ].
  - rewrite Forall_forall in tokens_inside. exact (tokens_inside _ H).
  - unfold inside, placed. cbn. lia.
Qed.

Lemma fail_located {A} m i (Q : A -> Prop) : fine Q (Parser.fail tokens m i).
Proof using n_nonneg tokens_inside.
  unfold Parser.fail. cbn. do 2 eexists. split; [ reflexivity | apply current_inside ].
Qed.

Lemma expect_fine k i : fine (fun _ => True) (Parser.expect tokens k i).
Proof using n_nonneg tokens_inside.
  unfold Parser.expect. destruct (negb _); [ apply fail_located | exact I ].
Qed.

Lemma parsePair_fine (parseChild : nat -> result (JSValue * nat)) (obj : JSObject) i :
  (forall j, fine (fun vi : JSValue * nat => distinct (fst vi)) (parseChild j)) ->
  distinct (VObject obj) ->
  fine (fun st : JSObject * nat => distinct (VObject (fst st)))
    (Parser.parsePair tokens parseChild (obj, i)).
Proof using n_nonneg tokens_inside.
  intros Hchild Hobj. unfold Parser.parsePair.
  match goal with
  | |- context [parseChild ?j] => specialize (Hchild j); destruct (parseChild j) as [ [v i2] | e | ]
  end; cbn [bind fine fst] in *; [ | exact Hchild | exact I ].
  destruct (hasOwnProperty obj _).
  - unfold Parser.duplicateKey. do 2 eexists. split; [ reflexivity | ].
    apply current_inside.
  - apply Object_set_shaped; auto.
Qed.

Lemma parseValue_fine fuel :
  forall depth i,
    fine (fun vi : JSValue * nat => distinct (fst vi)) (Parser.parseValue tokens maxDepth fuel depth i).
Proof using n_nonneg tokens_inside.
  induction fuel as [ | fuel IH ]; intros depth i; [ exact I | ].
  cbn [Parser.parseValue].
  destruct (maxDepth <? depth); [ apply fail_located | ].
  destruct (Lexer.kind (Parser.current tokens i));
    try apply fail_located; try (cbn; constructor).
  - (* object *)
    pose proof (expect_fine TokenKind.LBrace i) as He.
    destruct (Parser.expect tokens TokenKind.LBrace i) as [ i1 | e | ];
      cbn [bind fine] in *; [ | exact He | exact I ].
    match goal with
    | |- context [Parser.while fuel ?c ?b ?s] =>
        pose proof (while_keeps (fun st : JSObject * nat => distinct (VObject (fst st))) located c b) as W;
        match type of W with
        | ?P -> _ => assert (Hb : P); [ | specialize (W Hb fuel s) ]
        end
    end.
    { intros [obj j] Hobj _. cbn [fst snd] in *.
      destruct (Parser.isKey tokens j); [ | apply fail_located ].
      pose proof (parsePair_fine (Parser.parseValue tokens maxDepth fuel (depth + 1))
                    obj j (IH (depth + 1)) Hobj) as Hp.
      destruct (Parser.parsePair tokens _ (obj, j)) as [ [obj' j'] | e | ];
        cbn [bind fine fst] in *; [ exact Hp | exact Hp | exact I ]. }
    specialize (W ltac:(cbn; repeat constructor)).
    destruct (Parser.while fuel _ _ _) as [ [obj i2] | e | ];
      cbn [bind fine fst] in *; [ | exact W | exact I ].
    pose proof (expect_fine TokenKind.RBrace i2) as He2.
    destruct (Parser.expect tokens TokenKind.RBrace i2) as [ i3 | e | ];
      cbn [bind fine fst] in *; [ tauto | exact He2 | exact I ].
  - (* array *)
    pose proof (expect_fine TokenKind.LBracket i) as He.
    destruct (Parser.expect tokens TokenKind.LBracket i) as [ i1 | e | ];
      cbn [bind fine] in *; [ | exact He | exact I ].
    match goal with
    | |- context [Parser.while fuel ?c ?b ?s] =>
        pose proof (while_keeps (fun st => Forall distinct (fst st)) located c b) as W;
        match type of W with
        | ?P -> _ => assert (Hb : P); [ | specialize (W Hb fuel s) ]
        end
    end.
    { intros [arr j] Harr _. cbn [fst snd] in *.
      specialize (IH (depth + 1) j).
      destruct (Parser.parseValue tokens maxDepth fuel (depth + 1) j)
        as [ [v j'] | e | ]; cbn [bind fine fst] in *; [ | exact IH | exact I ].
      apply Forall_app. split; [ exact Harr | ]. constructor; [ exact IH | constructor ]. }
    specialize (W ltac:(cbn; constructor)).
    destruct (Parser.while fuel _ _ _) as [ [arr i2] | e | ];
      cbn [bind fine fst] in *; [ | exact W | exact I ].
    pose proof (expect_fine TokenKind.RBracket i2) as He2.
    destruct (Parser.expect tokens TokenKind.RBracket i2) as [ i3 | e | ];
      cbn [bind fine fst] in *; [ | exact He2 | exact I ].
    constructor. tauto.
  - (* string *)
    cbn. destruct (Lexer.value (Parser.current tokens i)); constructor. exact I.
  - cbn. destruct (Lexer.value (Parser.current tokens i)); constructor. exact I.
  - cbn. destruct (Lexer.value (Parser.current tokens i)); constructor. exact I.
  - cbn. destruct (Lexer.value (Parser.current tokens i)); constructor. exact I.
Qed.

Lemma parseDocument_fine fuel i :
  fine (fun vi : JSValue * nat => distinct (fst vi)) (Parser.parseDocument tokens maxDepth fuel i).
Proof using n_nonneg tokens_inside.
  unfold Parser.parseDocument.
  destruct (Parser.isKey tokens i && _); [ | apply parseValue_fine ].
  unfold Parser.parseRootObject.
  match goal with
  | |- context [Parser.while fuel ?c ?b ?s] =>
      pose proof (while_keeps (fun st : JSObject * nat => distinct (VObject (fst st))) located c b) as W;
      match type of W with
      | ?P -> _ => assert (Hb : P); [ | specialize (W Hb fuel s) ]
      end
  end.
  { intros [obj j] Hobj _. cbn [fst] in Hobj.
    apply parsePair_fine; [ | exact Hobj ]. intros k. apply parseValue_fine. }
  specialize (W ltac:(cbn; repeat constructor)).
  destruct (Parser.while fuel _ _ _) as [ [obj i2] | e | ];
    cbn [bind fine fst] in *; [ tauto | exact W | exact I ].
Qed.
End ParserShape.

Lemma parse_fine text options :
  match Parser.parse text options with
  | Ok v => shaped (fun _ => True) (fun _ => True) v
  | Throw e => exists m q, e = KodaParseError m q /\ inside (len text) q
  | OutOfFuel => True
  end.
Proof.
  unfold Parser.parse.
  pose proof (tokenize_tracked text
                {| Lexer.maxInputLength := Parser.maxInputLength options |}) as Ht.
  destruct (Lexer.tokenize text _) as [ tokens | e | ]; cbn [bind];
    [ | exact Ht | exact I ].
  destruct Ht as (Hlaid & _ & Hpl).
  pose proof (laid_out_inside _ _ 0 ltac:(lia) Hlaid Hpl) as Hin.
  pose proof (len_nonneg text) as Hn.
  pose proof (parseDocument_fine tokens (Parser.depthLimit options) (len text)
                Hn Hin (List.length tokens + 2) 0%nat) as Hd.
  destruct (Parser.parseDocument tokens _ _ 0) as [ [v i] | e | ]; cbn [bind fst] in *;
    [ | exact Hd | exact I ].
  pose proof (expect_fine tokens (len text) Hn Hin TokenKind.Eof i) as He.
  destruct (Parser.expect tokens TokenKind.Eof i) as [ j | e | ]; cbn [bind] in *;
    [ exact Hd | exact He | exact I ].
Qed.

(** ** Positions: the single-pass reader *)

Lemma fast_skipBlock_tracked n :
  forall s p d,
    (List.length s <= n)%nat -> tracked_cursor s p (ParseFast.skipBlock s p d).
Proof.
  induction n as [ | n IH ]; intros s p d Hn; destruct s as [ | x s1 ];
    try (cbn; solve_stops); cbn [List.length] in Hn; [ lia | ].
  rewrite fast_skipBlock_cons.
  destruct s1 as [ | y s2 ]; [ cbn; solve_stops | ].
  cbv zeta. cbn [List.length] in *.
  destruct ((x =? 42) && (y =? 47)); [ destruct (0 <? d - 1) | ].
  - eapply tracked_cursor_after; [ | apply IH; lia ]. solve_reaches.
  - cbn [tracked_cursor]. solve_reaches.
  - destruct ((x =? 47) && (y =? 42)).
    + eapply tracked_cursor_after; [ | apply IH; lia ]. solve_reaches.
    + eapply tracked_cursor_after; [ | apply IH; cbn [List.length]; lia ].
      solve_reaches.
Qed.

Lemma skipWs_tracked fuel :
  forall s p, tracked_cursor s p (ParseFast.skipWs fuel s p).
Proof.
  induction fuel as [ | fuel IH ]; intros s p; [ exact I | ].
  cbn [ParseFast.skipWs].
  assert (Hstop : tracked_cursor s p (Ok (s, p))) by apply reaches_refl.
  destruct s as [ | c s1 ]; [ exact Hstop | ].
  destruct (Lexer.isSpace c).
  { eapply tracked_cursor_after; [ | apply IH ]. solve_reaches. }
  destruct (c =? 47); [ | exact Hstop ].
  destruct s1 as [ | d s2 ]; [ exact Hstop | ].
  destruct (d =? 47).
  { pose proof (skipLine_reaches s2 (Lexer.advance d (Lexer.advance c p))) as Hl.
    unfold ParseFast.advance.
    destruct (Lexer.skipLine s2 _) as [s3 p3]. cbn [fst snd] in Hl.
    eapply tracked_cursor_after; [ | apply IH ].
    eapply reaches_trans; [ | exact Hl ]. solve_reaches. }
  destruct (d =? 42); [ | exact Hstop ].
  pose proof (fast_skipBlock_tracked _ s2 (Lexer.advance d (Lexer.advance c p)) 1
                (le_n _)) as Hb.
  assert (Hr : reaches (c :: d :: s2) p s2 (Lexer.advance d (Lexer.advance c p)))
    by solve_reaches.
  unfold ParseFast.advance.
  destruct (ParseFast.skipBlock s2 _ 1) as [ [s3 p3] | e | ];
    cbn [bind tracked_cursor] in *.
  - eapply tracked_cursor_after; [ | apply IH ].
    exact (reaches_trans _ _ _ _ _ _ Hr Hb).
  - exact (stops_after _ _ _ _ _ Hr Hb).
  - exact I.
Qed.

Lemma fast_readHex4_tracked s p :
  match ParseFast.readHex4 s p with
  | Ok (u, k, q) => reaches s p (skipn k s) q
  | Throw e => stops s p e
  | OutOfFuel => True
  end.
Proof.
  unfold ParseFast.readHex4, ParseFast.fail. cbn [fold_left].
  destruct s as [ | h0 [ | h1 [ | h2 [ | h3 r ] ] ] ]; cbn [nth_error bind];
    repeat match goal with
           | |- context [if isHex ?h then _ else _] => destruct (isHex h); cbn [bind]
           end;
    first [ solve_stops | cbn [skipn]; solve_reaches ].
Qed.

Lemma fast_readQuotedBody_tracked fuel quote :
  forall s p buf,
    tracked s p (fun _ _ _ => True) (ParseFast.readQuotedBody fuel quote s p buf).
Proof.
  induction fuel as [ | fuel IH ]; intros s p buf; [ exact I | ].
  cbn [ParseFast.readQuotedBody].
  assert (Hrec : forall s0 p0 buf0,
            reaches s p s0 p0 ->
            tracked s p (fun _ _ _ => True)
              (ParseFast.readQuotedBody fuel quote s0 p0 buf0)).
  { intros s0 p0 buf0 Hr. eapply tracked_after; [ exact Hr | apply IH ]. }
  destruct s as [ | c s1 ]; [ cbn; solve_stops | ].
  destruct (c =? quote).
  { cbn [tracked]. split; [ solve_reaches | exact I ]. }
  destruct (c =? 92).
  - destruct s1 as [ | next s2 ]; [ cbn; solve_stops | ].
    repeat match goal with
           | |- context [if next =? ?k then _ else _] =>
               destruct (next =? k); [ apply Hrec; solve_reaches | ]
           end.
    destruct (next =? 117); [ | apply Hrec; solve_reaches ].
    pose proof (fast_readHex4_tracked s2 (Lexer.advance next (Lexer.advance c p)))
      as Hh.
    assert (Hr : reaches (c :: next :: s2) p s2
                   (Lexer.advance next (Lexer.advance c p))) by solve_reaches.
    unfold ParseFast.advance.
    destruct (ParseFast.readHex4 s2 _) as [ [[u n] p3] | e | ]; cbn [bind];
      [ | exact (stops_after _ _ _ _ _ Hr Hh) | exact I ].
    apply Hrec. exact (reaches_trans _ _ _ _ _ _ Hr Hh).
  - destruct ((0 <=? c) && (c <=? 31)); [ cbn; solve_stops | ].
    apply Hrec. solve_reaches.
Qed.

Lemma readQuoted_tracked quote s p :
  tracked s p (fun _ _ _ => True) (ParseFast.readQuoted quote s p).
Proof.
  unfold ParseFast.readQuoted. destruct s as [ | q s1 ]; [ cbn; solve_stops | ].
  eapply tracked_after; [ | apply fast_readQuotedBody_tracked ]. solve_reaches.
Qed.

Lemma fast_readNumber_tracked s p :
  tracked s p (fun _ _ _ => True) (ParseFast.readNumber s p).
Proof.
  unfold ParseFast.readNumber, ParseFast.fail.
  repeat (cbv beta iota zeta; cbn [bind fst snd]; note_positions;
          match goal with
          | |- context [match ?l with [] => _ | _ :: _ => _ end] => destruct l
          | |- context [if ?b then _ else _] => destruct b
          end);
    cbv beta iota zeta; cbn [bind fst snd tracked];
    first [ split; [ solve_reaches | exact I ] | solve_stops ].
Qed.

Lemma readToken_reader n r :
  reader_at n r ->
  match ParseFast.readToken r with
  | Ok r' => reader_at n r'
  | Throw e => exists m q, e = KodaParseError m q /\ inside n q
  | OutOfFuel => True
  end.
Proof.
  unfold reader_at. intros (Hn & Hp & Hpl). unfold ParseFast.readToken.
  pose proof (skipWs_tracked (List.length (ParseFast.rest r) + 1) (ParseFast.rest r)
                (ParseFast.at_pos r)) as Hw.
  destruct (ParseFast.skipWs _ _ _) as [ [s p] | e | ]; cbn [bind tracked_cursor] in *;
    [ | exact (stops_inside n _ _ e Hn Hp Hpl Hw) | exact I ].
  destruct (reaches_cursor n _ _ s p Hn Hp Hpl Hw) as (Hn1 & Hp1 & Hpl1 & _).
  assert (Hres : forall X (res : result (X * Lexer.cursor)) (k : X -> TokenKind.t)
                   (v : X -> Lexer.TokenValue),
            tracked s p (fun _ _ _ => True) res ->
            match ('(x, (s2, p2)) <- res ;;
                   Ok {| ParseFast.rest := s2; ParseFast.at_pos := p2;
                         ParseFast.kind := k x; ParseFast.val := v x |}) with
            | Ok r' =>
                offset (ParseFast.at_pos r') + len (ParseFast.rest r') = n
                /\ 0 <= offset (ParseFast.at_pos r') /\ placed (ParseFast.at_pos r')
            | Throw e => exists m q, e = KodaParseError m q /\ inside n q
            | OutOfFuel => True
            end).
  { intros X res k v Hres. destruct res as [ [x [s2 p2]] | e | ];
      cbn [bind tracked ParseFast.rest ParseFast.at_pos] in *;
      [ | exact (stops_inside n _ _ e Hn1 Hp1 Hpl1 Hres) | exact I ].
    destruct (reaches_cursor n _ _ s2 p2 Hn1 Hp1 Hpl1 (proj1 Hres)) as (? & ? & ? & _).
    auto. }
  destruct s as [ | c s1 ]; cbv zeta; [ cbn; auto | ].
  assert (Hone : forall k v,
            offset (ParseFast.at_pos
                      {| ParseFast.rest := s1; ParseFast.at_pos := ParseFast.advance c p;
                         ParseFast.kind := k; ParseFast.val := v |})
            + len (ParseFast.rest
                     {| ParseFast.rest := s1; ParseFast.at_pos := ParseFast.advance c p;
                        ParseFast.kind := k; ParseFast.val := v |}) = n
            /\ 0 <= offset (ParseFast.at_pos
                      {| ParseFast.rest := s1; ParseFast.at_pos := ParseFast.advance c p;
                         ParseFast.kind := k; ParseFast.val := v |})
            /\ placed (ParseFast.at_pos
                      {| ParseFast.rest := s1; ParseFast.at_pos := ParseFast.advance c p;
                         ParseFast.kind := k; ParseFast.val := v |})).
  { intros k v. cbn [ParseFast.rest ParseFast.at_pos].
    assert (Hr : reaches (c :: s1) p s1 (Lexer.advance c p)) by solve_reaches.
    destruct (reaches_cursor n _ _ _ _ Hn1 Hp1 Hpl1 Hr) as (? & ? & ? & _). auto. }
  repeat match goal with
         | |- context [if c =? ?k then _ else _] =>
             destruct (c =? k); [ apply Hone | ]
         end.
  destruct ((c =? 34) || (c =? 39)).
  { apply (Hres _ (ParseFast.readQuoted c (c :: s1) p)
             (fun _ => TokenKind.String) (fun text => Lexer.Str text)).
    apply readQuoted_tracked. }
  destruct ((c =? 45) || isDigit c).
  { pose proof (fast_readNumber_tracked (c :: s1) p) as Hnum.
    destruct (ParseFast.readNumber (c :: s1) p) as [ [[num isFloat] [s2 p2]] | e | ];
      cbn [bind tracked ParseFast.rest ParseFast.at_pos] in *;
      [ | exact (stops_inside n _ _ e Hn1 Hp1 Hpl1 Hnum) | exact I ].
    destruct (reaches_cursor n _ _ s2 p2 Hn1 Hp1 Hpl1 (proj1 Hnum)) as (? & ? & ? & _).
    auto. }
  destruct (isLower c || isUpper c || (c =? 95)).
  { unfold ParseFast.readIdentifier.
    assert (Hr : reaches (c :: s1) p (dropWhile isWordOrDash (c :: s1))
                   (Lexer.advanceAll (takeWhile isWordOrDash (c :: s1)) p))
      by solve_reaches.
    destruct (reaches_cursor n _ _ _ _ Hn1 Hp1 Hpl1 Hr) as (? & ? & ? & _).
    unfold ParseFast.advanceAll.
    repeat match goal with
           | |- context [if str_eqb ?a ?b then _ else _] => destruct (str_eqb a b)
           end; cbn [ParseFast.rest ParseFast.at_pos]; auto. }
  apply (stops_inside n (c :: s1) p); try assumption. solve_stops.
Qed.

Section FastShape.
Variable maxDepth : Z.
Variable n : Z.

Let located (e : exn) : Prop :=
  exists m q, e = KodaParseError m q /\ inside n q.

Let fine {A} (Q : A -> Prop) (r : result A) : Prop :=
  match r with
  | Ok a => Q a
  | Throw e => located e
  | OutOfFuel => True
  end.

Let distinct : KodaValue -> Prop := shaped (fun _ => True) (fun _ => True).

Let parsed (vr : JSValue * ParseFast.Reader) : Prop :=
  distinct (fst vr) /\ reader_at n (snd vr).

Lemma readToken_fine r :
  reader_at n r -> fine (reader_at n) (ParseFast.readToken r).
Proof using Type. intros H. exact (readToken_reader n r H). Qed.

Lemma fast_skipIf_fine k r :
  reader_at n r -> fine (reader_at n) (ParseFast.skipIf k r).
Proof using Type.
  intros H. unfold ParseFast.skipIf.
  destruct (TokenKind.eqb _ k); [ now apply readToken_fine | exact H ].
Qed.

Lemma failAt_fine {A} m r (Q : A -> Prop) :
  reader_at n r -> fine Q (ParseFast.failAt m r).
Proof using Type.
  unfold reader_at, inside. intros (Hn & Hp & Hpl).
  unfold ParseFast.failAt, ParseFast.fail. cbn.
  do 2 eexists. split; [ reflexivity | ].
  pose proof (len_nonneg (ParseFast.rest r)). split; [ lia | exact Hpl ].
Qed.

Lemma fine_bind {A B} (P : A -> Prop) (Q : B -> Prop) (m : result A)
  (k : A -> result B) :
  fine P m -> (forall a, P a -> fine Q (k a)) -> fine Q (bind m k).
Proof using Type.
  intros Hm Hk. destruct m as [ a | e | ]; cbn [bind fine] in *; auto.
Qed.

Lemma fast_parsePair_fine
  (parseChild : ParseFast.Reader -> result (JSValue * ParseFast.Reader))
  (obj : JSObject) r :
  (forall q, reader_at n q -> fine parsed (parseChild q)) ->
  distinct (VObject obj) -> reader_at n r ->
  fine (fun st : JSObject * ParseFast.Reader =>
                         distinct (VObject (fst st)) /\ reader_at n (snd st))
    (ParseFast.parsePair parseChild (obj, r)).
Proof using Type.
  intros Hchild Hobj Hr. unfold ParseFast.parsePair.
  apply (fine_bind (reader_at n)); [ now apply readToken_fine | ]. intros r1 Hr1.
  apply (fine_bind (reader_at n)); [ now apply fast_skipIf_fine | ]. intros r2 Hr2.
  apply (fine_bind parsed); [ now apply Hchild | ]. intros [v r3] [Hv Hr3].
  cbn [fst snd] in *.
  destruct (hasOwnProperty obj _); [ now apply failAt_fine | ].
  cbn [fine fst snd]. split; [ | exact Hr3 ].
  apply Object_set_shaped; auto.
Qed.

Lemma fast_parseValue_fine fuel :
  forall depth r,
    reader_at n r -> fine parsed (ParseFast.parseValue maxDepth fuel depth r).
Proof using Type.
  induction fuel as [ | fuel IH ]; intros depth r Hr; [ exact I | ].
  cbn [ParseFast.parseValue].
  destruct (maxDepth <? depth); [ now apply failAt_fine | ].
  assert (Hscalar : forall v : JSValue,
            distinct v ->
            fine parsed (r1 <- ParseFast.readToken r ;; Ok (v, r1))).
  { intros v Hv. apply (fine_bind (reader_at n)); [ now apply readToken_fine | ].
    intros r1 Hr1. cbn. split; assumption. }
  destruct (ParseFast.kind r); try (now apply failAt_fine);
    try (apply Hscalar; constructor).
  - (* object *)
    apply (fine_bind (reader_at n)); [ now apply readToken_fine | ]. intros r1 Hr1.
    match goal with
    | |- context [Parser.while fuel ?c ?b ?s] =>
        pose proof (while_keeps
                      (fun st : JSObject * ParseFast.Reader =>
                         distinct (VObject (fst st)) /\ reader_at n (snd st))
                      located c b) as W;
        match type of W with
        | ?P -> _ => assert (Hb : P); [ | specialize (W Hb fuel s) ]
        end
    end.
    { intros [obj q] [Hobj Hq] _. cbn [fst snd] in *.
      destruct (ParseFast.isKey q); [ | now apply failAt_fine ].
      apply (fine_bind
               (fun st : JSObject * ParseFast.Reader =>
                         distinct (VObject (fst st)) /\ reader_at n (snd st))).
      - apply fast_parsePair_fine; auto.
      - intros [obj' q'] [Hobj' Hq']. cbn [fst snd] in *.
        apply (fine_bind (reader_at n)); [ now apply fast_skipIf_fine | ].
        intros q'' Hq''. cbn. split; assumption. }
    specialize (W ltac:(cbn; split; [ repeat constructor | exact Hr1 ])).
    destruct (Parser.while fuel _ _ _) as [ [obj r2] | e | ];
      cbn [bind fine fst snd] in *; [ | exact W | exact I ].
    destruct W as [ [Hobj Hr2] _ ].
    apply (fine_bind (reader_at n)); [ now apply readToken_fine | ]. intros r3 Hr3.
    cbn. split; assumption.
  - (* array *)
    apply (fine_bind (reader_at n)); [ now apply readToken_fine | ]. intros r1 Hr1.
    match goal with
    | |- context [Parser.while fuel ?c ?b ?s] =>
        pose proof (while_keeps
                      (fun st => Forall distinct (fst st) /\ reader_at n (snd st))
                      located c b) as W;
        match type of W with
        | ?P -> _ => assert (Hb : P); [ | specialize (W Hb fuel s) ]
        end
    end.
    { intros [arr q] [Harr Hq] _. cbn [fst snd] in *.
      apply (fine_bind parsed); [ now apply IH | ]. intros [v q'] [Hv Hq'].
      cbn [fst snd] in *.
      apply (fine_bind (reader_at n)); [ now apply fast_skipIf_fine | ].
      intros q'' Hq''. cbn. split; [ | assumption ].
      apply Forall_app. split; [ exact Harr | ]. constructor; [ exact Hv | constructor ]. }
    specialize (W ltac:(cbn; split; [ constructor | exact Hr1 ])).
    destruct (Parser.while fuel _ _ _) as [ [arr r2] | e | ];
      cbn [bind fine fst snd] in *; [ | exact W | exact I ].
    destruct W as [ [Harr Hr2] _ ].
    apply (fine_bind (reader_at n)); [ now apply readToken_fine | ]. intros r3 Hr3.
    cbn. split; [ now constructor | assumption ].
  - apply Hscalar. destruct (ParseFast.val r); constructor. exact I.
  - apply Hscalar. destruct (ParseFast.val r); constructor. exact I.
  - apply Hscalar. destruct (ParseFast.val r); constructor. exact I.
  - apply Hscalar. destruct (ParseFast.val r); constructor. exact I.
Qed.

Lemma fast_parseDocument_fine fuel r :
  reader_at n r -> fine parsed (ParseFast.parseDocument maxDepth fuel r).
Proof using Type.
  intros Hr. unfold ParseFast.parseDocument.
  assert (Hroot : fine parsed (ParseFast.parseRootObject maxDepth fuel 0 r)).
  { unfold ParseFast.parseRootObject.
    match goal with
    | |- context [Parser.while fuel ?c ?b ?s] =>
        pose proof (while_keeps
                      (fun st : JSObject * ParseFast.Reader =>
                         distinct (VObject (fst st)) /\ reader_at n (snd st))
                      located c b) as W;
        match type of W with
        | ?P -> _ => assert (Hb : P); [ | specialize (W Hb fuel s) ]
        end
    end.
    { intros [obj q] [Hobj Hq] _. cbn [fst snd] in *.
      apply fast_parsePair_fine; auto. intros q0. apply fast_parseValue_fine. }
    specialize (W ltac:(cbn; split; [ repeat constructor | exact Hr ])).
    destruct (Parser.while fuel _ _ _) as [ [obj r2] | e | ];
      cbn [bind fine fst snd] in *; [ | exact W | exact I ].
    destruct W as [ [Hobj Hr2] _ ]. split; assumption. }
  destruct (ParseFast.isKey r); [ | now apply fast_parseValue_fine ].
  pose proof (readToken_fine r Hr) as Ha.
  destruct (ParseFast.readToken r) as [ ahead | e | ]; cbn [bind fine] in *;
    [ | exact Ha | exact I ].
  destruct (negb _); [ exact Hroot | now apply fast_parseValue_fine ].
Qed.
End FastShape.

Lemma parseFast_fine text options :
  match ParseFast.parseFast text options with
  | Ok v => shaped (fun _ => True) (fun _ => True) v
  | Throw e => exists m q, e = KodaParseError m q /\ inside (len text) q
  | OutOfFuel => True
  end.
Proof.
  unfold ParseFast.parseFast.
  pose proof (len_nonneg text) as Hn.
  match goal with |- context [if ?b then _ else _] => destruct b end.
  { unfold ParseFast.fail. do 2 eexists. split; [ reflexivity | ].
    unfold inside, placed. cbn. lia. }
  assert (Hstart : offset (pos 1 1 0) + len text = len text
                   /\ 0 <= offset (pos 1 1 0) /\ placed (pos 1 1 0)).
  { unfold placed. cbn. lia. }
  destruct Hstart as (H1 & H2 & H3).
  unfold ParseFast.newReader.
  pose proof (skipWs_tracked (List.length text + 1) text (pos 1 1 0)) as Hw.
  destruct (ParseFast.skipWs _ text _) as [ [s p] | e | ];
    cbn [bind tracked_cursor] in *;
    [ | exact (stops_inside _ _ _ e H1 H2 H3 Hw) | exact I ].
  destruct (reaches_cursor _ _ _ s p H1 H2 H3 Hw) as (Hs1 & Hs2 & Hs3 & _).
  pose proof (readToken_reader (len text)
                {| ParseFast.rest := s; ParseFast.at_pos := p;
                   ParseFast.kind := TokenKind.Eof; ParseFast.val := Lexer.NoValue |}
                ltac:(unfold reader_at; cbn; auto)) as Hr.
  destruct (ParseFast.readToken _) as [ r | e | ]; cbn [bind] in *;
    [ | exact Hr | exact I ].
  pose proof (fast_parseDocument_fine
                (match Parser.maxDepth options with
                 | Some d => d
                 | None => ParseFast.DEFAULT_MAX_DEPTH
                 end) (len text) (List.length text + 2) r Hr) as Hd.
  destruct (ParseFast.parseDocument _ _ r) as [ [v r'] | e | ]; cbn [bind fst snd] in *;
    [ | exact Hd | exact I ].
  destruct Hd as [Hv Hr'].
  unfold ParseFast.expectEof.
  destruct (negb _); cbn [bind]; [ | exact Hv ].
  exact (failAt_fine (len text) (A := unit) _ r' (fun _ => True) Hr').
Qed.

(** X10 (lexer.ts [tokenize], parser.ts [parse] and [parseFast]): every
    failure of the text parsers is a [KodaParseError], and the position it
    carries lies inside the text: its offset is between 0 and the length of
    the text, its line and its column are at least 1. *)
Theorem parse_failure_is_located :
  forall text options e,
    Lexer.tokenize text {| Lexer.maxInputLength := Parser.maxInputLength options |}
      = Throw e
    \/ Parser.parse text options = Throw e
    \/ ParseFast.parseFast text options = Throw e ->
    exists m q, e = KodaParseError m q /\ inside (len text) q.
Proof.
  intros text options e [ H | [ H | H ] ].
  - pose proof (tokenize_tracked text
                  {| Lexer.maxInputLength := Parser.maxInputLength options |}) as Ht.
    rewrite H in Ht. exact Ht.
  - pose proof (parse_fine text options) as Ht. rewrite H in Ht. exact Ht.
  - pose proof (parseFast_fine text options) as Ht. rewrite H in Ht. exact Ht.
Qed.

Lemma parse_failure_is_located_witness :
  let text := lit "{a: 1," ++ [10] ++ lit " a: ?}" in
  Parser.parse text Parser.defaults
    = Throw (KodaParseError [T "Unexpected character: "; S (lit "?")] (pos 2 5 11))
  /\ exists m q,
       KodaParseError [T "Unexpected character: "; S (lit "?")] (pos 2 5 11)
       = KodaParseError m q
       /\ inside (len text) q.
Proof.
  intros text.
  assert (H : Parser.parse text Parser.defaults
              = Throw (KodaParseError [T "Unexpected character: "; S (lit "?")]
                         (pos 2 5 11)))
    by (vm_compute; reflexivity).
  split; [ exact H | ].
  exact (parse_failure_is_located text Parser.defaults _ (or_intror (or_introl H))).
Defined.



(** ** Blank input *)

Lemma skipWhitespaceAndComments_blank fuel :
  forall s p,
    blank s -> (List.length s < fuel)%nat ->
    Lexer.skipWhitespaceAndComments fuel s p = Ok ([], Lexer.advanceAll s p).
Proof.
  unfold blank.
  induction fuel as [ | fuel IH ]; intros s p Hs Hf; [ lia | ].
  cbn [Lexer.skipWhitespaceAndComments].
  destruct s as [ | c s1 ]; [ reflexivity | ].
  cbn [forallb List.length] in *. apply andb_true_iff in Hs as [Hc Hs].
  rewrite Hc, advanceAll_cons. apply IH; [ exact Hs | lia ].
Qed.

Lemma skipWs_blank fuel :
  forall s p,
    blank s -> (List.length s < fuel)%nat ->
    ParseFast.skipWs fuel s p = Ok ([], Lexer.advanceAll s p).
Proof.
  unfold blank.
  induction fuel as [ | fuel IH ]; intros s p Hs Hf; [ lia | ].
  cbn [ParseFast.skipWs].
  destruct s as [ | c s1 ]; [ reflexivity | ].
  cbn [forallb List.length] in *. apply andb_true_iff in Hs as [Hc Hs].
  rewrite Hc. unfold ParseFast.advance. rewrite advanceAll_cons.
  apply IH; [ exact Hs | lia ].
Qed.

(** X12 (lexer.ts [tokenize], parser.ts [parseDocument] and [parseValue] of
    both parsers): the empty text, and any text of white space only, is not
    a document.  The lexer returns the single token [Eof]; [parse] fails with
    [Unexpected token: Eof] and [parseFast] with [Unexpected token], both at
    the end of the text. *)
Theorem blank_text_is_rejected :
  forall text options,
    blank text ->
    len text <= inputLimit options ->
    0 <= Parser.depthLimit options ->
    let end_of_text := Lexer.advanceAll text (pos 1 1 0) in
    Lexer.tokenize text {| Lexer.maxInputLength := Parser.maxInputLength options |}
      = Ok [ {| Lexer.kind := TokenKind.Eof; Lexer.value := Lexer.NoValue;
                Lexer.start := end_of_text; Lexer.end_ := end_of_text |} ]
    /\ Parser.parse text options
       = Throw (KodaParseError [T "Unexpected token: "; T "Eof"] end_of_text)
    /\ ParseFast.parseFast text options
       = Throw (KodaParseError [T "Unexpected token"] end_of_text).
Proof.
  intros text options Hblank Hlen Hdepth end_of_text.
  unfold inputLimit in Hlen.
  assert (Htok : Lexer.tokenize text
                   {| Lexer.maxInputLength := Parser.maxInputLength options |}
                 = Ok [ {| Lexer.kind := TokenKind.Eof; Lexer.value := Lexer.NoValue;
                           Lexer.start := end_of_text; Lexer.end_ := end_of_text |} ]).
  { unfold Lexer.tokenize. cbn [Lexer.maxInputLength].
    match goal with |- context [if ?a <? ?b then _ else _] =>
      destruct (Z.ltb_spec a b); [ lia | ] end.
    replace (List.length text + 1)%nat with (Datatypes.S (List.length text)) by lia.
    cbn [Lexer.tokenizeLoop].
    rewrite skipWhitespaceAndComments_blank by (assumption || lia).
    reflexivity. }
  split; [ exact Htok | ]. split.
  - unfold Parser.parse. rewrite Htok. cbn [bind List.length Nat.add].
    cbn [Parser.parseDocument Parser.isKey Parser.at_kind Parser.current nth
         Lexer.kind TokenKind.eqb orb andb Parser.parseValue].
    destruct (Z.ltb_spec (Parser.depthLimit options) 0); [ lia | ].
    reflexivity.
  - unfold ParseFast.parseFast.
    change ParseFast.DEFAULT_MAX_INPUT_LENGTH with Lexer.DEFAULT_MAX_INPUT_LENGTH.
    match goal with |- context [if ?a <? ?b then _ else _] =>
      destruct (Z.ltb_spec a b); [ lia | ] end.
    unfold ParseFast.newReader.
    rewrite skipWs_blank by (assumption || lia). cbn [bind].
    unfold ParseFast.readToken. cbn [ParseFast.rest ParseFast.at_pos List.length Nat.add].
    cbn [ParseFast.skipWs bind].
    replace (List.length text + 2)%nat with (Datatypes.S (List.length text + 1)) by lia.
    cbn [ParseFast.parseDocument ParseFast.isKey ParseFast.kind TokenKind.eqb orb
         ParseFast.parseValue].
    change ParseFast.DEFAULT_MAX_DEPTH with Parser.DEFAULT_MAX_DEPTH.
    change (match Parser.maxDepth options with
            | Some d => d
            | None => Parser.DEFAULT_MAX_DEPTH
            end) with (Parser.depthLimit options).
    destruct (Z.ltb_spec (Parser.depthLimit options) 0); [ lia | ].
    reflexivity.
Qed.

Lemma blank_text_is_rejected_witness :
  Parser.parse [32; 10; 9] Parser.defaults
    = Throw (KodaParseError [T "Unexpected token: "; T "Eof"] (pos 2 2 3))
  /\ ParseFast.parseFast [] Parser.defaults
     = Throw (KodaParseError [T "Unexpected token"] (pos 1 1 0)).
Proof.
  split.
  - exact (proj1 (proj2 (blank_text_is_rejected [32; 10; 9] Parser.defaults
                           eq_refl ltac:(vm_compute; discriminate)
                           ltac:(vm_compute; discriminate)))).
  - exact (proj2 (proj2 (blank_text_is_rejected [] Parser.defaults
                           eq_refl ltac:(vm_compute; discriminate)
                           ltac:(vm_compute; discriminate)))).
Defined.

(** ** The text written by [stringify] *)

Lemma Forall_firstn {A} (P : A -> Prop) n :
  forall l, Forall P l -> Forall P (firstn n l).
Proof.
  induction n as [ | n IH ]; intros l H; [ constructor | ].
  destruct H; cbn [firstn]; constructor; auto.
Qed.

Lemma Forall_skipn {A} (P : A -> Prop) n :
  forall l, Forall P l -> Forall P (skipn n l).
Proof.
  induction n as [ | n IH ]; intros l H; [ exact H | ].
  destruct H; cbn [skipn]; [ constructor | auto ].
Qed.

Lemma Forall_dropWhile {A} (P : A -> Prop) f l :
  Forall P l -> Forall P (dropWhile f l).
Proof.
  induction 1 as [ | x l Hx Hl IH ]; cbn [dropWhile]; [ constructor | ].
  destruct (f x); [ exact IH | now constructor ].
Qed.

Lemma Forall_repeat {A} (P : A -> Prop) x n : P x -> Forall P (repeat x n).
Proof. intros H. induction n; cbn; constructor; auto. Qed.

Lemma Forall_join (P : Z -> Prop) (sep : jsstring) l :
  Forall P sep -> Forall (Forall P) l -> Forall P (Stringify.join sep l).
Proof.
  intros Hsep. induction 1 as [ | x l Hx Hl IH ]; [ constructor | ].
  destruct l as [ | y r ]; [ exact Hx | ].
  change (Stringify.join sep (x :: y :: r))
    with (x ++ sep ++ Stringify.join sep (y :: r)).
  apply Forall_app. split; [ exact Hx | ].
  apply Forall_app. split; [ exact Hsep | exact IH ].
Qed.

Section SingleLine.

(** A code unit other than the line feed. *)
Let inline (c : Z) : Prop := c <> 10.

Lemma inline_uint_digits u : Forall inline (uint_digits u).
Proof using Type.
  induction u; cbn [uint_digits]; constructor; auto; unfold inline; lia.
Qed.

Lemma inline_decimal z : Forall inline (decimal z).
Proof using Type.
  destruct z; cbn [decimal]; try apply inline_uint_digits;
    repeat constructor; unfold inline; lia.
Qed.

Lemma inline_lit_checked l :
  forallb (fun c => negb (c =? 10)) l = true -> Forall inline l.
Proof using Type.
  induction l as [ | c l IH ]; cbn [forallb]; [ constructor | ].
  intros H. apply andb_true_iff in H as [Hc Hl].
  constructor; [ | auto ].
  unfold inline. intros ->. discriminate.
Qed.

Lemma inline_numberToString x : Forall inline (numberToString x).
Proof using Type.
  unfold numberToString.
  destruct (isNaN x); [ now apply inline_lit_checked | ].
  destruct (significand x =? 0); [ now apply inline_lit_checked | ].
  destruct (negb (isFinite x)).
  { destruct (sign_bit x); now apply inline_lit_checked. }
  cbv zeta.
  destruct (shortest _ _ _ _ _) as [[k s] n].
  assert (Hbody : forall body, Forall inline body ->
            Forall inline (if sign_bit x then 45 :: body else body)).
  { intros body Hb. destruct (sign_bit x); [ constructor | ]; auto.
    unfold inline. lia. }
  apply Hbody.
  pose proof (inline_decimal s) as Hds.
  assert (Hz : forall m, Forall inline (zeros m)).
  { intros m. apply Forall_repeat. unfold inline. lia. }
  destruct ((k <=? n) && (n <=? 21)).
  { apply Forall_app. auto. }
  destruct ((0 <? n) && (n <=? 21)).
  { apply Forall_app. split; [ now apply Forall_firstn | ].
    apply Forall_app. split; [ repeat constructor; unfold inline; lia | ].
    now apply Forall_skipn. }
  destruct ((-6 <? n) && (n <=? 0)).
  { apply Forall_app. split; [ now apply inline_lit_checked | ].
    apply Forall_app. auto. }
  assert (Hex : Forall inline
                  ((if 0 <=? n - 1 then [43] else [45]) ++ decimal (Z.abs (n - 1)))).
  { apply Forall_app. split; [ | apply inline_decimal ].
    destruct (0 <=? n - 1); repeat constructor; unfold inline; lia. }
  destruct (decimal s) as [ | d [ | d' r ] ]; [ constructor | | ].
  - apply Forall_app. split; [ exact Hds | ].
    apply Forall_app. split; [ repeat constructor; unfold inline; lia | exact Hex ].
  - apply Forall_cons_iff in Hds as [Hd Hr].
    apply Forall_app. split; [ repeat constructor; exact Hd | ].
    apply Forall_app. split; [ repeat constructor; unfold inline; lia | ].
    apply Forall_app. split; [ exact Hr | ].
    apply Forall_app. split; [ repeat constructor; unfold inline; lia | exact Hex ].
Qed.

Lemma inline_writeNumber n : Forall inline (Stringify.writeNumber n).
Proof using Type.
  unfold Stringify.writeNumber, JSON_stringify_number.
  destruct (isSafeInteger n); [ apply inline_numberToString | ].
  destruct (isFinite n); [ apply inline_numberToString | ].
  now apply inline_lit_checked.
Qed.

Lemma inline_replaceChar c rep s :
  Forall inline rep -> (c = 10 \/ Forall inline s) ->
  Forall inline (Stringify.replaceChar c rep s).
Proof using Type.
  intros Hrep Hs. unfold Stringify.replaceChar. apply Forall_flat_map.
  rewrite Forall_forall. intros x Hx.
  destruct (Z.eqb_spec x c) as [ -> | Hne ]; [ exact Hrep | ].
  constructor; [ | constructor ].
  destruct Hs as [ -> | Hs ]; [ exact Hne | ].
  rewrite Forall_forall in Hs. auto.
Qed.

Lemma inline_replaceWordBoundary rep s :
  Forall inline rep -> Forall inline s ->
  forall prev, Forall inline (Stringify.replaceWordBoundary rep prev s).
Proof using Type.
  intros Hrep. induction 1 as [ | c s Hc Hs IH ]; intros prev;
    cbn [Stringify.replaceWordBoundary].
  - destruct prev; [ exact Hrep | constructor ].
  - apply Forall_app. split; [ destruct (xorb _ _); [ exact Hrep | constructor ] | ].
    constructor; auto.
Qed.

Lemma replaceChar_other c rep s :
  forall P : Z -> Prop,
    Forall P rep -> Forall P s -> Forall P (Stringify.replaceChar c rep s).
Proof using Type.
  intros P Hrep Hs. unfold Stringify.replaceChar. apply Forall_flat_map.
  eapply Forall_impl; [ | exact Hs ]. intros x Hx.
  destruct (x =? c); [ exact Hrep | now constructor ].
Qed.

(** The line feed is escaped after the word boundaries are marked, so the
    text can hold line feeds until then. *)
Lemma inline_escapeDouble s : Forall inline (Stringify.escapeDouble s).
Proof using Type.
  unfold Stringify.escapeDouble.
  apply inline_replaceChar; [ now apply inline_lit_checked | right ].
  apply inline_replaceChar; [ now apply inline_lit_checked | right ].
  apply inline_replaceChar; [ now apply inline_lit_checked | now left ].
Qed.

Lemma inline_unquoted s : Stringify.needsQuote s = false -> Forall inline s.
Proof using Type.
  unfold Stringify.needsQuote. destruct s as [ | first more ]; [ discriminate | ].
  destruct (negb (isWord first) && negb (first =? 95)) eqn:E1; [ discriminate | ].
  destruct (negb (forallb isWordOrDash more)) eqn:E2; [ discriminate | ].
  intros _. apply negb_false_iff in E2.
  constructor.
  - unfold inline. intros ->. vm_compute in E1. discriminate.
  - rewrite forallb_forall in E2. rewrite Forall_forall. intros c Hc.
    specialize (E2 c Hc). unfold inline. intros ->. vm_compute in E2. discriminate.
Qed.

Lemma inline_quote s :
  Forall inline (Stringify.quoteValueString s)
  /\ Forall inline (Stringify.quoteKey s).
Proof using Type.
  unfold Stringify.quoteValueString, Stringify.quoteKey.
  destruct (Stringify.needsQuote s) eqn:E.
  - assert (H : Forall inline ([34] ++ Stringify.escapeDouble s ++ [34])).
    { apply Forall_app. split; [ repeat constructor; unfold inline; lia | ].
      apply Forall_app. split; [ apply inline_escapeDouble | ].
      repeat constructor; unfold inline; lia. }
    auto.
  - split; now apply inline_unquoted.
Qed.

Lemma inline_stringifyValue newline v :
  forall level, Forall inline (Stringify.stringifyValue [] newline v level).
Proof using Type.
  induction v as [ | b | n | s | items IH | props IH ] using KodaValue_ind;
    intros level; cbn [Stringify.stringifyValue].
  - now apply inline_lit_checked.
  - destruct b; now apply inline_lit_checked.
  - apply inline_writeNumber.
  - apply inline_quote.
  - destruct items as [ | x items ]; [ now apply inline_lit_checked | ].
    cbn [Stringify.separator].
    apply Forall_app. split; [ now apply inline_lit_checked | ].
    apply Forall_app. split; [ now apply inline_lit_checked | ].
    apply Forall_app. split; [ | now apply inline_lit_checked ].
    apply (Forall_join inline [32]); [ now apply inline_lit_checked | ].
    rewrite Forall_map. eapply Forall_impl; [ | exact IH ].
    intros v Hv. apply Hv.
  - destruct props as [ | p props ]; [ now apply inline_lit_checked | ].
    cbn [Stringify.separator].
    apply Forall_app. split; [ now apply inline_lit_checked | ].
    apply Forall_app. split; [ now apply inline_lit_checked | ].
    apply Forall_app. split; [ | now apply inline_lit_checked ].
    apply (Forall_join inline [32]); [ now apply inline_lit_checked | ].
    rewrite Forall_map. eapply Forall_impl; [ | exact IH ].
    intros q Hq. cbn beta.
    apply Forall_app. split; [ apply inline_quote | ].
    apply Forall_app. split; [ now apply inline_lit_checked | ].
    apply Forall_app. split; [ now apply inline_lit_checked | apply Hq ].
Qed.

Lemma inline_stringify v options :
  Stringify.indent options = None \/ Stringify.indent options = Some [] ->
  Forall inline (Stringify.stringify v options).
Proof using Type.
  intros Hi. unfold Stringify.stringify, Stringify.trim.
  apply Forall_rev, Forall_dropWhile, Forall_rev, Forall_dropWhile.
  destruct Hi as [ -> | -> ]; apply inline_stringifyValue.
Qed.
End SingleLine.

(** X13 (stringify.ts, [stringify] with [escapeDouble], [writeNumber] and
    [stringifyValue]): without an indent the text written for any value is a
    single line.  It holds no line feed, whatever the strings and keys of the
    value contain and whatever the [newline] option says. *)
Theorem stringify_without_indent_is_one_line :
  forall v options,
    Stringify.indent options = None \/ Stringify.indent options = Some [] ->
    ~ In 10 (Stringify.stringify v options).
Proof.
  intros v options Hi Hin.
  pose proof (inline_stringify v options Hi) as H.
  rewrite Forall_forall in H. exact (H 10 Hin eq_refl).
Qed.

Lemma stringify_without_indent_is_one_line_witness :
  let v := VObject [(lit "a" ++ [10], VArray [VString [10; 10]; VNumber (ofZ 1)])] in
  Stringify.stringify v Stringify.defaults
    = lit "{ " ++ [34; 92; 98; 97; 92; 98; 92; 110; 34] ++ lit ": [ "
        ++ [34; 92; 110; 92; 110; 34] ++ lit " 1 ] }"
  /\ ~ In 10 (Stringify.stringify v Stringify.defaults).
Proof.
  intros v. split; [ vm_compute; reflexivity | ].
  apply (stringify_without_indent_is_one_line v Stringify.defaults).
  left. reflexivity.
Defined.

(** ** Strings written without quotes *)

Lemma alpha_cases c :
  isAlpha_ c = true -> 97 <= c <= 122 \/ 65 <= c <= 90 \/ c = 95.
Proof.
  unfold isAlpha_, isLower, isUpper.
  rewrite !orb_true_iff, !andb_true_iff, !Z.leb_le, Z.eqb_eq. tauto.
Qed.

Lemma wordOrDash_cases c :
  isWordOrDash c = true ->
  97 <= c <= 122 \/ 65 <= c <= 90 \/ c = 95 \/ 48 <= c <= 57 \/ c = 45.
Proof.
  unfold isWordOrDash, isWord, isAlpha_, isLower, isUpper, isDigit.
  rewrite !orb_true_iff, !andb_true_iff, !Z.leb_le, !Z.eqb_eq. tauto.
Qed.

Lemma eqb_false_of c k : c <> k -> (c =? k) = false.
Proof. apply Z.eqb_neq. Qed.

Lemma wordOrDash_not_trimmed c :
  isWordOrDash c = true -> Stringify.isTrimmed c = false.
Proof.
  intros H. apply wordOrDash_cases in H. unfold Stringify.isTrimmed.
  repeat match goal with
         | |- context [?a <=? ?b] => destruct (Z.leb_spec a b)
         | |- context [?a =? ?b] => destruct (Z.eqb_spec a b)
         end; cbn [andb orb]; try reflexivity; exfalso; lia.
Qed.

Lemma alpha_wordOrDash c : isAlpha_ c = true -> isWordOrDash c = true.
Proof. unfold isWordOrDash, isWord. now intros ->. Qed.

Lemma dropWhile_none {A} (f : A -> bool) l :
  Forall (fun x => f x = false) l -> dropWhile f l = l.
Proof. destruct 1 as [ | x l Hx _ ]; cbn [dropWhile]; [ | rewrite Hx ]; reflexivity. Qed.

(** What [needsQuote] lets through that starts with a letter or an
    underscore: an identifier that is not a keyword. *)
Lemma unquoted_identifier s :
  Stringify.needsQuote s = false -> isAlpha_ (hd 0 s) = true ->
  exists first more,
    s = first :: more
    /\ isAlpha_ first = true
    /\ forallb isWordOrDash more = true
    /\ str_eqb s (lit "true") = false
    /\ str_eqb s (lit "false") = false
    /\ str_eqb s (lit "null") = false.
Proof.
  unfold Stringify.needsQuote. destruct s as [ | first more ]; [ discriminate | ].
  cbn [hd].
  destruct (negb (isWord first) && negb (first =? 95)); [ discriminate | ].
  destruct (negb (forallb isWordOrDash more)) eqn:E2; [ discriminate | ].
  apply negb_false_iff in E2. intros Hkw Ha.
  apply orb_false_iff in Hkw as [Hkw Hnull].
  apply orb_false_iff in Hkw as [Htrue Hfalse].
  exists first, more. repeat split; try assumption.
  - destruct (str_eqb (first :: more) (lit "true")) eqn:E; [ | reflexivity ].
    apply str_eqb_eq in E. rewrite E in Htrue. vm_compute in Htrue. discriminate.
  - destruct (str_eqb (first :: more) (lit "false")) eqn:E; [ | reflexivity ].
    apply str_eqb_eq in E. rewrite E in Hfalse. vm_compute in Hfalse. discriminate.
  - destruct (str_eqb (first :: more) (lit "null")) eqn:E; [ | reflexivity ].
    apply str_eqb_eq in E. rewrite E in Hnull. vm_compute in Hnull. discriminate.
Qed.

Lemma trim_identifier first more :
  isAlpha_ first = true -> forallb isWordOrDash more = true ->
  Stringify.trim (first :: more) = first :: more.
Proof.
  intros Ha Hm. unfold Stringify.trim.
  assert (Hall : Forall (fun c => Stringify.isTrimmed c = false) (first :: more)).
  { constructor; [ now apply wordOrDash_not_trimmed, alpha_wordOrDash | ].
    rewrite Forall_forall. rewrite forallb_forall in Hm.
    intros c Hc. apply wordOrDash_not_trimmed. auto. }
  rewrite (dropWhile_none _ _ Hall).
  rewrite (dropWhile_none _ _ (Forall_rev Hall)).
  apply rev_involutive.
Qed.

(** The tests that send the lexers to the identifier reader. *)
Lemma alpha_dispatch c :
  isAlpha_ c = true ->
  Lexer.isSpace c = false
  /\ (c =? 47) = false /\ (c =? 123) = false /\ (c =? 125) = false
  /\ (c =? 91) = false /\ (c =? 93) = false /\ (c =? 58) = false
  /\ (c =? 44) = false /\ (c =? 34) = false /\ (c =? 39) = false
  /\ (c =? 45) = false /\ isDigit c = false
  /\ isLower c || isUpper c || (c =? 95) = true
  /\ isWord c = true.
Proof.
  intros H. pose proof (alpha_cases c H) as Hc.
  assert (Hs : Lexer.isSpace c = false).
  { unfold Lexer.isSpace. rewrite !eqb_false_of by lia. reflexivity. }
  assert (Hd : isDigit c = false).
  { unfold isDigit. destruct (Z.leb_spec 48 c), (Z.leb_spec c 57); cbn; try reflexivity.
    exfalso. lia. }
  repeat split; try (apply eqb_false_of; lia); try assumption.
  unfold isWord. now rewrite H.
Qed.

Section Identifier.
Variables (first : Z) (more : jsstring).
Hypothesis first_alpha : isAlpha_ first = true.
Hypothesis more_word : forallb isWordOrDash more = true.
Hypothesis not_true : str_eqb (first :: more) (lit "true") = false.
Hypothesis not_false : str_eqb (first :: more) (lit "false") = false.
Hypothesis not_null : str_eqb (first :: more) (lit "null") = false.

Lemma skip_at_identifier fuel p :
  Lexer.skipWhitespaceAndComments (Datatypes.S fuel) (first :: more) p = Ok ((first :: more), p)
  /\ ParseFast.skipWs (Datatypes.S fuel) (first :: more) p = Ok ((first :: more), p).
Proof using first_alpha.
  destruct (alpha_dispatch first first_alpha) as (Hs & H47 & _).
  cbn [Lexer.skipWhitespaceAndComments ParseFast.skipWs].
  rewrite Hs, H47. auto.
Qed.

Lemma readIdentifierOrKeyword_identifier p :
  Lexer.readIdentifierOrKeyword (first :: more) p
  = Ok ({| Lexer.kind := TokenKind.Identifier; Lexer.value := Lexer.Str (first :: more);
           Lexer.start := p; Lexer.end_ := Lexer.advanceAll (first :: more) p |}, ([], Lexer.advanceAll (first :: more) p)).
Proof using first_alpha more_word not_true not_false not_null.
  destruct (alpha_dispatch first first_alpha) as (_ & _ & _ & _ & _ & _ & _ & _ & _
                                                  & _ & _ & _ & _ & Hw).
  destruct (takeWhile_all isWordOrDash more more_word) as [Ht Hd].
  unfold Lexer.readIdentifierOrKeyword.
  rewrite Hw. cbn [negb andb]. cbv zeta.
  rewrite Ht, Hd, not_true, not_false, not_null. reflexivity.
Qed.

Lemma tokenize_identifier options :
  len (first :: more) <= inputLimit options ->
  Lexer.tokenize (first :: more) {| Lexer.maxInputLength := Parser.maxInputLength options |}
  = Ok [ {| Lexer.kind := TokenKind.Identifier; Lexer.value := Lexer.Str (first :: more);
            Lexer.start := pos 1 1 0; Lexer.end_ := Lexer.advanceAll (first :: more) (pos 1 1 0) |};
         {| Lexer.kind := TokenKind.Eof; Lexer.value := Lexer.NoValue;
            Lexer.start := Lexer.advanceAll (first :: more) (pos 1 1 0); Lexer.end_ := Lexer.advanceAll (first :: more) (pos 1 1 0) |} ].
Proof using first_alpha more_word not_true not_false not_null.
  intros Hlen. unfold inputLimit in Hlen. unfold Lexer.tokenize.
  cbn [Lexer.maxInputLength].
  match goal with |- context [if ?a <? ?b then _ else _] =>
    destruct (Z.ltb_spec a b); [ lia | ] end.
  destruct (alpha_dispatch first first_alpha)
    as (_ & _ & H123 & H125 & H91 & H93 & H58 & H44 & H34 & H39 & H45 & Hd & Hl & _).
  replace (List.length (first :: more) + 1)%nat with (Datatypes.S (Datatypes.S (List.length more)))
    by (cbn [List.length]; lia).
  cbn [Lexer.tokenizeLoop].
  replace (List.length (first :: more) + 1)%nat with (Datatypes.S (List.length (first :: more))) by lia.
  rewrite (proj1 (skip_at_identifier _ _)). cbn [bind].
  cbv zeta.
  rewrite H123, H125, H91, H93, H58, H44, H34, H39, H45, Hd, Hl. cbn [orb].
  rewrite readIdentifierOrKeyword_identifier. cbn [bind app].
  destruct (List.length more); reflexivity.
Qed.

Lemma parse_identifier options :
  len (first :: more) <= inputLimit options -> 0 <= Parser.depthLimit options ->
  Parser.parse (first :: more) options = Ok (VString (first :: more)).
Proof using first_alpha more_word not_true not_false not_null.
  intros Hlen Hdepth. unfold Parser.parse.
  rewrite (tokenize_identifier options Hlen). cbn [bind List.length Nat.add].
  unfold Parser.parseDocument, Parser.isKey, Parser.at_kind, Parser.current.
  cbn [nth Lexer.kind TokenKind.eqb orb andb negb Nat.ltb Nat.leb Nat.add
       List.length Parser.parseValue].
  destruct (Z.ltb_spec (Parser.depthLimit options) 0); [ lia | ].
  reflexivity.
Qed.

Lemma readToken_identifier p k v :
  ParseFast.readToken {| ParseFast.rest := (first :: more); ParseFast.at_pos := p;
                         ParseFast.kind := k; ParseFast.val := v |}
  = Ok {| ParseFast.rest := []; ParseFast.at_pos := Lexer.advanceAll (first :: more) p;
          ParseFast.kind := TokenKind.Identifier; ParseFast.val := Lexer.Str (first :: more) |}.
Proof using first_alpha more_word not_true not_false not_null.
  destruct (alpha_dispatch first first_alpha)
    as (_ & _ & H123 & H125 & H91 & H93 & H58 & H44 & H34 & H39 & H45 & Hd & Hl & Hw).
  unfold ParseFast.readToken. cbn [ParseFast.rest ParseFast.at_pos].
  replace (List.length (first :: more) + 1)%nat with (Datatypes.S (List.length (first :: more))) by lia.
  rewrite (proj2 (skip_at_identifier _ _)). cbn [bind].
  cbv zeta.
  rewrite H123, H125, H91, H93, H58, H44, H34, H39, H45, Hd, Hl. cbn [orb].
  unfold ParseFast.readIdentifier.
  assert (Hall : forallb isWordOrDash (first :: more) = true).
  { cbn [forallb]. rewrite more_word. unfold isWordOrDash. now rewrite Hw. }
  destruct (takeWhile_all isWordOrDash _ Hall) as [-> ->].
  rewrite not_true, not_false, not_null. reflexivity.
Qed.

Lemma parseFast_identifier options :
  len (first :: more) <= inputLimit options -> 0 <= Parser.depthLimit options ->
  ParseFast.parseFast (first :: more) options = Ok (VString (first :: more)).
Proof using first_alpha more_word not_true not_false not_null.
  intros Hlen Hdepth. unfold inputLimit in Hlen. unfold ParseFast.parseFast.
  change ParseFast.DEFAULT_MAX_INPUT_LENGTH with Lexer.DEFAULT_MAX_INPUT_LENGTH.
  change ParseFast.DEFAULT_MAX_DEPTH with Parser.DEFAULT_MAX_DEPTH.
  change (match Parser.maxDepth options with
          | Some d => d
          | None => Parser.DEFAULT_MAX_DEPTH
          end) with (Parser.depthLimit options).
  cbv zeta.
  match goal with |- context [if ?a <? ?b then _ else _] =>
    destruct (Z.ltb_spec a b); [ lia | ] end.
  unfold ParseFast.newReader.
  replace (List.length (first :: more) + 1)%nat with (Datatypes.S (List.length (first :: more))) by lia.
  rewrite (proj2 (skip_at_identifier _ _)). cbn [bind].
  rewrite readToken_identifier. cbn [bind].
  replace (List.length (first :: more) + 2)%nat with (Datatypes.S (List.length (first :: more) + 1)) by lia.
  unfold ParseFast.parseDocument, ParseFast.isKey, ParseFast.readToken.
  cbn [ParseFast.kind TokenKind.eqb orb ParseFast.rest ParseFast.at_pos
       List.length Nat.add ParseFast.skipWs bind negb ParseFast.parseValue
       ParseFast.val].
  destruct (Z.ltb_spec (Parser.depthLimit options) 0); [ lia | ].
  reflexivity.
Qed.
End Identifier.

(** X14 (stringify.ts [needsQuote], [quoteValueString], [stringify], with
    lexer.ts [readIdentifierOrKeyword] and parser.ts): a string that
    [needsQuote] lets through and that starts with a letter or an underscore
    is written as it is, without quotes, and both parsers read that text back
    as the same string. *)
Theorem unquoted_identifier_reads_back :
  forall s sopts popts,
    Stringify.needsQuote s = false ->
    isAlpha_ (hd 0 s) = true ->
    len s <= inputLimit popts ->
    0 <= Parser.depthLimit popts ->
    Stringify.stringify (VString s) sopts = s
    /\ Parser.parse (Stringify.stringify (VString s) sopts) popts = Ok (VString s)
    /\ ParseFast.parseFast (Stringify.stringify (VString s) sopts) popts
       = Ok (VString s).
Proof.
  intros s sopts popts Hq Ha Hlen Hdepth.
  destruct (unquoted_identifier s Hq Ha)
    as (first & more & -> & Hf & Hm & Ht & Hfa & Hn).
  assert (Hs : Stringify.stringify (VString (first :: more)) sopts = first :: more).
  { unfold Stringify.stringify. cbn [Stringify.stringifyValue].
    unfold Stringify.quoteValueString. rewrite Hq. now apply trim_identifier. }
  rewrite Hs. split; [ reflexivity | ]. split.
  - now apply parse_identifier.
  - now apply parseFast_identifier.
Qed.

Lemma unquoted_identifier_reads_back_witness :
  let s := lit "Content-Type_2" in
  Stringify.needsQuote s = false
  /\ Stringify.stringify (VString s) Stringify.defaults = s
  /\ Parser.parse (Stringify.stringify (VString s) Stringify.defaults) Parser.defaults
     = Ok (VString s)
  /\ ParseFast.parseFast (Stringify.stringify (VString s) Stringify.defaults)
       Parser.defaults = Ok (VString s).
Proof.
  intros s. split; [ reflexivity | ].
  apply (unquoted_identifier_reads_back s Stringify.defaults Parser.defaults);
    [ reflexivity | reflexivity | vm_compute; discriminate | vm_compute; discriminate ].
Defined.

(** ** The two readers on white space, comments and strings *)

Lemma skipBlock_agree n :
  forall s p d c,
    (List.length s <= n)%nat ->
    (Lexer.skipBlock s p d = Ok c <-> ParseFast.skipBlock s p d = Ok c).
Proof.
  induction n as [ | n IH ]; intros s p d c Hn; destruct s as [ | x s1 ];
    try (cbn; split; discriminate); cbn [List.length] in Hn; [ lia | ].
  rewrite skipBlock_cons, fast_skipBlock_cons. unfold ParseFast.advance. cbv zeta.
  destruct s1 as [ | y s2 ]; [ cbn; split; discriminate | ].
  cbn [List.length] in *.
  destruct ((x =? 42) && (y =? 47)); [ destruct (0 <? d - 1) | ].
  - apply IH. lia.
  - reflexivity.
  - destruct ((x =? 47) && (y =? 42)); apply IH; cbn [List.length]; lia.
Qed.

Lemma skipWs_agree fuel :
  forall s p c,
    Lexer.skipWhitespaceAndComments fuel s p = Ok c
    <-> ParseFast.skipWs fuel s p = Ok c.
Proof.
  induction fuel as [ | fuel IH ]; intros s p c; [ cbn; split; discriminate | ].
  cbn [Lexer.skipWhitespaceAndComments ParseFast.skipWs]. unfold ParseFast.advance.
  destruct s as [ | x s1 ]; [ reflexivity | ].
  destruct (Lexer.isSpace x); [ apply IH | ].
  destruct (x =? 47); [ | reflexivity ].
  destruct s1 as [ | d s2 ]; [ reflexivity | ].
  destruct (d =? 47).
  { destruct (Lexer.skipLine s2 _) as [s3 p3]. apply IH. }
  destruct (d =? 42); [ | reflexivity ].
  pose proof (fun c' => skipBlock_agree _ s2 (Lexer.advance d (Lexer.advance x p)) 1
                          c' (le_n _)) as Hb.
  destruct (Lexer.skipBlock s2 _ 1) as [ [s3 p3] | e | ] eqn:E1.
  - rewrite (proj1 (Hb _) eq_refl). cbn [bind]. apply IH.
  - destruct (ParseFast.skipBlock s2 _ 1) as [ c' | e' | ] eqn:E2.
    + discriminate (proj2 (Hb c') eq_refl).
    + cbn. split; discriminate.
    + cbn. split; discriminate.
  - destruct (ParseFast.skipBlock s2 _ 1) as [ c' | e' | ] eqn:E2.
    + discriminate (proj2 (Hb c') eq_refl).
    + cbn. split; discriminate.
    + cbn. split; discriminate.
Qed.

Lemma readHex4_agree s p r :
  Lexer.readHex4 s p = Ok r -> ParseFast.readHex4 s p = Ok r.
Proof.
  unfold Lexer.readHex4, ParseFast.readHex4, Lexer.fail, ParseFast.fail,
    ParseFast.advance.
  cbn [fold_left].
  destruct s as [ | h0 [ | h1 [ | h2 [ | h3 t ] ] ] ]; cbn [nth_error bind];
    repeat match goal with
           | |- context [if isHex ?h then _ else _] => destruct (isHex h); cbn [bind]
           end;
    first [ discriminate | exact (fun H => H) ].
Qed.

Lemma readQuotedBody_agree fuel quote :
  forall s p buf r,
    Lexer.readQuotedBody fuel quote s p buf = Ok r ->
    ParseFast.readQuotedBody fuel quote s p buf = Ok r.
Proof.
  induction fuel as [ | fuel IH ]; intros s p buf r; [ discriminate | ].
  cbn [Lexer.readQuotedBody ParseFast.readQuotedBody]. unfold ParseFast.advance.
  destruct s as [ | c s1 ]; [ discriminate | ].
  destruct (c =? quote); [ exact (fun H => H) | ].
  destruct (c =? 92).
  - destruct s1 as [ | next s2 ]; [ discriminate | ].
    repeat match goal with
           | |- context [if next =? ?k then _ else _] =>
               destruct (next =? k); [ apply IH | ]
           end.
    destruct (next =? 117); [ | discriminate ].
    destruct (Lexer.readHex4 s2 _) as [ [[u n] p3] | e | ] eqn:E; cbn [bind];
      try discriminate.
    rewrite (readHex4_agree _ _ _ E). cbn [bind]. apply IH.
  - destruct ((0 <=? c) && (c <=? 31)); [ discriminate | apply IH ].
Qed.

(** X15 (lexer.ts [skipWhitespaceAndComments] and [readQuotedString];
    parser.ts [Reader.skipWs] and [Reader.readQuoted]): on what lies between
    tokens and on string literals, the single-pass reader does what the
    lexer does whenever the lexer succeeds.  The two skip white space and
    comments to the same cursor, each succeeding exactly when the other does;
    and a string literal that the lexer accepts is read by [readQuoted] as
    the same text, up to the same cursor. *)
Theorem reader_follows_lexer :
  (forall fuel s p c,
      Lexer.skipWhitespaceAndComments fuel s p = Ok c
      <-> ParseFast.skipWs fuel s p = Ok c)
  /\ (forall quote s p tok c,
         Lexer.readQuotedString quote s p = Ok (tok, c) ->
         Lexer.kind tok = TokenKind.String
         /\ ParseFast.readQuoted quote s p
            = Ok (Parser.asString (Lexer.value tok), c)).
Proof.
  split; [ intros fuel s p c; apply skipWs_agree | ].
  intros quote s p tok c. unfold Lexer.readQuotedString, ParseFast.readQuoted.
  destruct s as [ | q s1 ]; [ discriminate | ].
  destruct (Lexer.readQuotedBody _ quote s1 _ []) as [ [text [s2 p2]] | e | ] eqn:E;
    cbn [bind]; try discriminate.
  intros [= <- <-]. split; [ reflexivity | ].
  exact (readQuotedBody_agree _ _ _ _ _ _ E).
Qed.

Lemma reader_follows_lexer_witness :
  let s := lit "/* a /* b */ c */ // d" ++ [10] ++ lit " 'xA\n' rest" in
  exists c tok c',
    Lexer.skipWhitespaceAndComments 50 s (pos 1 1 0) = Ok c
    /\ ParseFast.skipWs 50 s (pos 1 1 0) = Ok c
    /\ Lexer.readQuotedString 39 (fst c) (snd c) = Ok (tok, c')
    /\ Lexer.value tok = Lexer.Str [120; 65; 10]
    /\ ParseFast.readQuoted 39 (fst c) (snd c) = Ok ([120; 65; 10], c').
Proof.
  intros s.
  destruct reader_follows_lexer as [Hskip Hquote].
  destruct (Lexer.skipWhitespaceAndComments 50 s (pos 1 1 0)) as [ c | | ] eqn:E;
    [ | vm_compute in E; discriminate E | vm_compute in E; discriminate E ].
  destruct (Lexer.readQuotedString 39 (fst c) (snd c)) as [ [tok c'] | | ] eqn:Eq;
    [ | vm_compute in E; injection E as <-; vm_compute in Eq; discriminate Eq
      | vm_compute in E; injection E as <-; vm_compute in Eq; discriminate Eq ].
  exists c, tok, c'.
  assert (Hv : Lexer.value tok = Lexer.Str [120; 65; 10]).
  { vm_compute in E. injection E as <-. vm_compute in Eq. injection Eq as <- _.
    reflexivity. }
  split; [ reflexivity | ]. split; [ exact (proj1 (Hskip _ _ _ _) E) | ].
  split; [ exact Eq | ]. split; [ exact Hv | ].
  destruct (Hquote _ _ _ _ _ Eq) as [_ H]. rewrite Hv in H. exact H.
Defined.

(** ** Strings written in quotes *)

Lemma replaceChar_app c rep a b :
  Stringify.replaceChar c rep (a ++ b)
  = Stringify.replaceChar c rep a ++ Stringify.replaceChar c rep b.
Proof. unfold Stringify.replaceChar. apply flat_map_app. Qed.

Lemma replaceChar_cons c rep x s :
  Stringify.replaceChar c rep (x :: s)
  = (if x =? c then rep else [x]) ++ Stringify.replaceChar c rep s.
Proof. reflexivity. Qed.

Ltac decide_chars :=
  repeat match goal with
         | |- context [?a =? ?b] => destruct (Z.eqb_spec a b); try lia
         | H : context [?a =? ?b] |- _ => destruct (Z.eqb_spec a b); try lia
         end.

Lemma isWord_quote_backslash c : c = 92 \/ c = 34 -> isWord c = false.
Proof. intros [-> | ->]; reflexivity. Qed.

Lemma outer_passes_app a b :
  Stringify.replaceChar 9 (lit "\t")
    (Stringify.replaceChar 13 (lit "\r")
      (Stringify.replaceChar 10 (lit "\n")
        (Stringify.replaceChar 12 (lit "\f") (a ++ b))))
  = Stringify.replaceChar 9 (lit "\t")
      (Stringify.replaceChar 13 (lit "\r")
        (Stringify.replaceChar 10 (lit "\n")
          (Stringify.replaceChar 12 (lit "\f") a)))
    ++ Stringify.replaceChar 9 (lit "\t")
         (Stringify.replaceChar 13 (lit "\r")
           (Stringify.replaceChar 10 (lit "\n")
             (Stringify.replaceChar 12 (lit "\f") b))).
Proof. now rewrite !replaceChar_app. Qed.

Lemma outer_passes_char c :
  c <> 92 -> c <> 34 ->
  Stringify.replaceChar 9 (lit "\t")
    (Stringify.replaceChar 13 (lit "\r")
      (Stringify.replaceChar 10 (lit "\n")
        (Stringify.replaceChar 12 (lit "\f") [c])))
  = escapeChar c.
Proof.
  intros H92 H34. unfold escapeChar.
  rewrite (proj2 (Z.eqb_neq c 92) H92), (proj2 (Z.eqb_neq c 34) H34).
  destruct (Z.eqb_spec c 12) as [-> | H12]; [ reflexivity | ].
  destruct (Z.eqb_spec c 10) as [-> | H10]; [ reflexivity | ].
  destruct (Z.eqb_spec c 13) as [-> | H13]; [ reflexivity | ].
  destruct (Z.eqb_spec c 9) as [-> | H9]; [ reflexivity | ].
  unfold Stringify.replaceChar. cbn [flat_map app].
  rewrite (proj2 (Z.eqb_neq c 12) H12). cbn [flat_map app].
  rewrite (proj2 (Z.eqb_neq c 10) H10). cbn [flat_map app].
  rewrite (proj2 (Z.eqb_neq c 13) H13). cbn [flat_map app].
  rewrite (proj2 (Z.eqb_neq c 9) H9). reflexivity.
Qed.

(** The seven passes of [escapeDouble] amount to one pass. *)
Lemma escapeDouble_escaped_from prevWord s :
  Stringify.replaceChar 9 (lit "\t")
    (Stringify.replaceChar 13 (lit "\r")
      (Stringify.replaceChar 10 (lit "\n")
        (Stringify.replaceChar 12 (lit "\f")
          (Stringify.replaceWordBoundary (lit "\b") prevWord
            (Stringify.replaceChar 34 [92; 34]
              (Stringify.replaceChar 92 (lit "\\") s))))))
  = escaped prevWord s.
Proof.
  revert prevWord. induction s as [ | c s IH ]; intros prevWord.
  - cbn. destruct prevWord; reflexivity.
  - cbn [escaped]. rewrite <- IH. clear IH.
    rewrite (replaceChar_cons 92).
    destruct (Z.eqb_spec c 92) as [-> | H92].
    + change (isWord 92) with false. rewrite xorb_false_r.
      change (lit "\\" ++ ?x) with (92 :: 92 :: x).
      rewrite !(replaceChar_cons 34). cbn [Z.eqb Pos.eqb app].
      cbn [Stringify.replaceWordBoundary]. change (isWord 92) with false.
      rewrite xorb_false_r. cbn [xorb app].
      change (?a ++ 92 :: 92 :: ?r) with (a ++ [92; 92] ++ r).
      rewrite !outer_passes_app. destruct prevWord; reflexivity.
    + cbn [app]. rewrite (replaceChar_cons 34).
      destruct (Z.eqb_spec c 34) as [-> | H34].
      * change (isWord 34) with false. rewrite xorb_false_r.
        cbn [app Stringify.replaceWordBoundary]. change (isWord 34) with false.
        change (isWord 92) with false.
        rewrite xorb_false_r. cbn [xorb app].
        change (?a ++ 92 :: 34 :: ?r) with (a ++ [92; 34] ++ r).
        rewrite !outer_passes_app. destruct prevWord; reflexivity.
      * cbn [app Stringify.replaceWordBoundary].
        change (?a ++ c :: ?r) with (a ++ [c] ++ r).
        rewrite !outer_passes_app, (outer_passes_char c H92 H34).
        destruct (xorb prevWord (isWord c)); reflexivity.
Qed.

Lemma escapeDouble_escaped s : Stringify.escapeDouble s = escaped false s.
Proof. apply escapeDouble_escaped_from. Qed.

Lemma writable_cases c :
  writable c = true -> 32 <= c \/ c = 9 \/ c = 10 \/ c = 12 \/ c = 13.
Proof.
  unfold writable. rewrite !orb_true_iff, Z.leb_le, !Z.eqb_eq. tauto.
Qed.

(** One step of the lexer on what is written for one character. *)
Lemma readQuotedBody_escapeChar fuel c t p buf :
  writable c = true ->
  exists p',
    Lexer.readQuotedBody (Datatypes.S fuel) 34 (escapeChar c ++ t) p buf
    = Lexer.readQuotedBody fuel 34 t p' (buf ++ [c]).
Proof.
  intros Hw. apply writable_cases in Hw. unfold escapeChar.
  destruct (Z.eqb_spec c 92) as [-> | H92]; [ eexists; reflexivity | ].
  destruct (Z.eqb_spec c 34) as [-> | H34]; [ eexists; reflexivity | ].
  destruct (Z.eqb_spec c 12) as [-> | H12]; [ eexists; reflexivity | ].
  destruct (Z.eqb_spec c 10) as [-> | H10]; [ eexists; reflexivity | ].
  destruct (Z.eqb_spec c 13) as [-> | H13]; [ eexists; reflexivity | ].
  destruct (Z.eqb_spec c 9) as [-> | H9]; [ eexists; reflexivity | ].
  eexists. cbn [app Lexer.readQuotedBody].
  rewrite (proj2 (Z.eqb_neq c 34) H34), (proj2 (Z.eqb_neq c 92) H92).
  destruct (Z.leb_spec 0 c), (Z.leb_spec c 31); cbn [andb]; try reflexivity.
  exfalso. lia.
Qed.

(** The lexer reads what [escapeDouble] wrote: the characters of the string,
    and a backspace for every [\b] written at a word boundary. *)
Lemma readQuotedBody_escaped s :
  Forall (fun c => writable c = true) s ->
  forall prevWord fuel rest p buf,
    (List.length (escaped prevWord s) < fuel)%nat ->
    exists p',
      Lexer.readQuotedBody fuel 34 (escaped prevWord s ++ 34 :: rest) p buf
      = Ok (buf ++ Stringify.replaceWordBoundary [8] prevWord s, (rest, p')).
Proof.
  induction 1 as [ | c s Hc Hs IH ]; intros prevWord fuel rest p buf Hfuel.
  - cbn [escaped Stringify.replaceWordBoundary] in *.
    destruct prevWord; cbn [List.length] in Hfuel.
    + destruct fuel as [ | [ | fuel ] ]; try lia. eexists. reflexivity.
    + destruct fuel as [ | fuel ]; try lia. eexists. cbn. now rewrite app_nil_r.
  - cbn [escaped Stringify.replaceWordBoundary] in *.
    rewrite !length_app in Hfuel.
    assert (Hstep : forall fuel' p' buf',
               (List.length (escapeChar c) + List.length (escaped (isWord c) s)
                < fuel')%nat ->
               exists p'',
                 Lexer.readQuotedBody fuel' 34
                   (escapeChar c ++ escaped (isWord c) s ++ 34 :: rest) p' buf'
                 = Ok (buf' ++ c :: Stringify.replaceWordBoundary [8] (isWord c) s,
                       (rest, p''))).
    { intros fuel' p' buf' Hf. destruct fuel' as [ | fuel' ]; [ lia | ].
      destruct (readQuotedBody_escapeChar fuel' c
                  (escaped (isWord c) s ++ 34 :: rest) p' buf' Hc) as (q & ->).
      assert (Hlen : (1 <= List.length (escapeChar c))%nat).
      { unfold escapeChar. repeat destruct (_ =? _); cbn; lia. }
      destruct (IH (isWord c) fuel' rest q (buf' ++ [c]) ltac:(lia)) as (q' & ->).
      exists q'. now rewrite <- app_assoc. }
    destruct (xorb prevWord (isWord c)).
    + cbn [List.length app] in Hfuel. destruct fuel as [ | fuel ]; [ lia | ].
      rewrite <- !app_assoc. cbn [app Lexer.readQuotedBody Z.eqb Pos.eqb].
      destruct (Hstep fuel (Lexer.advance 98 (Lexer.advance 92 p)) (buf ++ [8])
                  ltac:(lia)) as (q & ->).
      exists q. now rewrite <- app_assoc.
    + cbn [List.length app] in Hfuel. cbn [app].
      rewrite <- app_assoc. apply Hstep. lia.
Qed.

Lemma escaped_head prevWord s t :
  exists c r, escaped prevWord s ++ 34 :: t = c :: r.
Proof. destruct (escaped prevWord s) as [ | c r ]; cbn; eauto. Qed.

(** A string literal written by [quoteValueString] or [quoteKey], at the head
    of a text, is one [String] token. *)
Lemma readQuotedString_escaped s rest p :
  Forall (fun c => writable c = true) s ->
  exists p',
    Lexer.readQuotedString 34 (34 :: Stringify.escapeDouble s ++ 34 :: rest) p
    = Ok ({| Lexer.kind := TokenKind.String; Lexer.value := Lexer.Str (withBackspaces s);
             Lexer.start := p; Lexer.end_ := p' |}, (rest, p')).
Proof.
  intros Hs. unfold Lexer.readQuotedString. rewrite escapeDouble_escaped.
  destruct (readQuotedBody_escaped s Hs false
              (List.length (escaped false s ++ 34 :: rest) + 1)
              rest (Lexer.advance 34 p) [])
    as (p' & ->).
  { rewrite length_app. lia. }
  exists p'. reflexivity.
Qed.

(** Without a word character nothing is inserted. *)
Lemma withBackspaces_wordless s :
  Forall (fun c => isWord c = false) s -> withBackspaces s = s.
Proof.
  unfold withBackspaces. induction 1 as [ | c s Hc Hs IH ]; [ reflexivity | ].
  cbn [Stringify.replaceWordBoundary]. rewrite Hc. cbn [xorb app]. now rewrite IH.
Qed.

Lemma replaceWordBoundary_length prevWord s :
  len s <= len (Stringify.replaceWordBoundary [8] prevWord s)
  /\ (prevWord = true \/ Exists (fun c => isWord c = true) s ->
      len s < len (Stringify.replaceWordBoundary [8] prevWord s)).
Proof.
  revert prevWord. induction s as [ | c s IH ]; intros prevWord.
  - cbn [Stringify.replaceWordBoundary]. split; [ destruct prevWord; cbn; lia | ].
    intros [ -> | H ]; [ cbn; lia | inversion H ].
  - cbn [Stringify.replaceWordBoundary]. rewrite len_app, !len_cons.
    destruct (IH (isWord c)) as [IH1 IH2].
    assert (Hrep : 0 <= len (if xorb prevWord (isWord c) then [8] else []))
      by apply len_nonneg.
    split; [ lia | ].
    intros Hex.
    destruct (isWord c) eqn:Ec.
    + specialize (IH2 (or_introl eq_refl)). lia.
    + destruct Hex as [ -> | Hex ]; [ cbn [xorb]; rewrite len_cons, len_nil; lia | ].
      inversion Hex as [ ? ? Hc | ? ? Hr ]; subst; [ congruence | ].
      specialize (IH2 (or_intror Hr)). lia.
Qed.

(** With one, the string read back is longer than the string written. *)
Lemma withBackspaces_longer s :
  Exists (fun c => isWord c = true) s -> withBackspaces s <> s.
Proof.
  intros H E. pose proof (proj2 (replaceWordBoundary_length false s) (or_intror H)) as L.
  unfold withBackspaces in E. rewrite E in L. lia.
Qed.

(** ** The lexer reads a prefix of its input *)

Lemma advanceAll_app a b p :
  Lexer.advanceAll (a ++ b) p = Lexer.advanceAll b (Lexer.advanceAll a p).
Proof. unfold Lexer.advanceAll. apply fold_left_app. Qed.

Lemma advances_refl s p : advances s p s p.
Proof. exists []. auto. Qed.

Lemma advances_trans s p s1 p1 s2 p2 :
  advances s p s1 p1 -> advances s1 p1 s2 p2 -> advances s p s2 p2.
Proof.
  intros (a & -> & ->) (b & -> & ->). exists (a ++ b).
  now rewrite <- app_assoc, advanceAll_app.
Qed.

Lemma advances_cons c s p : advances (c :: s) p s (Lexer.advance c p).
Proof. exists [c]. auto. Qed.

Lemma advances_cons2 c d s p :
  advances (c :: d :: s) p s (Lexer.advance d (Lexer.advance c p)).
Proof. exists [c; d]. auto. Qed.

Lemma advances_dropWhile f s p :
  advances s p (dropWhile f s) (Lexer.advanceAll (takeWhile f s) p).
Proof.
  exists (takeWhile f s). split; [ | reflexivity ].
  induction s as [ | x s IH ]; cbn [takeWhile dropWhile]; [ reflexivity | ].
  destruct (f x); [ cbn [app]; now rewrite <- IH | reflexivity ].
Qed.

Lemma advances_offset text read s p :
  text = read ++ s -> p = Lexer.advanceAll read (pos 1 1 0) ->
  skipn (Z.to_nat (offset p)) text = s.
Proof.
  intros -> ->. destruct (advanceAll_facts read (pos 1 1 0)) as (-> & _).
  cbn [offset]. unfold len. rewrite Z.add_0_l, Nat2Z.id.
  rewrite skipn_app, skipn_all, Nat.sub_diag. reflexivity.
Qed.

Lemma skipLine_advances s :
  forall p, advances s p (fst (Lexer.skipLine s p)) (snd (Lexer.skipLine s p)).
Proof.
  induction s as [ | c s IH ]; intros p; cbn [Lexer.skipLine];
    [ apply advances_refl | ].
  destruct (c =? 10); [ apply advances_refl | ].
  eapply advances_trans; [ apply advances_cons | apply IH ].
Qed.

Lemma skipBlock_advances n :
  forall s p d s' p',
    (List.length s <= n)%nat ->
    Lexer.skipBlock s p d = Ok (s', p') -> advances s p s' p'.
Proof.
  induction n as [ | n IH ]; intros s p d s' p' Hn; destruct s as [ | x s1 ];
    try discriminate; cbn [List.length] in Hn; [ lia | ].
  rewrite skipBlock_cons. cbv zeta.
  destruct s1 as [ | y s2 ].
  - intros H. eapply advances_trans; [ apply advances_cons | ].
    apply (IH [] _ _ _ _ ltac:(cbn [List.length]; lia) H).
  - cbn [List.length] in Hn.
    destruct ((x =? 42) && (y =? 47)).
    + destruct (0 <? d - 1).
      * intros H. eapply advances_trans; [ apply advances_cons2 | ].
        apply (IH s2 _ _ _ _ ltac:(lia) H).
      * intros [= <- <-]. apply advances_cons2.
    + destruct ((x =? 47) && (y =? 42)).
      * intros H. eapply advances_trans; [ apply advances_cons2 | ].
        apply (IH s2 _ _ _ _ ltac:(lia) H).
      * intros H. eapply advances_trans; [ apply advances_cons | ].
        apply (IH (y :: s2) _ _ _ _ ltac:(cbn [List.length]; lia) H).
Qed.

Lemma skipWhitespaceAndComments_advances fuel :
  forall s p s' p',
    Lexer.skipWhitespaceAndComments fuel s p = Ok (s', p') -> advances s p s' p'.
Proof.
  induction fuel as [ | fuel IH ]; intros s p s' p'; [ discriminate | ].
  cbn [Lexer.skipWhitespaceAndComments].
  destruct s as [ | c s1 ]; [ intros [= <- <-]; apply advances_refl | ].
  destruct (Lexer.isSpace c).
  { intros H. eapply advances_trans; [ apply advances_cons | now apply IH ]. }
  destruct (c =? 47); [ | intros [= <- <-]; apply advances_refl ].
  destruct s1 as [ | d s2 ]; [ intros [= <- <-]; apply advances_refl | ].
  destruct (d =? 47).
  { pose proof (skipLine_advances s2 (Lexer.advance d (Lexer.advance c p))) as Hl.
    destruct (Lexer.skipLine s2 _) as [s3 p3]. cbn [fst snd] in Hl.
    intros H. eapply advances_trans; [ apply advances_cons2 | ].
    eapply advances_trans; [ exact Hl | now apply IH ]. }
  destruct (d =? 42); [ | intros [= <- <-]; apply advances_refl ].
  destruct (Lexer.skipBlock s2 _ 1) as [ [s3 p3] | | ] eqn:Eb; cbn [bind];
    try discriminate.
  intros H. eapply advances_trans; [ apply advances_cons2 | ].
  eapply advances_trans;
    [ exact (skipBlock_advances _ _ _ _ _ _ (Nat.le_refl _) Eb) | now apply IH ].
Qed.

Lemma readHex4_advances s p u n p3 :
  Lexer.readHex4 s p = Ok (u, n, p3) -> advances s p (skipn n s) p3.
Proof.
  unfold Lexer.readHex4, Lexer.fail. cbn [fold_left].
  destruct s as [ | h0 [ | h1 [ | h2 [ | h3 t ] ] ] ]; cbn [nth_error bind];
    repeat match goal with
           | |- context [if isHex ?h then _ else _] => destruct (isHex h); cbn [bind]
           end; try discriminate.
  intros [= <- <- <-]. exists [h0; h1; h2; h3]. auto.
Qed.

Lemma readQuotedBody_advances fuel quote :
  forall s p buf text s' p',
    Lexer.readQuotedBody fuel quote s p buf = Ok (text, (s', p')) ->
    advances s p s' p'.
Proof.
  induction fuel as [ | fuel IH ]; intros s p buf text s' p'; [ discriminate | ].
  cbn [Lexer.readQuotedBody]. unfold Lexer.fail.
  destruct s as [ | c s1 ]; [ discriminate | ].
  destruct (c =? quote); [ intros [= <- <- <-]; apply advances_cons | ].
  destruct (c =? 92).
  - destruct s1 as [ | next s2 ]; [ discriminate | ].
    repeat match goal with
           | |- (if ?b then _ else _) = _ -> _ =>
               destruct b;
               [ intros H; eapply advances_trans;
                 [ apply advances_cons2 | exact (IH _ _ _ _ _ _ H) ] | ]
           end.
    destruct (next =? 117); [ | discriminate ].
    destruct (Lexer.readHex4 s2 _) as [ [[u n] p3] | | ] eqn:Eh; cbn [bind];
      try discriminate.
    intros H. eapply advances_trans; [ apply advances_cons2 | ].
    eapply advances_trans; [ exact (readHex4_advances _ _ _ _ _ Eh) | ].
    exact (IH _ _ _ _ _ _ H).
  - destruct ((0 <=? c) && (c <=? 31)); [ discriminate | ].
    intros H. eapply advances_trans; [ apply advances_cons | exact (IH _ _ _ _ _ _ H) ].
Qed.

Lemma readQuotedString_advances quote s p tok s' p' :
  Lexer.readQuotedString quote s p = Ok (tok, (s', p')) -> advances s p s' p'.
Proof.
  unfold Lexer.readQuotedString. destruct s as [ | q s1 ]; [ discriminate | ].
  destruct (Lexer.readQuotedBody _ quote s1 _ []) as [ [text [s2 p2]] | | ] eqn:E;
    cbn [bind]; try discriminate.
  intros [= <- <- <-]. eapply advances_trans; [ apply advances_cons | ].
  exact (readQuotedBody_advances _ _ _ _ _ _ _ _ E).
Qed.

Lemma readIdentifierOrKeyword_advances s p tok s' p' :
  Lexer.readIdentifierOrKeyword s p = Ok (tok, (s', p')) -> advances s p s' p'.
Proof.
  unfold Lexer.readIdentifierOrKeyword, Lexer.fail.
  destruct s as [ | first s1 ]; [ discriminate | ].
  destruct (negb (isWord first) && negb (first =? 95)); [ discriminate | ].
  cbv zeta. rewrite advanceAll_cons.
  assert (H : advances (first :: s1) p (dropWhile isWordOrDash s1)
                (Lexer.advanceAll (takeWhile isWordOrDash s1) (Lexer.advance first p))).
  { eapply advances_trans; [ apply advances_cons | apply advances_dropWhile ]. }
  repeat destruct (str_eqb _ _); intros [= <- <- <-]; exact H.
Qed.

Lemma readNumberTail_advances start buf s p tok s' p' :
  Lexer.readNumberTail start buf s p = Ok (tok, (s', p')) -> advances s p s' p'.
Proof.
  unfold Lexer.readNumberTail, Lexer.fail.
  match goal with
  | |- (match ?frac with _ => _ end) = _ -> _ =>
      assert (Hfrac : advances s p (snd (fst frac)) (snd frac));
      [ | destruct frac as [[[isFloat1 buf1] s1] p1] ]
  end.
  { destruct s as [ | c r ]; cbn [fst snd]; [ apply advances_refl | ].
    destruct (c =? 46); cbn [fst snd]; [ | apply advances_refl ].
    rewrite advanceAll_cons.
    eapply advances_trans; [ apply advances_cons | apply advances_dropWhile ]. }
  cbn [fst snd] in Hfrac.
  match goal with
  | |- (bind ?e _) = _ -> _ =>
      assert (Hexp : forall x s2 p2, e = Ok (x, s2, p2) -> advances s1 p1 s2 p2);
      [ | destruct e as [ [[[isFloat raw] s2] p2] | err | ]; cbn [bind];
          try discriminate ]
  end.
  { destruct s1 as [ | c r ]; [ intros x s2 p2 [= _ <- <-]; apply advances_refl | ].
    destruct ((c =? 101) || (c =? 69));
      [ | intros x s2 p2 [= _ <- <-]; apply advances_refl ].
    cbv zeta.
    match goal with
    | |- context [match ?sign with (_, _) => _ end] =>
        assert (Hsign : advances (c :: r) p1 (snd (fst sign)) (snd sign));
        [ | destruct sign as [[sg r1] pg] ]
    end.
    { destruct r as [ | g r' ]; cbn [fst snd]; [ apply advances_cons | ].
      destruct ((g =? 43) || (g =? 45)); cbn [fst snd];
        [ apply advances_cons2 | apply advances_cons ]. }
    cbn [fst snd] in Hsign.
    pose proof (advances_dropWhile isDigit r1 pg) as Hd.
    destruct (takeWhile isDigit r1); [ discriminate | ].
    intros x s2 p2 [= _ <- <-]. exact (advances_trans _ _ _ _ _ _ Hsign Hd). }
  specialize (Hexp _ _ _ eq_refl).
  pose proof (advances_trans _ _ _ _ _ _ Hfrac Hexp) as H.
  destruct isFloat.
  - destruct (isNaN _); [ discriminate | ]. intros [= <- <- <-]. exact H.
  - destruct (_ || _); [ discriminate | ]. intros [= <- <- <-]. exact H.
Qed.

Lemma readNumberTail_start start buf s p tok c :
  Lexer.readNumberTail start buf s p = Ok (tok, c) -> Lexer.start tok = start.
Proof.
  unfold Lexer.readNumberTail.
  match goal with
  | |- (match ?frac with _ => _ end) = _ -> _ =>
      destruct frac as [[[isFloat1 buf1] s1] p1]
  end.
  match goal with
  | |- (bind ?e _) = _ -> _ =>
      destruct e as [ [[[isFloat raw] s2] p2] | err | ]; cbn [bind]; try discriminate
  end.
  destruct isFloat.
  - destruct (isNaN _); [ discriminate | ]. now intros [= <- <-].
  - destruct (_ || _); [ discriminate | ]. now intros [= <- <-].
Qed.

Lemma readNumber_advances s p tok s' p' :
  Lexer.readNumber s p = Ok (tok, (s', p')) ->
  advances s p s' p' /\ Lexer.start tok = p.
Proof.
  unfold Lexer.readNumber, Lexer.fail. cbv zeta.
  match goal with
  | |- (match ?sign with _ => _ end) = _ -> _ =>
      assert (Hsign : advances s p (snd (fst sign)) (snd sign));
      [ | destruct sign as [[buf s0] p0] ]
  end.
  { destruct s as [ | c r ]; cbn [fst snd]; [ apply advances_refl | ].
    destruct (c =? 45); cbn [fst snd]; [ apply advances_cons | apply advances_refl ]. }
  cbn [fst snd] in Hsign.
  destruct s0 as [ | c s1 ]; [ discriminate | ].
  pose proof (advances_trans _ _ _ _ _ _ Hsign (advances_cons c s1 p0)) as Hc.
  destruct (c =? 48).
  { destruct s1 as [ | d s2 ]; [ intros [= <- <- <-]; auto | ].
    destruct ((d =? 46) || (d =? 101) || (d =? 69)).
    - intros H. split; [ | exact (readNumberTail_start _ _ _ _ _ _ H) ].
      eapply advances_trans; [ exact Hc | exact (readNumberTail_advances _ _ _ _ _ _ _ H) ].
    - destruct ((49 <=? d) && (d <=? 57)); [ discriminate | ].
      intros [= <- <- <-]. auto. }
  destruct ((49 <=? c) && (c <=? 57)).
  { intros H. split; [ | exact (readNumberTail_start _ _ _ _ _ _ H) ].
    eapply advances_trans; [ exact Hsign | ].
    eapply advances_trans; [ apply (advances_dropWhile isDigit) | ].
    exact (readNumberTail_advances _ _ _ _ _ _ _ H). }
  destruct (c =? 46); [ | discriminate ].
  pose proof (advances_dropWhile isDigit s1 (Lexer.advance c p0)) as Hd.
  destruct (takeWhile isDigit s1); [ discriminate | ].
  destruct (isNaN _); [ discriminate | ].
  intros [= <- <- <-]. split; [ | reflexivity ].
  exact (advances_trans _ _ _ _ _ _ Hc Hd).
Qed.

(** ** Lexing the text of a value *)

Lemma takeWhile_app_delimited {A} (f : A -> bool) more rest :
  forallb f more = true -> takeWhile f rest = [] ->
  takeWhile f (more ++ rest) = more /\ dropWhile f (more ++ rest) = rest.
Proof.
  intros Hm Hr. induction more as [ | x more IH ]; cbn [app takeWhile dropWhile].
  - split; [ exact Hr | ].
    destruct rest as [ | y rest ]; [ reflexivity | ].
    cbn [takeWhile dropWhile] in *. destruct (f y); [ discriminate | reflexivity ].
  - cbn [forallb] in Hm. apply andb_true_iff in Hm as [-> Hm].
    destruct (IH Hm) as [-> ->]. auto.
Qed.

Lemma skip_here n c s p :
  Lexer.isSpace c = false -> c <> 47 ->
  Lexer.skipWhitespaceAndComments (Datatypes.S n) (c :: s) p = Ok (c :: s, p).
Proof.
  intros Hs H47. cbn [Lexer.skipWhitespaceAndComments].
  now rewrite Hs, (proj2 (Z.eqb_neq c 47) H47).
Qed.

Lemma tokenizeLoop_space fuel c s p acc :
  Lexer.isSpace c = true ->
  Lexer.tokenizeLoop (Datatypes.S fuel) (c :: s) p acc
  = Lexer.tokenizeLoop (Datatypes.S fuel) s (Lexer.advance c p) acc.
Proof.
  intros Hc. cbn [Lexer.tokenizeLoop].
  replace (List.length (c :: s) + 1)%nat with (Datatypes.S (List.length s + 1))
    by (cbn [List.length]; lia).
  cbn [Lexer.skipWhitespaceAndComments]. now rewrite Hc.
Qed.

Lemma tokenizeLoop_end fuel p acc :
  Lexer.tokenizeLoop (Datatypes.S fuel) [] p acc
  = Ok (acc ++ [{| Lexer.kind := TokenKind.Eof; Lexer.value := Lexer.NoValue;
                   Lexer.start := p; Lexer.end_ := p |}]).
Proof. reflexivity. Qed.

Lemma tokenizeLoop_punctuation fuel c k rest p acc :
  (c, k) = (123, TokenKind.LBrace) \/ (c, k) = (125, TokenKind.RBrace)
  \/ (c, k) = (91, TokenKind.LBracket) \/ (c, k) = (93, TokenKind.RBracket)
  \/ (c, k) = (58, TokenKind.Colon) ->
  Lexer.tokenizeLoop (Datatypes.S fuel) (c :: rest) p acc
  = Lexer.tokenizeLoop fuel rest (Lexer.advance c p)
      (acc ++ [Lexer.punctuation k c p]).
Proof.
  intros H. cbn [Lexer.tokenizeLoop].
  replace (List.length (c :: rest) + 1)%nat
    with (Datatypes.S (List.length (c :: rest))) by lia.
  destruct H as [ [= -> ->] | [ [= -> ->] | [ [= -> ->] | [ [= -> ->] | [= -> ->] ] ] ] ];
    (rewrite skip_here by (try reflexivity; lia)); reflexivity.
Qed.

Lemma tokenizeLoop_quoted fuel s rest p :
  Forall (fun c => writable c = true) s ->
  exists tok,
    erase tok = (TokenKind.String, Lexer.Str (withBackspaces s))
    /\ forall acc,
         Lexer.tokenizeLoop (Datatypes.S fuel)
           (34 :: Stringify.escapeDouble s ++ 34 :: rest) p acc
         = Lexer.tokenizeLoop fuel rest
             (Lexer.advanceAll (34 :: Stringify.escapeDouble s ++ [34]) p)
             (acc ++ [tok]).
Proof.
  intros Hs. destruct (readQuotedString_escaped s rest p Hs) as (p' & E).
  assert (Hp : p' = Lexer.advanceAll (34 :: Stringify.escapeDouble s ++ [34]) p).
  { destruct (readQuotedString_advances _ _ _ _ _ _ E) as (read & Hread & ->).
    f_equal.
    change (34 :: Stringify.escapeDouble s ++ 34 :: rest)
      with ((34 :: Stringify.escapeDouble s) ++ [34] ++ rest) in Hread.
    rewrite app_assoc in Hread. apply app_inv_tail in Hread. now subst read. }
  rewrite <- Hp.
  eexists. split; [ | intros acc; cbn [Lexer.tokenizeLoop] ].
  2: { replace (List.length (34%Z :: Stringify.escapeDouble s ++ 34%Z :: rest) + 1)%nat
         with (Datatypes.S (List.length (34%Z :: Stringify.escapeDouble s ++ 34%Z :: rest)))
         by lia.
       rewrite skip_here by (try reflexivity; lia). cbn [bind].
       cbv zeta. cbn [Z.eqb Pos.eqb orb]. rewrite E. cbn [bind]. reflexivity. }
  reflexivity.
Qed.

(** The token of a word: a keyword or an identifier. *)
Lemma tokenizeLoop_word fuel first more rest p :
  isAlpha_ first = true -> forallb isWordOrDash more = true ->
  takeWhile isWordOrDash rest = [] ->
  exists tok,
    erase tok
    = (if str_eqb (first :: more) (lit "true") then (TokenKind.True, Lexer.NoValue)
       else if str_eqb (first :: more) (lit "false") then (TokenKind.False, Lexer.NoValue)
       else if str_eqb (first :: more) (lit "null") then (TokenKind.Null, Lexer.NoValue)
       else (TokenKind.Identifier, Lexer.Str (first :: more)))
    /\ forall acc,
         Lexer.tokenizeLoop (Datatypes.S fuel) (first :: more ++ rest) p acc
         = Lexer.tokenizeLoop fuel rest (Lexer.advanceAll (first :: more) p)
             (acc ++ [tok]).
Proof.
  intros Ha Hm Hr.
  destruct (alpha_dispatch first Ha)
    as (Hs & H47 & H123 & H125 & H91 & H93 & H58 & H44 & H34 & H39 & H45 & Hd & Hl & Hw).
  destruct (takeWhile_app_delimited isWordOrDash more rest Hm Hr) as [Ht Hdr].
  assert (E : exists tok,
             Lexer.readIdentifierOrKeyword (first :: more ++ rest) p
             = Ok (tok, (rest, Lexer.advanceAll (first :: more) p))
             /\ erase tok
                = (if str_eqb (first :: more) (lit "true")
                   then (TokenKind.True, Lexer.NoValue)
                   else if str_eqb (first :: more) (lit "false")
                   then (TokenKind.False, Lexer.NoValue)
                   else if str_eqb (first :: more) (lit "null")
                   then (TokenKind.Null, Lexer.NoValue)
                   else (TokenKind.Identifier, Lexer.Str (first :: more)))).
  { unfold Lexer.readIdentifierOrKeyword. rewrite Hw. cbn [negb andb]. cbv zeta.
    rewrite Ht, Hdr.
    destruct (str_eqb (first :: more) (lit "true")); [ eexists; split; reflexivity | ].
    destruct (str_eqb (first :: more) (lit "false")); [ eexists; split; reflexivity | ].
    destruct (str_eqb (first :: more) (lit "null")); eexists; split; reflexivity. }
  destruct E as (tok & E & Htok).
  exists tok. split; [ exact Htok | ].
  intros acc. cbn [Lexer.tokenizeLoop].
  replace (List.length (first :: more ++ rest) + 1)%nat
    with (Datatypes.S (List.length (first :: more ++ rest))) by lia.
  rewrite skip_here by (try assumption; apply Z.eqb_neq; assumption).
  cbn [bind]. cbv zeta.
  rewrite H123, H125, H91, H93, H58, H44, H34, H39, H45, Hd, Hl. cbn [orb].
  rewrite E. reflexivity.
Qed.

(** *** Integer literals *)

Lemma continues_word rest :
  takeWhile continues rest = [] -> takeWhile isWordOrDash rest = [].
Proof.
  destruct rest as [ | c rest ]; [ reflexivity | ]. cbn [takeWhile]. unfold continues.
  destruct (isWordOrDash c); [ discriminate | reflexivity ].
Qed.

(** What may follow a number without being read as a part of it. *)
Lemma continues_head rest :
  takeWhile continues rest = [] ->
  takeWhile isDigit rest = []
  /\ match rest with
     | c :: _ =>
         (c =? 46) = false /\ (c =? 101) = false /\ (c =? 69) = false
         /\ isDigit c = false
     | [] => True
     end.
Proof.
  destruct rest as [ | c rest ]; [ auto | ]. cbn [takeWhile].
  destruct (continues c) eqn:E; [ discriminate | ]. intros _.
  unfold continues, isWordOrDash, isWord, isAlpha_, isLower, isUpper in E.
  assert (Hd : isDigit c = false) by (destruct (isDigit c); [ now rewrite !orb_true_r in E | reflexivity ]).
  rewrite Hd. rewrite !orb_false_iff, !andb_false_iff, !Z.leb_gt, !Z.eqb_neq in E.
  split; [ reflexivity | ].
  repeat split; try (apply Z.eqb_neq; lia).
Qed.

Lemma signed_from_one_other d s : d <> 45 -> signed_from_one (d :: s).
Proof.
  intros H45. unfold signed_from_one.
  destruct d as [ | q | q ]; try exact I.
  do 6 (destruct q as [ q | q | ]; try exact I); congruence.
Qed.

Lemma readNumberTail_integer start buf rest p :
  takeWhile continues rest = [] ->
  Lexer.readNumberTail start buf rest p
  = if isNaN (parseInt buf) || Lexer.outOfSafeRange (parseInt buf)
    then Lexer.fail [T "Integer out of range"] p
    else Ok ({| Lexer.kind := TokenKind.Integer; Lexer.value := Lexer.Num (parseInt buf);
                Lexer.start := start; Lexer.end_ := p |}, (rest, p)).
Proof.
  intros Hr. destruct (continues_head rest Hr) as [_ Hc].
  unfold Lexer.readNumberTail. destruct rest as [ | c rest ]; [ reflexivity | ].
  destruct Hc as (-> & -> & -> & _). reflexivity.
Qed.

(** The tests that send the lexer to the number reader. *)
Lemma number_dispatch c :
  c = 45 \/ 48 <= c <= 57 ->
  Lexer.isSpace c = false
  /\ c <> 47 /\ (c =? 123) = false /\ (c =? 125) = false
  /\ (c =? 91) = false /\ (c =? 93) = false /\ (c =? 58) = false
  /\ (c =? 44) = false /\ (c =? 34) = false /\ (c =? 39) = false
  /\ (c =? 45) || isDigit c = true.
Proof.
  intros Hc.
  assert (Hs : Lexer.isSpace c = false).
  { unfold Lexer.isSpace. rewrite !eqb_false_of by lia. reflexivity. }
  repeat split; try (apply eqb_false_of; lia); try assumption; try lia.
  destruct Hc as [-> | Hc]; [ reflexivity | ].
  unfold isDigit. destruct (Z.leb_spec 48 c), (Z.leb_spec c 57); try lia.
  all: apply orb_true_r.
Qed.

(** The lexer reads the text of a safe integer as that integer. *)
Lemma readNumber_integer z rest p :
  MIN_SAFE_INTEGER <= z <= MAX_SAFE_INTEGER ->
  takeWhile continues rest = [] ->
  Lexer.readNumber (Stringify.writeNumber (ofZ z) ++ rest) p
  = Ok ({| Lexer.kind := TokenKind.Integer; Lexer.value := Lexer.Num (ofZ z);
           Lexer.start := p;
           Lexer.end_ := Lexer.advanceAll (Stringify.writeNumber (ofZ z)) p |},
        (rest, Lexer.advanceAll (Stringify.writeNumber (ofZ z)) p)).
Proof.
  intros Hz Hr. destruct (continues_head rest Hr) as [Hrd Hc].
  destruct (writeNumber_integer z Hz) as (ds & -> & Hv & Hall & Hcase).
  destruct Hcase as [ [-> ->] | (Hnz & d & r & -> & Hd) ].
  - change ((if 0 <? 0 then [45] else []) ++ [48]) with [48]. cbn [app].
    unfold Lexer.readNumber. cbn [Z.eqb Pos.eqb]. cbv zeta.
    destruct rest as [ | c rest ]; [ reflexivity | ].
    destruct Hc as (-> & -> & -> & Hdig). cbn [orb].
    unfold isDigit in Hdig.
    assert (Hnine : (49 <=? c) && (c <=? 57) = false).
    { apply andb_false_iff in Hdig. apply andb_false_iff.
      rewrite !Z.leb_gt in *. lia. }
    rewrite Hnine. reflexivity.
  - assert (Htake : takeWhile isDigit (d :: r ++ rest) = d :: r
                    /\ dropWhile isDigit (d :: r ++ rest) = rest)
      by (exact (takeWhile_app_delimited isDigit (d :: r) rest Hall Hrd)).
    destruct Htake as [Ht Hdr].
    assert (H48 : (d =? 48) = false) by (apply Z.eqb_neq; lia).
    assert (Hnine : (49 <=? d) && (d <=? 57) = true)
      by (apply andb_true_iff; split; apply Z.leb_le; lia).
    pose proof (ofZ_safe z Hz Hnz) as (Hnan & _ & _ & HtoZ & _).
    assert (Hrange : Lexer.outOfSafeRange (ofZ z) = false).
    { unfold Lexer.outOfSafeRange. rewrite HtoZ. apply orb_false_iff.
      split; apply Z.ltb_ge; lia. }
    unfold Lexer.readNumber. destruct (z <? 0) eqn:Hneg.
    + cbn [app]. cbn [Z.eqb Pos.eqb]. cbv zeta. rewrite H48, Hnine, Ht, Hdr.
      rewrite readNumberTail_integer by exact Hr.
      assert (Hint : parseInt ([45] ++ d :: r) = ofZ z).
      { unfold parseInt. cbn [app strip_sign]. rewrite (proj1 (takeWhile_all _ _ Hall)).
        unfold ofZ. now rewrite Hv, Hneg. }
      rewrite Hint, Hnan, Hrange. reflexivity.
    + cbn [app]. rewrite (proj2 (Z.eqb_neq d 45)) by lia. cbv zeta.
      rewrite H48, Hnine, Ht, Hdr.
      rewrite readNumberTail_integer by exact Hr.
      assert (Hint : parseInt ([] ++ d :: r) = ofZ z).
      { unfold parseInt. cbn [app]. rewrite strip_sign_other by lia.
        rewrite (proj1 (takeWhile_all _ _ Hall)). unfold ofZ. now rewrite Hv, Hneg. }
      rewrite Hint, Hnan, Hrange. reflexivity.
Qed.

Lemma last_app_cons {A} (a : list A) x b d : last (a ++ x :: b) d = last (x :: b) d.
Proof.
  induction a as [ | y a IH ]; [ reflexivity | ].
  cbn [app]. destruct (a ++ x :: b) eqn:E; [ destruct a; discriminate | ].
  cbn [last]. exact IH.
Qed.

(** The ends of the text of a safe integer. *)
Lemma writeNumber_head z :
  MIN_SAFE_INTEGER <= z <= MAX_SAFE_INTEGER ->
  exists c r,
    Stringify.writeNumber (ofZ z) = c :: r
    /\ (c = 45 \/ 48 <= c <= 57)
    /\ 48 <= last (c :: r) 0 <= 57
    /\ forall rest, signed_from_one (c :: r ++ rest).
Proof.
  intros Hz. destruct (writeNumber_integer z Hz) as (ds & -> & Hv & Hall & Hcase).
  assert (Hlast : forall l, l <> [] -> forallb isDigit l = true -> 48 <= last l 0 <= 57).
  { intros l Hl Hf. rewrite forallb_forall in Hf.
    destruct (exists_last Hl) as (l' & x & ->). rewrite last_last.
    specialize (Hf x ltac:(apply in_or_app; right; now left)).
    unfold isDigit in Hf. apply andb_true_iff in Hf. rewrite !Z.leb_le in Hf. lia. }
  destruct Hcase as [ [-> ->] | (Hnz & d & r & -> & Hd) ].
  - exists 48, []. repeat split; try reflexivity; try lia. cbn. lia.
  - destruct (z <? 0).
    + exists 45, (d :: r). split; [ reflexivity | ]. split; [ now left | ].
      split; [ | intros rest; exact Hd ].
      change (45 :: d :: r) with ([45] ++ d :: r). rewrite last_app_cons.
      apply Hlast; [ discriminate | exact Hall ].
    + exists d, r. split; [ reflexivity | ]. split; [ right; lia | ].
      split; [ apply Hlast; [ discriminate | exact Hall ] | ].
      intros rest. apply signed_from_one_other. lia.
Qed.

Lemma tokenizeLoop_integer fuel z rest p :
  MIN_SAFE_INTEGER <= z <= MAX_SAFE_INTEGER ->
  takeWhile continues rest = [] ->
  forall acc,
    Lexer.tokenizeLoop (Datatypes.S fuel) (Stringify.writeNumber (ofZ z) ++ rest) p acc
    = Lexer.tokenizeLoop fuel rest (Lexer.advanceAll (Stringify.writeNumber (ofZ z)) p)
        (acc ++ [{| Lexer.kind := TokenKind.Integer; Lexer.value := Lexer.Num (ofZ z);
                    Lexer.start := p;
                    Lexer.end_ := Lexer.advanceAll (Stringify.writeNumber (ofZ z)) p |}]).
Proof.
  intros Hz Hr acc. pose proof (readNumber_integer z rest p Hz Hr) as E.
  destruct (writeNumber_head z Hz) as (c & r & Ew & Hc & _).
  rewrite Ew in *. cbn [app] in *.
  destruct (number_dispatch c Hc)
    as (Hs & H47 & H123 & H125 & H91 & H93 & H58 & H44 & H34 & H39 & Hn).
  cbn [Lexer.tokenizeLoop].
  replace (List.length (c :: r ++ rest) + 1)%nat
    with (Datatypes.S (List.length (c :: r ++ rest))) by lia.
  rewrite skip_here by assumption.
  cbn [bind]. cbv zeta.
  rewrite H123, H125, H91, H93, H58, H44, H34, H39, Hn. cbn [orb].
  rewrite E. reflexivity.
Qed.

Section Lexes.

(** [lexes text ts]: at the head of an input and before a delimiter, the
    lexer turns [text] into tokens that are [ts] without their spans, and goes
    on with what follows; a number among the tokens starts where the input
    has no minus sign, or a minus sign and a digit from 1 to 9. *)
Let plain (text : jsstring) (p : SourcePosition) (t : Lexer.Token) : Prop :=
  numeric (Lexer.kind t) = true ->
  exists read s1,
    text = read ++ s1 /\ Lexer.start t = Lexer.advanceAll read p
    /\ signed_from_one s1.

Let lexes (text : jsstring) (ts : list (TokenKind.t * Lexer.TokenValue)) : Prop :=
  forall rest p fuel,
    takeWhile continues rest = [] ->
    (List.length (text ++ rest) < fuel)%nat ->
    exists toks fuel',
      map erase toks = ts
      /\ (List.length rest < fuel')%nat
      /\ Forall (plain (text ++ rest) p) toks
      /\ forall acc,
           Lexer.tokenizeLoop fuel (text ++ rest) p acc
           = Lexer.tokenizeLoop fuel' rest (Lexer.advanceAll text p) (acc ++ toks).

Let delimiter (text : jsstring) : Prop :=
  forall rest,
    takeWhile continues rest = [] -> takeWhile continues (text ++ rest) = [].

Lemma plain_other text p tok k x :
  erase tok = (k, x) -> numeric k = false -> Forall (plain text p) [tok].
Proof.
  intros [= <- _] Hk. constructor; [ | constructor ]. intros Hn. congruence.
Qed.

Lemma plain_after a text p toks :
  Forall (plain text (Lexer.advanceAll a p)) toks -> Forall (plain (a ++ text) p) toks.
Proof.
  apply Forall_impl. intros t H Hn. destruct (H Hn) as (read & s1 & -> & Hs & H1).
  exists (a ++ read), s1. rewrite <- app_assoc, advanceAll_app. auto.
Qed.

Lemma lexes_nil : lexes [] [].
Proof.
  intros rest p fuel _ Hf. exists [], fuel. split; [ reflexivity | ].
  split; [ exact Hf | ]. split; [ constructor | ].
  intros acc. now rewrite app_nil_r.
Qed.

Lemma lexes_app a ta b tb :
  lexes a ta -> lexes b tb -> delimiter b -> lexes (a ++ b) (ta ++ tb).
Proof.
  intros Ha Hb Hd rest p fuel Hr Hf. rewrite <- app_assoc in *.
  destruct (Ha (b ++ rest) p fuel (Hd rest Hr) Hf) as (t1 & f1 & E1 & L1 & P1 & R1).
  destruct (Hb rest (Lexer.advanceAll a p) f1 Hr L1) as (t2 & f2 & E2 & L2 & P2 & R2).
  exists (t1 ++ t2), f2. split; [ now rewrite map_app, E1, E2 | ].
  split; [ exact L2 | ].
  split; [ apply Forall_app; split; [ exact P1 | now apply plain_after ] | ].
  intros acc. now rewrite R1, R2, app_assoc, advanceAll_app.
Qed.

Lemma lexes_space c text ts :
  Lexer.isSpace c = true -> lexes text ts -> lexes (c :: text) ts.
Proof.
  intros Hc H rest p fuel Hr Hf. cbn [app List.length] in Hf.
  destruct fuel as [ | fuel ]; [ lia | ].
  destruct (H rest (Lexer.advance c p) (Datatypes.S fuel) Hr ltac:(lia))
    as (t & f' & E & L & P & R).
  exists t, f'. split; [ exact E | ]. split; [ exact L | ].
  split; [ exact (plain_after [c] _ p t P) | ].
  intros acc. cbn [app]. now rewrite tokenizeLoop_space, R.
Qed.

Lemma lexes_blank ws text ts : blank ws -> lexes text ts -> lexes (ws ++ text) ts.
Proof.
  unfold blank. induction ws as [ | c ws IH ]; intros Hb H; [ exact H | ].
  cbn [forallb] in Hb. apply andb_true_iff in Hb as [Hc Hb].
  cbn [app]. apply lexes_space; auto.
Qed.

Lemma space_not_word c : Lexer.isSpace c = true -> continues c = false.
Proof.
  unfold Lexer.isSpace. rewrite !orb_true_iff, !Z.eqb_eq.
  intros [ [ [ -> | -> ] | -> ] | -> ]; reflexivity.
Qed.

Lemma lexes_punctuation c k :
  (c, k) = (123, TokenKind.LBrace) \/ (c, k) = (125, TokenKind.RBrace)
  \/ (c, k) = (91, TokenKind.LBracket) \/ (c, k) = (93, TokenKind.RBracket)
  \/ (c, k) = (58, TokenKind.Colon) ->
  lexes [c] [(k, Lexer.NoValue)].
Proof.
  intros H rest p fuel _ Hf. cbn [app List.length] in Hf.
  destruct fuel as [ | fuel ]; [ lia | ].
  exists [Lexer.punctuation k c p], fuel.
  split; [ reflexivity | ]. split; [ lia | ].
  split.
  { apply (plain_other _ _ _ k Lexer.NoValue); [ reflexivity | ].
    destruct H as [ [= _ ->] | [ [= _ ->] | [ [= _ ->] | [ [= _ ->] | [= _ ->] ] ] ] ];
      reflexivity. }
  intros acc. cbn [app]. now apply tokenizeLoop_punctuation.
Qed.

Lemma lexes_quoted s :
  Forall (fun c => writable c = true) s ->
  lexes ([34] ++ Stringify.escapeDouble s ++ [34])
    [(TokenKind.String, Lexer.Str (withBackspaces s))].
Proof.
  intros Hs rest p fuel _ Hf.
  destruct fuel as [ | fuel ]; [ lia | ].
  destruct (tokenizeLoop_quoted fuel s rest p Hs) as (tok & Htok & E).
  exists [tok], fuel. split; [ cbn [map]; now rewrite Htok | ].
  rewrite !length_app in Hf. cbn [List.length] in Hf. split; [ lia | ].
  split; [ exact (plain_other _ _ _ _ _ Htok eq_refl) | ].
  intros acc. rewrite <- E. f_equal. cbn [app]. now rewrite <- app_assoc.
Qed.

Lemma lexes_word first more :
  isAlpha_ first = true -> forallb isWordOrDash more = true ->
  lexes (first :: more)
    [ if str_eqb (first :: more) (lit "true") then (TokenKind.True, Lexer.NoValue)
      else if str_eqb (first :: more) (lit "false") then (TokenKind.False, Lexer.NoValue)
      else if str_eqb (first :: more) (lit "null") then (TokenKind.Null, Lexer.NoValue)
      else (TokenKind.Identifier, Lexer.Str (first :: more)) ].
Proof.
  intros Ha Hm rest p fuel Hr Hf. rewrite length_app in Hf. cbn [List.length] in Hf.
  destruct fuel as [ | fuel ]; [ lia | ].
  destruct (tokenizeLoop_word fuel first more rest p Ha Hm (continues_word rest Hr))
    as (tok & Htok & E).
  exists [tok], fuel. split; [ cbn [map]; now rewrite Htok | ].
  split; [ lia | ].
  split; [ | exact E ].
  repeat destruct (str_eqb _ _);
    exact (plain_other _ _ _ _ _ Htok eq_refl).
Qed.

Lemma lexes_integer z :
  MIN_SAFE_INTEGER <= z <= MAX_SAFE_INTEGER ->
  lexes (Stringify.writeNumber (ofZ z)) [(TokenKind.Integer, Lexer.Num (ofZ z))].
Proof.
  intros Hz rest p fuel Hr Hf.
  destruct (writeNumber_head z Hz) as (c & r & Ew & _ & _ & Hsigned).
  destruct fuel as [ | fuel ]; [ lia | ].
  exists [{| Lexer.kind := TokenKind.Integer; Lexer.value := Lexer.Num (ofZ z);
              Lexer.start := p;
              Lexer.end_ := Lexer.advanceAll (Stringify.writeNumber (ofZ z)) p |}], fuel.
  split; [ reflexivity | ].
  split; [ rewrite Ew, length_app in Hf; cbn [List.length] in Hf; lia | ].
  split; [ | exact (tokenizeLoop_integer fuel z rest p Hz Hr) ].
  constructor; [ | constructor ]. intros _.
  exists [], (Stringify.writeNumber (ofZ z) ++ rest).
  split; [ reflexivity | ]. split; [ reflexivity | ].
  rewrite Ew. exact (Hsigned rest).
Qed.

Lemma delimiter_nil : delimiter [].
Proof. intros rest H. exact H. Qed.

Lemma delimiter_cons c text : continues c = false -> delimiter (c :: text).
Proof. intros H rest _. cbn [app takeWhile]. now rewrite H. Qed.

Lemma wordless_needsQuote s : wordless s -> Stringify.needsQuote s = true.
Proof.
  destruct 1 as [ | c s [_ Hc] _ ]; [ reflexivity | ].
  unfold Stringify.needsQuote. rewrite Hc. cbn [negb andb].
  destruct (Z.eqb_spec c 95) as [-> | _ ]; [ discriminate Hc | reflexivity ].
Qed.

Lemma wordless_writable s : wordless s -> Forall (fun c => writable c = true) s.
Proof. apply Forall_impl. now intros c [H _]. Qed.

Lemma wordless_withBackspaces s : wordless s -> withBackspaces s = s.
Proof.
  intros H. apply withBackspaces_wordless. revert H. apply Forall_impl.
  now intros c [_ H].
Qed.

(** A string of the text form is one token, as a value and as a key. *)
Lemma lexes_text s :
  carried_text s ->
  lexes (Stringify.quoteValueString s) [stringToken s]
  /\ lexes (Stringify.quoteKey s) [stringToken s].
Proof.
  unfold Stringify.quoteValueString, Stringify.quoteKey, stringToken.
  intros [ [Hq Ha] | Hw ].
  - rewrite Hq.
    destruct (unquoted_identifier s Hq Ha)
      as (first & more & -> & Hf & Hm & Ht & Hfa & Hn).
    pose proof (lexes_word first more Hf Hm) as H.
    rewrite Ht, Hfa, Hn in H. auto.
  - rewrite (wordless_needsQuote s Hw).
    pose proof (lexes_quoted s (wordless_writable s Hw)) as H.
    rewrite (wordless_withBackspaces s Hw) in H. auto.
Qed.

Lemma delimiter_blank ws text : blank ws -> ws <> [] -> delimiter (ws ++ text).
Proof.
  unfold blank. destruct ws as [ | c ws ]; [ congruence | ].
  cbn [forallb]. intros Hb _. apply andb_true_iff in Hb as [Hc _].
  cbn [app]. now apply delimiter_cons, space_not_word.
Qed.

Lemma lexes_items {X} (f : X -> jsstring)
  (g : X -> list (TokenKind.t * Lexer.TokenValue)) sep items tail ttail :
  blank sep -> sep <> [] ->
  Forall (fun x => lexes (f x) (g x)) items -> items <> [] ->
  lexes tail ttail -> delimiter tail ->
  lexes (sep ++ Stringify.join sep (map f items) ++ tail)
    (flat_map g items ++ ttail).
Proof.
  intros Hsep Hne0 Hitems Hne Htail Hd.
  induction Hitems as [ | x r Hx Hr IH ]; [ congruence | ]. clear Hne.
  destruct r as [ | y r' ].
  - cbn [map Stringify.join flat_map app]. rewrite app_nil_r.
    apply lexes_blank; [ exact Hsep | ]. now apply lexes_app.
  - change (Stringify.join sep (map f (x :: y :: r')))
      with (f x ++ sep ++ Stringify.join sep (map f (y :: r'))).
    change (flat_map g (x :: y :: r')) with (g x ++ flat_map g (y :: r')).
    rewrite <- !app_assoc. apply lexes_blank; [ exact Hsep | ].
    apply lexes_app; [ exact Hx | apply IH; discriminate | ].
    now apply delimiter_blank.
Qed.

Variables indent newline : jsstring.
Hypothesis indent_blank : blank indent.
Hypothesis newline_blank : blank newline.

Lemma separator_blank level :
  blank (Stringify.separator indent newline level)
  /\ Stringify.separator indent newline level <> [].
Proof using indent_blank newline_blank.
  unfold Stringify.separator. destruct indent as [ | c i ] eqn:Ei.
  - split; [ reflexivity | discriminate ].
  - rewrite <- Ei in *. unfold blank in *. split.
    + rewrite forallb_app, newline_blank. cbn [andb].
      unfold Stringify.repeatString.
      induction (level + 1)%nat as [ | n IHn ]; [ reflexivity | ].
      cbn [repeat concat]. now rewrite forallb_app, indent_blank, IHn.
    + unfold Stringify.repeatString.
      replace (level + 1)%nat with (Datatypes.S level) by lia.
      cbn [repeat concat]. rewrite Ei. destruct newline; discriminate.
Qed.


(** The text of a value without indent is lexed into the tokens of the
    value. *)
Lemma lexes_value v :
  carried v ->
  forall level, lexes (Stringify.stringifyValue indent newline v level) (tokensOf v).
Proof using indent_blank newline_blank.
  induction v as [ | b | n | s | items IH | props IH ] using KodaValue_ind;
    intros Hc level; inversion Hc; subst; cbn [Stringify.stringifyValue tokensOf].
  - exact (lexes_word 110 [117; 108; 108] eq_refl eq_refl).
  - destruct b.
    + exact (lexes_word 116 [114; 117; 101] eq_refl eq_refl).
    + exact (lexes_word 102 [97; 108; 115; 101] eq_refl eq_refl).
  - now apply lexes_integer.
  - now apply lexes_text.
  - destruct items as [ | x r ].
    + apply (lexes_app [91] [_] [93] [_]);
        [ apply lexes_punctuation; tauto | apply lexes_punctuation; tauto
        | now apply delimiter_cons ].
    + cbv zeta. destruct (separator_blank level) as [Hb Hne].
      apply (lexes_app [91] [_] _ _);
        [ apply lexes_punctuation; tauto | | now apply delimiter_blank ].
      apply (lexes_items
               (fun v => Stringify.stringifyValue indent newline v (level + 1))
               tokensOf _ (x :: r) (lit " ]") [_]); try assumption.
      * rewrite Forall_forall in *. intros y Hy. apply IH; auto.
      * discriminate.
      * apply (lexes_space 32 [93]); [ reflexivity | ]. apply lexes_punctuation; tauto.
      * now apply delimiter_cons.
  - destruct props as [ | x r ].
    + apply (lexes_app [123] [_] [125] [_]);
        [ apply lexes_punctuation; tauto | apply lexes_punctuation; tauto
        | now apply delimiter_cons ].
    + cbv zeta. destruct (separator_blank level) as [Hb Hne].
      apply (lexes_app [123] [_] _ _);
        [ apply lexes_punctuation; tauto | | now apply delimiter_blank ].
      apply (lexes_items
               (fun p => Stringify.quoteKey (fst p) ++ lit ":" ++ lit " "
                           ++ Stringify.stringifyValue indent newline (snd p) (level + 1))
               (fun p => stringToken (fst p) :: (TokenKind.Colon, Lexer.NoValue)
                           :: tokensOf (snd p))
               _ (x :: r) (lit " }") [_]); try assumption.
      * rewrite Forall_forall in *. intros y Hy.
        match goal with H : forall p, In p _ -> carried_text _ /\ _ |- _ =>
          destruct (H y Hy) as (Hk & _ & Hv) end.
        apply (lexes_app _ [_] _ (_ :: _)); [ now apply lexes_text | | now apply delimiter_cons ].
        apply (lexes_app [58] [_] _ _);
          [ apply lexes_punctuation; tauto | | now apply delimiter_cons ].
        apply (lexes_space 32 _); [ reflexivity | ]. apply IH; auto.
      * discriminate.
      * apply (lexes_space 32 [125]); [ reflexivity | ]. apply lexes_punctuation; tauto.
      * now apply delimiter_cons.
Qed.

(** So [tokenize] returns the tokens of the value, and [Eof]. *)
Lemma tokenize_value v level options :
  carried v ->
  len (Stringify.stringifyValue indent newline v level) <= inputLimit options ->
  exists tokens,
    Lexer.tokenize (Stringify.stringifyValue indent newline v level)
      {| Lexer.maxInputLength := Parser.maxInputLength options |} = Ok tokens
    /\ map erase tokens = tokensOf v ++ [(TokenKind.Eof, Lexer.NoValue)]
    /\ plain_numbers (Stringify.stringifyValue indent newline v level) tokens.
Proof using indent_blank newline_blank.
  intros Hc Hlen. unfold inputLimit in Hlen. unfold Lexer.tokenize.
  cbn [Lexer.maxInputLength].
  match goal with |- context [if ?a <? ?b then _ else _] =>
    destruct (Z.ltb_spec a b); [ lia | ] end.
  destruct (lexes_value v Hc level [] (pos 1 1 0)
              (List.length (Stringify.stringifyValue indent newline v level) + 1)%nat
              eq_refl)
    as (toks & fuel' & E & L & P & R).
  { rewrite app_nil_r. lia. }
  specialize (R []). rewrite app_nil_r in R, P. rewrite R.
  destruct fuel' as [ | fuel' ]; [ cbn in L; lia | ].
  rewrite tokenizeLoop_end. eexists. split; [ reflexivity | ].
  cbn [app]. split; [ now rewrite map_app, E | ].
  apply Forall_app. split; [ | constructor; [ discriminate | constructor ] ].
  revert P. apply Forall_impl. intros t Hplain Hn.
  destruct (Hplain Hn) as (read & s1 & Ht & Hs & H1).
  unfold textFrom. now rewrite (advances_offset _ read s1 _ Ht Hs).
Qed.

End Lexes.

(** ** Parsing the tokens of a value *)

(** The first token of a value opens it: it is no closing bracket, no comma
    and not the end. *)
Lemma tokensOf_head v :
  exists k x r,
    tokensOf v = (k, x) :: r
    /\ k <> TokenKind.RBracket /\ k <> TokenKind.RBrace
    /\ k <> TokenKind.Comma /\ k <> TokenKind.Colon /\ k <> TokenKind.Eof.
Proof.
  destruct v as [ | [ | ] | n | s | items | props ]; cbn [tokensOf];
    unfold stringToken; try destruct (Stringify.needsQuote s);
    do 3 eexists; (split; [ reflexivity | ]); repeat split; discriminate.
Qed.

Lemma map_erase_cons ts k x r :
  map erase ts = (k, x) :: r ->
  exists t ts', ts = t :: ts' /\ Lexer.kind t = k /\ Lexer.value t = x
                /\ map erase ts' = r.
Proof.
  destruct ts as [ | t ts' ]; [ discriminate | ]. cbn [map]. unfold erase at 1.
  intros [= <- <- <-]. eauto 6.
Qed.

Lemma map_erase_snoc ts r k x :
  map erase ts = r ++ [(k, x)] ->
  exists ts' t, ts = ts' ++ [t] /\ Lexer.kind t = k /\ Lexer.value t = x
                /\ map erase ts' = r.
Proof.
  intros H. apply map_eq_app in H as (ts' & l & -> & H1 & H2).
  destruct l as [ | t [ | ? ? ] ]; try discriminate.
  cbn [map] in H2. unfold erase at 1 in H2. injection H2 as <- <-. eauto 6.
Qed.

Lemma TokenKind_eqb_neq a b : a <> b -> TokenKind.eqb a b = false.
Proof. destruct a, b; try reflexivity; congruence. Qed.

Section ParsesTokens.
Variable tokens : list Lexer.Token.
Variable maxDepth : Z.

Lemma current_at pre t post :
  tokens = pre ++ t :: post -> Parser.current tokens (List.length pre) = t.
Proof. intros ->. unfold Parser.current. apply nth_middle. Qed.

Lemma advance_at pre t post :
  tokens = pre ++ t :: post -> post <> [] ->
  Parser.advance tokens (List.length pre) = Datatypes.S (List.length pre).
Proof.
  intros -> Hp. unfold Parser.advance. rewrite length_app. cbn [List.length].
  destruct post as [ | u post ]; [ congruence | ]. cbn [List.length].
  destruct (Nat.ltb_spec (List.length pre)
              (List.length pre + Datatypes.S (Datatypes.S (List.length post)) - 1));
    [ reflexivity | lia ].
Qed.

Lemma at_kind_at pre t post k :
  tokens = pre ++ t :: post ->
  Parser.at_kind tokens (List.length pre) k = TokenKind.eqb (Lexer.kind t) k.
Proof. intros H. unfold Parser.at_kind. now rewrite (current_at pre t post H). Qed.

(** What a token other than [k] leaves in place. *)
Lemma skipIf_other pre t post k :
  tokens = pre ++ t :: post -> Lexer.kind t <> k ->
  Parser.skipIf tokens k (List.length pre) = List.length pre.
Proof.
  intros H Hk. unfold Parser.skipIf. rewrite (at_kind_at pre t post k H).
  now rewrite TokenKind_eqb_neq.
Qed.

(** The first token of a value that is followed by something. *)
Lemma next_token ts v post :
  map erase ts = tokensOf v -> post <> [] ->
  exists t r, ts ++ post = t :: r /\ r <> []
              /\ Lexer.kind t <> TokenKind.RBracket /\ Lexer.kind t <> TokenKind.RBrace
              /\ Lexer.kind t <> TokenKind.Comma.
Proof.
  intros H Hp. destruct (tokensOf_head v) as (k & x & r & E & H1 & H2 & H3 & _).
  rewrite E in H. apply map_erase_cons in H as (t & ts' & -> & <- & _ & _).
  exists t, (ts' ++ post). repeat split; try assumption.
  destruct ts'; [ exact Hp | discriminate ].
Qed.

(** After an element comes the next one or the closing bracket, no comma. *)
Lemma after_element {X} (g : X -> list (TokenKind.t * Lexer.TokenValue)) items tss
  tR (post : list Lexer.Token) :
  (forall x, In x items -> exists k y r, g x = (k, y) :: r /\ k <> TokenKind.Comma) ->
  map erase tss = flat_map g items ->
  Lexer.kind tR <> TokenKind.Comma ->
  exists t r, tss ++ tR :: post = t :: r /\ Lexer.kind t <> TokenKind.Comma.
Proof.
  intros Hg H HR. destruct items as [ | x items ].
  - apply map_eq_nil in H as ->. exists tR, post. auto.
  - destruct (Hg x (or_introl eq_refl)) as (k & y & r & E & Hk).
    cbn [flat_map] in H. rewrite E in H. cbn [app] in H.
    apply map_erase_cons in H as (t & ts' & -> & <- & _ & _).
    exists t, (ts' ++ tR :: post). auto.
Qed.

Let parses (v : KodaValue) : Prop :=
  forall fuel d pre ts post,
    tokens = pre ++ ts ++ post -> post <> [] ->
    map erase ts = tokensOf v ->
    d + depth v <= maxDepth -> 0 <= d ->
    (List.length ts < fuel)%nat ->
    Parser.parseValue tokens maxDepth fuel d (List.length pre)
    = Ok (primitive v, (List.length pre + List.length ts)%nat).

Lemma while_array fuel_b d items :
  Forall parses items ->
  forall fuel_w pre tss tR post acc,
    tokens = pre ++ tss ++ tR :: post -> post <> [] ->
    Lexer.kind tR = TokenKind.RBracket ->
    map erase tss = flat_map tokensOf items ->
    Forall (fun x => d + 1 + depth x <= maxDepth) items -> 0 <= d ->
    (List.length items < fuel_w)%nat -> (List.length tss < fuel_b)%nat ->
    Parser.while fuel_w
      (fun st => negb (Parser.at_kind tokens (snd st) TokenKind.RBracket))
      (fun st =>
         '(v, i) <- Parser.parseValue tokens maxDepth fuel_b (d + 1) (snd st) ;;
         Ok (fst st ++ [value_of v], Parser.skipIf tokens TokenKind.Comma i))
      (acc, List.length pre)
    = Ok (acc ++ items, (List.length pre + List.length tss)%nat).
Proof.
  induction 1 as [ | x r Hx Hr IH ];
    intros fuel_w pre tss tR post acc Htok Hpost HR E Hdepth Hd Hw Hb;
    (destruct fuel_w as [ | fuel_w ]; [ cbn [List.length] in Hw; lia | ]);
    cbn [Parser.while snd fst].
  - apply map_eq_nil in E as ->. cbn [app] in Htok.
    rewrite (at_kind_at pre tR post _ Htok), HR. cbn [TokenKind.eqb negb].
    now rewrite app_nil_r, Nat.add_0_r.
  - cbn [flat_map] in E. apply map_eq_app in E as (ts1 & ts2 & -> & E1 & E2).
    rewrite <- app_assoc in Htok.
    destruct (next_token ts1 x (ts2 ++ tR :: post) E1 ltac:(now destruct ts2))
      as (t & r0 & Et & _ & Hk & _).
    pose proof Htok as Htok'. rewrite Et in Htok'.
    rewrite (at_kind_at pre t r0 _ Htok'), (TokenKind_eqb_neq _ _ Hk).
    cbn [negb].
    apply Forall_cons_iff in Hdepth as [Hdx Hdr].
    rewrite (Hx fuel_b (d + 1) pre ts1 (ts2 ++ tR :: post) Htok
               ltac:(now destruct ts2) E1 ltac:(lia) ltac:(lia)
               ltac:(rewrite length_app in Hb; lia)).
    cbn [bind value_of primitive].
    destruct (after_element tokensOf r ts2 tR post) as (u & r1 & Eu & Hu).
    { intros y _. destruct (tokensOf_head y) as (k & z & q & -> & _ & _ & Hc & _).
      eauto. }
    { exact E2. }
    { rewrite HR. discriminate. }
    assert (Htok2 : tokens = (pre ++ ts1) ++ ts2 ++ tR :: post)
      by now rewrite <- app_assoc.
    pose proof Htok2 as Htok3. rewrite Eu in Htok3.
    rewrite <- length_app, (skipIf_other (pre ++ ts1) u r1 _ Htok3 Hu).
    cbn [List.length] in Hw. rewrite length_app in Hb.
    rewrite (IH fuel_w (pre ++ ts1) ts2 tR post (acc ++ [x]) Htok2 Hpost HR E2 Hdr Hd
               ltac:(lia) ltac:(lia)).
    rewrite <- app_assoc, !length_app. cbn [app]. do 2 f_equal. lia.
Qed.

Lemma isKey_at pre t post :
  tokens = pre ++ t :: post ->
  Lexer.kind t = TokenKind.Identifier \/ Lexer.kind t = TokenKind.String ->
  Parser.isKey tokens (List.length pre) = true.
Proof.
  intros H Hk. unfold Parser.isKey. rewrite !(at_kind_at pre t post _ H).
  destruct Hk as [-> | ->]; reflexivity.
Qed.

(** One pair of an object: the key, the colon and the value. *)
Lemma parsePair_at fuel d key x pre tk tc ts post (acc : JSObject) :
  parses x ->
  tokens = pre ++ tk :: tc :: ts ++ post -> post <> [] ->
  erase tk = stringToken key -> Lexer.kind tc = TokenKind.Colon ->
  map erase ts = tokensOf x ->
  d + depth x <= maxDepth -> 0 <= d ->
  (List.length ts < fuel)%nat ->
  ~ In key (map fst acc) -> key <> PROTO ->
  Parser.parsePair tokens (Parser.parseValue tokens maxDepth fuel d)
    (acc, List.length pre)
  = Ok ({| own := own acc ++ [(key, x)]; inherits := inherits acc |},
        (List.length pre + 2 + List.length ts)%nat).
Proof.
  intros Hx Htok Hpost Hk Hc E Hdepth Hd Hfuel Hfresh Hproto.
  unfold Parser.parsePair.
  injection Hk as Hkk Hkv.
  rewrite (current_at pre tk _ Htok), Hkv. cbn [Parser.asString].
  rewrite (advance_at pre tk _ Htok) by discriminate.
  assert (Htok1 : tokens = (pre ++ [tk]) ++ tc :: ts ++ post)
    by (rewrite <- app_assoc; exact Htok).
  replace (Datatypes.S (List.length pre)) with (List.length (pre ++ [tk]))
    by (rewrite length_app; cbn [List.length]; lia).
  unfold Parser.skipIf. rewrite (at_kind_at _ tc _ _ Htok1), Hc.
  cbn [TokenKind.eqb].
  rewrite (advance_at _ tc _ Htok1) by (destruct ts; [ exact Hpost | discriminate ]).
  assert (Htok2 : tokens = ((pre ++ [tk]) ++ [tc]) ++ ts ++ post).
  { rewrite Htok1. rewrite <- !app_assoc. reflexivity. }
  replace (Datatypes.S (List.length (pre ++ [tk])))
    with (List.length ((pre ++ [tk]) ++ [tc]))
    by (rewrite !length_app; cbn [List.length]; lia).
  rewrite (Hx fuel d _ ts post Htok2 Hpost E Hdepth Hd Hfuel).
  cbn [bind].
  assert (Hget : assoc_get key acc = None) by now apply assoc_get_none.
  unfold hasOwnProperty. rewrite Hget.
  rewrite (Object_set_other key (primitive x) acc Hproto).
  cbn [value_of primitive]. rewrite (assoc_set_fresh key x acc Hget).
  rewrite !length_app. cbn [List.length]. do 2 f_equal. lia.
Qed.

Lemma while_object fuel_b d props :
  Forall (fun p => parses (snd p)) props ->
  forall fuel_w pre tss tR post (acc : JSObject),
    tokens = pre ++ tss ++ tR :: post -> post <> [] ->
    Lexer.kind tR = TokenKind.RBrace ->
    map erase tss
    = flat_map (fun p => stringToken (fst p) :: (TokenKind.Colon, Lexer.NoValue)
                           :: tokensOf (snd p)) props ->
    Forall (fun p => d + 1 + depth (snd p) <= maxDepth) props -> 0 <= d ->
    NoDup (map fst (acc ++ props)) ->
    Forall (fun p => fst p <> PROTO) props ->
    (List.length props < fuel_w)%nat -> (List.length tss < fuel_b)%nat ->
    Parser.while fuel_w
      (fun st => negb (Parser.at_kind tokens (snd st) TokenKind.RBrace))
      (fun st =>
         if Parser.isKey tokens (snd st) then
           '(obj, i) <-
             Parser.parsePair tokens (Parser.parseValue tokens maxDepth fuel_b (d + 1)) st ;;
           Ok (obj, Parser.skipIf tokens TokenKind.Comma i)
         else Parser.fail tokens [T "Expected key (identifier or string)"] (snd st))
      (acc, List.length pre)
    = Ok ({| own := own acc ++ props; inherits := inherits acc |},
          (List.length pre + List.length tss)%nat).
Proof.
  induction 1 as [ | [key x] r Hx Hr IH ];
    intros fuel_w pre tss tR post acc Htok Hpost HR E Hdepth Hd Hnd Hproto Hw Hb;
    (destruct fuel_w as [ | fuel_w ]; [ cbn [List.length] in Hw; lia | ]);
    cbn [Parser.while snd fst].
  - apply map_eq_nil in E as ->. cbn [app] in Htok.
    rewrite (at_kind_at pre tR post _ Htok), HR. cbn [TokenKind.eqb negb].
    rewrite app_nil_r, Nat.add_0_r. now destruct acc.
  - cbn [flat_map fst snd app] in E, Hx.
    apply map_erase_cons in E as (tk & tss1 & -> & Hkk & Hkv & E).
    apply map_erase_cons in E as (tc & tss2 & -> & Hck & _ & E).
    apply map_eq_app in E as (ts1 & ts2 & -> & E1 & E2).
    cbn [app] in Htok.
    assert (Hkey : Lexer.kind tk = TokenKind.Identifier \/ Lexer.kind tk = TokenKind.String).
    { rewrite Hkk. destruct (Stringify.needsQuote key); auto. }
    rewrite (at_kind_at pre tk _ _ Htok).
    assert (Hnot : TokenKind.eqb (Lexer.kind tk) TokenKind.RBrace = false)
      by (destruct Hkey as [-> | ->]; reflexivity).
    rewrite Hnot. cbn [negb].
    rewrite (isKey_at pre tk _ Htok Hkey).
    apply Forall_cons_iff in Hdepth as [Hdx Hdr]. cbn [snd] in Hdx.
    apply Forall_cons_iff in Hproto as [Hp1 Hp2]. cbn [fst] in Hp1.
    cbn [List.length] in Hb. rewrite length_app in Hb.
    rewrite map_app in Hnd. cbn [map fst] in Hnd.
    assert (Hfresh : ~ In key (map fst acc)).
    { apply NoDup_remove_2 in Hnd. rewrite in_app_iff in Hnd. tauto. }
    assert (Htok0 : tokens = pre ++ tk :: tc :: ts1 ++ ts2 ++ tR :: post)
      by (rewrite Htok, <- app_assoc; reflexivity).
    rewrite (parsePair_at fuel_b (d + 1) key x pre tk tc ts1 (ts2 ++ tR :: post) acc
               Hx Htok0 ltac:(now destruct ts2)
               ltac:(unfold erase; now rewrite Hkk, Hkv) Hck E1
               ltac:(lia) ltac:(lia) ltac:(lia) Hfresh Hp1).
    cbn [bind].
    destruct (after_element
                (fun p => stringToken (fst p) :: (TokenKind.Colon, Lexer.NoValue)
                            :: tokensOf (snd p)) r ts2 tR post)
      as (u & r1 & Eu & Hu).
    { intros y _. unfold stringToken. do 3 eexists. split; [ reflexivity | ].
      destruct (Stringify.needsQuote (fst y)); discriminate. }
    { exact E2. }
    { rewrite HR. discriminate. }
    assert (Htok3 : tokens = (pre ++ tk :: tc :: ts1) ++ ts2 ++ tR :: post).
    { rewrite Htok0. rewrite <- !app_assoc. reflexivity. }
    pose proof Htok3 as Htok4. rewrite Eu in Htok4.
    replace (List.length pre + 2 + List.length ts1)%nat
      with (List.length (pre ++ tk :: tc :: ts1))
      by (rewrite length_app; cbn [List.length]; lia).
    rewrite (skipIf_other _ u r1 _ Htok4 Hu).
    cbn [List.length] in Hw.
    rewrite (IH fuel_w _ ts2 tR post
               {| own := own acc ++ [(key, x)]; inherits := inherits acc |}
               Htok3 Hpost HR E2 Hdr Hd).
    + cbn [own inherits]. rewrite <- app_assoc, !length_app. cbn [app List.length].
      rewrite length_app. do 2 f_equal. lia.
    + cbn [own]. rewrite <- app_assoc. cbn [app]. rewrite map_app. exact Hnd.
    + exact Hp2.
    + lia.
    + lia.
Qed.

(** The parser rebuilds a value from its tokens. *)
Lemma parseValue_tokensOf v :
  shaped (fun k => k <> PROTO) (fun _ => True) v -> parses v.
Proof.
  induction v as [ | b | n | s | items IH | props IH ] using KodaValue_ind;
    intros Hs fuel d pre ts post Htok Hpost E Hdepth Hd Hfuel;
    (destruct fuel as [ | fuel ]; [ lia | ]);
    match type of Hdepth with _ + depth ?v <= _ => pose proof (depth_nonneg v) as Hv0 end;
    assert (Hnot : (maxDepth <? d) = false) by (apply Z.ltb_ge; lia);
    cbn [tokensOf] in E; cbn [Parser.parseValue]; rewrite Hnot.
  - destruct ts as [ | t [ | ? ? ] ]; try discriminate. injection E as Hk Hv.
    cbn [app] in Htok. rewrite (current_at pre t post Htok), Hk.
    rewrite (advance_at pre t post Htok Hpost). cbn [List.length]. do 2 f_equal. lia.
  - destruct ts as [ | t [ | ? ? ] ]; try discriminate. injection E as Hk Hv.
    cbn [app] in Htok. rewrite (current_at pre t post Htok), Hk.
    rewrite (advance_at pre t post Htok Hpost). cbn [List.length].
    destruct b; do 2 f_equal; lia.
  - destruct ts as [ | t [ | ? ? ] ]; try discriminate. injection E as Hk Hv.
    cbn [app] in Htok. rewrite (current_at pre t post Htok), Hk, Hv.
    rewrite (advance_at pre t post Htok Hpost). cbn [List.length Parser.asValue].
    do 2 f_equal. lia.
  - destruct ts as [ | t [ | ? ? ] ]; try discriminate. injection E as Hk Hv.
    cbn [app] in Htok. rewrite (current_at pre t post Htok), Hk, Hv.
    rewrite (advance_at pre t post Htok Hpost). cbn [List.length Parser.asValue].
    destruct (Stringify.needsQuote s); do 2 f_equal; lia.
  - apply map_erase_cons in E as (tL & ts' & -> & HL & _ & E).
    apply map_erase_snoc in E as (tss & tR & -> & HR & _ & E).
    cbn [app] in Htok. rewrite <- app_assoc in Htok. cbn [app] in Htok.
    rewrite (current_at pre tL _ Htok), HL.
    unfold Parser.expect at 1. rewrite (at_kind_at pre tL _ _ Htok), HL.
    cbn [TokenKind.eqb negb bind].
    rewrite (advance_at pre tL _ Htok) by (destruct tss; discriminate).
    assert (Htok1 : tokens = (pre ++ [tL]) ++ tss ++ tR :: post)
      by (rewrite <- app_assoc; exact Htok).
    replace (Datatypes.S (List.length pre)) with (List.length (pre ++ [tL]))
      by (rewrite length_app; cbn [List.length]; lia).
    assert (Hitems : Forall (fun x => d + 1 + depth x <= maxDepth) items).
    { assert (Hle : depth (VArray items) <= maxDepth - d) by lia.
      apply depth_array_le in Hle as [_ Hle]. revert Hle. apply Forall_impl.
      intros x Hx. lia. }
    cbn [List.length] in Hfuel. rewrite length_app in Hfuel. cbn [List.length] in Hfuel.
    assert (Hlen : (List.length items <= List.length tss)%nat).
    { rewrite <- (length_map erase tss), E. clear.
      induction items as [ | x r IHr ]; cbn [flat_map List.length]; [ lia | ].
      rewrite length_app. destruct (tokensOf_head x) as (k & y & q & -> & _).
      cbn [List.length]. lia. }
    assert (Hparses : Forall parses items).
    { inversion Hs as [ | | | | ? Hall | ].
      rewrite Forall_forall in *. intros x Hx. apply IH; auto. }
    rewrite (while_array fuel d items Hparses fuel (pre ++ [tL]) tss tR post []
               Htok1 Hpost HR E Hitems Hd ltac:(lia) ltac:(lia)).
    cbn [bind].
    assert (Htok2 : tokens = ((pre ++ [tL]) ++ tss) ++ tR :: post)
      by (rewrite <- app_assoc; exact Htok1).
    rewrite <- length_app.
    unfold Parser.expect. rewrite (at_kind_at _ tR _ _ Htok2), HR.
    cbn [TokenKind.eqb negb bind].
    rewrite (advance_at _ tR _ Htok2 Hpost).
    rewrite !length_app. cbn [List.length]. rewrite length_app. cbn [List.length].
    do 2 f_equal. lia.
  - apply map_erase_cons in E as (tL & ts' & -> & HL & _ & E).
    apply map_erase_snoc in E as (tss & tR & -> & HR & _ & E).
    cbn [app] in Htok. rewrite <- app_assoc in Htok. cbn [app] in Htok.
    rewrite (current_at pre tL _ Htok), HL.
    unfold Parser.expect at 1. rewrite (at_kind_at pre tL _ _ Htok), HL.
    cbn [TokenKind.eqb negb bind].
    rewrite (advance_at pre tL _ Htok) by (destruct tss; discriminate).
    assert (Htok1 : tokens = (pre ++ [tL]) ++ tss ++ tR :: post)
      by (rewrite <- app_assoc; exact Htok).
    replace (Datatypes.S (List.length pre)) with (List.length (pre ++ [tL]))
      by (rewrite length_app; cbn [List.length]; lia).
    assert (Hprops : Forall (fun p => d + 1 + depth (snd p) <= maxDepth) props).
    { assert (Hle : depth (VObject props) <= maxDepth - d) by lia.
      apply depth_object_le in Hle as [_ Hle]. revert Hle. apply Forall_impl.
      intros x Hx. lia. }
    cbn [List.length] in Hfuel. rewrite length_app in Hfuel. cbn [List.length] in Hfuel.
    assert (Hlen : (List.length props <= List.length tss)%nat).
    { rewrite <- (length_map erase tss), E. clear.
      induction props as [ | x r IHr ]; cbn [flat_map List.length]; [ lia | ].
      rewrite length_app. cbn [List.length]. lia. }
    inversion Hs as [ | | | | | ? Hnd Hall ].
    assert (Hparses : Forall (fun p => parses (snd p)) props).
    { rewrite Forall_forall in *. intros x Hx. apply IH; [ exact Hx | ].
      now apply Hall. }
    assert (Hproto : Forall (fun p => fst p <> PROTO) props).
    { revert Hall. apply Forall_impl. now intros x [Hx _]. }
    rewrite (while_object fuel d props Hparses fuel (pre ++ [tL]) tss tR post
               emptyObject Htok1 Hpost HR E Hprops Hd Hnd Hproto ltac:(lia) ltac:(lia)).
    cbn [bind app own inherits emptyObject].
    assert (Hown : hasOwnProperty props PROTO = false).
    { unfold hasOwnProperty.
      rewrite (proj2 (assoc_get_none PROTO props)); [ reflexivity | ].
      intros Hin. apply in_map_iff in Hin as (p & Ep & Hp).
      rewrite Forall_forall in Hproto. exact (Hproto p Hp Ep). }
    unfold ofObject. cbn [own inherits]. rewrite Hown. cbn [negb andb].
    fold (primitive (VObject props)).
    assert (Htok2 : tokens = ((pre ++ [tL]) ++ tss) ++ tR :: post)
      by (rewrite <- app_assoc; exact Htok1).
    rewrite <- length_app.
    unfold Parser.expect. rewrite (at_kind_at _ tR _ _ Htok2), HR.
    cbn [TokenKind.eqb negb bind].
    rewrite (advance_at _ tR _ Htok2 Hpost).
    rewrite !length_app. cbn [List.length]. rewrite length_app. cbn [List.length].
    do 2 f_equal. lia.
Qed.

End ParsesTokens.

(** ** Reading back what [stringify] wrote *)

Lemma carried_shaped v :
  carried v -> shaped (fun k => k <> PROTO) (fun _ => True) v.
Proof.
  induction v as [ | b | n | s | items IH | props IH ] using KodaValue_ind;
    intros Hc; inversion Hc as [ | | | | ? Hall | ? Hnd Hall ]; subst;
    constructor; auto.
  - rewrite Forall_forall in *. auto.
  - rewrite Forall_forall in *. intros p Hp. destruct (Hall p Hp) as (_ & Hk & Hv).
    auto.
Qed.

(** A token list that is the tokens of a value and [Eof] parses to the
    value. *)
Lemma parse_of_tokens text options tokens v :
  Lexer.tokenize text {| Lexer.maxInputLength := Parser.maxInputLength options |}
    = Ok tokens ->
  map erase tokens = tokensOf v ++ [(TokenKind.Eof, Lexer.NoValue)] ->
  shaped (fun k => k <> PROTO) (fun _ => True) v ->
  depth v <= Parser.depthLimit options ->
  Parser.parse text options = Ok v.
Proof.
  intros Htok E Hs Hdepth. unfold Parser.parse. rewrite Htok. cbn [bind].
  apply map_erase_snoc in E as (ts & e & -> & He & _ & E).
  assert (Hdoc : Parser.parseDocument (ts ++ [e]) (Parser.depthLimit options)
                   (List.length (ts ++ [e]) + 2) 0
                 = Parser.parseValue (ts ++ [e]) (Parser.depthLimit options)
                     (List.length (ts ++ [e]) + 2) 0 0).
  { unfold Parser.parseDocument.
    destruct (tokensOf_head v) as (k & x & r & Ev & _).
    rewrite Ev in E. apply map_erase_cons in E as (t & ts' & -> & Hk & _ & E).
    unfold Parser.isKey, Parser.at_kind, Parser.current. cbn [app nth].
    destruct v as [ | b | n | s | items | props ]; cbn [tokensOf] in Ev;
      injection Ev as <- _ <-; rewrite Hk;
      try (apply map_eq_nil in E; subst ts'; cbn [app nth List.length Nat.add Nat.ltb Nat.leb];
           rewrite He; cbn [TokenKind.eqb negb andb]; rewrite ?andb_false_r;
           reflexivity);
      reflexivity. }
  rewrite Hdoc.
  pose proof (parseValue_tokensOf (ts ++ [e]) (Parser.depthLimit options) v Hs
                (List.length (ts ++ [e]) + 2) 0 [] ts [e] eq_refl ltac:(discriminate) E
                ltac:(lia) ltac:(lia) ltac:(rewrite length_app; lia)) as Hp.
  change (List.length (@nil Lexer.Token)) with 0%nat in Hp.
  change (0 + List.length ts)%nat with (List.length ts) in Hp.
  rewrite Hp. cbn [bind].
  unfold Parser.expect.
  rewrite (at_kind_at (ts ++ [e]) ts e [] _ eq_refl), He. reflexivity.
Qed.

Lemma trim_untouched s c r :
  s = c :: r -> Stringify.isTrimmed c = false ->
  Stringify.isTrimmed (last s 0) = false ->
  Stringify.trim s = s.
Proof.
  intros -> Hc Hl. unfold Stringify.trim.
  cbn [dropWhile]. rewrite Hc.
  destruct (rev (c :: r)) as [ | x q ] eqn:E.
  - apply (f_equal (@List.length Z)) in E. rewrite length_rev in E. discriminate.
  - assert (Hx : x = last (c :: r) 0).
    { rewrite <- (rev_involutive (c :: r)), E. cbn [rev]. now rewrite last_last. }
    cbn [dropWhile]. rewrite Hx, Hl, <- Hx, <- E. apply rev_involutive.
Qed.

(** The text of a value has no white space at either end. *)
Lemma text_ends indent newline v level :
  carried v ->
  exists c r,
    Stringify.stringifyValue indent newline v level = c :: r
    /\ Stringify.isTrimmed c = false
    /\ Stringify.isTrimmed (last (Stringify.stringifyValue indent newline v level) 0) = false.
Proof.
  intros Hc. destruct Hc as [ | b | z Hz | s Hs | items _ | props _ _ ];
    cbn [Stringify.stringifyValue].
  - do 2 eexists. repeat split; reflexivity.
  - destruct b; do 2 eexists; repeat split; reflexivity.
  - destruct (writeNumber_head z Hz) as (c & r & -> & Hc & Hl & _).
    assert (Hw : forall d, d = 45 \/ 48 <= d <= 57 -> isWordOrDash d = true).
    { intros d [-> | Hd]; [ reflexivity | ].
      unfold isWordOrDash, isWord, isDigit.
      destruct (Z.leb_spec 48 d), (Z.leb_spec d 57); lia. }
    exists c, r. split; [ reflexivity | ].
    split; apply wordOrDash_not_trimmed, Hw; auto.
  - unfold Stringify.quoteValueString. destruct Hs as [ [Hq Ha] | Hw ].
    + rewrite Hq.
      destruct (unquoted_identifier s Hq Ha)
        as (first & more & -> & Hf & Hm & _).
      exists first, more. split; [ reflexivity | ].
      assert (Hall : forall c, In c (first :: more) -> Stringify.isTrimmed c = false).
      { intros c [ <- | Hin ];
          [ now apply wordOrDash_not_trimmed, alpha_wordOrDash | ].
        rewrite forallb_forall in Hm. apply wordOrDash_not_trimmed. auto. }
      split; [ apply Hall; now left | ].
      apply Hall. destruct (exists_last (l := first :: more) ltac:(discriminate))
        as (q & z & E). rewrite E, last_last. apply in_or_app. right. now left.
    + rewrite (wordless_needsQuote s Hw). do 2 eexists. split; [ reflexivity | ].
      split; [ reflexivity | ].
      change ([34] ++ Stringify.escapeDouble s ++ [34])
        with (([34] ++ Stringify.escapeDouble s) ++ [34]).
      now rewrite last_last.
  - destruct items as [ | x items ]; [ do 2 eexists; repeat split; reflexivity | ].
    cbv zeta. do 2 eexists. split; [ reflexivity | ]. split; [ reflexivity | ].
    rewrite !app_assoc. change (lit " ]") with ([32] ++ [93]).
    rewrite app_assoc. now rewrite last_last.
  - destruct props as [ | x props ]; [ do 2 eexists; repeat split; reflexivity | ].
    cbv zeta. do 2 eexists. split; [ reflexivity | ]. split; [ reflexivity | ].
    rewrite !app_assoc. change (lit " }") with ([32] ++ [125]).
    rewrite app_assoc. now rewrite last_last.
Qed.

Lemma stringify_carried v options :
  carried v ->
  Stringify.stringify v options
  = Stringify.stringifyValue
      (match Stringify.indent options with Some i => i | None => [] end)
      (match Stringify.newline options with Some n => n | None => [10] end) v 0.
Proof.
  intros Hc. unfold Stringify.stringify.
  destruct (text_ends (match Stringify.indent options with Some i => i | None => [] end)
              (match Stringify.newline options with Some n => n | None => [10] end)
              v 0 Hc) as (c & r & Et & H1 & H2).
  now apply (trim_untouched _ c r).
Qed.

(** ** The single-pass parser and the token parser *)

Lemma readQuoted_agree quote s p tok c :
  Lexer.readQuotedString quote s p = Ok (tok, c) ->
  Lexer.kind tok = TokenKind.String
  /\ exists text,
       Lexer.value tok = Lexer.Str text
       /\ ParseFast.readQuoted quote s p = Ok (text, c).
Proof.
  unfold Lexer.readQuotedString, ParseFast.readQuoted.
  destruct s as [ | q s1 ]; [ discriminate | ].
  destruct (Lexer.readQuotedBody _ quote s1 (Lexer.advance q p) [])
    as [ [text [s2 p2]] | | ] eqn:E; cbn [bind]; try discriminate.
  intros [= <- <-]. split; [ reflexivity | ].
  exists text. split; [ reflexivity | ].
  now apply readQuotedBody_agree.
Qed.

Lemma readNumberTail_numeric start buf s p tok c :
  Lexer.readNumberTail start buf s p = Ok (tok, c) -> numeric (Lexer.kind tok) = true.
Proof.
  unfold Lexer.readNumberTail.
  match goal with
  | |- (match ?frac with _ => _ end) = _ -> _ =>
      destruct frac as [[[isFloat1 buf1] s1] p1]
  end.
  match goal with
  | |- (bind ?e _) = _ -> _ =>
      destruct e as [ [[[isFloat raw] s2] p2] | err | ]; cbn [bind]; try discriminate
  end.
  destruct isFloat.
  - destruct (isNaN _); [ discriminate | ]. now intros [= <- <-].
  - destruct (_ || _); [ discriminate | ]. now intros [= <- <-].
Qed.

Lemma readNumber_numeric s p tok c :
  Lexer.readNumber s p = Ok (tok, c) -> numeric (Lexer.kind tok) = true.
Proof.
  unfold Lexer.readNumber. cbv zeta.
  match goal with
  | |- (match ?sign with _ => _ end) = _ -> _ => destruct sign as [[buf s0] p0]
  end.
  destruct s0 as [ | c0 s1 ]; [ discriminate | ].
  destruct (c0 =? 48).
  { destruct s1 as [ | d s2 ]; [ now intros [= <- <-] | ].
    destruct ((d =? 46) || (d =? 101) || (d =? 69));
      [ apply readNumberTail_numeric | ].
    destruct ((49 <=? d) && (d <=? 57)); [ discriminate | now intros [= <- <-] ]. }
  destruct ((49 <=? c0) && (c0 <=? 57)); [ apply readNumberTail_numeric | ].
  destruct (c0 =? 46); [ | discriminate ].
  destruct (takeWhile isDigit s1); [ discriminate | ].
  destruct (isNaN _); [ discriminate | ]. now intros [= <- <-].
Qed.

(** The exponent of a number: the reader reads what the lexer reads, when
    the lexer finds a number. *)
Lemma numberExponent_agree start buf1 sg ip fp (isFloatL isFloatR : bool)
  s2 p2 tok cur :
  buf1 = sg ++ ip ++ fp ->
  (isFloatL = true -> isFloatR = true) ->
  (isFloatR = true -> isFloatL = false ->
   exists c r, s2 = c :: r /\ ((c =? 101) || (c =? 69)) = true) ->
  ('(isFloat, raw, s3, p3) <-
     match s2 with
     | c :: r =>
         if (c =? 101) || (c =? 69) then
           let pc := Lexer.advance c p2 in
           let '(sg', r1, pg) :=
             match r with
             | g :: r' =>
                 if (g =? 43) || (g =? 45) then ([g], r', Lexer.advance g pc)
                 else ([], r, pc)
             | [] => ([], r, pc)
             end in
           match takeWhile isDigit r1 with
           | [] => Lexer.fail [T "Invalid exponent"] pg
           | ds => Ok (true, buf1 ++ [c] ++ sg' ++ ds, dropWhile isDigit r1,
                       Lexer.advanceAll ds pg)
           end
         else Ok (isFloatL, buf1, s2, p2)
     | [] => Ok (isFloatL, buf1, s2, p2)
     end ;;
   if isFloat : bool then
     let n := parseFloat raw in
     if isNaN n then Lexer.fail [T "Invalid float"] p3
     else Ok ({| Lexer.kind := TokenKind.Float; Lexer.value := Lexer.Num n;
                 Lexer.start := start; Lexer.end_ := p3 |}, (s3, p3))
   else
     let n := parseInt raw in
     if isNaN n || Lexer.outOfSafeRange n then Lexer.fail [T "Integer out of range"] p3
     else Ok ({| Lexer.kind := TokenKind.Integer; Lexer.value := Lexer.Num n;
                 Lexer.start := start; Lexer.end_ := p3 |}, (s3, p3)))
  = Ok (tok, cur) ->
  exists num isFloat,
    (let '(isFloat, ep, s3, p3) :=
       match s2 with
       | c :: r =>
           if (c =? 101) || (c =? 69) then
             let pc := Lexer.advance c p2 in
             let '(g, r1, pg) :=
               match r with
               | x :: r' =>
                   if (x =? 43) || (x =? 45) then ([x], r', Lexer.advance x pc)
                   else ([], r, pc)
               | [] => ([], r, pc)
               end in
             let ds := takeWhile isDigit r1 in
             (true, [c] ++ g ++ ds, dropWhile isDigit r1, Lexer.advanceAll ds pg)
           else (isFloatR, [], s2, p2)
       | [] => (isFloatR, [], s2, p2)
       end in
     let raw := sg ++ ip ++ fp ++ ep in
     let num := if isFloat : bool then parseFloat raw else parseInt raw in
     if isNaN num then Lexer.fail [T "Invalid number"] p3
     else if negb isFloat && Lexer.outOfSafeRange num
     then Lexer.fail [T "Integer out of range"] p3
     else Ok (num, isFloat, (s3, p3)))
    = Ok (num, isFloat, cur)
    /\ Lexer.kind tok = (if isFloat : bool then TokenKind.Float else TokenKind.Integer)
    /\ Lexer.value tok = Lexer.Num num.
Proof.
  intros -> HLR HRL. unfold Lexer.fail.
  assert (Hsame : forall c r, s2 = c :: r -> (c =? 101) || (c =? 69) = false ->
                  isFloatL = isFloatR).
  { intros c r E Ec. destruct isFloatL, isFloatR; try reflexivity.
    - now specialize (HLR eq_refl).
    - destruct (HRL eq_refl eq_refl) as (c' & r' & E' & Hc). congruence. }
  assert (Hnil : s2 = [] -> isFloatL = isFloatR).
  { intros E. destruct isFloatL, isFloatR; try reflexivity.
    - now specialize (HLR eq_refl).
    - destruct (HRL eq_refl eq_refl) as (c' & r' & E' & Hc). congruence. }
  assert (Hplain :
            (if isFloatR
             then
               let n := parseFloat (sg ++ ip ++ fp) in
               if isNaN n then Throw (KodaParseError [T "Invalid float"] p2)
               else Ok ({| Lexer.kind := TokenKind.Float; Lexer.value := Lexer.Num n;
                           Lexer.start := start; Lexer.end_ := p2 |}, (s2, p2))
             else
               let n := parseInt (sg ++ ip ++ fp) in
               if isNaN n || Lexer.outOfSafeRange n
               then Throw (KodaParseError [T "Integer out of range"] p2)
               else Ok ({| Lexer.kind := TokenKind.Integer; Lexer.value := Lexer.Num n;
                           Lexer.start := start; Lexer.end_ := p2 |}, (s2, p2)))
            = Ok (tok, cur) ->
            exists num isFloat,
              (let raw := sg ++ ip ++ fp ++ [] in
               let num := if isFloatR then parseFloat raw else parseInt raw in
               if isNaN num then Throw (KodaParseError [T "Invalid number"] p2)
               else if negb isFloatR && Lexer.outOfSafeRange num
               then Throw (KodaParseError [T "Integer out of range"] p2)
               else Ok (num, isFloatR, (s2, p2)))
              = Ok (num, isFloat, cur)
              /\ Lexer.kind tok
                 = (if isFloat : bool then TokenKind.Float else TokenKind.Integer)
              /\ Lexer.value tok = Lexer.Num num).
  { cbv zeta. rewrite !app_nil_r. destruct isFloatR.
    - destruct (isNaN (parseFloat _)); [ discriminate | ].
      intros [= <- <-]. do 2 eexists. repeat split.
    - cbn [negb andb]. destruct (isNaN (parseInt _)); [ discriminate | ].
      cbn [orb]. destruct (Lexer.outOfSafeRange _); [ discriminate | ].
      intros [= <- <-]. do 2 eexists. repeat split. }
  destruct s2 as [ | c r ].
  { cbn [bind]. rewrite (Hnil eq_refl). exact Hplain. }
  destruct ((c =? 101) || (c =? 69)) eqn:Ee.
  - cbv zeta.
    match goal with
    | |- context [match ?sign with (_, _) => _ end] =>
        destruct sign as [[g r1] pg]
    end.
    destruct (takeWhile isDigit r1) as [ | d ds ] eqn:Eds; [ discriminate | ].
    cbn [bind].
    replace ((sg ++ ip ++ fp) ++ [c] ++ g ++ d :: ds)
      with (sg ++ ip ++ fp ++ [c] ++ g ++ d :: ds)
      by now rewrite <- !app_assoc.
    destruct (isNaN (parseFloat _)); [ discriminate | ].
    intros [= <- <-]. do 2 eexists. repeat split.
  - cbn [bind]. rewrite (Hsame c r eq_refl Ee). exact Hplain.
Qed.

(** The fraction and the exponent. *)
Lemma numberTail_agree start sg ip s1 p1 tok cur (isFloat0 : bool) :
  Lexer.readNumberTail start (sg ++ ip) s1 p1 = Ok (tok, cur) ->
  (isFloat0 = true ->
   exists c r, s1 = c :: r /\ ((c =? 46) || (c =? 101) || (c =? 69)) = true) ->
  exists num isFloat,
    (let '(isFloat1, fp, s2, p2) :=
       match s1 with
       | c :: r =>
           if c =? 46 then
             let ds := takeWhile isDigit r in
             (true, c :: ds, dropWhile isDigit r, Lexer.advanceAll (c :: ds) p1)
           else (isFloat0, [], s1, p1)
       | [] => (isFloat0, [], s1, p1)
       end in
     let '(isFloat, ep, s3, p3) :=
       match s2 with
       | c :: r =>
           if (c =? 101) || (c =? 69) then
             let pc := Lexer.advance c p2 in
             let '(g, r1, pg) :=
               match r with
               | x :: r' =>
                   if (x =? 43) || (x =? 45) then ([x], r', Lexer.advance x pc)
                   else ([], r, pc)
               | [] => ([], r, pc)
               end in
             let ds := takeWhile isDigit r1 in
             (true, [c] ++ g ++ ds, dropWhile isDigit r1, Lexer.advanceAll ds pg)
           else (isFloat1, [], s2, p2)
       | [] => (isFloat1, [], s2, p2)
       end in
     let raw := sg ++ ip ++ fp ++ ep in
     let num := if isFloat : bool then parseFloat raw else parseInt raw in
     if isNaN num then Lexer.fail [T "Invalid number"] p3
     else if negb isFloat && Lexer.outOfSafeRange num
     then Lexer.fail [T "Integer out of range"] p3
     else Ok (num, isFloat, (s3, p3)))
    = Ok (num, isFloat, cur)
    /\ Lexer.kind tok = (if isFloat : bool then TokenKind.Float else TokenKind.Integer)
    /\ Lexer.value tok = Lexer.Num num.
Proof.
  unfold Lexer.readNumberTail. intros H Hfloat.
  destruct s1 as [ | c r ].
  - apply (numberExponent_agree start (sg ++ ip) sg ip [] false isFloat0 [] p1 tok cur);
      [ now rewrite app_nil_r | discriminate | | exact H ].
    intros E _. destruct (Hfloat E) as (c & r & Ec & _). discriminate Ec.
  - destruct (c =? 46) eqn:E46.
    + apply (numberExponent_agree start ((sg ++ ip) ++ [c] ++ takeWhile isDigit r)
               sg ip (c :: takeWhile isDigit r) true true
               (dropWhile isDigit r)
               (Lexer.advanceAll (c :: takeWhile isDigit r) p1) tok cur);
        [ now rewrite <- app_assoc | auto | discriminate | exact H ].
    + apply (numberExponent_agree start (sg ++ ip) sg ip [] false isFloat0
               (c :: r) p1 tok cur);
        [ now rewrite app_nil_r | discriminate | | exact H ].
      intros E _. destruct (Hfloat E) as (c' & r' & [= <- <-] & Hc).
      rewrite E46 in Hc. cbn [orb] in Hc. eauto.
Qed.

Lemma readNumber_agree c r p tok cur :
  Lexer.readNumber (c :: r) p = Ok (tok, cur) ->
  (c =? 45) || isDigit c = true ->
  signed_from_one (c :: r) ->
  exists num isFloat,
    ParseFast.readNumber (c :: r) p = Ok (num, isFloat, cur)
    /\ Lexer.kind tok = (if isFloat : bool then TokenKind.Float else TokenKind.Integer)
    /\ Lexer.value tok = Lexer.Num num.
Proof.
  intros H Hc Hsigned.
  unfold Lexer.readNumber in H. unfold ParseFast.readNumber.
  unfold ParseFast.advance, ParseFast.advanceAll, ParseFast.fail in *.
  cbv zeta in H |- *.
  destruct (c =? 45) eqn:E45.
  - apply Z.eqb_eq in E45. subst c. cbn [signed_from_one] in Hsigned.
    destruct r as [ | d r' ]; [ contradiction | ].
    assert (E48 : (d =? 48) = false) by (apply Z.eqb_neq; lia).
    assert (E19 : (49 <=? d) && (d <=? 57) = true)
      by (apply andb_true_iff; split; apply Z.leb_le; lia).
    rewrite E48 in *. rewrite E19 in H. cbn [bind].
    apply (numberTail_agree p [45] (takeWhile isDigit (d :: r')) _ _ tok cur false H).
    discriminate.
  - cbn [orb] in Hc.
    destruct (c =? 48) eqn:E48.
    + apply Z.eqb_eq in E48. subst c.
      assert (Hzero : isNaN (parseInt ([] ++ [48] ++ [] ++ [])) = false
                      /\ Lexer.outOfSafeRange (parseInt ([] ++ [48] ++ [] ++ [])) = false
                      /\ parseInt ([] ++ [48] ++ [] ++ []) = posZero)
        by (repeat split; vm_compute; reflexivity).
      destruct Hzero as (Hz1 & Hz2 & Hz3).
      destruct r as [ | d r' ].
      * injection H as <- <-. cbn [bind]. rewrite Hz1, Hz2, Hz3. cbn [negb andb].
        do 2 eexists. repeat split.
      * destruct ((d =? 46) || (d =? 101) || (d =? 69)) eqn:Ed.
        -- assert (E19 : (49 <=? d) && (d <=? 57) = false).
           { apply orb_true_iff in Ed as [ Ed | Ed ];
               [ apply orb_true_iff in Ed as [ Ed | Ed ] | ];
               apply Z.eqb_eq in Ed; subst d; reflexivity. }
           rewrite E19. cbn [bind].
           apply (numberTail_agree p [] [48] _ _ tok cur true H).
           intros _. eauto.
        -- destruct ((49 <=? d) && (d <=? 57)); [ discriminate | ].
           injection H as <- <-. cbn [bind].
           apply orb_false_iff in Ed as [Ed E69].
           apply orb_false_iff in Ed as [E46 E101].
           rewrite E46. cbv zeta. rewrite E101, E69. cbn [orb].
           rewrite Hz1, Hz2, Hz3. cbn [negb andb].
           do 2 eexists. repeat split.
    + assert (E19 : (49 <=? c) && (c <=? 57) = true).
      { unfold isDigit in Hc. apply andb_true_iff in Hc as [H1 H2].
        apply Z.leb_le in H1, H2. apply Z.eqb_neq in E48.
        apply andb_true_iff; split; apply Z.leb_le; lia. }
      rewrite E19 in H. cbn [bind].
      apply (numberTail_agree p [] (takeWhile isDigit (c :: r)) _ _ tok cur false H).
      discriminate.
Qed.

(** What the lexer does at a position, the reader does: at the end of the
    input both are at [Eof]; elsewhere the reader reads the token that the
    lexer appends and stops where the lexer goes on, provided that the token,
    if it is a number, has its minus sign before a digit from 1 to 9. *)
Lemma step_agree fuel s p acc tokens k v :
  Lexer.tokenizeLoop (Datatypes.S fuel) s p acc = Ok tokens ->
  (exists p1,
      tokens = acc ++ [{| Lexer.kind := TokenKind.Eof; Lexer.value := Lexer.NoValue;
                          Lexer.start := p1; Lexer.end_ := p1 |}]
      /\ ParseFast.readToken {| ParseFast.rest := s; ParseFast.at_pos := p;
                                ParseFast.kind := k; ParseFast.val := v |}
         = Ok {| ParseFast.rest := []; ParseFast.at_pos := p1;
                 ParseFast.kind := TokenKind.Eof; ParseFast.val := v |})
  \/ (exists tok s3 p3,
         Lexer.tokenizeLoop fuel s3 p3 (acc ++ [tok]) = Ok tokens
         /\ Lexer.kind tok <> TokenKind.Eof
         /\ advances s p s3 p3
         /\ exists s1,
              (numeric (Lexer.kind tok) = true -> advances s p s1 (Lexer.start tok))
              /\ (numeric (Lexer.kind tok) = false \/ signed_from_one s1 ->
                  exists v',
                    ParseFast.readToken {| ParseFast.rest := s; ParseFast.at_pos := p;
                                           ParseFast.kind := k; ParseFast.val := v |}
                    = Ok {| ParseFast.rest := s3; ParseFast.at_pos := p3;
                            ParseFast.kind := Lexer.kind tok; ParseFast.val := v' |}
                    /\ (Lexer.kind tok = TokenKind.String
                        \/ Lexer.kind tok = TokenKind.Identifier
                        \/ numeric (Lexer.kind tok) = true ->
                        v' = Lexer.value tok))).
Proof.
  cbn [Lexer.tokenizeLoop]. unfold ParseFast.readToken.
  cbn [ParseFast.rest ParseFast.at_pos ParseFast.val].
  destruct (Lexer.skipWhitespaceAndComments (List.length s + 1) s p)
    as [ [s1 p1] | | ] eqn:Es; cbn [bind]; try discriminate.
  pose proof (skipWhitespaceAndComments_advances _ _ _ _ _ Es) as Hskip.
  apply skipWs_agree in Es. rewrite Es. cbn [bind].
  destruct s1 as [ | c s2 ].
  { intros [= <-]. left. exists p1. auto. }
  cbv zeta. unfold ParseFast.advance.
  intros H. right.
  pose proof (advances_trans _ _ _ _ _ _ Hskip (advances_cons c s2 p1)) as Hone.
  assert (Hpunct : forall kd,
             Lexer.tokenizeLoop fuel s2 (Lexer.advance c p1)
               (acc ++ [Lexer.punctuation kd c p1]) = Ok tokens ->
             kd <> TokenKind.Eof -> kd <> TokenKind.String ->
             kd <> TokenKind.Identifier -> numeric kd = false ->
             exists tok s3 p3,
               Lexer.tokenizeLoop fuel s3 p3 (acc ++ [tok]) = Ok tokens
               /\ Lexer.kind tok <> TokenKind.Eof
               /\ advances s p s3 p3
               /\ exists s1',
                    (numeric (Lexer.kind tok) = true ->
                     advances s p s1' (Lexer.start tok))
                    /\ (numeric (Lexer.kind tok) = false \/ signed_from_one s1' ->
                        exists v',
                          Ok {| ParseFast.rest := s2;
                                ParseFast.at_pos := Lexer.advance c p1;
                                ParseFast.kind := kd; ParseFast.val := v |}
                          = Ok {| ParseFast.rest := s3; ParseFast.at_pos := p3;
                                  ParseFast.kind := Lexer.kind tok;
                                  ParseFast.val := v' |}
                          /\ (Lexer.kind tok = TokenKind.String
                              \/ Lexer.kind tok = TokenKind.Identifier
                              \/ numeric (Lexer.kind tok) = true ->
                              v' = Lexer.value tok))).
  { intros kd Hk H1 H2 H3 H4. do 3 eexists. split; [ exact Hk | ].
    split; [ exact H1 | ]. split; [ exact Hone | ]. exists [].
    cbn [Lexer.punctuation Lexer.kind]. split; [ congruence | ].
    intros _. eexists. split; [ reflexivity | ].
    intros [ E | [ E | E ] ]; congruence. }
  destruct (c =? 123); [ apply Hpunct; [ exact H | discriminate .. | reflexivity ] | ].
  destruct (c =? 125); [ apply Hpunct; [ exact H | discriminate .. | reflexivity ] | ].
  destruct (c =? 91); [ apply Hpunct; [ exact H | discriminate .. | reflexivity ] | ].
  destruct (c =? 93); [ apply Hpunct; [ exact H | discriminate .. | reflexivity ] | ].
  destruct (c =? 58); [ apply Hpunct; [ exact H | discriminate .. | reflexivity ] | ].
  destruct (c =? 44); [ apply Hpunct; [ exact H | discriminate .. | reflexivity ] | ].
  clear Hpunct.
  destruct ((c =? 34) || (c =? 39)).
  { destruct (Lexer.readQuotedString c (c :: s2) p1) as [ [tok [s3 p3]] | | ] eqn:Eq;
      cbn [bind] in H; try discriminate.
    pose proof (readQuotedString_advances _ _ _ _ _ _ Eq) as Hadv.
    destruct (readQuoted_agree _ _ _ _ _ Eq) as (Hk & text & Hv & ->).
    exists tok, s3, p3. split; [ exact H | ]. split; [ rewrite Hk; discriminate | ].
    split; [ exact (advances_trans _ _ _ _ _ _ Hskip Hadv) | ]. exists [].
    split; [ rewrite Hk; discriminate | ].
    intros _. cbn [bind]. rewrite Hk, Hv. eexists. split; reflexivity || auto. }
  destruct ((c =? 45) || isDigit c) eqn:Enum.
  { destruct (Lexer.readNumber (c :: s2) p1) as [ [tok [s3 p3]] | | ] eqn:En;
      cbn [bind] in H; try discriminate.
    pose proof (readNumber_numeric _ _ _ _ En) as Hnum.
    destruct (readNumber_advances _ _ _ _ _ En) as [Hadv Hstart].
    exists tok, s3, p3. split; [ exact H | ].
    split; [ intros E; rewrite E in Hnum; discriminate | ].
    split; [ exact (advances_trans _ _ _ _ _ _ Hskip Hadv) | ]. exists (c :: s2).
    split; [ intros _; now rewrite Hstart | ].
    intros [ E | Hsigned ]; [ congruence | ].
    destruct (readNumber_agree c s2 p1 tok (s3, p3) En Enum Hsigned)
      as (num & isFloat & -> & Hk & Hv).
    cbn [bind]. rewrite Hk, Hv. eexists. split; reflexivity || auto. }
  destruct (isLower c || isUpper c || (c =? 95)) eqn:Ealpha; [ | discriminate ].
  assert (Hw : isWord c = true) by (unfold isWord, isAlpha_; now rewrite Ealpha).
  assert (Hwd : isWordOrDash c = true) by (unfold isWordOrDash; now rewrite Hw).
  destruct (Lexer.readIdentifierOrKeyword (c :: s2) p1) as [ [tok [s3 p3]] | | ] eqn:Ei;
    cbn [bind] in H; try discriminate.
  pose proof (readIdentifierOrKeyword_advances _ _ _ _ _ Ei) as Hadv.
  exists tok, s3, p3. split; [ exact H | ].
  unfold Lexer.readIdentifierOrKeyword in Ei. rewrite Hw in Ei. cbn [negb andb] in Ei.
  cbv zeta in Ei.
  unfold ParseFast.readIdentifier, ParseFast.advanceAll.
  cbn [takeWhile dropWhile]. rewrite Hwd.
  assert (Hrest : forall kd vd,
             Ok ({| Lexer.kind := kd; Lexer.value := vd; Lexer.start := p1;
                    Lexer.end_ := Lexer.advanceAll (c :: takeWhile isWordOrDash s2) p1 |},
                 (dropWhile isWordOrDash s2,
                  Lexer.advanceAll (c :: takeWhile isWordOrDash s2) p1))
             = Ok (tok, (s3, p3)) ->
             kd <> TokenKind.Eof -> numeric kd = false ->
             (kd = TokenKind.String \/ kd = TokenKind.Identifier -> vd = vd) ->
             Lexer.kind tok <> TokenKind.Eof
             /\ advances s p s3 p3
             /\ exists s1',
                  (numeric (Lexer.kind tok) = true -> advances s p s1' (Lexer.start tok))
                  /\ (numeric (Lexer.kind tok) = false \/ signed_from_one s1' ->
                      exists v',
                        Ok {| ParseFast.rest := dropWhile isWordOrDash s2;
                              ParseFast.at_pos :=
                                Lexer.advanceAll (c :: takeWhile isWordOrDash s2) p1;
                              ParseFast.kind := kd; ParseFast.val := vd |}
                        = Ok {| ParseFast.rest := s3; ParseFast.at_pos := p3;
                                ParseFast.kind := Lexer.kind tok; ParseFast.val := v' |}
                        /\ (Lexer.kind tok = TokenKind.String
                            \/ Lexer.kind tok = TokenKind.Identifier
                            \/ numeric (Lexer.kind tok) = true ->
                            v' = Lexer.value tok))).
  { intros kd vd [= <- <- <-] H1 H2 _. cbn [Lexer.kind Lexer.value].
    split; [ exact H1 | ]. split; [ exact (advances_trans _ _ _ _ _ _ Hskip Hadv) | ].
    exists []. split; [ congruence | ]. intros _. eexists. split; reflexivity. }
  destruct (str_eqb (c :: takeWhile isWordOrDash s2) (lit "true"));
    [ apply (Hrest _ _ Ei); [ discriminate | reflexivity | auto ] | ].
  destruct (str_eqb (c :: takeWhile isWordOrDash s2) (lit "false"));
    [ apply (Hrest _ _ Ei); [ discriminate | reflexivity | auto ] | ].
  destruct (str_eqb (c :: takeWhile isWordOrDash s2) (lit "null"));
    [ apply (Hrest _ _ Ei); [ discriminate | reflexivity | auto ] | ].
  apply (Hrest _ _ Ei); [ discriminate | reflexivity | auto ].
Qed.

(** The tokens read so far stay at the head of the result. *)
Lemma tokenizeLoop_prefix fuel :
  forall s p acc tokens,
    Lexer.tokenizeLoop fuel s p acc = Ok tokens -> exists toks, tokens = acc ++ toks.
Proof.
  induction fuel as [ | fuel IH ]; intros s p acc tokens; [ discriminate | ].
  intros H. destruct (step_agree fuel s p acc tokens TokenKind.Eof Lexer.NoValue H)
    as [ (p1 & -> & _) | (tok & s3 & p3 & H' & _) ]; [ eauto | ].
  destruct (IH _ _ _ _ H') as (toks & ->). rewrite <- app_assoc. eauto.
Qed.

(** Skipping white space twice is skipping it once. *)
Lemma skip_idempotent fuel :
  forall s p s1 p1 n,
    Lexer.skipWhitespaceAndComments fuel s p = Ok (s1, p1) ->
    Lexer.skipWhitespaceAndComments (Datatypes.S n) s1 p1 = Ok (s1, p1).
Proof.
  induction fuel as [ | fuel IH ]; intros s p s1 p1 n; [ discriminate | ].
  cbn [Lexer.skipWhitespaceAndComments].
  destruct s as [ | c s' ]; [ now intros [= <- <-] | ].
  destruct (Lexer.isSpace c) eqn:Ec; [ apply IH | ].
  destruct (c =? 47) eqn:E47.
  2: { intros [= <- <-]. cbn [Lexer.skipWhitespaceAndComments].
       now rewrite Ec, E47. }
  destruct s' as [ | d s2 ].
  { intros [= <- <-]. cbn [Lexer.skipWhitespaceAndComments]. now rewrite Ec, E47. }
  destruct (d =? 47) eqn:Ed.
  { destruct (Lexer.skipLine s2 _) as [s3 p3]. apply IH. }
  destruct (d =? 42) eqn:Ed2.
  { destruct (Lexer.skipBlock s2 _ 1) as [ [s3 p3] | | ]; cbn [bind];
      try discriminate. apply IH. }
  intros [= <- <-]. cbn [Lexer.skipWhitespaceAndComments].
  now rewrite Ec, E47, Ed, Ed2.
Qed.

(** ** Simulation of the token parser by the single-pass parser *)

Section Simulation.

(** Two results that agree, when neither ran out of fuel: both are values,
    related by [Q], or both are exceptions. *)
Let sim {X Y} (Q : X -> Y -> Prop) (m1 : result X) (m2 : result Y) : Prop :=
  match m1, m2 with
  | OutOfFuel, _ | _, OutOfFuel => True
  | Ok a, Ok b => Q a b
  | Throw _, Throw _ => True
  | _, _ => False
  end.

Lemma sim_out {X Y} (Q : X -> Y -> Prop) m1 : sim Q m1 OutOfFuel.
Proof. destruct m1; exact I. Qed.

Lemma sim_bind {X Y X' Y'} (Q : X -> Y -> Prop) (Q' : X' -> Y' -> Prop)
  m1 m2 k1 k2 :
  sim Q m1 m2 -> (forall a b, Q a b -> sim Q' (k1 a) (k2 b)) ->
  sim Q' (bind m1 k1) (bind m2 k2).
Proof.
  destruct m1 as [ a | e | ], m2 as [ b | e' | ]; cbn; intros H Hk;
    try exact I; try contradiction; auto.
  destruct (k1 a); exact I.
Qed.

Lemma while_sim {S1 S2} (R : S1 -> S2 -> Prop) c1 b1 c2 b2 :
  (forall s1 s2, R s1 s2 -> c1 s1 = c2 s2) ->
  (forall s1 s2, R s1 s2 -> c1 s1 = true -> sim R (b1 s1) (b2 s2)) ->
  forall f1 f2 s1 s2,
    R s1 s2 ->
    sim (fun s1' s2' => R s1' s2' /\ c1 s1' = false)
      (Parser.while f1 c1 b1 s1) (Parser.while f2 c2 b2 s2).
Proof.
  intros Hc Hb. induction f1 as [ | f1 IH ]; intros f2 s1 s2 HR; [ exact I | ].
  destruct f2 as [ | f2 ]; [ apply sim_out | ].
  cbn [Parser.while]. rewrite <- (Hc s1 s2 HR).
  destruct (c1 s1) eqn:E; [ | now split ].
  apply (sim_bind R _); [ now apply Hb | ]. intros a b Hab. now apply IH.
Qed.

Variable text : jsstring.
Variable tokens : list Lexer.Token.
Variable maxDepth : Z.
Hypothesis tokens_plain : plain_numbers text tokens.

(** The reader has just read what [tokenize] put before the index [i]. *)
Let before (s : jsstring) (p : SourcePosition) (i : nat) : Prop :=
  exists fuel,
    advances text (pos 1 1 0) s p
    /\ Lexer.tokenizeLoop fuel s p (firstn i tokens) = Ok tokens.

(** The reader is at the token of index [i]. *)
Let follows (r : ParseFast.Reader) (i : nat) : Prop :=
  (i < List.length tokens)%nat
  /\ ParseFast.kind r = Lexer.kind (Parser.current tokens i)
  /\ (ParseFast.kind r = TokenKind.String \/ ParseFast.kind r = TokenKind.Identifier
      \/ numeric (ParseFast.kind r) = true ->
      ParseFast.val r = Lexer.value (Parser.current tokens i))
  /\ ((ParseFast.kind r = TokenKind.Eof /\ ParseFast.rest r = []
       /\ Datatypes.S i = List.length tokens)
      \/ (ParseFast.kind r <> TokenKind.Eof
          /\ before (ParseFast.rest r) (ParseFast.at_pos r) (Datatypes.S i))).

Lemma current_nth i :
  (i < List.length tokens)%nat ->
  forall d, Parser.current tokens i = nth i tokens d.
Proof. intros H d. unfold Parser.current. now apply nth_indep. Qed.

Lemma readToken_before s p k v i :
  before s p i ->
  exists r',
    ParseFast.readToken {| ParseFast.rest := s; ParseFast.at_pos := p;
                           ParseFast.kind := k; ParseFast.val := v |} = Ok r'
    /\ follows r' i.
Proof using tokens_plain.
  intros (fuel & Hadv & H). destruct fuel as [ | fuel ]; [ discriminate | ].
  destruct (tokenizeLoop_prefix _ _ _ _ _ H) as (toks & Etoks).
  assert (Hi : (i <= List.length tokens)%nat).
  { destruct (Nat.le_gt_cases i (List.length tokens)) as [ | Hgt ]; [ assumption | ].
    exfalso. rewrite firstn_all2 in Etoks by lia.
    apply (f_equal (@List.length _)) in Etoks. rewrite length_app in Etoks.
    pose proof H as H'. rewrite firstn_all2 in H' by lia.
    destruct (step_agree fuel s p tokens tokens k v H')
      as [ (p1 & E & _) | (tok & s3 & p3 & H3 & _) ].
    - apply (f_equal (@List.length _)) in E. rewrite length_app in E.
      cbn [List.length] in E. lia.
    - destruct (tokenizeLoop_prefix _ _ _ _ _ H3) as (toks' & E).
      apply (f_equal (@List.length _)) in E. rewrite !length_app in E.
      cbn [List.length] in E. lia. }
  assert (Hlen : List.length (firstn i tokens) = i) by (apply firstn_length_le; lia).
  assert (Hfirst : forall l, tokens = firstn i tokens ++ l ->
                   forall n d, nth (i + n) tokens d = nth n l d).
  { intros l El n d. rewrite El at 1. rewrite app_nth2 by lia.
    f_equal. lia. }
  destruct (step_agree fuel s p (firstn i tokens) tokens k v H)
    as [ (p1 & E & ->) | (tok & s3 & p3 & H3 & Hk & Hadv3 & s1 & Hstart & Hread) ].
  - eexists. split; [ reflexivity | ].
    assert (Hn : List.length tokens = Datatypes.S i).
    { apply (f_equal (@List.length _)) in E. rewrite length_app, Hlen in E.
      cbn [List.length] in E. lia. }
    assert (Hc : Parser.current tokens i
                 = {| Lexer.kind := TokenKind.Eof; Lexer.value := Lexer.NoValue;
                      Lexer.start := p1; Lexer.end_ := p1 |}).
    { rewrite (current_nth i ltac:(lia) Parser.eof).
      pose proof (Hfirst _ E 0%nat Parser.eof) as Hnth.
      rewrite Nat.add_0_r in Hnth. exact Hnth. }
    unfold follows. cbn [ParseFast.kind ParseFast.val ParseFast.rest].
    rewrite Hc. cbn [Lexer.kind].
    split; [ lia | ]. split; [ reflexivity | ].
    split; [ intros [ E1 | [ E1 | E1 ] ]; discriminate E1 | ]. left. auto.
  - destruct (tokenizeLoop_prefix _ _ _ _ _ H3) as (toks' & E).
    rewrite <- app_assoc in E.
    assert (Hlt : (i < List.length tokens)%nat).
    { apply (f_equal (@List.length _)) in E. rewrite !length_app, Hlen in E.
      cbn [List.length] in E. lia. }
    assert (Hc : Parser.current tokens i = tok).
    { rewrite (current_nth i Hlt Parser.eof).
      pose proof (Hfirst _ E 0%nat Parser.eof) as Hnth.
      rewrite Nat.add_0_r in Hnth. exact Hnth. }
    assert (Hin : In tok tokens).
    { rewrite E. apply in_or_app. right. now left. }
    pose proof (proj1 (Forall_forall _ _) tokens_plain tok Hin) as Hnum.
    assert (Hok : numeric (Lexer.kind tok) = false \/ signed_from_one s1).
    { destruct (Bool.bool_dec (numeric (Lexer.kind tok)) true) as [ En | En ];
        [ right | left; now apply not_true_is_false ].
      specialize (Hnum En). specialize (Hstart En).
      destruct (advances_trans _ _ _ _ _ _ Hadv Hstart) as (read & Etext & Epos).
      unfold textFrom in Hnum.
      now rewrite (advances_offset text read s1 _ Etext Epos) in Hnum. }
    destruct (Hread Hok) as (v' & -> & Hv).
    eexists. split; [ reflexivity | ].
    unfold follows. cbn [ParseFast.kind ParseFast.val ParseFast.rest ParseFast.at_pos].
    rewrite Hc. split; [ exact Hlt | ]. split; [ reflexivity | ].
    split; [ exact Hv | ]. right. split; [ exact Hk | ].
    exists fuel. split; [ exact (advances_trans _ _ _ _ _ _ Hadv Hadv3) | ].
    assert (Ef : firstn (Datatypes.S i) tokens = firstn i tokens ++ [tok]).
    { clear - E Hlen Hlt. revert E Hlen. generalize (firstn i tokens) as pf.
      intros pf E Hlen. subst tokens.
      replace (Datatypes.S i) with (List.length pf + 1)%nat by lia.
      rewrite firstn_app_2. reflexivity. }
    now rewrite Ef.
Qed.

(** [readToken] takes the reader where [advance] takes the index. *)
Lemma readToken_follows r i :
  follows r i ->
  exists r', ParseFast.readToken r = Ok r' /\ follows r' (Parser.advance tokens i).
Proof using tokens_plain.
  intros (Hi & Hk & Hv & [ (Hkind & Hrest & Hlast) | (Hkind & Hb) ]).
  - destruct r as [s p k v]. cbn [ParseFast.kind ParseFast.val ParseFast.rest] in *.
    subst s. unfold ParseFast.readToken.
    cbn [ParseFast.rest ParseFast.at_pos ParseFast.val List.length Nat.add
         ParseFast.skipWs bind].
    eexists. split; [ reflexivity | ].
    unfold Parser.advance.
    destruct (Nat.ltb_spec i (List.length tokens - 1)); [ lia | ].
    unfold follows. cbn [ParseFast.kind ParseFast.val ParseFast.rest].
    split; [ exact Hi | ]. split; [ congruence | ].
    split; [ intros [ E | [ E | E ] ]; discriminate E | ]. left. auto.
  - destruct r as [s p k v].
    cbn [ParseFast.kind ParseFast.val ParseFast.rest ParseFast.at_pos] in *.
    destruct (readToken_before s p k v (Datatypes.S i) Hb) as (r' & E & Hf).
    exists r'. split; [ exact E | ].
    unfold Parser.advance.
    destruct Hf as (Hlt & _). pose proof Hlt as Hlt'.
    destruct (Nat.ltb_spec i (List.length tokens - 1)); [ | lia ].
    destruct (readToken_before s p k v (Datatypes.S i) Hb) as (r'' & E' & Hf').
    rewrite E in E'. injection E' as <-. exact Hf'.
Qed.

Lemma skipIf_follows k r i :
  follows r i ->
  exists r', ParseFast.skipIf k r = Ok r' /\ follows r' (Parser.skipIf tokens k i).
Proof using tokens_plain.
  intros Hf. unfold ParseFast.skipIf, Parser.skipIf, Parser.at_kind.
  destruct Hf as (Hi & Hk & Hrest). rewrite <- Hk.
  destruct (TokenKind.eqb (ParseFast.kind r) k).
  - apply readToken_follows. unfold follows. auto.
  - exists r. split; [ reflexivity | ]. unfold follows. auto.
Qed.

Lemma at_kind_follows r i k :
  follows r i -> Parser.at_kind tokens i k = TokenKind.eqb (ParseFast.kind r) k.
Proof. intros (_ & Hk & _). unfold Parser.at_kind. now rewrite Hk. Qed.

Lemma isKey_follows r i :
  follows r i -> Parser.isKey tokens i = ParseFast.isKey r.
Proof.
  intros Hf. unfold Parser.isKey, ParseFast.isKey.
  now rewrite !(at_kind_follows r i _ Hf).
Qed.

Let same_value (x : JSValue * nat) (y : JSValue * ParseFast.Reader) : Prop :=
  fst x = fst y /\ follows (snd y) (snd x).

Let same_object (x : JSObject * nat) (y : JSObject * ParseFast.Reader) : Prop :=
  fst x = fst y /\ follows (snd y) (snd x).

Let same_array (x : list KodaValue * nat) (y : list KodaValue * ParseFast.Reader)
  : Prop :=
  fst x = fst y /\ follows (snd y) (snd x).

Lemma parsePair_sim child1 child2 obj i r :
  (forall j q, follows q j -> sim same_value (child1 j) (child2 q)) ->
  follows r i -> ParseFast.isKey r = true ->
  sim same_object (Parser.parsePair tokens child1 (obj, i))
    (ParseFast.parsePair child2 (obj, r)).
Proof using tokens_plain.
  intros Hchild Hf Hkey. unfold Parser.parsePair, ParseFast.parsePair.
  destruct (readToken_follows r i Hf) as (r1 & -> & Hf1). cbn [bind].
  destruct (skipIf_follows TokenKind.Colon r1 _ Hf1) as (r2 & -> & Hf2). cbn [bind].
  assert (Ekey : Parser.asString (Lexer.value (Parser.current tokens i))
                 = Parser.asString (ParseFast.val r)).
  { destruct Hf as (_ & _ & Hv & _). rewrite Hv; [ reflexivity | ].
    unfold ParseFast.isKey in Hkey. apply orb_true_iff in Hkey.
    destruct Hkey as [ E | E ]; apply TokenKind_eqb_eq in E; auto. }
  rewrite Ekey.
  apply (sim_bind same_value _); [ now apply Hchild | ].
  intros [v j] [v' q] [Ev Hq]. cbn [fst snd] in Ev, Hq. subst v'.
  destruct (hasOwnProperty obj _); [ exact I | ]. now split.
Qed.

Lemma parseValue_sim f1 :
  forall f2 d i r,
    follows r i ->
    sim same_value (Parser.parseValue tokens maxDepth f1 d i)
      (ParseFast.parseValue maxDepth f2 d r).
Proof using tokens_plain.
  induction f1 as [ | f1 IH ]; intros f2 d i r Hf; [ exact I | ].
  destruct f2 as [ | f2 ]; [ apply sim_out | ].
  cbn [Parser.parseValue ParseFast.parseValue].
  destruct (maxDepth <? d); [ exact I | ].
  pose proof Hf as (Hi & Hk & Hv & _). rewrite <- Hk.
  destruct (readToken_follows r i Hf) as (r1 & Er1 & Hf1).
  destruct (ParseFast.kind r) eqn:Ek; try exact I.
  - (* parseObject *)
    unfold Parser.expect at 1. rewrite (at_kind_follows r i _ Hf), Ek.
    cbn [TokenKind.eqb negb bind]. rewrite Er1. cbn [bind].
    eapply sim_bind.
    { apply (while_sim same_object).
      - intros [o j] [o' q] [_ Hq]. cbn [snd] in *.
        now rewrite (at_kind_follows q j _ Hq).
      - intros [o j] [o' q] [Eo Hq] _. cbn [fst snd] in *. subst o'.
        rewrite (isKey_follows q j Hq).
        destruct (ParseFast.isKey q) eqn:Ekey; [ | exact I ].
        eapply sim_bind.
        { apply parsePair_sim; [ | exact Hq | exact Ekey ].
          intros j' q' Hq'. now apply IH. }
        intros [o1 j1] [o1' q1] [Eo1 Hq1]. cbn [fst snd] in *. subst o1'.
        destruct (skipIf_follows TokenKind.Comma q1 j1 Hq1) as (q2 & -> & Hq2).
        cbn [bind]. now split.
      - now split. }
    intros [o j] [o' q] [[Eo Hq] Hexit]. cbn [fst snd] in *. subst o'.
    apply negb_false_iff in Hexit.
    unfold Parser.expect. rewrite Hexit. cbn [negb bind].
    destruct (readToken_follows q j Hq) as (q1 & -> & Hq1). cbn [bind]. now split.
  - (* parseArray *)
    unfold Parser.expect at 1. rewrite (at_kind_follows r i _ Hf), Ek.
    cbn [TokenKind.eqb negb bind]. rewrite Er1. cbn [bind].
    eapply sim_bind.
    { apply (while_sim same_array).
      - intros [o j] [o' q] [_ Hq]. cbn [snd] in *.
        now rewrite (at_kind_follows q j _ Hq).
      - intros [o j] [o' q] [Eo Hq] _. cbn [fst snd] in *. subst o'.
        eapply sim_bind; [ now apply IH | ].
        intros [v j1] [v' q1] [Ev Hq1]. cbn [fst snd] in *. subst v'.
        destruct (skipIf_follows TokenKind.Comma q1 j1 Hq1) as (q2 & -> & Hq2).
        cbn [bind]. now split.
      - now split. }
    intros [o j] [o' q] [[Eo Hq] Hexit]. cbn [fst snd] in *. subst o'.
    apply negb_false_iff in Hexit.
    unfold Parser.expect. rewrite Hexit. cbn [negb bind].
    destruct (readToken_follows q j Hq) as (q1 & -> & Hq1). cbn [bind]. now split.
  - rewrite Er1. cbn [bind]. split; [ cbn [fst] | exact Hf1 ].
    rewrite Hv by auto. reflexivity.
  - rewrite Er1. cbn [bind]. split; [ cbn [fst] | exact Hf1 ].
    rewrite Hv by auto. reflexivity.
  - rewrite Er1. cbn [bind]. split; [ cbn [fst] | exact Hf1 ].
    rewrite Hv by auto. reflexivity.
  - rewrite Er1. cbn [bind]. split; [ cbn [fst] | exact Hf1 ].
    rewrite Hv by auto. reflexivity.
  - rewrite Er1. cbn [bind]. now split.
  - rewrite Er1. cbn [bind]. now split.
  - rewrite Er1. cbn [bind]. now split.
Qed.

Lemma parseDocument_sim f1 f2 r :
  follows r 0 ->
  sim same_value (Parser.parseDocument tokens maxDepth f1 0)
    (ParseFast.parseDocument maxDepth f2 r).
Proof using tokens_plain.
  intros Hf. unfold Parser.parseDocument, ParseFast.parseDocument.
  rewrite (isKey_follows r 0 Hf).
  destruct (ParseFast.isKey r) eqn:Ekey; [ | now apply parseValue_sim ].
  destruct (readToken_follows r 0 Hf) as (ahead & -> & Ha). cbn [bind andb].
  assert (Hmore : ((0 + 1 <? List.length tokens)%nat
                   && negb (TokenKind.eqb (Lexer.kind (nth (0 + 1) tokens Parser.eof))
                              TokenKind.Eof))
                  = negb (TokenKind.eqb (ParseFast.kind ahead) TokenKind.Eof)).
  { assert (Hnot : ParseFast.kind r <> TokenKind.Eof).
    { unfold ParseFast.isKey in Ekey. intros E. rewrite E in Ekey. discriminate. }
    destruct Hf as (_ & _ & _ & [ (E & _) | (_ & Hb) ]); [ contradiction | ].
    destruct (readToken_before (ParseFast.rest r) (ParseFast.at_pos r)
                (ParseFast.kind r) (ParseFast.val r) 1 Hb) as (r' & _ & Hlt & _).
    unfold Parser.advance in Ha.
    destruct (Nat.ltb_spec 0 (List.length tokens - 1)); [ | lia ].
    destruct Ha as (Hlt1 & Hk1 & _). rewrite Hk1.
    rewrite (current_nth 1 Hlt1 Parser.eof). cbn [Nat.add].
    destruct (Nat.ltb_spec 1 (List.length tokens)); [ reflexivity | lia ]. }
  rewrite Hmore.
  destruct (negb (TokenKind.eqb (ParseFast.kind ahead) TokenKind.Eof));
    [ | now apply parseValue_sim ].
  unfold Parser.parseRootObject, ParseFast.parseRootObject.
  eapply sim_bind.
  { apply (while_sim same_object).
    - intros [o j] [o' q] [_ Hq]. cbn [snd] in *. now apply isKey_follows.
    - intros [o j] [o' q] [Eo Hq] Hc. cbn [fst snd] in *. subst o'.
      apply parsePair_sim; [ | exact Hq | now rewrite <- (isKey_follows q j Hq) ].
      intros j' q' Hq'. now apply parseValue_sim.
    - now split. }
  intros [o j] [o' q] [[Eo Hq] _]. cbn [fst snd] in *. subst o'. now split.
Qed.

(** On such a text the two parsers agree. *)
Lemma parse_sim options :
  Lexer.tokenize text {| Lexer.maxInputLength := Parser.maxInputLength options |}
    = Ok tokens ->
  maxDepth = Parser.depthLimit options ->
  sim eq (Parser.parse text options) (ParseFast.parseFast text options).
Proof using tokens_plain.
  intros Htok Hd. unfold Parser.parse, ParseFast.parseFast. rewrite Htok. cbn [bind].
  unfold Lexer.tokenize in Htok. cbn [Lexer.maxInputLength] in Htok. cbv zeta.
  change ParseFast.DEFAULT_MAX_INPUT_LENGTH with Lexer.DEFAULT_MAX_INPUT_LENGTH.
  destruct (_ <? len text); [ discriminate | ].
  change (match Parser.maxDepth options with
          | Some d => d
          | None => ParseFast.DEFAULT_MAX_DEPTH
          end) with (Parser.depthLimit options).
  rewrite <- Hd.
  (* the reader starts at the first token *)
  assert (Hstart : exists r0, ParseFast.newReader text = Ok r0 /\ follows r0 0).
  { unfold ParseFast.newReader.
    replace (List.length text + 1)%nat with (Datatypes.S (List.length text)) in * by lia.
    cbn [Lexer.tokenizeLoop] in Htok.
    destruct (Lexer.skipWhitespaceAndComments (List.length text + 1) text (pos 1 1 0))
      as [ [s1 p1] | | ] eqn:Es; cbn [bind] in Htok; try discriminate.
    replace (Datatypes.S (List.length text)) with (List.length text + 1)%nat by lia.
    rewrite (proj1 (skipWs_agree _ _ _ _) Es). cbn [bind].
    apply readToken_before. exists (Datatypes.S (List.length text)).
    split; [ exact (skipWhitespaceAndComments_advances _ _ _ _ _ Es) | ].
    cbn [firstn Lexer.tokenizeLoop].
    replace (List.length s1 + 1)%nat with (Datatypes.S (List.length s1)) by lia.
    rewrite (skip_idempotent _ _ _ _ _ (List.length s1) Es). cbn [bind]. exact Htok. }
  destruct Hstart as (r0 & -> & Hf0). cbn [bind].
  eapply sim_bind; [ now apply parseDocument_sim | ].
  intros [v j] [v' q] [Ev Hq]. cbn [fst snd] in *. subst v'.
  unfold Parser.expect, ParseFast.expectEof.
  rewrite (at_kind_follows q j _ Hq).
  destruct (negb (TokenKind.eqb (ParseFast.kind q) TokenKind.Eof)); cbn [bind];
    [ exact I | reflexivity ].
Qed.

Lemma parse_agrees options :
  Lexer.tokenize text {| Lexer.maxInputLength := Parser.maxInputLength options |}
    = Ok tokens ->
  maxDepth = Parser.depthLimit options ->
  (forall v, Parser.parse text options = Ok v <-> ParseFast.parseFast text options = Ok v)
  /\ ((exists e, Parser.parse text options = Throw e)
      <-> (exists e, ParseFast.parseFast text options = Throw e)).
Proof using tokens_plain.
  intros Htok Hd. pose proof (parse_sim options Htok Hd) as H.
  pose proof (parse_total text options) as T1.
  pose proof (parseFast_total text options) as T2.
  destruct (Parser.parse text options) as [ v1 | e1 | ],
    (ParseFast.parseFast text options) as [ v2 | e2 | ];
    cbn in H; try contradiction; try congruence.
  - subst v2. split; [ tauto | ].
    split; intros [e E]; discriminate E.
  - split; [ intros v; split; discriminate | ]. split; eauto.
Qed.

End Simulation.

(** ** The two parsers on the text of a value *)

Lemma number_free_plain text tokens :
  number_free tokens -> plain_numbers text tokens.
Proof.
  apply Forall_impl. intros t Hf Hn. rewrite Hf in Hn. discriminate Hn.
Qed.

(** X19 (stringify.ts [stringify] with lexer.ts [tokenize] and parser.ts
    [parse], [parseFast]): the text form carries values made of [null],
    booleans, safe integers and strings.  Let every number of a value be a
    safe integer (and not the negative zero); let each of its strings and keys
    be either one that is written bare and starts with a letter or an
    underscore, or one without any word character and without control
    characters other than tab, line feed, form feed and carriage return; and
    let the keys of each object be distinct and other than [__proto__].  Then
    the text that [stringify] writes for it, without indent or with an indent
    and a newline made of white space, when it is within the limits of the
    parser, is read back by [parse] and by [parseFast] as the value itself,
    with its keys in their order. *)
Theorem stringify_parse_roundtrip :
  forall v sopts popts,
    carried v ->
    (forall i, Stringify.indent sopts = Some i -> blank i) ->
    (forall n, Stringify.newline sopts = Some n -> blank n) ->
    depth v <= Parser.depthLimit popts ->
    len (Stringify.stringify v sopts) <= inputLimit popts ->
    Parser.parse (Stringify.stringify v sopts) popts = Ok v
    /\ ParseFast.parseFast (Stringify.stringify v sopts) popts = Ok v.
Proof.
  intros v sopts popts Hc Hi Hn Hdepth Hlen.
  rewrite (stringify_carried v sopts Hc) in *.
  assert (Hindent : blank match Stringify.indent sopts with Some i => i | None => [] end)
    by (destruct (Stringify.indent sopts); [ now apply Hi | reflexivity ]).
  assert (Hnewline :
            blank match Stringify.newline sopts with Some n => n | None => [10] end)
    by (destruct (Stringify.newline sopts); [ now apply Hn | reflexivity ]).
  destruct (tokenize_value _ _ Hindent Hnewline v 0 popts Hc Hlen)
    as (tokens & Htok & Het & Hplain).
  pose proof (parse_of_tokens _ popts tokens v Htok Het (carried_shaped v Hc) Hdepth)
    as Hparse.
  split; [ exact Hparse | ].
  apply (parse_agrees _ tokens (Parser.depthLimit popts) Hplain popts Htok eq_refl).
  exact Hparse.
Qed.

Lemma stringify_parse_roundtrip_witness :
  let v :=
    VObject [ (lit "name", VString (lit "koda-format"));
              (lit "?", VArray [VNull; VBool true; VString (lit "+ -"); VArray []]);
              ([], VObject [ (lit "_x-1", VBool false) ]);
              (lit "n", VArray [ VNumber (ofZ 0); VNumber (ofZ (-1250));
                                 VNumber (ofZ 9007199254740991) ]) ] in
  let pretty := {| Stringify.indent := Some (lit "  "); Stringify.newline := None |} in
  Stringify.stringify v Stringify.defaults
  = lit "{ name: koda-format " ++ [34] ++ lit "?" ++ [34]
      ++ lit ": [ null true " ++ [34] ++ lit "+ -" ++ [34] ++ lit " [] ] "
      ++ [34; 34] ++ lit ": { _x-1: false } n: [ 0 -1250 9007199254740991 ] }"
  /\ (Parser.parse (Stringify.stringify v Stringify.defaults) Parser.defaults = Ok v
      /\ ParseFast.parseFast (Stringify.stringify v Stringify.defaults) Parser.defaults
         = Ok v)
  /\ Stringify.stringify v pretty
     = lit "{" ++ [10] ++ lit "  name: koda-format" ++ [10] ++ lit "  "
         ++ [34] ++ lit "?" ++ [34] ++ lit ": [" ++ [10] ++ lit "    null"
         ++ [10] ++ lit "    true" ++ [10] ++ lit "    " ++ [34] ++ lit "+ -" ++ [34]
         ++ [10] ++ lit "    [] ]" ++ [10] ++ lit "  " ++ [34; 34] ++ lit ": {" ++ [10]
         ++ lit "    _x-1: false }" ++ [10] ++ lit "  n: [" ++ [10] ++ lit "    0"
         ++ [10] ++ lit "    -1250" ++ [10] ++ lit "    9007199254740991 ] }"
  /\ (Parser.parse (Stringify.stringify v pretty) Parser.defaults = Ok v
      /\ ParseFast.parseFast (Stringify.stringify v pretty) Parser.defaults = Ok v).
Proof.
  intros v pretty.
  assert (Hc : carried v).
  { assert (Hbare : forall s, Stringify.needsQuote s = false ->
                    isAlpha_ (hd 0 s) = true -> carried_text s)
      by (intros s H1 H2; left; split; assumption).
    assert (Hwordless : forall s,
               forallb (fun c => writable c && negb (isWord c)) s = true ->
               carried_text s).
    { intros s H. right. unfold wordless. rewrite forallb_forall in H.
      apply Forall_forall. intros c Hc. specialize (H c Hc).
      apply andb_true_iff in H as [H1 H2]. apply negb_true_iff in H2. auto. }
    apply carried_object.
    + repeat constructor; cbn; intuition discriminate.
    + repeat first
        [ apply Forall_nil
        | apply Forall_cons
        | apply carried_null | apply carried_bool
        | apply carried_integer; unfold MIN_SAFE_INTEGER, MAX_SAFE_INTEGER; lia
        | apply carried_array
        | apply carried_object
        | apply carried_string
        | split
        | apply NoDup_nil | apply NoDup_cons; [ cbn; tauto | ]
        | apply Hbare; reflexivity
        | apply Hwordless; reflexivity
        | discriminate ]. }
  split; [ vm_compute; reflexivity | ]. split.
  - apply (stringify_parse_roundtrip v Stringify.defaults Parser.defaults Hc).
    + intros i E. discriminate E.
    + intros n E. discriminate E.
    + vm_compute. discriminate.
    + vm_compute. discriminate.
  - split; [ vm_compute; reflexivity | ].
    apply (stringify_parse_roundtrip v pretty Parser.defaults Hc).
    + intros i [= <-]. reflexivity.
    + intros n E. discriminate E.
    + vm_compute. discriminate.
    + vm_compute. discriminate.
Defined.

Lemma withBackspaces_needsQuote s :
  Stringify.needsQuote (withBackspaces s) = true.
Proof.
  unfold withBackspaces. destruct s as [ | c s ]; [ reflexivity | ].
  cbn [Stringify.replaceWordBoundary xorb].
  destruct (isWord c) eqn:Ec; cbn [app]; [ reflexivity | ].
  unfold Stringify.needsQuote. rewrite Ec. cbn [negb andb].
  destruct (Z.eqb_spec c 95) as [-> | _ ]; [ discriminate Ec | reflexivity ].
Qed.

(** X20 (stringify.ts [escapeDouble], whose pattern [\b] is the word
    boundary of regular expressions; lexer.ts [readQuotedString]; parser.ts):
    a string that is written in quotes comes back with a backspace wherever a
    word character meets a character that is none or an end of the string.
    For a string that [needsQuote] sends to the quotes and that holds no
    control character other than tab, line feed, form feed and carriage
    return, [stringify] writes the quoted text of [escapeDouble]; [parse] and
    [parseFast] read it back as the string with those backspaces, which is the
    string itself exactly when it holds no word character. *)
Theorem quoted_string_reads_back_with_backspaces :
  forall s sopts popts,
    Stringify.needsQuote s = true ->
    Forall (fun c => writable c = true) s ->
    0 <= Parser.depthLimit popts ->
    len (Stringify.stringify (VString s) sopts) <= inputLimit popts ->
    Stringify.stringify (VString s) sopts = [34] ++ Stringify.escapeDouble s ++ [34]
    /\ Parser.parse (Stringify.stringify (VString s) sopts) popts
       = Ok (VString (withBackspaces s))
    /\ ParseFast.parseFast (Stringify.stringify (VString s) sopts) popts
       = Ok (VString (withBackspaces s))
    /\ (withBackspaces s = s <-> Forall (fun c => isWord c = false) s).
Proof.
  intros s sopts popts Hq Hs Hdepth Hlen.
  assert (E : Stringify.stringify (VString s) sopts
              = [34] ++ Stringify.escapeDouble s ++ [34]).
  { unfold Stringify.stringify. cbn [Stringify.stringifyValue].
    unfold Stringify.quoteValueString. rewrite Hq.
    apply (trim_untouched _ 34 (Stringify.escapeDouble s ++ [34]));
      [ reflexivity | reflexivity | ].
    change ([34] ++ Stringify.escapeDouble s ++ [34])
      with (([34] ++ Stringify.escapeDouble s) ++ [34]).
    now rewrite last_last. }
  rewrite E in *. split; [ reflexivity | ].
  assert (Htok : exists tokens,
             Lexer.tokenize ([34] ++ Stringify.escapeDouble s ++ [34])
               {| Lexer.maxInputLength := Parser.maxInputLength popts |} = Ok tokens
             /\ map erase tokens
                = [(TokenKind.String, Lexer.Str (withBackspaces s));
                   (TokenKind.Eof, Lexer.NoValue)]).
  { unfold inputLimit in Hlen. unfold Lexer.tokenize. cbn [Lexer.maxInputLength].
    match goal with |- context [if ?a <? ?b then _ else _] =>
      destruct (Z.ltb_spec a b); [ lia | ] end.
    destruct (lexes_quoted s Hs [] (pos 1 1 0)
                (List.length ([34%Z] ++ Stringify.escapeDouble s ++ [34%Z]) + 1)%nat
                eq_refl)
      as (toks & fuel' & Et & L & _ & R).
    { rewrite app_nil_r. lia. }
    specialize (R []). rewrite app_nil_r in R. rewrite R.
    destruct fuel' as [ | fuel' ]; [ cbn in L; lia | ].
    rewrite tokenizeLoop_end. eexists. split; [ reflexivity | ].
    cbn [app]. now rewrite map_app, Et. }
  destruct Htok as (tokens & Htok & Het).
  assert (Hparse : Parser.parse ([34] ++ Stringify.escapeDouble s ++ [34]) popts
                   = Ok (VString (withBackspaces s))).
  { apply (parse_of_tokens _ popts tokens (VString (withBackspaces s)) Htok).
    - cbn [tokensOf app]. unfold stringToken. now rewrite withBackspaces_needsQuote.
    - constructor. exact I.
    - exact Hdepth. }
  split; [ exact Hparse | ]. split.
  - assert (Hfree : number_free tokens).
    { unfold number_free. rewrite <- (Forall_map (fun t => Lexer.kind t)
                                        (fun k => numeric k = false)).
      replace (map (fun t => Lexer.kind t) tokens) with (map fst (map erase tokens))
        by (rewrite map_map; reflexivity).
      rewrite Het. repeat constructor. }
    apply (parse_agrees _ tokens (Parser.depthLimit popts)
             (number_free_plain _ tokens Hfree) popts Htok eq_refl).
    exact Hparse.
  - split; [ | apply withBackspaces_wordless ].
    intros Eb. apply Forall_forall. intros c Hc.
    destruct (isWord c) eqn:Ec; [ exfalso | reflexivity ].
    apply (withBackspaces_longer s); [ | exact Eb ].
    apply Exists_exists. eauto.
Qed.

Lemma quoted_string_reads_back_with_backspaces_witness :
  let s := lit "hello world" in
  Stringify.stringify (VString s) Stringify.defaults
  = [34] ++ lit "\bhello\b \bworld\b" ++ [34]
  /\ Parser.parse (Stringify.stringify (VString s) Stringify.defaults) Parser.defaults
     = Ok (VString ([8] ++ lit "hello" ++ [8; 32; 8] ++ lit "world" ++ [8]))
  /\ ParseFast.parseFast (Stringify.stringify (VString s) Stringify.defaults)
       Parser.defaults
     = Ok (VString ([8] ++ lit "hello" ++ [8; 32; 8] ++ lit "world" ++ [8])).
Proof.
  intros s.
  destruct (quoted_string_reads_back_with_backspaces s Stringify.defaults
              Parser.defaults)
    as (H1 & H2 & H3 & _).
  - reflexivity.
  - repeat constructor.
  - vm_compute. discriminate.
  - vm_compute. discriminate.
  - split; [ exact H1 | ]. split; [ exact H2 | exact H3 ].
Defined.

(** X21 (parser.ts, [parse] with its [Parser] and [parseFast] with its
    [Reader]; lexer.ts [tokenize]): where the two parsers agree.  Let the
    lexer accept a text, and let every number literal of the text that starts
    with a minus sign have a digit from 1 to 9 after it (as seen at the start
    of each number token).  Then [parse] and [parseFast] agree on the text:
    each returns a value exactly when the other returns that value, and each
    throws exactly when the other throws. *)
Theorem parsers_agree :
  forall text options tokens,
    Lexer.tokenize text {| Lexer.maxInputLength := Parser.maxInputLength options |}
      = Ok tokens ->
    plain_numbers text tokens ->
    (forall v,
        Parser.parse text options = Ok v <-> ParseFast.parseFast text options = Ok v)
    /\ ((exists e, Parser.parse text options = Throw e)
        <-> (exists e, ParseFast.parseFast text options = Throw e)).
Proof.
  intros text options tokens Htok Hplain.
  exact (parse_agrees text tokens (Parser.depthLimit options) Hplain options Htok
           eq_refl).
Qed.

Lemma parsers_agree_witness :
  let text := lit "a: [1, -2.5e3 /* z */ 'y' 0.5] b: {c: -12} d: 0" in
  let value :=
    VObject [ (lit "a", VArray [ VNumber (ofZ 1); VNumber (parseFloat (lit "-2.5e3"));
                                 VString (lit "y"); VNumber (parseFloat (lit "0.5")) ]);
              (lit "b", VObject [ (lit "c", VNumber (ofZ (-12))) ]);
              (lit "d", VNumber (ofZ 0)) ] in
  exists tokens,
    Lexer.tokenize text {| Lexer.maxInputLength := None |} = Ok tokens
    /\ plain_numbers text tokens
    /\ Parser.parse text Parser.defaults = Ok value
    /\ ParseFast.parseFast text Parser.defaults = Ok value.
Proof.
  intros text value.
  destruct (Lexer.tokenize text {| Lexer.maxInputLength := None |})
    as [ tokens | | ] eqn:Etok; try (vm_compute in Etok; discriminate Etok).
  assert (Hplain : plain_numbers text tokens).
  { vm_compute in Etok. injection Etok as <-.
    repeat first [ apply Forall_nil | apply Forall_cons ];
      cbn [Lexer.kind numeric]; intros H; try discriminate H;
      vm_compute; first [ exact I | split; discriminate ]. }
  destruct (parsers_agree text Parser.defaults tokens Etok Hplain) as [Hvalue _].
  assert (Hparse : Parser.parse text Parser.defaults = Ok value)
    by (vm_compute; reflexivity).
  exists tokens. split; [ reflexivity | ]. split; [ exact Hplain | ].
  split; [ exact Hparse | ]. apply Hvalue. exact Hparse.
Defined.

(** X22 (stringify.ts [writeNumber] and [stringify]): a safe integer is
    written as its decimal literal.  For an integer between
    [Number.MIN_SAFE_INTEGER] and [Number.MAX_SAFE_INTEGER], the text of
    [stringify] is a minus sign if the integer is negative, followed by
    decimal digits whose value is the absolute value of the integer, with no
    leading zero unless the integer is zero, which is written as the single
    digit 0: there is no fraction, no exponent and no white space. *)
Theorem stringify_writes_integer_in_decimal :
  forall z options,
    MIN_SAFE_INTEGER <= z <= MAX_SAFE_INTEGER ->
    exists ds,
      Stringify.stringify (VNumber (ofZ z)) options
      = (if z <? 0 then [45] else []) ++ ds
      /\ Forall (fun c => isDigit c = true) ds
      /\ digits_value ds = Z.abs z
      /\ (z = 0 -> ds = [48])
      /\ (z <> 0 -> exists d r, ds = d :: r /\ 49 <= d <= 57).
Proof.
  intros z options Hz.
  rewrite (stringify_carried (VNumber (ofZ z)) options (carried_integer z Hz)).
  cbn [Stringify.stringifyValue].
  destruct (writeNumber_integer z Hz) as (ds & E & Hv & Hall & Hcase).
  exists ds. split; [ exact E | ].
  split; [ now apply Forall_forall, forallb_forall | ]. split; [ exact Hv | ].
  destruct Hcase as [ [-> ->] | [Hnz Hd] ]; split; intros H; congruence || auto.
Qed.

Lemma stringify_writes_integer_in_decimal_witness :
  MIN_SAFE_INTEGER <= -9007199254740991 <= MAX_SAFE_INTEGER
  /\ Stringify.stringify (VNumber (ofZ (-9007199254740991))) Stringify.defaults
     = lit "-9007199254740991"
  /\ exists ds,
       Stringify.stringify (VNumber (ofZ (-9007199254740991))) Stringify.defaults
       = [45] ++ ds
       /\ Forall (fun c => isDigit c = true) ds
       /\ digits_value ds = 9007199254740991.
Proof.
  assert (Hz : MIN_SAFE_INTEGER <= -9007199254740991 <= MAX_SAFE_INTEGER)
    by (unfold MIN_SAFE_INTEGER, MAX_SAFE_INTEGER; lia).
  split; [ exact Hz | ]. split; [ vm_compute; reflexivity | ].
  destruct (stringify_writes_integer_in_decimal (-9007199254740991)
              Stringify.defaults Hz) as (ds & E & Hall & Hv & _).
  exists ds. split; [ exact E | ]. split; [ exact Hall | exact Hv ].
Defined.

(** ** Type guards and printed errors *)

(** X16 (ast.ts, [isKodaObject], [isKodaArray], [isKodaString],
    [isKodaNumber], [isKodaBoolean], [isKodaNull]): the six type guards
    partition the values.  Each one answers true exactly on the values of its
    kind (an array is not an object for [isKodaObject], nor is [null]), and on
    every value exactly one of them answers true. *)
Theorem type_guards_partition :
  forall v,
    (Guards.isKodaObject v = true <-> exists props, v = VObject props)
    /\ (Guards.isKodaArray v = true <-> exists items, v = VArray items)
    /\ (Guards.isKodaString v = true <-> exists s, v = VString s)
    /\ (Guards.isKodaNumber v = true <-> exists n, v = VNumber n)
    /\ (Guards.isKodaBoolean v = true <-> exists b, v = VBool b)
    /\ (Guards.isKodaNull v = true <-> v = VNull)
    /\ List.length
         (filter (fun guard => guard v)
            [Guards.isKodaObject; Guards.isKodaArray; Guards.isKodaString;
             Guards.isKodaNumber; Guards.isKodaBoolean; Guards.isKodaNull])
       = 1%nat.
Proof.
  intros [ | b | n | s | items | props ]; cbn;
    repeat split; try discriminate; try reflexivity; eauto;
    try (intros [x Hx]; discriminate Hx).
Qed.

(** X17 (errors.ts, [KodaError.location] and [toString], with the [throw]
    statements of the codecs): an error of the codecs prints with its
    location.  A failure of [parse] or [parseFast] prints as its message
    followed by a line and a column, both at least 1; a [KodaDecodeError] of
    [decode] prints as its message followed by a byte offset inside the
    buffer. *)
Theorem thrown_errors_print_their_location :
  (forall text options e,
      Parser.parse text options = Throw e
      \/ ParseFast.parseFast text options = Throw e ->
      exists err p,
        KodaError.of_exn e = Some err
        /\ KodaError.toString err
           = KodaError.message err
               ++ [T " ("; T "line "; N (line p); T ", column "; N (column p); T ")"]
        /\ 1 <= line p /\ 1 <= column p)
  /\ (forall buffer options e,
         Forall byte buffer ->
         Decoder.decode buffer options = Throw e ->
         e = TypeError
         \/ exists err off,
              KodaError.of_exn e = Some err
              /\ KodaError.toString err
                 = KodaError.message err ++ [T " ("; T "byte offset "; N off; T ")"]
              /\ 0 <= off <= len buffer).
Proof.
  split.
  - intros text options e H.
    assert (Hloc : exists m q, e = KodaParseError m q /\ inside (len text) q).
    { destruct H as [ H | H ].
      - pose proof (parse_fine text options) as Ht. rewrite H in Ht. exact Ht.
      - pose proof (parseFast_fine text options) as Ht. rewrite H in Ht. exact Ht. }
    destruct Hloc as (m & q & -> & _ & Hl & Hc).
    eexists. exists q. split; [ reflexivity | ]. split; [ reflexivity | ].
    split; assumption.
  - intros buffer options e Hb H.
    destruct (decode_failure_within buffer Hb options e H)
      as [ -> | (m & off & -> & Hoff) ]; [ now left | right ].
    eexists. exists off. split; [ reflexivity | ]. split; [ reflexivity | exact Hoff ].
Qed.

Lemma thrown_errors_print_their_location_witness :
  (exists err,
      Parser.parse (lit "[1, ") Parser.defaults
        = Throw (KodaParseError [T "Unexpected token: "; T "Eof"] (pos 1 5 4))
      /\ KodaError.of_exn (KodaParseError [T "Unexpected token: "; T "Eof"] (pos 1 5 4))
         = Some err
      /\ KodaError.toString err
         = [T "Unexpected token: "; T "Eof"; T " ("; T "line "; N 1;
            T ", column "; N 5; T ")"])
  /\ (exists err,
         Decoder.decode [75; 79; 68; 65; 1; 0; 0; 0; 0; 9] Decoder.defaults
           = Throw (KodaDecodeError [T "Unknown type tag: 0x"; N 9] 10)
         /\ KodaError.of_exn (KodaDecodeError [T "Unknown type tag: 0x"; N 9] 10)
            = Some err
         /\ KodaError.toString err
            = [T "Unknown type tag: 0x"; N 9; T " ("; T "byte offset "; N 10; T ")"]).
Proof.
  destruct thrown_errors_print_their_location as [Hparse Hdecode].
  split.
  - assert (H : Parser.parse (lit "[1, ") Parser.defaults
                = Throw (KodaParseError [T "Unexpected token: "; T "Eof"] (pos 1 5 4)))
      by (vm_compute; reflexivity).
    destruct (Hparse _ _ _ (or_introl H)) as (err & p & Herr & Hs & _).
    exists err. split; [ exact H | ]. split; [ exact Herr | ].
    injection Herr as <-. reflexivity.
  - assert (Hb : Forall byte [75; 79; 68; 65; 1; 0; 0; 0; 0; 9])
      by (repeat constructor; unfold byte; lia).
    assert (H : Decoder.decode [75; 79; 68; 65; 1; 0; 0; 0; 0; 9] Decoder.defaults
                = Throw (KodaDecodeError [T "Unknown type tag: 0x"; N 9] 10))
      by (vm_compute; reflexivity).
    destruct (Hdecode _ _ _ Hb H) as [ E | (err & off & Herr & Hs & _) ];
      [ discriminate E | ].
    exists err. split; [ exact H | ]. split; [ exact Herr | ].
    injection Herr as <-. reflexivity.
Defined.

(** ** Termination *)

(** X18 (lexer.ts, the loops of [tokenize]; parser.ts, the loops of both
    parsers; decoder.ts, the loops of [decode]): every entry point ends with
    a value or an exception.  Each turn of a loop of the lexer and of the
    parsers uses up some input, and the decoder recurses no deeper than its
    depth limit, so the fuel on which the loops are modelled never runs
    out. *)
Theorem entry_points_terminate :
  (forall input options, Lexer.tokenize input options <> OutOfFuel)
  /\ (forall text options, Parser.parse text options <> OutOfFuel)
  /\ (forall text options, ParseFast.parseFast text options <> OutOfFuel)
  /\ (forall buffer options, Decoder.decode buffer options <> OutOfFuel).
Proof.
  split; [ | split; [ | split ] ].
  - intros input options. apply tokenize_terminated.
  - apply parse_total.
  - apply parseFast_total.
  - apply decode_total.
Qed.
